(** * CTracker: the audio engine of [CTracker.c], embedded and verified

    The development follows the C source function by function:
    - the linear-interpolation resampler [pitch_shift_sample];
    - the sample voice [play_sample_thread];
    - the row clock of [play_song];
    - the song editing operations [change_bpm], [set_loop], [load_song];
    - the offline renderer and WAV writer [save_song_to_wav].

    Conventions.
    - A C [int] is a [Z]; where a product or an increment can leave the
      32-bit range the two's-complement wrap [wrap_int] is written out.
      [Uint32] values wrap with [wrap_u32], [Sint16] values with [wrap_s16].
      C division and remainder truncate toward zero ([Z.quot], [Z.rem]).
    - A [Sint16] buffer is a [list Z].  The reads of the resampler,
      the reads and the stores of a song's cells, and the loop that
      mixes a row into the main buffer go through stdpp's lookup, so
      that an access outside the array is visible: the function
      returns [None], which stands for undefined behaviour.  The same
      holds for a [double] converted to an [int] that it does not fit.
      The panning loops write with stdpp's insert into a row buffer
      that was allocated for the frames they write.
    - [double] arithmetic is an interface ([DoubleArith]) with two
      instances: IEEE-754 binary64 (Rocq's primitive floats), in which
      the theorems about the resampler are stated, and exact rational
      arithmetic, kept for comparison.  Every function is written
      once, against the interface.  The [float] arithmetic of the
      panning code is IEEE-754 binary32, computed with the parametric
      operations of [SpecFloat].
    - What the operating system, SDL and SDL_mixer decide (whether an
      allocation succeeds, what a WAV asset decodes to) is an explicit
      [Platform]; [sin] and [pow] are an explicit [Libm].
    - Output to the terminal is left out, except the one line a sample
      voice prints when its asset does not load. *)

From Stdlib Require Import ZArith List Floats QArith Qround Qpower Qabs Lia Lqa String Ascii Bool.
From Stdlib.Strings Require Import Byte.
From stdpp Require Import base list list_numbers.
Import ListNotations.
Local Open Scope Z_scope.
Set Warnings "-inexact-float".

(** ** C integer types *)

Definition INT_MAX : Z := 2147483647.
Definition INT_MIN : Z := -2147483648.

Definition wrap_int (z : Z) : Z := (z + 2 ^ 31) mod 2 ^ 32 - 2 ^ 31.
Definition wrap_u32 (z : Z) : Z := z mod 2 ^ 32.
Definition wrap_s16 (z : Z) : Z := (z + 2 ^ 15) mod 2 ^ 16 - 2 ^ 15.

Definition is_int (z : Z) : Prop := INT_MIN <= z <= INT_MAX.
Definition is_s16 (z : Z) : Prop := -32768 <= z <= 32767.

(** [#define] constants of the source. *)
Definition SAMPLE_RATE : Z := 44100.
Definition MAX_ROWS : Z := 16.
Definition MAX_CHANNELS : Z := 8.

(** ** IEEE-754 values as integers *)

(** The integer part of a floating-point value, as the C casts
    [(int)x], [(Uint32)x], [(Sint16)x] compute it before the result is
    stored: truncation toward zero.  Infinities and NaN have no integer
    part (the cast is undefined in C); they are sent to 0. *)
Definition SFtrunc (x : spec_float) : Z :=
  match x with
  | S754_finite s m e =>
      let magnitude :=
        match e with
        | Zneg p => Z.shiftr (Zpos m) (Zpos p)
        | _ => Z.shiftl (Zpos m) e
        end in
      if s then - magnitude else magnitude
  | _ => 0
  end.

(** ** [float]: IEEE-754 binary32 *)

Module F32.
Definition prec : Z := 24.
Definition emax : Z := 128.

Definition of_int (z : Z) : spec_float := binary_normalize prec emax z 0 false.
Definition mul : spec_float -> spec_float -> spec_float := SFmul prec emax.
Definition sub : spec_float -> spec_float -> spec_float := SFsub prec emax.
Definition div : spec_float -> spec_float -> spec_float := SFdiv prec emax.

(** The literals [0.7f], [0.3f] and [1.0f]: bit patterns 0x3F333333,
    0x3E99999A and 0x3F800000. *)
Definition lit_0_7 : spec_float := S754_finite false 11744051 (-24).
Definition lit_0_3 : spec_float := S754_finite false 10066330 (-25).
Definition lit_1_0 : spec_float := S754_finite false 8388608 (-23).
End F32.

(** ** [double]: the arithmetic interface *)

Class DoubleArith (D : Type) : Type := {
  d_of_int : Z -> D;            (* conversion of an integer operand *)
  d_to_int : D -> Z;            (* integer part, truncated toward zero *)
  d_add : D -> D -> D;
  d_sub : D -> D -> D;
  d_mul : D -> D -> D;
  d_div : D -> D -> D;
  d_fabs : D -> D;
  d_lt : D -> D -> bool;
  (* the non-integer literals of the source *)
  d_0_001 : D;
  d_0_5 : D;
  d_0_3 : D;
  d_M_PI : D
}.

(** The integer-valued literals [1.0], [2.0], [12.0], [440.0], ... *)
Definition d_lit {D} {DA : DoubleArith D} (z : Z) : D := d_of_int z.

(** [(int)x]: the integer part of [x] when it fits an [int], that is
    when -2^31 - 1 < x < 2^31.  For every other value (too large, an
    infinity, a NaN) the conversion is undefined in C: [None]. *)
Definition int_of_double {D} {DA : DoubleArith D} (x : D) : option Z :=
  if d_lt (d_lit (INT_MIN - 1)) x && d_lt x (d_lit (INT_MAX + 1))
  then Some (d_to_int x)
  else None.

(** *** binary64 *)

Definition b64_of_int (z : Z) : float :=
  SF2Prim (binary_normalize FloatOps.prec FloatOps.emax z 0 false).

Definition b64_to_int (x : float) : Z := SFtrunc (Prim2SF x).

#[export] Instance binary64 : DoubleArith float := {|
  d_of_int := b64_of_int;
  d_to_int := b64_to_int;
  d_add := PrimFloat.add;
  d_sub := PrimFloat.sub;
  d_mul := PrimFloat.mul;
  d_div := PrimFloat.div;
  d_fabs := PrimFloat.abs;
  d_lt := PrimFloat.ltb;
  d_0_001 := 0x1.0624dd2f1a9fcp-10%float;
  d_0_5 := 0.5%float;
  d_0_3 := 0x1.3333333333333p-2%float;
  d_M_PI := 0x1.921fb54442d18p+1%float
|}.

(** *** exact rationals *)

Definition Qtrunc (q : Q) : Z := Z.quot (Qnum q) (Zpos (Qden q)).

Definition Qfabs (q : Q) : Q := Qmake (Z.abs (Qnum q)) (Qden q).

Definition Qltb (x y : Q) : bool :=
  (Qnum x * Zpos (Qden y) <? Qnum y * Zpos (Qden x)).

#[export] Instance exact_arith : DoubleArith Q := {|
  d_of_int := inject_Z;
  d_to_int := Qtrunc;
  d_add := Qplus;
  d_sub := Qminus;
  d_mul := Qmult;
  d_div := Qdiv;
  d_fabs := Qfabs;
  d_lt := Qltb;
  d_0_001 := Qmake 1 1000;
  d_0_5 := Qmake 1 2;
  d_0_3 := Qmake 3 10;
  (* M_PI is the decimal literal 3.14159265358979323846 *)
  d_M_PI := Qmake 314159265358979323846 100000000000000000000
|}.

(** ** The platform *)

(** What the C library, SDL and SDL_mixer answer.  [Mix_LoadWAV] gives
    the decoded chunk as the source reads it: [sound->abuf] viewed as
    [Sint16], [sound->alen / sizeof(Sint16)] entries. *)
Class Platform : Type := {
  malloc_ok : Z -> bool;                     (* malloc/calloc of that many bytes *)
  Mix_LoadWAV : string -> option (list Z);
  Mix_QuickLoad_RAW_ok : list Z -> bool;
  SDL_Init_ok : bool;
  Mix_OpenAudio_ok : bool;
  fopen_ok : string -> bool
}.

(** [sin] and [pow] of the C mathematical library. *)
Class Libm (D : Type) : Type := {
  libm_sin : D -> D;
  libm_pow : D -> D -> D
}.

(** ** Results of C functions returning a buffer *)

Inductive c_buffer : Type :=
  | Returned (buf : list Z)     (* a non-NULL buffer with these contents *)
  | ReturnedNull                (* NULL: the allocation failed *)
  | OutOfBounds.                (* the function read outside its source *)

(** [pitch_shift_sample] returns a buffer and writes its length through
    the pointer [new_len]; [None] when nothing is written there. *)
Record shift_result : Type := mkShift {
  shifted : c_buffer;
  new_len : option Z
}.

(** ** Observable actions and control states *)

Inductive sound_event : Type :=
  | Printed (text : string)     (* printf; what Mix_GetError adds is left out *)
  | ChannelPlayed (channel : Z) (chunk : list Z)  (* Mix_PlayChannel *)
  | Delayed (ms : Z).                             (* SDL_Delay *)

(** The [while] loop of [play_song]: still running, with its two
    counters, or left. *)
Inductive playback : Type :=
  | Playing (current_row loop_count : Z)
  | Stopped (loop_count : Z).

(** [for (int i = 0; i < n; i++) body] on a state [s]. *)
Definition for_loop {S : Type} (n : Z) (body : nat -> S -> S) (s : S) : S :=
  fold_left (fun s i => body i s) (seq 0 (Z.to_nat n)) s.

(** ** The song file, as [fscanf] reads it

    Each header field is what the corresponding [fscanf] stored, [None]
    when it stored nothing and failed; [sf_cells] are the cell lines in
    file order, and the file ends where they end. *)
Record CellLine : Type := mkCellLine {
  cl_note : Z;
  cl_original_note : Z;
  cl_note_str : string;
  cl_sample : string
}.

Record SongFile : Type := mkSongFile {
  sf_bpm : option Z;
  sf_rows : option Z;
  sf_channels : option Z;
  sf_loop : option (Z * Z * Z);
  sf_cells : list CellLine
}.

(** ** Data model *)

Section DataModel.
Context {D : Type}.

Record Cell : Type := mkCell {
  note : Z;
  original_note : Z;
  duration_ms : Z;
  sample : string;
  playing : Z;
  pitch_ratio : D
}.

Record Track : Type := mkTrack { cells : list Cell }.

Record Song : Type := mkSong {
  channels : list Track;
  num_channels : Z;
  num_rows : Z;
  bpm : Z;
  loop_start : Z;
  loop_end : Z;
  loop_enabled : Z
}.

Record SampleThreadData : Type := mkSampleThreadData {
  sd_filename : string;
  sd_note : Z;
  sd_target_note : Z;
  sd_channel : Z;
  sd_duration_ms : Z;
  sd_pitch_ratio : D;
  sd_active : Z
}.

(** Field assignments. *)
Definition set_bpm (v : Z) (s : Song) : Song :=
  mkSong (channels s) (num_channels s) (num_rows s) v
         (loop_start s) (loop_end s) (loop_enabled s).
Definition set_num_rows (v : Z) (s : Song) : Song :=
  mkSong (channels s) (num_channels s) v (bpm s)
         (loop_start s) (loop_end s) (loop_enabled s).
Definition set_num_channels (v : Z) (s : Song) : Song :=
  mkSong (channels s) v (num_rows s) (bpm s)
         (loop_start s) (loop_end s) (loop_enabled s).
Definition set_loop_start (v : Z) (s : Song) : Song :=
  mkSong (channels s) (num_channels s) (num_rows s) (bpm s)
         v (loop_end s) (loop_enabled s).
Definition set_loop_end (v : Z) (s : Song) : Song :=
  mkSong (channels s) (num_channels s) (num_rows s) (bpm s)
         (loop_start s) v (loop_enabled s).
Definition set_loop_enabled (v : Z) (s : Song) : Song :=
  mkSong (channels s) (num_channels s) (num_rows s) (bpm s)
         (loop_start s) (loop_end s) v.
Definition set_duration_ms (v : Z) (c : Cell) : Cell :=
  mkCell (note c) (original_note c) v (sample c) (playing c) (pitch_ratio c).
Definition set_sd_active (v : Z) (d : SampleThreadData) : SampleThreadData :=
  mkSampleThreadData (sd_filename d) (sd_note d) (sd_target_note d)
    (sd_channel d) (sd_duration_ms d) (sd_pitch_ratio d) v.

(** [song->channels[ch].cells[row]]: the cell, when both indexes are
    inside the arrays. *)
Definition cell_at (s : Song) (ch row : nat) : option Cell :=
  match channels s !! ch with
  | Some t => cells t !! row
  | None => None
  end.

(** An assignment through [&song->channels[ch].cells[row]]. *)
Definition alter_cell (f : Cell -> Cell) (ch row : nat) (s : Song) : Song :=
  mkSong (alter (fun t => mkTrack (alter f row (cells t))) ch (channels s))
         (num_channels s) (num_rows s) (bpm s)
         (loop_start s) (loop_end s) (loop_enabled s).

Definition set_cell_duration (ch row : nat) (v : Z) (s : Song) : Song :=
  alter_cell (set_duration_ms v) ch row s.
End DataModel.
Arguments Cell : clear implicits.
Arguments Track : clear implicits.
Arguments Song : clear implicits.
Arguments SampleThreadData : clear implicits.

(** ** Bytes of a file *)

Definition byte_of_Z (z : Z) : byte :=
  match Byte.of_N (Z.to_N (z mod 256)) with
  | Some b => b
  | None => x00
  end.

Definition Z_of_byte (b : byte) : Z := Z.of_N (Byte.to_N b).

(** The [n] low bytes of [z], least significant first: how a little-endian
    host stores an [n]-byte integer (two's complement when negative). *)
Fixpoint le_bytes (n : nat) (z : Z) : list byte :=
  match n with
  | O => []
  | S n' => byte_of_Z z :: le_bytes n' (z / 256)
  end.

(** The unsigned value of little-endian bytes. *)
Fixpoint le_value (bs : list byte) : Z :=
  match bs with
  | [] => 0
  | b :: rest => Z_of_byte b + 256 * le_value rest
  end.

(** ** Reading a file back *)

(** The [size] bytes of a file that start at [offset]. *)
Definition bytes_at (offset size : nat) (file : list byte) : list byte :=
  take size (drop offset file).

(** ** [WavHeader] (lines 89-105); the struct is packed *)
Record WavHeader : Type := mkWavHeader {
  riff : string;
  file_size : Z;
  wave : string;
  fmt : string;
  fmt_size : Z;
  audio_format : Z;
  wh_num_channels : Z;
  sample_rate : Z;
  byte_rate : Z;
  block_align : Z;
  bits_per_sample : Z;
  data : string;
  data_size : Z
}.

(** [fwrite(&header, sizeof(WavHeader), 1, wav_file)] *)
Definition header_bytes (h : WavHeader) : list byte :=
  list_byte_of_string (riff h) ++ le_bytes 4 (file_size h) ++
  list_byte_of_string (wave h) ++ list_byte_of_string (fmt h) ++
  le_bytes 4 (fmt_size h) ++ le_bytes 2 (audio_format h) ++
  le_bytes 2 (wh_num_channels h) ++ le_bytes 4 (sample_rate h) ++
  le_bytes 4 (byte_rate h) ++ le_bytes 2 (block_align h) ++
  le_bytes 2 (bits_per_sample h) ++
  list_byte_of_string (data h) ++ le_bytes 4 (data_size h).

(** [fwrite(audio_buffer, sizeof(Sint16), count, wav_file)] *)
Definition sample_bytes (audio_buffer : list Z) : list byte :=
  flat_map (le_bytes 2) audio_buffer.

Definition sizeof_WavHeader : Z := 44.

(** The header prepared on lines 916-931. *)
Definition prepare_header (total_samples : Z) : WavHeader :=
  let num_channels := 2 in
  let bits_per_sample := 16 in
  let block_align := (Z.quot (num_channels * bits_per_sample) 8) mod 2 ^ 16 in
  let byte_rate := wrap_u32 (SAMPLE_RATE * block_align) in
  let data_size := wrap_u32 (wrap_u32 (total_samples * 2) * 2) in
  let file_size := wrap_u32 (data_size + sizeof_WavHeader - 8) in
  mkWavHeader "RIFF" file_size "WAVE" "fmt " 16 1 num_channels SAMPLE_RATE
              byte_rate block_align bits_per_sample "data" data_size.

(** What [save_song_to_wav] leaves: the value returned, the file when
    one was written, and the rows rendered, each as the pair
    (current_row, actual_row) of the progress line. *)
Record wav_export : Type := mkExport {
  returned : Z;
  wav_file : option (list byte);
  rendered : list (Z * Z)
}.

(** ** Mixing into [Sint16] buffers *)

(** [if (mixed > 32767) mixed = 32767; if (mixed < -32768) mixed = -32768;] *)
Definition clamp_s16 (mixed : Z) : Z :=
  let mixed := if mixed >? 32767 then 32767 else mixed in
  if mixed <? -32768 then -32768 else mixed.

(** A read of a buffer entry; entries outside the buffer read as 0. *)
Definition buf_get (buf : list Z) (i : nat) : Z := default 0 (buf !! i).

(** [(Sint16)(sample * pan)], the product taken in [float]. *)
Definition pan_scaled (sample : Z) (pan : spec_float) : Z :=
  wrap_s16 (SFtrunc (F32.mul (F32.of_int sample) pan)).

(** The body of the two panning loops (lines 828-844 and 858-875, the
    same text): one mono sample into frame [i] of the row buffer. *)
Definition pan_into_row (ch : Z) (sample : Z) (i : nat) (row_buffer : list Z) : list Z :=
  let pan := if ch <? 4 then F32.lit_0_7 else F32.lit_0_3 in
  if ch <? 4 then
    let mixed := buf_get row_buffer (i * 2) + pan_scaled sample pan in
    <[(i * 2)%nat := wrap_s16 (clamp_s16 mixed)]> row_buffer
  else
    let mixed := buf_get row_buffer (i * 2 + 1)
                 + pan_scaled sample (F32.sub F32.lit_1_0 pan) in
    <[(i * 2 + 1)%nat := wrap_s16 (clamp_s16 mixed)]> row_buffer.

(** The panning loop over the first [count] frames; [sample_at i] is
    the mono sample of frame [i]. *)
Definition pan_loop (ch : Z) (count : Z) (sample_at : nat -> Z)
    (row_buffer : list Z) : list Z :=
  for_loop count (fun i row_buffer => pan_into_row ch (sample_at i) i row_buffer)
           row_buffer.

(** Lines 879-894: the row buffer added into the main buffer.  The
    indexes are [Uint32] values; [dest_idx] and [i*2] are even, so that
    adding 1 does not wrap.  Nothing checks them against the sizes of
    the two buffers: [None] stands for the undefined behaviour of an
    entry read or stored outside its buffer. *)
Definition mix_frame_into_main (start_sample : Z) (row_buffer : list Z) (i : nat)
    (audio_buffer : option (list Z)) : option (list Z) :=
  audio_buffer ← audio_buffer;
  let dest_idx := Z.to_nat (wrap_u32 ((start_sample + Z.of_nat i) * 2)) in
  let src_idx := Z.to_nat (wrap_u32 (Z.of_nat i * 2)) in
  main_left ← audio_buffer !! dest_idx;
  row_left ← row_buffer !! src_idx;
  let mixed_left := main_left + row_left in
  let audio_buffer := <[dest_idx := wrap_s16 (clamp_s16 mixed_left)]> audio_buffer in
  main_right ← audio_buffer !! (dest_idx + 1)%nat;
  row_right ← row_buffer !! (src_idx + 1)%nat;
  let mixed_right := main_right + row_right in
  Some (<[(dest_idx + 1)%nat := wrap_s16 (clamp_s16 mixed_right)]> audio_buffer).

Definition mix_row_into_main (start_sample row_samples : Z)
    (row_buffer audio_buffer : list Z) : option (list Z) :=
  for_loop row_samples (mix_frame_into_main start_sample row_buffer) (Some audio_buffer).

(** ** Predicates used in the proofs about panning *)

(** [pan_scaled] agrees with the integer quotient on [n] consecutive
    samples from [s] upwards. *)
Fixpoint pan_scaled_agrees (n : nat) (s : Z) : bool :=
  match n with
  | O => true
  | S n' =>
      (pan_scaled s F32.lit_0_7 =? Z.quot (7 * s) 10) && pan_scaled_agrees n' (s + 1)
  end.

(** The entry of the row buffer that frame [i] of channel [ch] goes to:
    the left one for channels below 4, the right one otherwise. *)
Definition pan_slot (ch : Z) (i : nat) : nat :=
  if ch <? 4 then (i * 2)%nat else (i * 2 + 1)%nat.

(** What [k] passes of the panning loop leave in a row buffer that
    holds all the slots they write. *)
Definition panned (ch : Z) (sample_at : nat -> Z) (before : list Z)
    (k : nat) (after : list Z) : Prop :=
  length after = length before /\
  (forall i, (i < k)%nat ->
     after !! pan_slot ch i =
       Some (wrap_s16 (clamp_s16 (buf_get before (pan_slot ch i)
                                  + pan_scaled (sample_at i) F32.lit_0_7)))) /\
  (forall j, (forall i, (i < k)%nat -> j <> pan_slot ch i) ->
     after !! j = before !! j).

(** What the mixing loop leaves in the main buffer after the first [k]
    frames of a row that starts at frame [start_sample]. *)
Definition mixed_frames (start_sample : Z) (row_buffer before : list Z)
    (k : nat) (after : list Z) : Prop :=
  length after = length before /\
  forall j : nat,
    after !! j =
      if decide (2 * Z.to_nat start_sample <= j < 2 * (Z.to_nat start_sample + k))%nat
      then Some (wrap_s16 (clamp_s16
                   (buf_get before j
                    + buf_get row_buffer (j - 2 * Z.to_nat start_sample))))
      else before !! j.

(** ** The engine *)

Section Engine.
Context {D : Type} {DA : DoubleArith D} {P : Platform} {L : Libm D}.

(** *** [get_note_duration_ms] (lines 108-113) *)
Definition get_note_duration_ms (song : Song D) : Z :=
  if bpm song =? 0 then 500
  else Z.quot (Z.quot 60000 (bpm song)) 4.

(** *** [pitch_shift_sample] (lines 116-151) *)

(** [fabs(pitch_ratio - 1.0) < 0.001] *)
Definition no_shift_needed (pitch_ratio : D) : bool :=
  d_lt (d_fabs (d_sub pitch_ratio (d_lit 1))) d_0_001.

(** The two limiting assignments of lines 128-129. *)
Definition limit_pitch (pitch_ratio : D) : D :=
  let pitch_ratio := if d_lt (d_lit 2) pitch_ratio then d_lit 2 else pitch_ratio in
  if d_lt pitch_ratio d_0_5 then d_0_5 else pitch_ratio.

(** [*new_len = (Uint32)(original_len / pitch_ratio)].  The quotient is
    below 2^32 for every source of fewer than 2^31 samples, which is
    what the callers pass; beyond, where the cast is undefined in C, the
    value wraps as it does on x86-64. *)
Definition shifted_len (original_len : Z) (pitch_ratio : D) : Z :=
  wrap_u32 (d_to_int (d_div (d_of_int original_len) pitch_ratio)).

(** The locals of the loop body, lines 138-145. *)
Definition src_pos (pitch_ratio : D) (i : Z) : D :=
  d_mul (d_of_int i) pitch_ratio.

Definition idx1 (pitch_ratio : D) (i : Z) : Z :=
  wrap_u32 (d_to_int (src_pos pitch_ratio i)).

Definition idx2 (original_len : Z) (pitch_ratio : D) (i : Z) : Z :=
  let idx2 := wrap_u32 (idx1 pitch_ratio i + 1) in
  if original_len <=? idx2 then wrap_u32 (original_len - 1) else idx2.

Definition frac (pitch_ratio : D) (i : Z) : D :=
  d_sub (src_pos pitch_ratio i) (d_of_int (idx1 pitch_ratio i)).

(** [original[idx1] * (1.0 - frac) + original[idx2] * frac] *)
Definition interpolate (a b : Z) (frac : D) : D :=
  d_add (d_mul (d_of_int a) (d_sub (d_lit 1) frac))
        (d_mul (d_of_int b) frac).

(** One iteration: the value stored in [shifted[i]], or [None] when
    one of the two reads falls outside [original]. *)
Definition shifted_at (original : list Z) (pitch_ratio : D) (i : Z) : option Z :=
  let original_len := Z.of_nat (length original) in
  match original !! Z.to_nat (idx1 pitch_ratio i),
        original !! Z.to_nat (idx2 original_len pitch_ratio i) with
  | Some a, Some b =>
      Some (wrap_s16 (d_to_int (interpolate a b (frac pitch_ratio i))))
  | _, _ => None
  end.

(** [original_len] is the length of [original]; callers pass
    [sound->alen / sizeof(Sint16)]. *)
Definition pitch_shift_sample (original : list Z) (pitch_ratio : D) : shift_result :=
  let original_len := Z.of_nat (length original) in
  if no_shift_needed pitch_ratio then
    if malloc_ok (original_len * 2)
    then mkShift (Returned original) (Some original_len)
    else mkShift ReturnedNull None
  else
    let pitch_ratio := limit_pitch pitch_ratio in
    let new_len := shifted_len original_len pitch_ratio in
    if malloc_ok (new_len * 2) then
      match mapM (shifted_at original pitch_ratio) (seqZ 0 new_len) with
      | Some shifted => mkShift (Returned shifted) (Some new_len)
      | None => mkShift OutOfBounds (Some new_len)
      end
    else mkShift ReturnedNull (Some new_len).

(** *** [calculate_pitch_ratio] (lines 296-304) *)
Definition calculate_pitch_ratio (original_note target_note : Z) : D :=
  if (original_note <=? 0) || (target_note <=? 0) then d_lit 1
  else
    let semitones := wrap_int (target_note - original_note) in
    libm_pow (d_lit 2) (d_div (d_of_int semitones) (d_lit 12)).

(** *** [play_sample_thread] (lines 154-206)

    The thread body as a function of its [SampleThreadData]: the record
    it leaves behind and what it did, in order.  [None] stands for
    undefined behaviour (the resampler read outside the chunk, a play
    duration that does not fit an [int]). *)
Definition play_sample_thread (data : SampleThreadData D)
  : option (SampleThreadData D * list sound_event) :=
  if (String.length (sd_filename data) =? 0)%nat || (sd_active data =? 0) then
    Some (data, [])
  else
    match Mix_LoadWAV (sd_filename data) with
    | None => Some (data, [Printed "Failed to load WAV"])
    | Some abuf =>
        let sound :=
          if d_lt d_0_001 (d_fabs (d_sub (sd_pitch_ratio data) (d_lit 1))) then
            match shifted (pitch_shift_sample abuf (sd_pitch_ratio data)) with
            | Returned shifted_data =>
                (* Mix_FreeChunk(sound); sound = Mix_QuickLoad_RAW(...) *)
                Some (if Mix_QuickLoad_RAW_ok shifted_data
                      then Some shifted_data else None)
            | ReturnedNull => Some (Some abuf)
            | OutOfBounds => None
            end
          else Some (Some abuf) in
        match sound with
        | None => None
        | Some None => Some (data, [])
        | Some (Some chunk) =>
            play_duration ←
              int_of_double (d_div (d_of_int (sd_duration_ms data))
                                   (sd_pitch_ratio data));
            Some (set_sd_active 0 data,
                  [ChannelPlayed (sd_channel data) chunk; Delayed play_duration])
        end
    end.

(** *** The row clock of [play_song] (lines 558-588)

    One pass through the body of the [while] loop after [play_row] has
    returned: the key poll, the increment and the loop handling. *)
Definition play_song_step (song : Song D) (kbhit : bool)
    (current_row loop_count : Z) : playback :=
  if kbhit then Stopped loop_count
  else
    let current_row := wrap_int (current_row + 1) in
    if negb (loop_enabled song =? 0) then
      if current_row >? loop_end song
      then Playing (loop_start song) (wrap_int (loop_count + 1))
      else Playing current_row loop_count
    else
      if current_row >=? num_rows song
      then Stopped loop_count
      else Playing current_row loop_count.

(** The rows handed to [play_row] during the first [fuel] passes of the
    loop; [keys n] is the answer of the [n]-th call of [kbhit]. *)
Fixpoint play_song_rows (song : Song D) (keys : nat -> bool) (fuel n : nat)
    (current_row loop_count : Z) : list Z :=
  match fuel with
  | O => []
  | S fuel' =>
      current_row ::
      match play_song_step song (keys n) current_row loop_count with
      | Playing next_row loop_count' =>
          play_song_rows song keys fuel' (S n) next_row loop_count'
      | Stopped _ => []
      end
  end.

(** [play_song]: nothing is played when SDL or the mixer fail to open;
    otherwise the loop starts at row 0 with [loop_count = 0]. *)
Definition play_song (song : Song D) (keys : nat -> bool) (fuel : nat) : list Z :=
  if negb SDL_Init_ok then []
  else if negb Mix_OpenAudio_ok then []
  else play_song_rows song keys fuel 0 0 0.

(** *** [change_bpm] (lines 610-629)

    [new_bpm] is what [scanf] stored.  Terminal output is left out.
    The two loops run to [song->num_channels] and [song->num_rows]
    without a look at the sizes of the arrays: [None] stands for the
    undefined behaviour of a store outside them. *)

(** [song->channels[ch].cells[row].duration_ms = get_note_duration_ms(song)] *)
Definition store_cell_duration (ch row : nat) (song : option (Song D))
  : option (Song D) :=
  song ← song;
  _ ← cell_at song ch row;
  Some (set_cell_duration ch row (get_note_duration_ms song) song).

Definition change_bpm (new_bpm : Z) (song : Song D) : option (Song D) :=
  if (20 <=? new_bpm) && (new_bpm <=? 300) then
    let song := set_bpm new_bpm song in
    for_loop (num_channels song) (fun ch st =>
      for_loop (num_rows song) (fun row st => store_cell_duration ch row st) st)
      (Some song)
  else Some song.

(** *** [set_loop] (lines 632-670)

    [choice] is the character read by [getchar], [start] and [end_] what
    the two [scanf] calls stored. *)
Definition set_loop (choice : ascii) (start end_ : Z) (song : Song D) : Song D :=
  if Ascii.eqb choice "y" || Ascii.eqb choice "Y" then
    let song := set_loop_enabled 1 song in
    if (0 <=? start) && (start <? end_) && (end_ <? num_rows song) then
      set_loop_end end_ (set_loop_start start song)
    else set_loop_enabled 0 song
  else set_loop_enabled 0 song.

(** *** [load_song] (lines 952-1024) *)

(** One pass through the body of the cell loop: the next line of the
    file fills cell [(ch, row)]; the state carries the lines not yet
    read and whether a read has failed.  The loops run to the numbers
    of channels and rows of the header, whatever the sizes of the
    arrays: [None] stands for the undefined behaviour of a line stored
    into a cell outside them. *)
Definition load_cell (note_duration : Z) (ch row : nat)
    (st : option (Song D * list CellLine * bool))
  : option (Song D * list CellLine * bool) :=
  '(song, lines, failed) ← st;
  if failed : bool then Some (song, lines, true)
  else
    match lines with
    | [] => Some (song, [], true)
    | line :: rest =>
        let fill (c : Cell D) : Cell D :=
          mkCell (cl_note line) (cl_original_note line) note_duration
                 (cl_sample line) (playing c)
                 (if (cl_note line >? 0) && (cl_original_note line >? 0)
                  then calculate_pitch_ratio (cl_original_note line) (cl_note line)
                  else d_lit 1) in
        _ ← cell_at song ch row;
        Some (alter_cell fill ch row song, rest, false)
    end.

(** The song after the call and the value returned. *)
Definition load_song (file : option SongFile) (song : Song D) : option (Song D * Z) :=
  match file with
  | None => Some (song, 0)
  | Some f =>
      match sf_bpm f with
      | None => Some (song, 0)
      | Some b =>
          let song := set_bpm b song in
          match sf_rows f with
          | None => Some (song, 0)
          | Some r =>
              let song := set_num_rows r song in
              match sf_channels f with
              | None => Some (song, 0)
              | Some c =>
                  let song := set_num_channels c song in
                  match sf_loop f with
                  | None => Some (song, 0)
                  | Some (enabled, start, end_) =>
                      let song :=
                        set_loop_end end_
                          (set_loop_start start (set_loop_enabled enabled song)) in
                      let note_duration := get_note_duration_ms song in
                      '(song, _, failed) ←
                        for_loop (num_channels song) (fun ch st =>
                          for_loop (num_rows song) (fun row st =>
                            load_cell note_duration ch row st) st)
                          (Some (song, sf_cells f, false));
                      Some (song, if failed : bool then 0 else 1)
                  end
              end
          end
      end
  end.

(** *** [save_song_to_wav] (lines 733-949)

    Products of [int]s wrap; [None] stands for undefined behaviour (a
    cell read outside the arrays, a remainder by zero, a resampler read
    outside its chunk, a row mixed outside the main buffer). *)

(** [(Sint16)(32767 * 0.3 * sin(2.0 * M_PI * freq * i / SAMPLE_RATE))]
    with [freq = 440.0 * pow(2, (c->note - 69) / 12.0)]. *)
Definition tone_sample (c_note : Z) (i : nat) : Z :=
  let freq :=
    d_mul (d_lit 440)
          (libm_pow (d_lit 2) (d_div (d_of_int (wrap_int (c_note - 69))) (d_lit 12))) in
  wrap_s16 (d_to_int
    (d_mul (d_mul (d_lit 32767) d_0_3)
       (libm_sin (d_div (d_mul (d_mul (d_mul (d_lit 2) d_M_PI) freq)
                                (d_of_int (Z.of_nat i)))
                        (d_of_int SAMPLE_RATE))))).

(** Lines 799-851: a cell with a sample file, into its row buffer. *)
Definition sample_voice_row (ch : Z) (c : Cell D) (row_samples : Z)
    (row_buffer : list Z) : option (list Z) :=
  match Mix_LoadWAV (sample c) with
  | None => Some row_buffer
  | Some abuf =>
      let original_len := Z.of_nat (length abuf) in
      let res :=
        if d_lt d_0_001 (d_fabs (d_sub (pitch_ratio c) (d_lit 1))) then
          pitch_shift_sample abuf (pitch_ratio c)
        else
          mkShift (if malloc_ok (original_len * 2) then Returned abuf else ReturnedNull)
                  (Some original_len) in
      match shifted res with
      | Returned sample_data =>
          let new_len := default 0 (new_len res) in
          let samples_to_mix := if new_len <? row_samples then new_len else row_samples in
          Some (pan_loop ch samples_to_mix (buf_get sample_data) row_buffer)
      | ReturnedNull => Some row_buffer
      | OutOfBounds => None
      end
  end.

(** Lines 853-876: a cell without a sample file. *)
Definition tone_voice_row (ch : Z) (c : Cell D) (row_samples : Z)
    (row_buffer : list Z) : list Z :=
  pan_loop ch row_samples (tone_sample (note c)) row_buffer.

(** Lines 793-897: one channel of one row. *)
Definition render_channel (song : Song D) (actual_row : Z)
    (start_sample row_samples : Z) (ch : nat) (audio_buffer : list Z)
  : option (list Z) :=
  if actual_row <? 0 then None
  else
    match cell_at song ch (Z.to_nat actual_row) with
    | None => None
    | Some c =>
        if note c >? 0 then
          if malloc_ok (wrap_u32 (row_samples * 2) * 2) then
            let row_buffer := replicate (Z.to_nat (wrap_u32 (row_samples * 2))) 0 in
            let row_buffer :=
              if (0 <? String.length (sample c))%nat
              then sample_voice_row (Z.of_nat ch) c row_samples row_buffer
              else Some (tone_voice_row (Z.of_nat ch) c row_samples row_buffer) in
            match row_buffer with
            | Some row_buffer =>
                mix_row_into_main start_sample row_samples row_buffer audio_buffer
            | None => None
            end
          else Some audio_buffer   (* continue *)
        else Some audio_buffer
    end.

(** The channel loop of line 792. *)
Fixpoint render_channels (song : Song D) (actual_row start_sample row_samples : Z)
    (chs : list nat) (audio_buffer : list Z) : option (list Z) :=
  match chs with
  | [] => Some audio_buffer
  | ch :: rest =>
      match render_channel song actual_row start_sample row_samples ch audio_buffer with
      | Some audio_buffer =>
          render_channels song actual_row start_sample row_samples rest audio_buffer
      | None => None
      end
  end.

(** The state of the row loop (lines 772-901). *)
Record render_state : Type := mkRender {
  rs_loops_done : Z;
  rs_audio_buffer : list Z;
  rs_progress : list (Z * Z);
  rs_left_loop : bool          (* the [break] of line 781 was taken *)
}.

(** One pass through the body of [while (current_row < total_rows)].
    [current_row] starts at 0 and is incremented once at the end of
    every pass, so the passes are those of a counted loop that can be
    left early. *)
Definition render_row (song : Song D) (note_duration : Z) (current_row : Z)
    (st : render_state) : option render_state :=
  if rs_left_loop st then Some st
  else if num_rows song =? 0 then None
  else
    let actual_row := Z.rem current_row (num_rows song) in
    let wraps := negb (loop_enabled song =? 0) && (actual_row >? loop_end song) in
    let actual_row := if wraps then loop_start song else actual_row in
    let loops_done := if wraps then wrap_int (rs_loops_done st + 1) else rs_loops_done st in
    if wraps && (loops_done >=? 4) then
      Some (mkRender loops_done (rs_audio_buffer st) (rs_progress st) true)
    else
      let start_sample :=
        wrap_u32 (Z.quot (wrap_int (wrap_int (current_row * note_duration) * SAMPLE_RATE))
                         1000) in
      let row_samples :=
        wrap_u32 (Z.quot (wrap_int (note_duration * SAMPLE_RATE)) 1000) in
      match render_channels song actual_row start_sample row_samples
              (seq 0 (Z.to_nat (num_channels song))) (rs_audio_buffer st) with
      | Some audio_buffer =>
          Some (mkRender loops_done audio_buffer
                         (rs_progress st ++ [(current_row, actual_row)]) false)
      | None => None
      end.

Fixpoint render_rows (song : Song D) (note_duration : Z) (rows : list Z)
    (st : render_state) : option render_state :=
  match rows with
  | [] => Some st
  | current_row :: rest =>
      match render_row song note_duration current_row st with
      | Some st => render_rows song note_duration rest st
      | None => None
      end
  end.

(** Lines 736-742. *)
Definition total_rows (song : Song D) : Z :=
  if negb (loop_enabled song =? 0) && (loop_end song >? loop_start song)
  then wrap_int (wrap_int (wrap_int (loop_end song - loop_start song) + 1) * 4)
  else num_rows song.

(** Line 744. *)
Definition total_samples (song : Song D) : Z :=
  wrap_u32 (Z.quot
    (wrap_int (wrap_int (total_rows song * get_note_duration_ms song) * SAMPLE_RATE))
    1000).

Definition save_song_to_wav (song : Song D) (filename : string) : option wav_export :=
  let note_duration := get_note_duration_ms song in
  let total_rows := total_rows song in
  let total_samples := total_samples song in
  let count := wrap_u32 (total_samples * 2) in
  if negb (malloc_ok (count * 2)) then Some (mkExport 0 None [])
  else
    let audio_buffer := replicate (Z.to_nat count) 0 in
    if negb SDL_Init_ok then Some (mkExport 0 None [])
    else if negb Mix_OpenAudio_ok then Some (mkExport 0 None [])
    else
      match render_rows song note_duration (seqZ 0 total_rows)
              (mkRender 0 audio_buffer [] false) with
      | None => None
      | Some st =>
          if negb (fopen_ok filename) then Some (mkExport 0 None (rs_progress st))
          else
            let header := prepare_header total_samples in
            Some (mkExport 1
                    (Some (header_bytes header ++ sample_bytes (rs_audio_buffer st)))
                    (rs_progress st))
      end.

(** *** The song of [main] (lines 1126-1142) *)
Definition initial_cell : Cell D :=
  mkCell 0 60 125 "" 0 (d_lit 1).

Definition initial_song : Song D :=
  mkSong (replicate (Z.to_nat MAX_CHANNELS)
            (mkTrack (replicate (Z.to_nat MAX_ROWS) initial_cell)))
         MAX_CHANNELS MAX_ROWS 120 0 (MAX_ROWS - 1) 0.

(** *** The loop window invariant of the data model *)
Definition loop_window_ok (song : Song D) : Prop :=
  loop_enabled song <> 0 ->
  0 <= loop_start song /\ loop_start song < loop_end song /\
  loop_end song < num_rows song.

(** *** The limits the editor keeps a song in

    [main] starts with 16 rows at 120 bpm, [change_bpm] only stores a
    bpm between 20 and 300, and [set_loop] only a loop window inside the
    rows; a bpm of 0 gets the 500 ms row of [get_note_duration_ms]. *)
Definition song_in_limits (song : Song D) : Prop :=
  0 <= num_rows song <= MAX_ROWS /\
  (bpm song = 0 \/ 20 <= bpm song) /\
  loop_window_ok song.

(** *** Predicates used in the proofs about [change_bpm] *)

(** What one run of the inner loop of [change_bpm] leaves. *)
Definition durations_set (ch : nat) (rows : nat) (v : Z) (s s' : Song D) : Prop :=
  num_channels s' = num_channels s /\ num_rows s' = num_rows s /\
  bpm s' = bpm s /\ loop_start s' = loop_start s /\
  loop_end s' = loop_end s /\ loop_enabled s' = loop_enabled s /\
  forall c r, cell_at s' c r =
    if decide (c = ch /\ (r < rows)%nat)
    then set_duration_ms v <$> cell_at s c r else cell_at s c r.

(** What the two nested loops leave after [chs] channels. *)
Definition grid_durations_set (chs rows : nat) (v : Z) (s s' : Song D) : Prop :=
  num_channels s' = num_channels s /\ num_rows s' = num_rows s /\
  bpm s' = bpm s /\ loop_start s' = loop_start s /\
  loop_end s' = loop_end s /\ loop_enabled s' = loop_enabled s /\
  forall c r, cell_at s' c r =
    if decide ((c < chs)%nat /\ (r < rows)%nat)
    then set_duration_ms v <$> cell_at s c r else cell_at s c r.

(** The state of the inner loop after [rows] passes on channel [ch]:
    the durations are stored, or a cell was outside the arrays. *)
Definition durations_stored (ch : nat) (rows : nat) (v : Z) (s : Song D)
    (st : option (Song D)) : Prop :=
  match st with
  | Some s' => durations_set ch rows v s s'
  | None => exists r, (r < rows)%nat /\ cell_at s ch r = None
  end.

(** The state of the outer loop after [chs] channels. *)
Definition grid_durations_stored (chs rows : nat) (v : Z) (s : Song D)
    (st : option (Song D)) : Prop :=
  match st with
  | Some s' => grid_durations_set chs rows v s s'
  | None => exists c r, (c < chs)%nat /\ (r < rows)%nat /\ cell_at s c r = None
  end.

(** The cells that a song uses, [num_channels] x [num_rows] of them,
    are cells of the arrays. *)
Definition grid_in_arrays (song : Song D) : Prop :=
  forall ch row : nat,
    Z.of_nat ch < num_channels song -> Z.of_nat row < num_rows song ->
    is_Some (cell_at song ch row).

(** *** The songs of the examples *)

(** The song of [main] after [set_loop] was answered [y], 2, 5. *)
Definition looped_2_5 : Song D := set_loop "y" 2 5 initial_song.

(** One row, one channel, the note A4 (69) and no sample file, at the
    120 bpm of [main]; the cell is what [edit_cell] stores. *)
Definition a4_cell : Cell D :=
  mkCell 69 60 125 "" 0 (calculate_pitch_ratio 60 69).

Definition a4_song : Song D :=
  alter_cell (fun _ => a4_cell) 0 0 (set_num_rows 1 (set_num_channels 1 initial_song)).

End Engine.

(** ** The row advance policy, in the words of the specification

    "next_row = current_row + 1; if loop enabled and next_row > loop_end,
    set next_row = loop_start; if loop disabled and next_row >= row_count,
    transition to Stopped."  [None] is the transition to Stopped. *)
Definition spec_next_row (loop_on : bool) (loop_start loop_end row_count : Z)
    (current_row : Z) : option Z :=
  let next_row := current_row + 1 in
  if loop_on && (next_row >? loop_end) then Some loop_start
  else if negb loop_on && (next_row >=? row_count) then None
  else Some next_row.

(** The row sequence the specification gives for the window 2..5:
    0,1,2,3,4,5,2,3,4,5,2,... *)
Definition spec_row_2_5 (k : Z) : Z :=
  if k <=? 5 then k else 2 + (k - 2) mod 4.

(** ** A song file whose loop line reads [Loop: 1 5 2] *)
Definition reversed_loop_file : SongFile :=
  mkSongFile (Some 120) (Some 16) (Some 8) (Some (1, 5, 2))
             (replicate 128 (mkCellLine 0 60 "---" "-")).

(** ** A concrete platform

    Every allocation succeeds, SDL starts, files open, and one asset,
    [kick.wav], decodes to six samples. *)
Definition studio : Platform := {|
  malloc_ok := fun _ => true;
  Mix_LoadWAV := fun name =>
    if String.eqb name "kick.wav" then Some [10000; -10000; 32767; -32768; 5; 0]
    else None;
  Mix_QuickLoad_RAW_ok := fun _ => true;
  SDL_Init_ok := true;
  Mix_OpenAudio_ok := true;
  fopen_ok := fun _ => true
|}.

(** ** Real values of floating-point data (used in the proofs) *)

Definition pow2 (e : Z) : Q := (2 ^ e)%Q.

Definition signed (s : bool) (q : Q) : Q := if s then (- q)%Q else q.

Definition SF2Q (x : spec_float) : Q :=
  match x with
  | S754_finite s m e => signed s (inject_Z (Zpos m) * pow2 e)
  | _ => 0%Q
  end.

Definition finite_sf (x : spec_float) : bool :=
  match x with
  | S754_zero _ | S754_finite _ _ _ => true
  | _ => false
  end.

Definition inbetween (m : Z) (l : location) (x : Q) : Prop :=
  match l with
  | loc_Exact => (x == inject_Z m)%Q
  | loc_Inexact Lt => (inject_Z m < x /\ x < inject_Z m + (1 # 2))%Q
  | loc_Inexact Eq => (x == inject_Z m + (1 # 2))%Q
  | loc_Inexact Gt => (inject_Z m + (1 # 2) < x /\ x < inject_Z m + 1)%Q
  end.

(** The relative error of one rounding to [prec] digits and the
    absolute error of a rounding that underflows. *)
Definition ulp_half_of (prec : Z) : Q := pow2 (- prec).
Definition eta_of (prec emax : Z) : Q := pow2 (SpecFloat.emin prec emax - 1).

(** [r] is a finite float within the rounding error of the real [v]. *)
Definition rounded_to (prec emax : Z) (r : spec_float) (v : Q) : Prop :=
  finite_sf r = true /\
  (Qabs (SF2Q r - v) <= ulp_half_of prec * Qabs v + eta_of prec emax)%Q.

Definition B2Q (x : float) : Q := SF2Q (Prim2SF x).
Definition b64_finite (x : float) : bool := finite_sf (Prim2SF x).

(** The relative and the absolute rounding error of binary64. *)
Definition u64 : Q := pow2 (-53).
Definition eta64 : Q := pow2 (-1075).

(** [x] is the correctly rounded value of the real [v], up to the error
    of one rounding. *)
Definition b64_rounded (x : float) (v : Q) : Prop :=
  b64_finite x = true /\ (Qabs (B2Q x - v) <= u64 * Qabs v + eta64)%Q.

(** The mantissa and the exponent of a binary64 value are the ones its
    size gives. *)
Definition canonical64 (x : spec_float) : Prop :=
  match x with
  | S754_finite _ m e => e = Z.max (Zdigits2 (Zpos m) + e - 53) (-1074)
  | _ => True
  end.

(** ** Note names (lines 23-39) *)

Section NoteTable.
Local Open Scope string_scope.

Definition NOTE_NAMES : list string :=
  ["C-2"; "C#-2"; "D-2"; "D#-2"; "E-2"; "F-2"; "F#-2"; "G-2"; "G#-2"; "A-2"; "A#-2"; "B-2";
   "C-1"; "C#-1"; "D-1"; "D#-1"; "E-1"; "F-1"; "F#-1"; "G-1"; "G#-1"; "A-1"; "A#-1"; "B-1";
   "C0"; "C#0"; "D0"; "D#0"; "E0"; "F0"; "F#0"; "G0"; "G#0"; "A0"; "A#0"; "B0";
   "C1"; "C#1"; "D1"; "D#1"; "E1"; "F1"; "F#1"; "G1"; "G#1"; "A1"; "A#1"; "B1";
   "C2"; "C#2"; "D2"; "D#2"; "E2"; "F2"; "F#2"; "G2"; "G#2"; "A2"; "A#2"; "B2";
   "C3"; "C#3"; "D3"; "D#3"; "E3"; "F3"; "F#3"; "G3"; "G#3"; "A3"; "A#3"; "B3";
   "C4"; "C#4"; "D4"; "D#4"; "E4"; "F4"; "F#4"; "G4"; "G#4"; "A4"; "A#4"; "B4";
   "C5"; "C#5"; "D5"; "D#5"; "E5"; "F5"; "F#5"; "G5"; "G#5"; "A5"; "A#5"; "B5";
   "C6"; "C#6"; "D6"; "D#6"; "E6"; "F6"; "F#6"; "G6"; "G#6"; "A6"; "A#6"; "B6";
   "C7"; "C#7"; "D7"; "D#7"; "E7"; "F7"; "F#7"; "G7"; "G#7"; "A7"; "A#7"; "B7";
   "C8"; "C#8"; "D8"; "D#8"; "E8"; "F8"; "F#8"; "G8"; "G#8"; "A8"; "A#8"; "B8";
   "C9"; "C#9"; "D9"; "D#9"; "E9"; "F9"; "F#9"; "G9"].

End NoteTable.

Definition TOTAL_NOTES : Z := 128.
Definition REST_NAME : string := "---".

(** [toupper] in the C locale: the letters a-z go to A-Z, every other
    character is left as it is. *)
Definition toupper (c : ascii) : ascii :=
  let n := nat_of_ascii c in
  if (97 <=? n)%nat && (n <=? 122)%nat then ascii_of_nat (n - 32) else c.

(** [for (int j = 0; s[j]; j++) s[j] = toupper(s[j]);] *)
Fixpoint to_upper (s : string) : string :=
  match s with
  | EmptyString => EmptyString
  | String c rest => String (toupper c) (to_upper rest)
  end.

(** The first index [i >= from] whose name compares equal ([strcmp]
    returns 0), as the two search loops of [note_name_to_midi] find it. *)
Fixpoint find_note (names : list string) (name : string) (from : Z) : option Z :=
  match names with
  | [] => None
  | n :: rest =>
      if String.eqb name n then Some from else find_note rest name (from + 1)
  end.

(** The names the two loops look at: [NOTE_NAMES[i]] for
    [i < TOTAL_NOTES].  The table has 140 entries; the last twelve, from
    G#8 to G9, are never reached. *)
Definition searched_names : list string := take (Z.to_nat TOTAL_NOTES) NOTE_NAMES.

(** *** [note_name_to_midi] (lines 256-285)

    [None] stands for undefined behaviour: the second loop copies the
    name into [char upper_input[16]] with [strcpy] before it compares
    anything, which overruns the array for a name of 16 characters or
    more.  The names of the table have at most four characters and fit
    [upper_note]. *)
Definition note_name_to_midi (note_name : string) : option Z :=
  if String.eqb note_name "---" || String.eqb note_name "" then Some 0
  else
    match find_note searched_names note_name 0 with
    | Some i => Some i
    | None =>
        if (16 <=? String.length note_name)%nat then None
        else
          match find_note (map to_upper searched_names) (to_upper note_name) 0 with
          | Some i => Some i
          | None => Some 0
          end
    end.

(** *** [midi_to_note_name] (lines 288-293) *)
Definition midi_to_note_name (midi_note : Z) : string :=
  if (midi_note <=? 0) || (midi_note >=? TOTAL_NOTES) then REST_NAME
  else default REST_NAME (NOTE_NAMES !! Z.to_nat midi_note).

(** ** Reading a line (the [fgets] and [strcspn] calls of the editor)

    The standard input is the text not yet read. *)

(** [fgets(buf, size, stdin)] stores at most [size - 1] characters and
    stops after a newline: what it stored and what is left. *)
Fixpoint fgets_chars (n : nat) (stdin : string) : string * string :=
  match n with
  | O => (EmptyString, stdin)
  | S n' =>
      match stdin with
      | EmptyString => (EmptyString, EmptyString)
      | String c rest =>
          if Ascii.eqb c "010" then (String c EmptyString, rest)
          else let '(buf, stdin) := fgets_chars n' rest in (String c buf, stdin)
      end
  end.

(** At the end of the input [fgets] stores nothing and returns NULL:
    [None]. *)
Definition fgets (size : nat) (stdin : string) : option (string * string) :=
  match stdin with
  | EmptyString => None
  | _ => Some (fgets_chars (size - 1) stdin)
  end.

(** [buf[strcspn(buf, "\n")] = 0]: the C string left in [buf], which
    ends before the first newline or NUL. *)
Fixpoint line_of (buf : string) : string :=
  match buf with
  | EmptyString => EmptyString
  | String c rest =>
      if Ascii.eqb c "010" || Ascii.eqb c "000" then EmptyString
      else String c (line_of rest)
  end.

(** The newline that ends a line typed. *)
Definition nl : string := String "010" EmptyString.

(** ** [edit_cell] (lines 358-429)

    The song after the call and the input left.  [None] stands for
    undefined behaviour: a cell outside the arrays, a buffer used
    although [fgets] stored nothing in it, the overrun of
    [note_name_to_midi].  Terminal output is left out. *)
Section Editor.
Context {D : Type} {DA : DoubleArith D} {L : Libm D}.

Definition edit_cell (song : Song D) (row channel : Z) (stdin : string)
  : option (Song D * string) :=
  if (row <? 0) || (channel <? 0) then None
  else
    match cell_at song (Z.to_nat channel) (Z.to_nat row) with
    | None => None
    | Some c =>
        (* lines 361-377 *)
        let original :=
          if (0 <? String.length (sample c))%nat then original_note c else 60 in
        match fgets 64 stdin with
        | None => None
        | Some (input, stdin) =>
            let input := line_of input in
            match fgets 64 stdin with
            | None => None
            | Some (sample_buf, stdin) =>
                let sample_name := line_of sample_buf in
                match note_name_to_midi input with
                | None => None
                | Some note =>
                    (* lines 390-401 *)
                    let asked :=
                      if (0 <? String.length sample_name)%nat && (note >? 0) then
                        match fgets 64 stdin with
                        | None => None
                        | Some (orig_note_input, stdin) =>
                            match note_name_to_midi (line_of orig_note_input) with
                            | None => None
                            | Some n => Some (if n <=? 0 then 60 else n, stdin)
                            end
                        end
                      else if (String.length sample_name =? 0)%nat
                              && (0 <? String.length (sample c))%nat
                      then Some (original_note c, stdin)
                      else Some (original, stdin) in
                    match asked with
                    | None => None
                    | Some (original, stdin) =>
                        (* lines 403-414 *)
                        let store (c : Cell D) : Cell D :=
                          mkCell note original (get_note_duration_ms song) sample_name
                                 (playing c)
                                 (if (note >? 0) && (original >? 0)
                                  then calculate_pitch_ratio original note
                                  else d_lit 1) in
                        Some (alter_cell store (Z.to_nat channel) (Z.to_nat row) song,
                              stdin)
                    end
                end
            end
        end
    end.

End Editor.

(** ** The cursor keys of [main] (lines 1169-1180) *)
Definition move_cursor {D : Type} (song : Song D) (c : ascii)
    (cursor : Z * Z) : Z * Z :=
  let '(cursor_row, cursor_channel) := cursor in
  if Ascii.eqb c "w" then
    (if 0 <? cursor_row then wrap_int (cursor_row - 1) else cursor_row, cursor_channel)
  else if Ascii.eqb c "s" then
    (if cursor_row <? wrap_int (num_rows song - 1) then wrap_int (cursor_row + 1)
     else cursor_row, cursor_channel)
  else if Ascii.eqb c "a" then
    (cursor_row,
     if 0 <? cursor_channel then wrap_int (cursor_channel - 1) else cursor_channel)
  else if Ascii.eqb c "d" then
    (cursor_row,
     if cursor_channel <? wrap_int (num_channels song - 1)
     then wrap_int (cursor_channel + 1) else cursor_channel)
  else cursor.

(** *** The pitch ratio invariant of the cells

    Playback and export use the stored [pitch_ratio] of a cell without
    computing it again: it has to be the ratio of the two notes of the
    cell. *)
Definition ratios_consistent {D : Type} {DA : DoubleArith D} {L : Libm D}
    (song : Song D) : Prop :=
  forall (ch row : nat) (c : Cell D),
    cell_at song ch row = Some c ->
    pitch_ratio c = calculate_pitch_ratio (original_note c) (note c).

(** *** What [load_song] stores in a cell (lines 998-1015)

    The two notes and the sample name of the line read, the row
    duration of the song, and the pitch ratio of the two notes;
    [playing] is not touched. *)
Definition loaded_cell {D : Type} {DA : DoubleArith D} {L : Libm D}
    (note_duration : Z) (line : CellLine) (c : Cell D) : Cell D :=
  mkCell (cl_note line) (cl_original_note line) note_duration (cl_sample line)
         (playing c) (calculate_pitch_ratio (cl_original_note line) (cl_note line)).

(** The state of the cell loop of [load_song] after [n] cells, in the
    order of the two loops, cell [(ch, row)] having the number
    [ch * R + row]: the cells read so far are loaded from their lines,
    or the file has ended and the loop has failed. *)
Definition cells_loaded {D : Type} {DA : DoubleArith D} {L : Libm D}
    (lines : list CellLine) (note_duration : Z) (song0 : Song D) (R : nat)
    (n : nat) (st : Song D * list CellLine * bool) : Prop :=
  ((n <= length lines)%nat ->
     snd st = false /\ snd (fst st) = drop n lines /\
     let song := fst (fst st) in
     num_channels song = num_channels song0 /\ num_rows song = num_rows song0 /\
     bpm song = bpm song0 /\ loop_start song = loop_start song0 /\
     loop_end song = loop_end song0 /\ loop_enabled song = loop_enabled song0 /\
     forall ch row : nat,
       cell_at song ch row =
         if decide ((row < R)%nat /\ (ch * R + row < n)%nat)
         then match lines !! (ch * R + row)%nat with
              | Some line => loaded_cell note_duration line <$> cell_at song0 ch row
              | None => None
              end
         else cell_at song0 ch row) /\
  ((length lines < n)%nat -> snd st = true).

(** ** [play_tone_thread] (lines 209-253)

    The tone voice tests [data->freq == 0], so it is modelled in
    binary64.  Whether [SDL_OpenAudioDevice] gives a device is an
    argument. *)
Record ToneThreadData : Type := mkToneThreadData {
  td_freq : float;
  td_duration_ms : Z;
  td_active : Z
}.

Definition set_td_active (v : Z) (d : ToneThreadData) : ToneThreadData :=
  mkToneThreadData (td_freq d) (td_duration_ms d) v.

Inductive tone_event : Type :=
  | AudioQueued (buffer : list Z)   (* SDL_QueueAudio and SDL_PauseAudioDevice *)
  | ToneDelayed (ms : Z).           (* SDL_Delay *)

Section ToneVoice.
Context {P : Platform} {L : Libm float}.

(** [(Sint16)(32767 * sin(2.0 * M_PI * data->freq * i / SAMPLE_RATE))] *)
Definition tone_thread_sample (freq : float) (i : Z) : Z :=
  wrap_s16 (d_to_int
    (d_mul (d_lit 32767)
       (libm_sin (d_div (d_mul (d_mul (d_mul (d_lit 2) d_M_PI) freq) (d_of_int i))
                        (d_of_int SAMPLE_RATE))))).

(** The record the thread leaves behind and what it did. *)
Definition play_tone_thread (SDL_OpenAudioDevice_ok : bool) (data : ToneThreadData)
  : ToneThreadData * list tone_event :=
  if PrimFloat.eqb (td_freq data) (d_lit 0) || (td_active data =? 0) then (data, [])
  else
    let samples :=
      wrap_u32 (Z.quot (wrap_int (td_duration_ms data * SAMPLE_RATE)) 1000) in
    if negb (malloc_ok (2 * samples)) then (data, [])
    else
      let buffer := map (tone_thread_sample (td_freq data)) (seqZ 0 samples) in
      if negb SDL_OpenAudioDevice_ok then (data, [])
      else (set_td_active 0 data,
            [AudioQueued buffer; ToneDelayed (td_duration_ms data)]).

(** The tone voice that [play_row] starts for a cell without a sample
    file (lines 489-497). *)
Definition tone_thread_of_cell (c : Cell float) (note_duration : Z) : ToneThreadData :=
  mkToneThreadData
    (d_mul (d_lit 440)
           (libm_pow (d_lit 2) (d_div (d_of_int (wrap_int (note c - 69))) (d_lit 12))))
    note_duration 1.

End ToneVoice.

(** A mathematical library whose [sin] and [pow] are constant, for the
    examples. *)
Definition square_libm : Libm float := {|
  libm_sin := fun _ => 1%float;
  libm_pow := fun _ _ => 1%float
|}.

From Stdlib Require DecimalString DecimalPos DecimalFacts.
(** ** Text files: [fprintf] and [fscanf]

    A song file is a text: [save_song] writes it with [fprintf],
    [load_song] reads it back with [fgets] and [fscanf].  What follows
    is the fragment of the two C library functions that the formats of
    the source use, on a stream that is the text not yet read. *)

Definition EOF : Z := -1.

Definition is_intb (z : Z) : bool := (INT_MIN <=? z) && (z <=? INT_MAX).

(** [isspace] and [isdigit] in the "C" locale. *)
Definition isspace (c : ascii) : bool :=
  let n := nat_of_ascii c in
  (n =? 32)%nat || ((9 <=? n)%nat && (n <=? 13)%nat).

Definition isdigit (c : ascii) : bool :=
  let n := nat_of_ascii c in (48 <=? n)%nat && (n <=? 57)%nat.

(** *** [fprintf] with the conversions [%d] and [%s] *)

Inductive print_arg : Type :=
  | ArgInt (z : Z)
  | ArgString (s : string).

(** [%d]: the decimal digits, after a minus sign when negative. *)
Definition print_int (z : Z) : string :=
  DecimalString.NilZero.string_of_int (Z.to_int z).

(** The characters a call adds to the file; [None] when the arguments
    do not fit the conversions of the format. *)
Fixpoint format (fmt : string) (args : list print_arg) : option string :=
  match fmt with
  | EmptyString => Some EmptyString
  | String c rest =>
      if Ascii.eqb c "%" then
        match rest with
        | String k rest' =>
            if Ascii.eqb k "d" then
              match args with
              | ArgInt z :: args => String.append (print_int z) <$> format rest' args
              | _ => None
              end
            else if Ascii.eqb k "s" then
              match args with
              | ArgString s :: args => String.append s <$> format rest' args
              | _ => None
              end
            else None
        | EmptyString => None
        end
      else String c <$> format rest args
  end.

(** The file after [fprintf(file, fmt, args...)]. *)
Definition fprintf (file : string) (fmt : string) (args : list print_arg)
  : option string :=
  String.append file <$> format fmt args.

(** *** [fscanf] with the directives of the source *)

Inductive directive : Type :=
  | DSpace                              (* white space in the format *)
  | DChar (c : ascii)                   (* an ordinary character *)
  | DInt                                (* %d *)
  | DString (width : option nat)        (* %s, %15s *)
  | DExcept (width : option nat) (set : string).   (* %[^set], %63[^set] *)

(** Reading a format, one character at a time. *)
Inductive format_state : Type :=
  | InText
  | InPercent (width : option nat)
  | InSetStart (width : option nat)
  | InSet (width : option nat) (set : string).

Definition digit_value (c : ascii) : Z := Z.of_nat (nat_of_ascii c) - 48.

Fixpoint parse_format_from (st : format_state) (fmt : string)
  : option (list directive) :=
  match fmt with
  | EmptyString => match st with InText => Some [] | _ => None end
  | String c rest =>
      match st with
      | InText =>
          if Ascii.eqb c "%" then parse_format_from (InPercent None) rest
          else if isspace c then cons DSpace <$> parse_format_from InText rest
          else cons (DChar c) <$> parse_format_from InText rest
      | InPercent width =>
          if isdigit c then
            let d := Z.to_nat (digit_value c) in
            parse_format_from
              (InPercent (Some (match width with
                                | Some w => 10 * w + d
                                | None => d
                                end)%nat)) rest
          else if Ascii.eqb c "d" then
            match width with
            | None => cons DInt <$> parse_format_from InText rest
            | Some _ => None
            end
          else if Ascii.eqb c "s" then
            cons (DString width) <$> parse_format_from InText rest
          else if Ascii.eqb c "[" then parse_format_from (InSetStart width) rest
          else None
      | InSetStart width =>
          if Ascii.eqb c "^" then parse_format_from (InSet width EmptyString) rest
          else None
      | InSet width set =>
          if Ascii.eqb c "]" then
            match set with
            | EmptyString => None
            | _ => cons (DExcept width set) <$> parse_format_from InText rest
            end
          else parse_format_from
                 (InSet width (String.append set (String c EmptyString))) rest
      end
  end.

(** The directives of a format; [None] outside the fragment. *)
Definition parse_format (fmt : string) : option (list directive) :=
  parse_format_from InText fmt.

(** White space is skipped. *)
Fixpoint skip_space (input : string) : string :=
  match input with
  | EmptyString => EmptyString
  | String c rest => if isspace c then skip_space rest else input
  end.

(** The longest run of characters satisfying [p] at the head of the
    input, no longer than the field width: the run and the input left. *)
Fixpoint span (p : ascii -> bool) (width : option nat) (input : string)
  : string * string :=
  match input with
  | EmptyString => (EmptyString, EmptyString)
  | String c rest =>
      match width with
      | Some O => (EmptyString, input)
      | _ =>
          if p c then
            let '(item, unread) := span p (Nat.pred <$> width) rest in
            (String c item, unread)
          else (EmptyString, input)
      end
  end.

Fixpoint in_set (c : ascii) (set : string) : bool :=
  match set with
  | EmptyString => false
  | String k rest => Ascii.eqb c k || in_set c rest
  end.

(** The value of a run of decimal digits. *)
Fixpoint decimal (acc : Z) (digits : string) : Z :=
  match digits with
  | EmptyString => acc
  | String c rest => decimal (10 * acc + digit_value c) rest
  end.

Inductive scanned : Type :=
  | ScannedInt (z : Z)
  | ScannedString (s : string).

(** A call of [fscanf]: what its conversions stored through the
    pointers, in order, the value it returned and the input left. *)
Record scan : Type := mkScan {
  scan_stored : list scanned;
  scan_result : Z;
  scan_unread : string
}.

(** The end of a call.  After an input failure before the first
    conversion the call returns [EOF], otherwise the number of items
    stored. *)
Definition scan_end (input_failure : bool) (stored : list scanned)
    (unread : string) : scan :=
  mkScan stored
    (if input_failure && (length stored =? 0)%nat then EOF
     else Z.of_nat (length stored))
    unread.

(** The directives in turn.  [None] stands for undefined behaviour: the
    number read by [%d] does not fit an [int]. *)
Fixpoint scan_directives (ds : list directive) (input : string)
    (stored : list scanned) : option scan :=
  match ds with
  | [] => Some (scan_end false stored input)
  | DSpace :: ds => scan_directives ds (skip_space input) stored
  | DChar c :: ds =>
      match input with
      | EmptyString => Some (scan_end true stored input)
      | String c' rest =>
          if Ascii.eqb c c' then scan_directives ds rest stored
          else Some (scan_end false stored input)
      end
  | DInt :: ds =>
      match skip_space input with
      | EmptyString => Some (scan_end true stored EmptyString)
      | String c rest =>
          let '(negative, number) :=
            if Ascii.eqb c "-" then (true, rest)
            else if Ascii.eqb c "+" then (false, rest)
            else (false, String c rest) in
          let '(digits, unread) := span isdigit None number in
          match digits with
          | EmptyString => Some (scan_end false stored unread)
          | _ =>
              let z := if negative then - decimal 0 digits else decimal 0 digits in
              if is_intb z then scan_directives ds unread (stored ++ [ScannedInt z])
              else None
          end
      end
  | DString width :: ds =>
      match skip_space input with
      | EmptyString => Some (scan_end true stored EmptyString)
      | String c rest =>
          let '(item, unread) :=
            span (fun c => negb (isspace c)) width (String c rest) in
          scan_directives ds unread (stored ++ [ScannedString item])
      end
  | DExcept width set :: ds =>
      match input with
      | EmptyString => Some (scan_end true stored input)
      | _ =>
          let '(item, unread) := span (fun c => negb (in_set c set)) width input in
          match item with
          | EmptyString => Some (scan_end false stored unread)
          | _ => scan_directives ds unread (stored ++ [ScannedString item])
          end
      end
  end.

(** [fscanf(file, fmt, ...)] on the text not yet read. *)
Definition fscanf (file : string) (fmt : string) : option scan :=
  ds ← parse_format fmt; scan_directives ds file [].

(** The integers stored go to the fields the pointers name, in order. *)
Fixpoint store_ints {S : Type} (fields : list (Z -> S -> S))
    (stored : list scanned) (s : S) : S :=
  match fields, stored with
  | set :: fields, ScannedInt z :: stored => store_ints fields stored (set z s)
  | _, _ => s
  end.

(** ** The song file ([save_song] and [load_song] on the text) *)

Section SongText.
Context {D : Type} {DA : DoubleArith D} {P : Platform} {L : Libm D}.

Definition set_note (v : Z) (c : Cell D) : Cell D :=
  mkCell v (original_note c) (duration_ms c) (sample c) (playing c) (pitch_ratio c).
Definition set_original_note (v : Z) (c : Cell D) : Cell D :=
  mkCell (note c) v (duration_ms c) (sample c) (playing c) (pitch_ratio c).
Definition set_sample (v : string) (c : Cell D) : Cell D :=
  mkCell (note c) (original_note c) (duration_ms c) v (playing c) (pitch_ratio c).
Definition set_pitch_ratio (v : D) (c : Cell D) : Cell D :=
  mkCell (note c) (original_note c) (duration_ms c) (sample c) (playing c) v.

(** *** [save_song] (lines 1027-1058)

    The text written and the value returned: no text and 0 when
    [fopen] fails.  [None] stands for undefined behaviour: a cell read
    outside the arrays.  Terminal output is left out. *)
Definition save_cell (song : Song D) (ch row : nat) (file : option string)
  : option string :=
  file ← file;
  c ← cell_at song ch row;
  let note_name := midi_to_note_name (note c) in
  fprintf file ("%d %d %s %s" ++ nl)
    [ArgInt (note c); ArgInt (original_note c); ArgString note_name;
     ArgString (sample c)].

Definition save_song (song : Song D) (filename : string)
  : option (option string * Z) :=
  if negb (fopen_ok filename) then Some (None, 0)
  else
    file ← fprintf EmptyString ("CTracker Song" ++ nl) [];
    file ← fprintf file ("BPM: %d" ++ nl) [ArgInt (bpm song)];
    file ← fprintf file ("Rows: %d" ++ nl) [ArgInt (num_rows song)];
    file ← fprintf file ("Channels: %d" ++ nl) [ArgInt (num_channels song)];
    file ← fprintf file ("Loop: %d %d %d" ++ nl)
             [ArgInt (loop_enabled song); ArgInt (loop_start song);
              ArgInt (loop_end song)];
    file ← for_loop (num_channels song) (fun ch file =>
              for_loop (num_rows song) (fun row file =>
                save_cell song ch row file) file) (Some file);
    Some (Some file, 1).

(** *** [load_song] on the text of the file (lines 952-1024)

    [file] is the text of the file, [None] when [fopen] fails.  The
    song after the call and the value returned; [None] stands for
    undefined behaviour: a number in the file that does not fit an
    [int], a store into a cell outside the arrays.  Terminal output is
    left out. *)

(** [fscanf] stores the two numbers through [&c->note] and
    [&c->original_note] as it converts them: when it has stored
    anything, the cell has to be inside the arrays. *)
Definition store_in_cell (stored : list scanned) (ch row : nat) (song : Song D)
  : option (Song D) :=
  match stored with
  | [] => Some song
  | _ =>
      _ ← cell_at song ch row;
      Some (alter_cell (store_ints [set_note; set_original_note] stored) ch row song)
  end.

(** Lines 998-1015.  The state of the cell loop is the song, the text
    not yet read and whether the function has returned 0. *)
Definition load_cell_text (note_duration : Z) (ch row : nat)
    (st : option (Song D * string * bool)) : option (Song D * string * bool) :=
  '(song, file, returned) ← st;
  if returned : bool then Some (song, file, true)
  else
    r ← fscanf file ("%d %d %15s %63[^" ++ nl ++ "]" ++ nl);
    song ← store_in_cell (scan_stored r) ch row song;
    if negb (scan_result r =? 4) then Some (song, scan_unread r, true)
    else
      match scan_stored r with
      | [_; _; ScannedString note_str; ScannedString sample] =>
          let sample := line_of sample in
          let fill (c : Cell D) : Cell D :=
            let c := set_duration_ms note_duration (set_sample sample c) in
            if (note c >? 0) && (original_note c >? 0)
            then set_pitch_ratio (calculate_pitch_ratio (original_note c) (note c)) c
            else set_pitch_ratio (d_lit 1) c in
          Some (alter_cell fill ch row song, scan_unread r, false)
      | _ => None
      end.

Definition load_song_text (file : option string) (song : Song D)
  : option (Song D * Z) :=
  match file with
  | None => Some (song, 0)
  | Some file =>
      (* fgets(header, sizeof(header), file) *)
      let file := match fgets 64 file with
                  | Some (_, file) => file
                  | None => file
                  end in
      r ← fscanf file ("BPM: %d" ++ nl);
      let song := store_ints [set_bpm] (scan_stored r) song in
      if negb (scan_result r =? 1) then Some (song, 0)
      else
        r ← fscanf (scan_unread r) ("Rows: %d" ++ nl);
        let song := store_ints [set_num_rows] (scan_stored r) song in
        if negb (scan_result r =? 1) then Some (song, 0)
        else
          r ← fscanf (scan_unread r) ("Channels: %d" ++ nl);
          let song := store_ints [set_num_channels] (scan_stored r) song in
          if negb (scan_result r =? 1) then Some (song, 0)
          else
            r ← fscanf (scan_unread r) ("Loop: %d %d %d" ++ nl);
            let song :=
              store_ints [set_loop_enabled; set_loop_start; set_loop_end]
                         (scan_stored r) song in
            if negb (scan_result r =? 3) then Some (song, 0)
            else
              let note_duration := get_note_duration_ms song in
              '(song, _, returned) ←
                for_loop (num_channels song) (fun ch st =>
                  for_loop (num_rows song) (fun row st =>
                    load_cell_text note_duration ch row st) st)
                  (Some (song, scan_unread r, false));
              Some (song, if returned : bool then 0 else 1)
  end.
End SongText.

(** *** Predicates on the text of a song file *)

Fixpoint all_chars (p : ascii -> bool) (s : string) : bool :=
  match s with
  | EmptyString => true
  | String c rest => p c && all_chars p rest
  end.

(** The text is empty or starts with a character satisfying [p]. *)
Definition starts_with (p : ascii -> bool) (s : string) : bool :=
  match s with
  | EmptyString => true
  | String c _ => p c
  end.

(** The characters [%d] prints. *)
Definition number_char (c : ascii) : bool := isdigit c || Ascii.eqb c "-".

(** A sample name that [load_song] reads back as it is: not empty,
    at most 63 characters (it fits [char sample[64]]), without newline
    or NUL, and not starting with white space. *)
Definition sample_name_loads (s : string) : bool :=
  match s with
  | EmptyString => false
  | String c _ =>
      negb (isspace c) && (String.length s <=? 63)%nat &&
      all_chars (fun c => negb (Ascii.eqb c "010") && negb (Ascii.eqb c "000")) s
  end.

(** A note name as [%15s] reads it back: one to four characters, none
    of them white space. *)
Definition plain_name (s : string) : bool :=
  (1 <=? String.length s)%nat && (String.length s <=? 4)%nat &&
  all_chars (fun c => negb (isspace c)) s.

(** The directives of the format of a cell line. *)
Definition cell_directives : list directive :=
  [DInt; DSpace; DInt; DSpace; DString (Some 15%nat); DSpace;
   DExcept (Some 63%nat) nl; DSpace].

(** The cells of the grid in the order of the two loops. *)
Definition grid (num_channels num_rows : Z) : list (nat * nat) :=
  list_prod (seq 0 (Z.to_nat num_channels)) (seq 0 (Z.to_nat num_rows)).

(** The line [save_song] writes for a cell, before the sample name. *)
Definition cell_prefix {D : Type} (c : Cell D) : string :=
  print_int (note c) ++ " " ++ print_int (original_note c) ++ " " ++
  midi_to_note_name (note c) ++ " ".

Definition cell_text {D : Type} (c : Cell D) : string :=
  cell_prefix c ++ sample c ++ nl.

Fixpoint cells_text {D : Type} (cs : list (Cell D)) : string :=
  match cs with
  | [] => EmptyString
  | c :: cs => cell_text c ++ cells_text cs
  end.

(** What [load_song] makes of a cell [c0] when it reads the line of
    the cell [c]. *)
Definition reloaded_cell {D : Type} {DA : DoubleArith D} {L : Libm D}
    (note_duration : Z) (c c0 : Cell D) : Cell D :=
  mkCell (note c) (original_note c) note_duration (sample c) (playing c0)
         (calculate_pitch_ratio (original_note c) (note c)).

(** The text [save_song] writes for a song whose cells, in the order
    of the two loops, are [cs]. *)
Definition song_text {D : Type} (song : Song D) (cs : list (Cell D)) : string :=
  "CTracker Song" ++ nl ++
  "BPM: " ++ print_int (bpm song) ++ nl ++
  "Rows: " ++ print_int (num_rows song) ++ nl ++
  "Channels: " ++ print_int (num_channels song) ++ nl ++
  "Loop: " ++ print_int (loop_enabled song) ++ " " ++ print_int (loop_start song) ++
    " " ++ print_int (loop_end song) ++ nl ++
  cells_text cs.

(** Two songs with the same settings, whatever their cells. *)
Definition same_settings {D : Type} (a b : Song D) : Prop :=
  bpm a = bpm b /\ num_rows a = num_rows b /\ num_channels a = num_channels b /\
  loop_enabled a = loop_enabled b /\ loop_start a = loop_start b /\
  loop_end a = loop_end b.

(** The settings of a song are [int] fields. *)
Definition int_settings {D : Type} (song : Song D) : Prop :=
  is_int (bpm song) /\ is_int (num_rows song) /\ is_int (num_channels song) /\
  is_int (loop_enabled song) /\ is_int (loop_start song) /\ is_int (loop_end song).

(** The cell [(ch, row)] is one of the [num_channels] x [num_rows]
    cells that a song uses. *)
Definition in_grid {D : Type} (song : Song D) (ch row : nat) : Prop :=
  Z.of_nat ch < num_channels song /\ Z.of_nat row < num_rows song.

(** A song of one channel and two rows, both with a sample. *)
Definition two_sample_song : Song float :=
  set_num_channels 1
    (set_num_rows 2
       (alter_cell (fun _ => mkCell 72 60 125 "kick.wav" 0 (d_lit 1)) 0 0
          (alter_cell (fun _ => mkCell 57 60 125 "snare drum.wav" 0 (d_lit 1)) 0 1
             (initial_song (DA := binary64))))).

(** A string stored by [fscanf] takes at most [n] characters. *)
Definition fits (n : nat) (x : scanned) : Prop :=
  match x with
  | ScannedString s => (String.length s <= n)%nat
  | ScannedInt _ => True
  end.

(** The string conversions of a format have a field width of at most [n]. *)
Definition width_within (n : nat) (d : directive) : Prop :=
  match d with
  | DString w | DExcept w _ => exists k, w = Some k /\ (k <= n)%nat
  | _ => True
  end.

(** A cell as [load_song] leaves it: the row duration of the song, the
    pitch ratio of its two notes, and a sample name that fits
    [char sample[64]]. *)
Definition cell_consistent {D : Type} {DA : DoubleArith D} {L : Libm D}
    (note_duration : Z) (c : Cell D) : Prop :=
  duration_ms c = note_duration /\
  pitch_ratio c = calculate_pitch_ratio (original_note c) (note c) /\
  (String.length (sample c) <= 63)%nat /\
  line_of (sample c) = sample c.

(** A file of one channel and three rows, as an editor of text would
    leave it. *)
Definition hand_written_file : string :=
  "CTracker Song" ++ nl ++ "BPM:90" ++ nl ++ "Rows: 3" ++ nl ++ "Channels: 1" ++ nl ++
  "Loop: 1 0 2" ++ nl ++
  "72 60 C4 kick.wav" ++ nl ++
  "  0 0 ---   no sample" ++ nl ++ nl ++
  "+64 -5 whatever snare drum.wav".

Definition hand_written_song : Song float :=
  match load_song_text (L := square_libm) (Some hand_written_file)
          (initial_song (DA := binary64)) with
  | Some (song, _) => song
  | None => initial_song
  end.

(** A file announcing 17 rows, one more than the arrays hold, with a
    line for each of them. *)
Definition seventeen_rows : Song float :=
  set_num_channels 1 (set_num_rows 17 (initial_song (DA := binary64))).

Definition kick_cell : Cell float := mkCell 60 60 125 "kick.wav" 0 (d_lit 1).

(** * Proofs *)

(** Split a conjunction into its parts, and nothing else. *)
Ltac split_ands := repeat match goal with |- _ /\ _ => split end.

(** ** The resampler *)

Section IntegerFacts.

Lemma wrap_u32_small (z : Z) : 0 <= z < 2 ^ 32 -> wrap_u32 z = z.
Proof. intros Hz. unfold wrap_u32. apply Z.mod_small. exact Hz. Qed.

Lemma wrap_u32_le (z : Z) : 0 <= z -> 0 <= wrap_u32 z <= z.
Proof.
  intros Hz. unfold wrap_u32. split.
  - apply Z.mod_pos_bound. lia.
  - apply Z.mod_le; lia.
Qed.

Lemma wrap_s16_small (z : Z) : is_s16 z -> wrap_s16 z = z.
Proof.
  unfold is_s16, wrap_s16. intros Hz.
  rewrite Z.mod_small by lia. lia.
Qed.

End IntegerFacts.

Lemma b64_lit_1 : d_lit (D:=float) 1 = 1%float.
Proof. vm_compute. reflexivity. Qed.
Lemma b64_lit_2 : d_lit (D:=float) 2 = 2%float.
Proof. vm_compute. reflexivity. Qed.

Lemma SFcompare_flip (x y : spec_float) :
  SFcompare y x = option_map CompOpp (SFcompare x y).
Proof.
  destruct x as [sx| sx | | sx mx ex], y as [sy | sy | | sy my ey]; simpl;
    try destruct sx; try destruct sy; simpl; try reflexivity.
  all: rewrite (Z.compare_antisym ex ey); destruct (ex ?= ey); simpl; try reflexivity.
  all: change (Pos.compare_cont Eq ?a ?b) with (Pos.compare a b).
  all: rewrite (Pos.compare_antisym mx my); try reflexivity.
Qed.

Lemma b64_leb_ltb (x y : float) :
  PrimFloat.leb x y = true -> PrimFloat.ltb y x = false.
Proof.
  rewrite leb_spec, ltb_spec. unfold SFleb, SFltb.
  rewrite (SFcompare_flip (Prim2SF x)).
  destruct (SFcompare (Prim2SF x) (Prim2SF y)) as [[]|]; simpl; congruence.
Qed.

Lemma b64_limit_pitch_id (r : float) :
  PrimFloat.leb 0.5 r = true -> PrimFloat.leb r 2 = true ->
  limit_pitch r = r.
Proof.
  intros Hlo Hhi. unfold limit_pitch. rewrite b64_lit_2.
  cbn [d_lt d_0_5 binary64].
  rewrite (b64_leb_ltb _ _ Hhi), (b64_leb_ltb _ _ Hlo). reflexivity.
Qed.

Lemma length_shifted {D} {DA : DoubleArith D} {P : Platform}
    (original : list Z) (pitch_ratio : D) (out : list Z) :
  no_shift_needed pitch_ratio = false ->
  shifted (pitch_shift_sample original pitch_ratio) = Returned out ->
  Z.of_nat (length out) =
    shifted_len (Z.of_nat (length original)) (limit_pitch pitch_ratio).
Proof.
  intros Hslow. unfold pitch_shift_sample. rewrite Hslow.
  set (n := shifted_len _ _).
  destruct (malloc_ok (n * 2)); [| discriminate].
  destruct (mapM _ _) as [out'|] eqn:Hm; [| discriminate].
  cbn [shifted]. intros [= <-]. apply length_mapM in Hm.
  rewrite length_seqZ in Hm. rewrite <- Hm.
  assert (0 <= n) by (apply Z.mod_pos_bound; lia). lia.
Qed.

Lemma new_len_shifted {D} {DA : DoubleArith D} {P : Platform}
    (original : list Z) (pitch_ratio : D) :
  no_shift_needed pitch_ratio = false ->
  new_len (pitch_shift_sample original pitch_ratio) =
    Some (shifted_len (Z.of_nat (length original)) (limit_pitch pitch_ratio)).
Proof.
  intros Hslow. unfold pitch_shift_sample. rewrite Hslow.
  destruct (malloc_ok _); [destruct (mapM _ _) |]; reflexivity.
Qed.

(** C3, as stated, fails inside the no-shift band: for the ratio 1.0005,
    which lies in [0.5, 2.0], the resampler returns the three samples of
    the source, while floor(3 / 1.0005) = 2.  In binary64 and in exact
    arithmetic alike. *)
Lemma resample_length_fails_inside_no_shift_band :
  let original := [100; -200; 300] in
  original <> [] /\
  (PrimFloat.leb 0.5 1.0005 = true /\ PrimFloat.leb 1.0005 2 = true /\
   pitch_shift_sample (P := studio) original (1.0005)%float
     = mkShift (Returned original) (Some 3) /\
   wrap_u32 (b64_to_int (b64_of_int 3 / 1.0005)) = 2 /\
   Z.of_nat (length original) <> wrap_u32 (b64_to_int (b64_of_int 3 / 1.0005)))
  /\
  ((1 # 2 <= 2001 # 2000)%Q /\ (2001 # 2000 <= 2)%Q /\
   pitch_shift_sample (P := studio) original (2001 # 2000)%Q
     = mkShift (Returned original) (Some 3) /\
   Qfloor (inject_Z 3 / (2001 # 2000)) = 2 /\
   Z.of_nat (length original) <> Qfloor (inject_Z 3 / (2001 # 2000))).
Proof.
  cbv zeta. split; [discriminate|]. split.
  - split_ands; try (vm_compute; reflexivity); vm_compute; discriminate.
  - split_ands; try (vm_compute; reflexivity); vm_compute; discriminate.
Qed.

(** C9.  Resampling with the ratio exactly 1.0 returns a buffer with the
    samples of the source, unchanged and in the same number, whenever the
    copy can be allocated; in binary64 and in exact arithmetic. *)
Theorem unit_ratio_returns_the_source {P : Platform} (original : list Z) :
  malloc_ok (Z.of_nat (length original) * 2) = true ->
  pitch_shift_sample original 1%float
    = mkShift (Returned original) (Some (Z.of_nat (length original)))
  /\
  pitch_shift_sample original 1%Q
    = mkShift (Returned original) (Some (Z.of_nat (length original))).
Proof.
  intros Hm. unfold pitch_shift_sample.
  assert (Hb : no_shift_needed 1%float = true) by (vm_compute; reflexivity).
  assert (Hq : no_shift_needed 1%Q = true) by (vm_compute; reflexivity).
  rewrite Hb, Hq, Hm. split; reflexivity.
Qed.

Lemma unit_ratio_returns_the_source_witness :
  @malloc_ok studio (Z.of_nat (length [100; -200; 300]) * 2) = true /\
  pitch_shift_sample (P := studio) [100; -200; 300] 1%float
    = mkShift (Returned [100; -200; 300]) (Some 3).
Proof.
  split; [reflexivity|].
  apply (unit_ratio_returns_the_source (P := studio) [100; -200; 300]). reflexivity.
Defined.

(** The two arithmetics on one input.  Ten samples come out of seven at
    the ratio 0.7 in both; the ninth differs by one, where the binary64
    sum is rounded below the integer that the exact sum reaches. *)
Example pitch_shift_0_7_binary64 :
  pitch_shift_sample (P := studio) [100; -200; 300; 400; 1000; -32768; 32767]
    (0.7)%float
  = mkShift (Returned [100; -110; 0; 310; 380; 700; -5753; -29391; 6552; 32767])
            (Some 10).
Proof. vm_compute. reflexivity. Qed.

Example pitch_shift_0_7_exact :
  pitch_shift_sample (P := studio) [100; -200; 300; 400; 1000; -32768; 32767]
    (7 # 10)%Q
  = mkShift (Returned [100; -110; 0; 310; 380; 700; -5753; -29391; 6553; 32767])
            (Some 10).
Proof. vm_compute. reflexivity. Qed.

(** Ratios outside [0.5, 2.0] are limited: 5.0 resamples as 2.0, 0.1 as
    0.5, and an infinite ratio as 2.0. *)
Example pitch_shift_limited :
  pitch_shift_sample (P := studio) [100; -200; 300; 400; 1000; -32768; 32767] 5%float
    = mkShift (Returned [100; 300; 1000]) (Some 3) /\
  new_len (pitch_shift_sample (P := studio)
             [100; -200; 300; 400; 1000; -32768; 32767] (0.1)%float) = Some 14 /\
  pitch_shift_sample (P := studio) [1; 2; 3] infinity
    = mkShift (Returned [1]) (Some 1).
Proof. split_ands; vm_compute; reflexivity. Qed.

(** ** Counted loops *)

Lemma for_loop_nonpos {S : Type} (n : Z) (body : nat -> S -> S) (s : S) :
  n <= 0 -> for_loop n body s = s.
Proof.
  intros Hn. unfold for_loop. replace (Z.to_nat n) with 0%nat by lia. reflexivity.
Qed.

Lemma for_loop_succ {S : Type} (n : nat) (body : nat -> S -> S) (s : S) :
  for_loop (Z.of_nat (Datatypes.S n)) body s = body n (for_loop (Z.of_nat n) body s).
Proof.
  unfold for_loop. rewrite !Nat2Z.id, seq_S, fold_left_app. reflexivity.
Qed.

(** An invariant that every pass preserves holds after the loop. *)
Lemma for_loop_invariant {S : Type} (Inv : nat -> S -> Prop)
    (n : nat) (body : nat -> S -> S) (s : S) :
  Inv 0%nat s ->
  (forall i t, (i < n)%nat -> Inv i t -> Inv (Datatypes.S i) (body i t)) ->
  Inv n (for_loop (Z.of_nat n) body s).
Proof.
  intros H0 Hstep. induction n as [|n IH].
  - exact H0.
  - rewrite for_loop_succ. apply Hstep; [lia|]. apply IH.
    intros i t Hi. apply Hstep. lia.
Qed.

(** ** Song editing *)

Section Editing.
Context {D : Type} {DA : DoubleArith D}.

Lemma cell_at_alter_cell (f : Cell D -> Cell D) (ch row c r : nat) (s : Song D) :
  cell_at (alter_cell f ch row s) c r =
    if decide (c = ch /\ r = row) then f <$> cell_at s c r else cell_at s c r.
Proof.
  unfold cell_at, alter_cell; cbn [channels].
  destruct (decide (c = ch)) as [->|Hc].
  - rewrite list_lookup_alter, decide_True by reflexivity.
    destruct (channels s !! ch) as [t|]; cbn.
    + destruct (decide (r = row)) as [->|Hr].
      * rewrite list_lookup_alter, !decide_True by auto. reflexivity.
      * rewrite list_lookup_alter_ne by auto. rewrite decide_False by tauto. reflexivity.
    + destruct (decide _); reflexivity.
  - rewrite list_lookup_alter_ne by auto. rewrite decide_False by tauto. reflexivity.
Qed.

Lemma loop_undefined {S : Type} (n : Z) (body : nat -> option S -> option S) :
  (forall i, body i None = None) -> for_loop n body None = None.
Proof.
  intros Hb. unfold for_loop. induction (seq 0 (Z.to_nat n)) as [|i passes IH];
    cbn [fold_left]; [reflexivity|]. rewrite Hb. exact IH.
Qed.

Lemma same_duration (s t : Song D) : bpm t = bpm s ->
  get_note_duration_ms t = get_note_duration_ms s.
Proof. intros Hb. unfold get_note_duration_ms. rewrite Hb. reflexivity. Qed.

Lemma inner_loop_durations (ch : nat) (rows : nat) (s : Song D) :
  durations_stored ch rows (get_note_duration_ms s) s
    (for_loop (Z.of_nat rows) (fun row st => store_cell_duration ch row st) (Some s)).
Proof.
  apply (for_loop_invariant
           (fun i st => durations_stored ch i (get_note_duration_ms s) s st)).
  - cbn [durations_stored]. unfold durations_set. split_ands; try reflexivity.
    intros c r; rewrite decide_False by lia; reflexivity.
  - intros i [t|] Hi Hinv; cbn [durations_stored] in Hinv.
    + destruct Hinv as (Hc & Hr & Hb & Hls & Hle & Hen & Hcells).
      unfold store_cell_duration. cbn [mbind option_bind].
      pose proof (Hcells ch i) as Hi0. rewrite decide_False in Hi0 by lia.
      destruct (cell_at t ch i) as [c0|] eqn:Ec; cbn [mbind option_bind durations_stored].
      * unfold durations_set, set_cell_duration.
        split_ands;
          cbn [alter_cell num_channels num_rows bpm loop_start loop_end loop_enabled];
          try assumption.
        intros c r. rewrite cell_at_alter_cell, Hcells, (same_duration s t Hb).
        destruct (decide (c = ch /\ r = i)) as [[-> ->]|Hne].
        -- rewrite decide_False by lia. rewrite decide_True by lia. reflexivity.
        -- destruct (decide (c = ch /\ (r < i)%nat)) as [[-> Hlt]|Hn2].
           ++ rewrite decide_True by lia. reflexivity.
           ++ rewrite decide_False by lia. reflexivity.
      * exists i. split; [lia | congruence].
    + destruct Hinv as (r & Hr & Hnone). cbn. exists r. split; [lia | exact Hnone].
Qed.

Lemma outer_loop_durations (chs : nat) (s : Song D) :
  grid_durations_stored chs (Z.to_nat (num_rows s)) (get_note_duration_ms s) s
    (for_loop (Z.of_nat chs) (fun ch st =>
       for_loop (num_rows s) (fun row st => store_cell_duration ch row st) st) (Some s)).
Proof.
  apply (for_loop_invariant
           (fun i st => grid_durations_stored i (Z.to_nat (num_rows s))
                          (get_note_duration_ms s) s st)).
  - cbn [grid_durations_stored]. unfold grid_durations_set. split_ands; try reflexivity.
    all: intros c r; rewrite decide_False by lia; reflexivity.
  - intros i [t|] Hi Hinv; cbn [grid_durations_stored] in Hinv.
    + destruct Hinv as (Hc & Hr & Hb & Hls & Hle & Hen & Hcells).
      assert (Hrows : for_loop (num_rows s) (fun row st => store_cell_duration i row st)
                        (Some t)
                      = for_loop (Z.of_nat (Z.to_nat (num_rows s)))
                          (fun row st => store_cell_duration i row st) (Some t)).
      { unfold for_loop. rewrite Nat2Z.id. reflexivity. }
      rewrite Hrows. clear Hrows.
      pose proof (inner_loop_durations i (Z.to_nat (num_rows s)) t) as Hinner.
      rewrite (same_duration s t Hb) in Hinner.
      destruct (for_loop _ _ (Some t)) as [t'|]; cbn [durations_stored] in Hinner;
        cbn [grid_durations_stored].
      * destruct Hinner as (Hc' & Hr' & Hb' & Hls' & Hle' & Hen' & Hcells').
        unfold grid_durations_set. split_ands; try congruence.
        intros c r. rewrite Hcells', Hcells.
        destruct (decide (c = i /\ (r < Z.to_nat (num_rows s))%nat)) as [[-> Hlt]|Hne].
        -- rewrite decide_False by lia. rewrite decide_True by lia. reflexivity.
        -- destruct (decide ((c < i)%nat /\ (r < Z.to_nat (num_rows s))%nat))
             as [[Hlt1 Hlt2]|Hn2].
           ++ rewrite decide_True by lia. reflexivity.
           ++ rewrite decide_False by lia. reflexivity.
      * destruct Hinner as (r & Hr0 & Hnone). exists i, r.
        split; [lia|]. split; [exact Hr0|].
        rewrite Hcells, decide_False in Hnone by lia. exact Hnone.
    + destruct Hinv as (c & r & Hc & Hr & Hnone).
      rewrite loop_undefined by reflexivity. cbn.
      exists c, r. split; [lia|]. split; assumption.
Qed.

Lemma change_bpm_rejected (new_bpm : Z) (song : Song D) :
  new_bpm < 20 \/ 300 < new_bpm -> change_bpm new_bpm song = Some song.
Proof.
  intros Hout. unfold change_bpm.
  destruct ((20 <=? new_bpm) && (new_bpm <=? 300)) eqn:E; [| reflexivity].
  apply andb_true_iff in E. destruct E as [E1 E2].
  apply Z.leb_le in E1, E2. lia.
Qed.

(** What an accepted bpm leaves: the durations stored in the cells of
    the grid, or nothing defined when one of them is outside the
    arrays. *)
Lemma change_bpm_accepted (new_bpm : Z) (song : Song D) :
  20 <= new_bpm <= 300 ->
  grid_durations_stored (Z.to_nat (num_channels song)) (Z.to_nat (num_rows song))
    (Z.quot (Z.quot 60000 new_bpm) 4) (set_bpm new_bpm song)
    (change_bpm new_bpm song).
Proof.
  intros Hin. unfold change_bpm.
  replace ((20 <=? new_bpm) && (new_bpm <=? 300)) with true
    by (symmetry; apply andb_true_iff; split; apply Z.leb_le; lia).
  set (s1 := set_bpm new_bpm song).
  assert (Hn : for_loop (num_channels s1) (fun ch st =>
                 for_loop (num_rows s1) (fun row st => store_cell_duration ch row st) st)
                 (Some s1)
             = for_loop (Z.of_nat (Z.to_nat (num_channels s1))) (fun ch st =>
                 for_loop (num_rows s1) (fun row st => store_cell_duration ch row st) st)
                 (Some s1)).
  { unfold for_loop. rewrite Nat2Z.id. reflexivity. }
  rewrite Hn.
  assert (Hd : get_note_duration_ms s1 = Z.quot (Z.quot 60000 new_bpm) 4).
  { unfold get_note_duration_ms, s1; cbn [set_bpm bpm].
    destruct (Z.eqb_spec new_bpm 0); [lia | reflexivity]. }
  rewrite <- Hd. exact (outer_loop_durations (Z.to_nat (num_channels s1)) s1).
Qed.

(** With the grid inside the arrays an accepted bpm is stored. *)
Lemma change_bpm_defined (new_bpm : Z) (song : Song D) :
  20 <= new_bpm <= 300 -> grid_in_arrays song ->
  exists song', change_bpm new_bpm song = Some song'.
Proof.
  intros Hin Hgrid. pose proof (change_bpm_accepted new_bpm song Hin) as H.
  destruct (change_bpm new_bpm song) as [song'|]; [eauto|].
  destruct H as (c & r & Hc & Hr & Hnone). exfalso.
  destruct (Hgrid c r) as [x Hx]; [lia | lia |].
  change (cell_at (set_bpm new_bpm song) c r) with (cell_at song c r) in Hnone.
  congruence.
Qed.

(** C10, amended.  [change_bpm] accepts a new bpm only in [20, 300].
    For a value outside that range the song is left as it was.  For a
    value inside, and a song whose num_channels x num_rows grid lies
    inside the arrays, bpm becomes that value, every cell of the grid
    gets the duration (60000 / bpm) / 4 of the new bpm, which is the row
    duration [get_note_duration_ms] then answers, every cell keeps its
    other fields, and nothing else in the song changes. *)
Theorem change_bpm_accepts_20_to_300 (new_bpm : Z) (song : Song D) :
  (new_bpm < 20 \/ 300 < new_bpm -> change_bpm new_bpm song = Some song) /\
  (20 <= new_bpm <= 300 -> grid_in_arrays song ->
     exists song' : Song D,
       change_bpm new_bpm song = Some song' /\
       bpm song' = new_bpm /\
       get_note_duration_ms song' = Z.quot (Z.quot 60000 new_bpm) 4 /\
       num_channels song' = num_channels song /\ num_rows song' = num_rows song /\
       loop_start song' = loop_start song /\ loop_end song' = loop_end song /\
       loop_enabled song' = loop_enabled song /\
       forall ch row : nat,
         match cell_at song ch row with
         | Some c =>
             exists c' : Cell D,
               cell_at song' ch row = Some c' /\
               duration_ms c' =
                 (if decide (Z.of_nat ch < num_channels song /\
                             Z.of_nat row < num_rows song)
                  then Z.quot (Z.quot 60000 new_bpm) 4
                  else duration_ms c) /\
               note c' = note c /\ original_note c' = original_note c /\
               sample c' = sample c /\ playing c' = playing c /\
               pitch_ratio c' = pitch_ratio c
         | None => cell_at song' ch row = None
         end).
Proof.
  split; [apply change_bpm_rejected|].
  intros Hin Hgrid.
  destruct (change_bpm_defined new_bpm song Hin Hgrid) as [song' Hsome].
  pose proof (change_bpm_accepted new_bpm song Hin) as H. rewrite Hsome in H.
  cbn [grid_durations_stored] in H.
  destruct H as (Hc & Hr & Hb & Hls & Hle & Hen & Hcells).
  cbn [set_bpm num_channels num_rows bpm loop_start loop_end loop_enabled] in *.
  exists song'. split_ands; try assumption.
  - unfold get_note_duration_ms. rewrite Hb.
    destruct (Z.eqb_spec new_bpm 0); [lia | reflexivity].
  - intros ch row. rewrite Hcells.
    change (cell_at (set_bpm new_bpm song) ch row) with (cell_at song ch row).
    destruct (cell_at song ch row) as [c|]; [|destruct (decide _); reflexivity].
    destruct (decide (Z.of_nat ch < num_channels song /\ Z.of_nat row < num_rows song)).
    + rewrite decide_True by lia. eexists. split; [reflexivity|].
      split_ands; reflexivity.
    + rewrite decide_False by lia. eexists. split; [reflexivity|].
      split_ands; reflexivity.
Qed.

End Editing.

Lemma initial_song_grid {D : Type} {DA : DoubleArith D} (ch row : nat) :
  Z.of_nat ch < num_channels (initial_song (D := D)) ->
  Z.of_nat row < num_rows (initial_song (D := D)) ->
  cell_at (initial_song (D := D)) ch row = Some initial_cell.
Proof.
  cbn [num_channels num_rows initial_song]. unfold MAX_CHANNELS, MAX_ROWS.
  intros Hch Hrow. unfold cell_at, initial_song. cbn [channels].
  rewrite lookup_replicate_2 by (unfold MAX_CHANNELS; lia). cbn [cells].
  apply lookup_replicate_2. unfold MAX_ROWS. lia.
Qed.

Lemma change_bpm_accepts_20_to_300_witness :
  exists song' : Song float,
    change_bpm 140 (initial_song (DA := binary64)) = Some song' /\
    bpm song' = 140 /\ get_note_duration_ms song' = 107 /\
    exists c' : Cell float, cell_at song' 0 0 = Some c' /\ duration_ms c' = 107.
Proof.
  destruct (change_bpm_accepts_20_to_300 140 (initial_song (DA := binary64)))
    as [_ Hin].
  destruct Hin as (song' & Hsome & Hb & Hd & _ & _ & _ & _ & _ & Hcells).
  - lia.
  - intros ch row Hch Hrow. rewrite initial_song_grid by assumption. eauto.
  - exists song'. split; [exact Hsome|]. split; [exact Hb|]. split; [exact Hd|].
    specialize (Hcells 0%nat 0%nat).
    change (cell_at (initial_song (DA := binary64)) 0 0) with (Some (initial_cell (DA := binary64)))
      in Hcells.
    destruct Hcells as (c' & Hc' & Hdur & _). exists c'. split; [exact Hc'|].
    rewrite Hdur. reflexivity.
Defined.

(** C10, as stated, fails for a song with more rows than the arrays
    hold, such as [load_song] accepts: for 17 rows the loops of
    [change_bpm] store a duration past the end of [cells], in row 16.
    The behaviour is undefined; the song is not left with its durations
    recomputed. *)
Lemma change_bpm_stores_outside_the_arrays :
  20 <= 140 <= 300 /\
  num_rows (set_num_rows 17 (initial_song (DA := binary64))) = 17 /\
  cell_at (set_num_rows 17 (initial_song (DA := binary64))) 0 16 = None /\
  change_bpm 140 (set_num_rows 17 (initial_song (DA := binary64))) = None.
Proof. split_ands; try lia; vm_compute; reflexivity. Qed.

Section EditingInvariant.
Context {D : Type} {DA : DoubleArith D}.

Lemma set_loop_establishes_window (choice : ascii) (start end_ : Z) (song : Song D) :
  loop_window_ok (set_loop choice start end_ song).
Proof.
  unfold set_loop, loop_window_ok.
  destruct (Ascii.eqb choice "y" || Ascii.eqb choice "Y"); cbn; [| congruence].
  destruct ((0 <=? start) && (start <? end_) && (end_ <? num_rows song)) eqn:E;
    cbn; [| congruence].
  intros _. apply andb_true_iff in E. destruct E as [E E3].
  apply andb_true_iff in E. destruct E as [E1 E2].
  apply Z.leb_le in E1. apply Z.ltb_lt in E2, E3. lia.
Qed.

Lemma change_bpm_preserves_window (new_bpm : Z) (song song' : Song D) :
  change_bpm new_bpm song = Some song' ->
  loop_window_ok song -> loop_window_ok song'.
Proof.
  intros Hsome Hok.
  destruct (Z_lt_le_dec new_bpm 20) as [Hlo|Hlo];
    [rewrite change_bpm_rejected in Hsome by lia; injection Hsome as <-; exact Hok|].
  destruct (Z_lt_le_dec 300 new_bpm) as [Hhi|Hhi];
    [rewrite change_bpm_rejected in Hsome by lia; injection Hsome as <-; exact Hok|].
  pose proof (change_bpm_accepted new_bpm song ltac:(lia)) as H. rewrite Hsome in H.
  destruct H as (_ & Hr & _ & Hls & Hle & Hen & _).
  cbn [set_bpm num_rows loop_start loop_end loop_enabled] in *.
  unfold loop_window_ok in *. rewrite Hr, Hls, Hle, Hen. exact Hok.
Qed.

End EditingInvariant.

(** C5, at the failing input.  Loading a song whose loop line reads
    [Loop: 1 5 2] succeeds (returns 1) and leaves the loop enabled with
    loop_start = 5 and loop_end = 2 in a song of 16 rows: the loop window
    invariant does not hold, and the row clock of [play_song] then plays
    rows 0, 1, 2 and row 5 ever after.  ([set_loop], the other operation
    that edits the window, does establish the invariant:
    [set_loop_establishes_window].) *)
Theorem load_song_accepts_reversed_loop (L : Libm float) :
  exists song : Song float,
    load_song (Some reversed_loop_file) initial_song = Some (song, 1) /\
    loop_enabled song = 1 /\ loop_start song = 5 /\ loop_end song = 2 /\
    num_rows song = 16 /\
    ~ loop_window_ok song /\
    play_song (P := studio) song (fun _ => false) 9 = [0; 1; 2; 5; 5; 5; 5; 5; 5].
Proof.
  exists (match load_song (Some reversed_loop_file) initial_song with
          | Some (song, _) => song
          | None => initial_song
          end).
  set (song := match load_song (Some reversed_loop_file) initial_song with
               | Some (song, _) => song
               | None => initial_song
               end).
  assert (Hen : loop_enabled song = 1) by (vm_compute; reflexivity).
  assert (Hls : loop_start song = 5) by (vm_compute; reflexivity).
  assert (Hle : loop_end song = 2) by (vm_compute; reflexivity).
  split_ands; try assumption; try (vm_compute; reflexivity).
  unfold loop_window_ok. rewrite Hen, Hls, Hle. intros H.
  specialize (H ltac:(discriminate)). lia.
Qed.

(** ** The row clock *)

Lemma wrap_int_small (z : Z) : is_int z -> wrap_int z = z.
Proof.
  unfold is_int, INT_MIN, INT_MAX, wrap_int. intros Hz.
  rewrite Z.mod_small by lia. lia.
Qed.

Section RowClock.
Context {D : Type} {DA : DoubleArith D}.

(** The step of the source is the policy of the specification. *)
Lemma play_song_step_policy (song : Song D) (current_row loop_count : Z) :
  is_int current_row -> current_row < INT_MAX ->
  match play_song_step song false current_row loop_count with
  | Playing next_row _ => Some next_row
  | Stopped _ => None
  end
  = spec_next_row (negb (loop_enabled song =? 0)) (loop_start song)
      (loop_end song) (num_rows song) current_row.
Proof.
  intros Hint Hmax. unfold play_song_step, spec_next_row.
  rewrite wrap_int_small by (unfold is_int, INT_MIN, INT_MAX in *; lia).
  destruct (negb (loop_enabled song =? 0)); cbn [andb negb].
  - destruct (current_row + 1 >? loop_end song); reflexivity.
  - destruct (current_row + 1 >=? num_rows song); reflexivity.
Qed.

(** The loop counter goes up by one exactly on a wrap. *)
Lemma play_song_step_counts_wraps (song : Song D) (current_row loop_count : Z) :
  is_int current_row -> current_row < INT_MAX ->
  is_int loop_count -> loop_count < INT_MAX ->
  loop_enabled song <> 0 ->
  play_song_step song false current_row loop_count =
    if current_row + 1 >? loop_end song
    then Playing (loop_start song) (loop_count + 1)
    else Playing (current_row + 1) loop_count.
Proof.
  intros Hr Hrm Hc Hcm Hen. unfold play_song_step.
  rewrite !wrap_int_small by (unfold is_int, INT_MIN, INT_MAX in *; lia).
  destruct (Z.eqb_spec (loop_enabled song) 0); [contradiction | reflexivity].
Qed.

Lemma spec_row_2_5_next (k : Z) :
  0 <= k ->
  spec_row_2_5 (k + 1) =
    if spec_row_2_5 k + 1 >? 5 then 2 else spec_row_2_5 k + 1.
Proof.
  intros Hk. unfold spec_row_2_5.
  destruct (Z.leb_spec k 5), (Z.leb_spec (k + 1) 5);
    repeat match goal with
           | |- context [?a >? ?b] => destruct (Z.gtb_spec a b)
           end;
    Z.div_mod_to_equations; lia.
Qed.

Lemma spec_row_2_5_range (k : Z) : 0 <= k -> 0 <= spec_row_2_5 k <= 5.
Proof.
  intros Hk. unfold spec_row_2_5.
  destruct (Z.leb_spec k 5); Z.div_mod_to_equations; lia.
Qed.

Lemma play_song_rows_2_5 (song : Song D) (keys : nat -> bool) :
  loop_enabled song <> 0 -> loop_start song = 2 -> loop_end song = 5 ->
  (forall n, keys n = false) ->
  forall (fuel n k : nat) (loop_count : Z),
    play_song_rows song keys fuel n (spec_row_2_5 (Z.of_nat k)) loop_count
    = map (fun j => spec_row_2_5 (Z.of_nat j)) (seq k fuel).
Proof.
  intros Hen Hls Hle Hkeys fuel.
  induction fuel as [|fuel IH]; intros n k loop_count; [reflexivity|].
  cbn [play_song_rows seq map]. f_equal.
  pose proof (spec_row_2_5_range (Z.of_nat k)) as Hrange.
  pose proof (spec_row_2_5_next (Z.of_nat k)) as Hnext.
  rewrite Hkeys. unfold play_song_step.
  rewrite (wrap_int_small (spec_row_2_5 (Z.of_nat k) + 1))
    by (unfold is_int, INT_MIN, INT_MAX; lia).
  destruct (Z.eqb_spec (loop_enabled song) 0); [contradiction|]. cbn [negb].
  rewrite Hle, Hls.
  assert (IH' : forall n' loop_count',
            play_song_rows song keys fuel n'
              (if spec_row_2_5 (Z.of_nat k) + 1 >? 5 then 2
               else spec_row_2_5 (Z.of_nat k) + 1) loop_count'
            = map (fun j => spec_row_2_5 (Z.of_nat j)) (seq (S k) fuel)).
  { intros n' loop_count'. rewrite <- Hnext by lia.
    replace (Z.of_nat k + 1) with (Z.of_nat (S k)) by lia. apply IH. }
  destruct (spec_row_2_5 (Z.of_nat k) + 1 >? 5); apply IH'.
Qed.

End RowClock.

(** C6.  The row advance of [play_song] is the policy of the
    specification: the next row is current_row + 1, it becomes loop_start
    when the loop is enabled and the next row is past loop_end, and
    playback stops when the loop is disabled and the next row reaches
    num_rows.  With loop_start = 2 and loop_end = 5 and no key pressed,
    the rows played are 0,1,2,3,4,5,2,3,4,5,2,... for any number of
    rows. *)
Theorem scheduler_row_advance {D : Type} {DA : DoubleArith D} {P : Platform}
    (song : Song D) (keys : nat -> bool) :
  (forall current_row loop_count : Z,
     is_int current_row -> current_row < INT_MAX ->
     match play_song_step song false current_row loop_count with
     | Playing next_row _ => Some next_row
     | Stopped _ => None
     end
     = spec_next_row (negb (loop_enabled song =? 0)) (loop_start song)
         (loop_end song) (num_rows song) current_row) /\
  (SDL_Init_ok = true -> Mix_OpenAudio_ok = true ->
   (forall n, keys n = false) ->
   loop_enabled song <> 0 -> loop_start song = 2 -> loop_end song = 5 ->
   (forall fuel : nat,
      play_song song keys fuel = map (fun j => spec_row_2_5 (Z.of_nat j)) (seq 0 fuel)) /\
   play_song song keys 11 = [0; 1; 2; 3; 4; 5; 2; 3; 4; 5; 2]).
Proof.
  split.
  - intros current_row loop_count. apply play_song_step_policy.
  - intros Hsdl Hmix Hkeys Hen Hls Hle.
    assert (Hall : forall fuel : nat,
              play_song song keys fuel
              = map (fun j => spec_row_2_5 (Z.of_nat j)) (seq 0 fuel)).
    { intros fuel. unfold play_song. rewrite Hsdl, Hmix. cbn [negb].
      exact (play_song_rows_2_5 song keys Hen Hls Hle Hkeys fuel 0%nat 0%nat 0). }
    split; [exact Hall|]. rewrite Hall. reflexivity.
Qed.

Lemma scheduler_row_advance_witness :
  @SDL_Init_ok studio = true /\ @Mix_OpenAudio_ok studio = true /\
  loop_enabled (looped_2_5 (DA := binary64)) <> 0 /\
  loop_start (looped_2_5 (DA := binary64)) = 2 /\
  loop_end (looped_2_5 (DA := binary64)) = 5 /\
  play_song (P := studio) (looped_2_5 (DA := binary64)) (fun _ => false) 11
    = [0; 1; 2; 3; 4; 5; 2; 3; 4; 5; 2].
Proof.
  assert (Hen : loop_enabled (looped_2_5 (DA := binary64)) <> 0) by (cbn; lia).
  split; [reflexivity|]. split; [reflexivity|]. split; [exact Hen|].
  split; [reflexivity|]. split; [reflexivity|].
  destruct (scheduler_row_advance (P := studio) (looped_2_5 (DA := binary64))
              (fun _ => false)) as [_ Hseq].
  exact (proj2 (Hseq eq_refl eq_refl (fun _ => eq_refl) Hen eq_refl eq_refl)).
Defined.

(** ** The sample voice *)

Section SampleVoice.
Context {D : Type} {DA : DoubleArith D} {P : Platform}.

(** A voice whose asset does not load leaves its record as it found it. *)
Lemma play_sample_thread_load_failure (data : SampleThreadData D) :
  sd_filename data <> ""%string -> sd_active data <> 0 ->
  Mix_LoadWAV (sd_filename data) = None ->
  play_sample_thread data = Some (data, [Printed "Failed to load WAV"]).
Proof.
  intros Hname Hactive Hload. unfold play_sample_thread.
  destruct (sd_filename data) as [|c rest] eqn:En; [contradiction|].
  cbn [String.length Nat.eqb orb].
  destruct (Z.eqb_spec (sd_active data) 0); [contradiction|].
  rewrite Hload. reflexivity.
Qed.

(** A voice that plays clears its flag on the way out (lines 201-203). *)
Lemma play_sample_thread_played (data data' : SampleThreadData D)
    (events : list sound_event) (channel : Z) (chunk : list Z) :
  play_sample_thread data = Some (data', events) ->
  In (ChannelPlayed channel chunk) events ->
  sd_active data' = 0.
Proof.
  unfold play_sample_thread.
  destruct ((String.length (sd_filename data) =? 0)%nat || (sd_active data =? 0)).
  { intros [= <- <-] []. }
  destruct (Mix_LoadWAV (sd_filename data)) as [abuf|].
  2: { intros [= <- <-] [H|[]]. discriminate H. }
  match goal with
  | |- match ?s with _ => _ end = _ -> _ => destruct s as [[chunk'|]|]
  end.
  - destruct (int_of_double _) as [play_duration|]; cbn [mbind option_bind];
      [| discriminate].
    intros [= <- <-] _. reflexivity.
  - intros [= <- <-] [].
  - discriminate.
Qed.

End SampleVoice.

(** C4, at the failing input.  A sample voice whose asset does not load
    plays nothing and reports nothing to the scheduler, but it returns
    with its [active] flag still 1: the early return of line 164 skips
    the assignment of line 202. *)
Theorem missing_asset_leaves_voice_active :
  let data : SampleThreadData float :=
    mkSampleThreadData "missing.wav" 60 64 2 125 0x1.428a2f98d728bp+0%float 1 in
  Mix_LoadWAV (Platform := studio) "missing.wav" = None /\
  play_sample_thread (P := studio) data
    = Some (data, [Printed "Failed to load WAV"]) /\
  sd_active data = 1.
Proof.
  cbv zeta. split; [reflexivity|]. split; [|reflexivity].
  apply play_sample_thread_load_failure; [discriminate | discriminate | reflexivity].
Qed.

(** ** The offline renderer: which rows are rendered *)

(** C2, at the failing input.  For the 16-row song of [main] with the
    loop window 2..5 enabled, the renderer sizes its buffer for
    (5 - 2 + 1) * 4 = 16 rows but renders 9: the rows 0..5, then row 2
    three times for the row indexes 6, 7, 8, and leaves the loop at row
    index 9.  The wrap rule of the scheduler gives
    0,1,2,3,4,5,2,3,4,5,2,3,4,5,2,3 for the 16 row indexes. *)
Theorem renderer_leaves_the_loop_after_one_pass (L : Libm float) :
  let song : Song float := set_loop "y" 2 5 initial_song in
  loop_window_ok song /\
  total_rows song = (loop_end song - loop_start song + 1) * 4 /\
  total_rows song = 16 /\
  option_map rendered (save_song_to_wav (P := studio) song "song.wav")
    = Some [(0, 0); (1, 1); (2, 2); (3, 3); (4, 4); (5, 5); (6, 2); (7, 2); (8, 2)] /\
  map spec_row_2_5 (seqZ 0 16)
    = [0; 1; 2; 3; 4; 5; 2; 3; 4; 5; 2; 3; 4; 5; 2; 3].
Proof.
  cbv zeta. split_ands.
  - apply set_loop_establishes_window.
  - reflexivity.
  - reflexivity.
  - lazy. reflexivity.
  - reflexivity.
Qed.

(** When the window is the whole pattern, as [main] sets it up, the same
    code does render four passes: 64 rows, the 16 rows four times. *)
Example renderer_whole_pattern_window (L : Libm float) :
  let song : Song float := set_loop "y" 0 15 initial_song in
  option_map (fun e => map snd (rendered e))
             (save_song_to_wav (P := studio) song "song.wav")
    = Some (seqZ 0 16 ++ seqZ 0 16 ++ seqZ 0 16 ++ seqZ 0 16).
Proof. lazy. reflexivity. Qed.

(** ** Panning *)

(** [1.0f - 0.3f] is the [float] [0.7f]. *)
Lemma f32_one_minus_0_3 : F32.sub F32.lit_1_0 F32.lit_0_3 = F32.lit_0_7.
Proof. vm_compute. reflexivity. Qed.

(** The three literals are the [float]s nearest to 7/10, 3/10 and 1. *)
Lemma f32_literals :
  F32.div (F32.of_int 7) (F32.of_int 10) = F32.lit_0_7 /\
  F32.div (F32.of_int 3) (F32.of_int 10) = F32.lit_0_3 /\
  F32.of_int 1 = F32.lit_1_0.
Proof. vm_compute. auto. Qed.

Lemma pan_scaled_agrees_spec (n : nat) (s : Z) :
  pan_scaled_agrees n s = true ->
  forall z, s <= z < s + Z.of_nat n -> pan_scaled z F32.lit_0_7 = Z.quot (7 * z) 10.
Proof.
  revert s. induction n as [|n IH]; intros s Hall z Hz; [lia|].
  cbn [pan_scaled_agrees] in Hall. apply andb_true_iff in Hall.
  destruct Hall as [Hs Hrest]. apply Z.eqb_eq in Hs.
  destruct (Z.eq_dec z s) as [->|Hne]; [exact Hs|].
  apply (IH (s + 1) Hrest). lia.
Qed.

Lemma pan_scaled_all_s16 : pan_scaled_agrees (Z.to_nat 65536) (-32768) = true.
Proof. vm_compute. reflexivity. Qed.

(** On every 16-bit sample, [(Sint16)(sample * 0.7f)] is 7/10 of the
    sample, truncated toward zero. *)
Lemma pan_scaled_0_7 (s : Z) :
  is_s16 s -> pan_scaled s F32.lit_0_7 = Z.quot (7 * s) 10.
Proof.
  intros Hs. apply (pan_scaled_agrees_spec _ _ pan_scaled_all_s16).
  unfold is_s16 in Hs. lia.
Qed.

Lemma pan_into_row_slot (ch sample : Z) (i : nat) (row_buffer : list Z) :
  pan_into_row ch sample i row_buffer =
    <[pan_slot ch i :=
        wrap_s16 (clamp_s16 (buf_get row_buffer (pan_slot ch i)
                             + pan_scaled sample F32.lit_0_7))]> row_buffer.
Proof.
  unfold pan_into_row, pan_slot. destruct (ch <? 4); [reflexivity|].
  rewrite f32_one_minus_0_3. reflexivity.
Qed.

Lemma pan_slot_inj (ch : Z) (i j : nat) : pan_slot ch i = pan_slot ch j -> i = j.
Proof. unfold pan_slot. destruct (ch <? 4); lia. Qed.

Lemma clamp_s16_range (z : Z) : is_s16 (clamp_s16 z).
Proof.
  unfold clamp_s16, is_s16.
  destruct (Z.gtb_spec z 32767).
  - destruct (Z.ltb_spec 32767 (-32768)); lia.
  - destruct (Z.ltb_spec z (-32768)); lia.
Qed.

Lemma clamp_s16_small (z : Z) : is_s16 z -> clamp_s16 z = z.
Proof.
  unfold clamp_s16, is_s16. intros Hz.
  destruct (Z.gtb_spec z 32767); [lia|].
  destruct (Z.ltb_spec z (-32768)); [lia | reflexivity].
Qed.

Lemma buf_get_lookup (buf : list Z) (i : nat) (v : Z) :
  buf !! i = Some v -> buf_get buf i = v.
Proof. unfold buf_get. intros ->. reflexivity. Qed.

Lemma pan_loop_panned (ch : Z) (sample_at : nat -> Z) (before : list Z) (k : nat) :
  (k * 2 <= length before)%nat ->
  panned ch sample_at before k (pan_loop ch (Z.of_nat k) sample_at before).
Proof.
  intros Hroom. unfold pan_loop.
  apply (for_loop_invariant (fun i t => panned ch sample_at before i t)).
  - unfold panned. split_ands; [reflexivity | intros i Hi; lia | reflexivity].
  - intros i t Hi (Hlen & Hdone & Hrest).
    rewrite pan_into_row_slot. unfold panned. split_ands.
    + rewrite length_insert. exact Hlen.
    + intros i' Hi'. destruct (Nat.eq_dec i' i) as [->|Hne].
      * rewrite list_lookup_insert_eq
          by (rewrite Hlen; unfold pan_slot; destruct (ch <? 4); lia).
        f_equal. f_equal. f_equal. f_equal. unfold buf_get. rewrite Hrest; [reflexivity|].
        intros i0 Hi0 Heq. apply pan_slot_inj in Heq. lia.
      * rewrite list_lookup_insert_ne
          by (intros Heq; apply pan_slot_inj in Heq; lia).
        apply Hdone. lia.
    + intros j Hj. rewrite list_lookup_insert_ne.
      * apply Hrest. intros i0 Hi0. apply Hj. lia.
      * intros Heq. apply (Hj i); [lia | symmetry; exact Heq].
Qed.

(** C1, amended.  The panning loop adds the mono voice output into a
    zeroed stereo row buffer so that a channel below 4 contributes 7/10
    of each sample (truncated toward zero) to the left output and
    nothing to the right output, and a channel from 4 upwards
    contributes 7/10 of each sample to the right output and nothing to
    the left; frames past the voice's samples stay silent. *)
Theorem panning_feeds_one_side (ch : Z) (count row_samples : nat)
    (sample_at : nat -> Z) :
  (count <= row_samples)%nat ->
  (forall i, (i < count)%nat -> is_s16 (sample_at i)) ->
  let row_buffer :=
    pan_loop ch (Z.of_nat count) sample_at (replicate (row_samples * 2) 0) in
  length row_buffer = (row_samples * 2)%nat /\
  forall i, (i < row_samples)%nat ->
    buf_get row_buffer (i * 2) =
      (if (i <? count)%nat && (ch <? 4) then Z.quot (7 * sample_at i) 10 else 0) /\
    buf_get row_buffer (i * 2 + 1) =
      (if (i <? count)%nat && negb (ch <? 4) then Z.quot (7 * sample_at i) 10 else 0).
Proof.
  intros Hcount Hs16. cbv zeta.
  destruct (pan_loop_panned ch sample_at (replicate (row_samples * 2) 0) count)
    as (Hlen & Hdone & Hrest); [rewrite length_replicate; lia|].
  rewrite length_replicate in Hlen. split; [exact Hlen|].
  assert (Hzero : forall j, (j < row_samples * 2)%nat ->
            replicate (row_samples * 2) 0 !! j = Some 0).
  { intros j Hj. apply lookup_replicate_2. exact Hj. }
  assert (Hval : forall i, (i < count)%nat ->
            wrap_s16 (clamp_s16 (buf_get (replicate (row_samples * 2) 0) (pan_slot ch i)
                                 + pan_scaled (sample_at i) F32.lit_0_7))
            = Z.quot (7 * sample_at i) 10).
  { intros i Hi. pose proof (Hs16 i Hi) as Hs.
    rewrite (buf_get_lookup _ _ 0)
      by (apply Hzero; unfold pan_slot; destruct (ch <? 4); lia).
    rewrite Z.add_0_l, pan_scaled_0_7 by exact Hs.
    assert (Hq : is_s16 (Z.quot (7 * sample_at i) 10)).
    { unfold is_s16 in *.
      pose proof (Z.quot_le_mono (7 * -32768) (7 * sample_at i) 10 ltac:(lia) ltac:(lia)).
      pose proof (Z.quot_le_mono (7 * sample_at i) (7 * 32767) 10 ltac:(lia) ltac:(lia)).
      change (Z.quot (7 * -32768) 10) with (-22937) in *.
      change (Z.quot (7 * 32767) 10) with 22936 in *. lia. }
    rewrite clamp_s16_small, wrap_s16_small by (rewrite ?clamp_s16_small; exact Hq).
    reflexivity. }
  intros i Hi. unfold pan_slot in Hdone, Hrest, Hval.
  destruct (Nat.ltb_spec i count) as [Hin|Hout]; cbn [andb].
  - specialize (Hdone i Hin). rewrite (Hval i Hin) in Hdone.
    destruct (ch <? 4); cbn [negb]; split.
    + apply buf_get_lookup. exact Hdone.
    + apply buf_get_lookup. rewrite Hrest; [apply Hzero; lia|].
      intros i0 _. lia.
    + apply buf_get_lookup. rewrite Hrest; [apply Hzero; lia|].
      intros i0 _. lia.
    + apply buf_get_lookup. exact Hdone.
  - split; apply buf_get_lookup; (rewrite Hrest; [apply Hzero; lia|]);
      intros i0 Hi0; destruct (ch <? 4); lia.
Qed.

Lemma panning_feeds_one_side_witness :
  (3 <= 4)%nat /\
  (forall i, (i < 3)%nat -> is_s16 (buf_get [10000; -10000; 32767] i)) /\
  buf_get (pan_loop 0 3 (buf_get [10000; -10000; 32767]) (replicate (4 * 2) 0)) (0 * 2)
    = 7000 /\
  buf_get (pan_loop 0 3 (buf_get [10000; -10000; 32767]) (replicate (4 * 2) 0)) (0 * 2 + 1)
    = 0.
Proof.
  assert (Hc : (3 <= 4)%nat) by lia.
  assert (Hs : forall i, (i < 3)%nat -> is_s16 (buf_get [10000; -10000; 32767] i)).
  { intros [|[|[|i]]] Hi; unfold is_s16; cbn; lia. }
  split; [exact Hc|]. split; [exact Hs|].
  destruct (panning_feeds_one_side 0 3 4 (buf_get [10000; -10000; 32767]) Hc Hs)
    as [_ Hframes].
  destruct (Hframes 0%nat ltac:(lia)) as [Hl Hr].
  split; [exact Hl | exact Hr].
Defined.

(** C1, as stated, fails: mixing the asset [kick.wav], whose first
    sample is 10000, on channel 0 leaves 7000 on the left and 0 on the
    right, not 0.3 * 10000 = 3000; on channel 4 it leaves 0 on the left
    and 7000 on the right. *)
Lemma right_output_gets_nothing_from_channel_0 :
  let c : Cell float := mkCell 60 60 125 "kick.wav" 0 1%float in
  Mix_LoadWAV (Platform := studio) "kick.wav"
    = Some [10000; -10000; 32767; -32768; 5; 0] /\
  sample_voice_row (P := studio) 0 c 4 (replicate 8 0)
    = Some [7000; 0; -7000; 0; 22936; 0; -22937; 0] /\
  sample_voice_row (P := studio) 4 c 4 (replicate 8 0)
    = Some [0; 7000; 0; -7000; 0; 22936; 0; -22937] /\
  buf_get [7000; 0; -7000; 0; 22936; 0; -22937; 0] 1 <> Z.quot (3 * 10000) 10 /\
  buf_get [0; 7000; 0; -7000; 0; 22936; 0; -22937] 0 <> Z.quot (3 * 10000) 10.
Proof.
  cbv zeta. split_ands; try (vm_compute; reflexivity); vm_compute; discriminate.
Qed.

(** ** Bytes *)

Lemma Z_of_byte_of_Z (z : Z) : Z_of_byte (byte_of_Z z) = z mod 256.
Proof.
  unfold Z_of_byte, byte_of_Z.
  assert (Hr : 0 <= z mod 256 < 256) by (apply Z.mod_pos_bound; lia).
  destruct (Byte.of_N (Z.to_N (z mod 256))) as [b|] eqn:E.
  - apply Byte.to_of_N in E. rewrite E. rewrite Z2N.id by lia. reflexivity.
  - apply Byte.of_N_None_iff in E. lia.
Qed.

Lemma length_le_bytes (n : nat) (z : Z) : length (le_bytes n z) = n.
Proof. revert z. induction n as [|n IH]; intros z; cbn; [|rewrite IH]; reflexivity. Qed.

Lemma le_value_le_bytes (n : nat) (z : Z) :
  le_value (le_bytes n z) = z mod 256 ^ Z.of_nat n.
Proof.
  revert z. induction n as [|n IH]; intros z.
  - cbn. rewrite Z.mod_1_r. reflexivity.
  - cbn [le_bytes le_value]. rewrite IH, Z_of_byte_of_Z.
    rewrite Nat2Z.inj_succ, Z.pow_succ_r by lia.
    rewrite (Z.mul_comm 256), Z.rem_mul_r by lia. lia.
Qed.

Lemma le_value_small (n : nat) (z : Z) :
  0 <= z < 256 ^ Z.of_nat n -> le_value (le_bytes n z) = z.
Proof. intros Hz. rewrite le_value_le_bytes. apply Z.mod_small. exact Hz. Qed.

Lemma length_sample_bytes (audio : list Z) :
  length (sample_bytes audio) = (2 * length audio)%nat.
Proof.
  unfold sample_bytes. induction audio as [|v audio IH]; [reflexivity|].
  cbn [flat_map]. rewrite length_app, IH, length_le_bytes. cbn [length]. lia.
Qed.

Lemma length_header_bytes (total_samples : Z) :
  length (header_bytes (prepare_header total_samples)) = 44%nat.
Proof. reflexivity. Qed.

(** ** Sizes within the limits *)

Section Sizes.
Context {D : Type} {DA : DoubleArith D}.
Variable song : Song D.
Hypothesis limits : song_in_limits song.

Lemma note_duration_range : 0 <= get_note_duration_ms song <= 750.
Proof.
  destruct limits as (_ & Hbpm & _). unfold get_note_duration_ms.
  destruct (Z.eqb_spec (bpm song) 0) as [|Hne]; [lia|].
  destruct Hbpm as [|Hbpm]; [contradiction|].
  assert (H1 : 0 <= Z.quot 60000 (bpm song) <= 3000).
  { split; [apply Z.quot_pos; lia|].
    apply Z.quot_le_upper_bound; lia. }
  split; [apply Z.quot_pos; lia|].
  apply Z.quot_le_upper_bound; lia.
Qed.

Lemma total_rows_range :
  0 <= total_rows song <= 64 /\
  total_rows song =
    if negb (loop_enabled song =? 0) && (loop_end song >? loop_start song)
    then (loop_end song - loop_start song + 1) * 4
    else num_rows song.
Proof.
  destruct limits as (Hrows & _ & Hloop). unfold total_rows, MAX_ROWS in *.
  destruct (Z.eqb_spec (loop_enabled song) 0) as [Hoff|Hon]; cbn [negb andb];
    [split; [lia | reflexivity]|].
  destruct (Z.gtb_spec (loop_end song) (loop_start song)) as [Hgt|Hle];
    [| split; [lia | reflexivity]].
  specialize (Hloop Hon).
  rewrite !wrap_int_small by (unfold is_int, INT_MIN, INT_MAX;
    rewrite ?wrap_int_small by (unfold is_int, INT_MIN, INT_MAX;
      rewrite ?wrap_int_small by (unfold is_int, INT_MIN, INT_MAX; lia); lia); lia).
  split; [lia | reflexivity].
Qed.

Lemma total_samples_exact :
  total_samples song
    = Z.quot (total_rows song * get_note_duration_ms song * SAMPLE_RATE) 1000 /\
  0 <= total_samples song <= 2116800.
Proof.
  pose proof note_duration_range as Hd. destruct total_rows_range as [Hr _].
  unfold total_samples, SAMPLE_RATE.
  assert (Hp : 0 <= total_rows song * get_note_duration_ms song <= 48000) by nia.
  rewrite (wrap_int_small (total_rows song * get_note_duration_ms song))
    by (unfold is_int, INT_MIN, INT_MAX; lia).
  rewrite wrap_int_small by (unfold is_int, INT_MIN, INT_MAX; lia).
  assert (Hq : 0 <= Z.quot (total_rows song * get_note_duration_ms song * 44100) 1000
               <= 2116800).
  { split; [apply Z.quot_pos; lia|]. apply Z.quot_le_upper_bound; lia. }
  rewrite wrap_u32_small by lia. split; [reflexivity | exact Hq].
Qed.

(** Every entry of the main buffer that a rendered row writes lies
    inside the buffer: the two assignments of lines 887 and 893 are
    within the [total_samples * 2] entries allocated on line 747. *)
Lemma row_lies_in_main_buffer (current_row : Z) :
  0 <= current_row < total_rows song ->
  let note_duration := get_note_duration_ms song in
  let start_sample :=
    wrap_u32 (Z.quot (wrap_int (wrap_int (current_row * note_duration) * SAMPLE_RATE))
                     1000) in
  let row_samples := wrap_u32 (Z.quot (wrap_int (note_duration * SAMPLE_RATE)) 1000) in
  start_sample + row_samples <= total_samples song /\
  forall i, 0 <= i < row_samples ->
    let dest_idx := wrap_u32 ((start_sample + i) * 2) in
    0 <= dest_idx /\ dest_idx + 1 < wrap_u32 (total_samples song * 2).
Proof.
  intros Hrow. cbv zeta.
  pose proof note_duration_range as Hd. destruct total_rows_range as [Hr _].
  destruct total_samples_exact as [Hts Htsr].
  set (d := get_note_duration_ms song) in *. unfold SAMPLE_RATE in *.
  assert (Hkd : 0 <= current_row * d <= 48000) by nia.
  rewrite (wrap_int_small (current_row * d)) by (unfold is_int, INT_MIN, INT_MAX; lia).
  rewrite (wrap_int_small (current_row * d * 44100))
    by (unfold is_int, INT_MIN, INT_MAX; lia).
  rewrite (wrap_int_small (d * 44100)) by (unfold is_int, INT_MIN, INT_MAX; lia).
  rewrite !Z.quot_div_nonneg in * by lia.
  assert (Hs : 0 <= current_row * d * 44100 / 1000 <= 2116800).
  { split; [apply Z.div_pos; lia|]. apply Z.div_le_upper_bound; lia. }
  assert (Hrs : 0 <= d * 44100 / 1000 <= 33075).
  { split; [apply Z.div_pos; lia|]. apply Z.div_le_upper_bound; lia. }
  rewrite (wrap_u32_small (current_row * d * 44100 / 1000)) by lia.
  rewrite (wrap_u32_small (d * 44100 / 1000)) by lia.
  assert (Hfit : current_row * d * 44100 / 1000 + d * 44100 / 1000
                 <= total_samples song).
  { rewrite Hts. apply Z.div_le_lower_bound; [lia|].
    pose proof (Z.mul_div_le (current_row * d * 44100) 1000 ltac:(lia)).
    pose proof (Z.mul_div_le (d * 44100) 1000 ltac:(lia)).
    nia. }
  split; [exact Hfit|]. intros i Hi.
  rewrite wrap_u32_small by lia. rewrite wrap_u32_small by lia. lia.
Qed.


End Sizes.

(** ** The row buffer mixed into the main buffer *)

Lemma for_loop_of_nat {S : Type} (n : Z) (body : nat -> S -> S) (s : S) :
  for_loop n body s = for_loop (Z.of_nat (Z.to_nat n)) body s.
Proof. unfold for_loop. rewrite Nat2Z.id. reflexivity. Qed.

Lemma wrap_s16_range (z : Z) : is_s16 (wrap_s16 z).
Proof.
  unfold wrap_s16, is_s16.
  pose proof (Z.mod_pos_bound (z + 2 ^ 15) (2 ^ 16) ltac:(lia)). lia.
Qed.

(** One frame, when its entries are inside the two buffers. *)
Lemma mix_frame_in_bounds (start_sample : Z) (row_buffer : list Z) (i : nat)
    (audio : list Z) :
  0 <= start_sample ->
  (start_sample + Z.of_nat i) * 2 + 1 < Z.of_nat (length audio) < 2 ^ 32 ->
  Z.of_nat i * 2 + 1 < Z.of_nat (length row_buffer) < 2 ^ 32 ->
  let dest := (2 * (Z.to_nat start_sample + i))%nat in
  mix_frame_into_main start_sample row_buffer i (Some audio) =
    Some (<[S dest := wrap_s16 (clamp_s16 (buf_get audio (S dest)
                                           + buf_get row_buffer (S (2 * i))))]>
            (<[dest := wrap_s16 (clamp_s16 (buf_get audio dest
                                            + buf_get row_buffer (2 * i)))]> audio)).
Proof.
  intros Hstart Hmain Hrow dest. unfold mix_frame_into_main.
  cbn [mbind option_bind].
  rewrite (wrap_u32_small ((start_sample + Z.of_nat i) * 2)) by lia.
  rewrite (wrap_u32_small (Z.of_nat i * 2)) by lia.
  replace (Z.to_nat ((start_sample + Z.of_nat i) * 2)) with dest by (unfold dest; lia).
  replace (Z.to_nat (Z.of_nat i * 2)) with (2 * i)%nat by lia.
  replace (dest + 1)%nat with (S dest) by lia.
  replace (2 * i + 1)%nat with (S (2 * i)) by lia.
  destruct (lookup_lt_is_Some_2 audio dest ltac:(unfold dest; lia)) as [ml Hml].
  destruct (lookup_lt_is_Some_2 audio (S dest) ltac:(unfold dest; lia)) as [mr Hmr].
  destruct (lookup_lt_is_Some_2 row_buffer (2 * i)%nat ltac:(lia)) as [rl Hrl].
  destruct (lookup_lt_is_Some_2 row_buffer (S (2 * i)) ltac:(lia)) as [rr Hrr].
  rewrite Hml, Hrl. cbn [mbind option_bind].
  rewrite list_lookup_insert_ne by lia. rewrite Hmr, Hrr. cbn [mbind option_bind].
  rewrite (buf_get_lookup _ _ _ Hml), (buf_get_lookup _ _ _ Hmr),
    (buf_get_lookup _ _ _ Hrl), (buf_get_lookup _ _ _ Hrr).
  reflexivity.
Qed.

(** The mixing loop, when the row lies inside the main buffer. *)
Lemma mix_row_into_main_mixed (start_sample row_samples : Z)
    (row_buffer before : list Z) :
  0 <= start_sample -> 0 <= row_samples ->
  (start_sample + row_samples) * 2 <= Z.of_nat (length before) < 2 ^ 32 ->
  row_samples * 2 <= Z.of_nat (length row_buffer) < 2 ^ 32 ->
  exists after : list Z,
    mix_row_into_main start_sample row_samples row_buffer before = Some after /\
    mixed_frames start_sample row_buffer before (Z.to_nat row_samples) after.
Proof.
  intros Hstart Hrows Hmain Hrow. unfold mix_row_into_main.
  rewrite for_loop_of_nat.
  apply (for_loop_invariant
           (fun i st => exists after : list Z,
              st = Some after /\ mixed_frames start_sample row_buffer before i after)).
  - exists before. split; [reflexivity|]. split; [reflexivity|].
    intros j. rewrite decide_False by lia. reflexivity.
  - intros i st Hi (after & -> & Hlen & Hat).
    rewrite mix_frame_in_bounds by (rewrite ?Hlen; lia). cbv zeta.
    eexists. split; [reflexivity|]. split; [rewrite !length_insert; exact Hlen|].
    assert (Hd : buf_get after (2 * (Z.to_nat start_sample + i))
                 = buf_get before (2 * (Z.to_nat start_sample + i))).
    { unfold buf_get. rewrite Hat, decide_False by lia. reflexivity. }
    assert (Hd1 : buf_get after (S (2 * (Z.to_nat start_sample + i)))
                  = buf_get before (S (2 * (Z.to_nat start_sample + i)))).
    { unfold buf_get. rewrite Hat, decide_False by lia. reflexivity. }
    rewrite Hd, Hd1. intros j.
    destruct (Nat.eq_dec j (S (2 * (Z.to_nat start_sample + i)))) as [->|Hne1].
    + rewrite list_lookup_insert_eq by (rewrite length_insert, Hlen; lia).
      rewrite decide_True by lia. do 5 f_equal. lia.
    + rewrite list_lookup_insert_ne by lia.
      destruct (Nat.eq_dec j (2 * (Z.to_nat start_sample + i))%nat) as [->|Hne2].
      * rewrite list_lookup_insert_eq by (rewrite Hlen; lia).
        rewrite decide_True by lia. do 5 f_equal. lia.
      * rewrite list_lookup_insert_ne by lia. rewrite Hat.
        destruct (decide (2 * Z.to_nat start_sample <= j
                          < 2 * (Z.to_nat start_sample + i))%nat).
        -- rewrite decide_True by lia. reflexivity.
        -- rewrite decide_False by lia. reflexivity.
Qed.

(** ** The main buffer keeps its length and its 16-bit entries *)

Lemma mix_frame_keeps (start_sample : Z) (row_buffer : list Z) (i : nat)
    (audio audio' : list Z) :
  mix_frame_into_main start_sample row_buffer i (Some audio) = Some audio' ->
  length audio' = length audio /\ (Forall is_s16 audio -> Forall is_s16 audio').
Proof.
  unfold mix_frame_into_main. cbn [mbind option_bind].
  set (dest := Z.to_nat (wrap_u32 ((start_sample + Z.of_nat i) * 2))).
  set (src := Z.to_nat (wrap_u32 (Z.of_nat i * 2))).
  destruct (audio !! dest) as [ml|]; cbn [mbind option_bind]; [| discriminate].
  destruct (row_buffer !! src) as [rl|]; cbn [mbind option_bind]; [| discriminate].
  destruct (<[dest := _]> audio !! (dest + 1)%nat) as [mr|];
    cbn [mbind option_bind]; [| discriminate].
  destruct (row_buffer !! (src + 1)%nat) as [rr|]; cbn [mbind option_bind];
    [| discriminate].
  intros [= <-]. split; [rewrite !length_insert; reflexivity|].
  intros Hs. apply Forall_insert; [apply Forall_insert; [exact Hs|] |];
    apply wrap_s16_range.
Qed.

Lemma mix_row_into_main_keeps (start_sample row_samples : Z)
    (row_buffer audio audio' : list Z) :
  mix_row_into_main start_sample row_samples row_buffer audio = Some audio' ->
  length audio' = length audio /\ (Forall is_s16 audio -> Forall is_s16 audio').
Proof.
  unfold mix_row_into_main. rewrite for_loop_of_nat. revert audio'.
  apply (for_loop_invariant
           (fun (i : nat) st => forall audio' : list Z, st = Some audio' ->
              length audio' = length audio /\
              (Forall is_s16 audio -> Forall is_s16 audio'))).
  - intros audio' [= <-]. split; [reflexivity | auto].
  - intros i [a|] Hi Hinv audio' Hstep; [| discriminate Hstep].
    destruct (Hinv a eq_refl) as [Hl Hs].
    destruct (mix_frame_keeps _ _ _ _ _ Hstep) as [Hl' Hs'].
    split; [congruence | auto].
Qed.

Section BufferLength.
Context {D : Type} {DA : DoubleArith D} {P : Platform} {L : Libm D}.

Lemma render_channel_keeps (song : Song D) (actual_row start_sample row_samples : Z)
    (ch : nat) (audio audio' : list Z) :
  render_channel song actual_row start_sample row_samples ch audio = Some audio' ->
  length audio' = length audio /\ (Forall is_s16 audio -> Forall is_s16 audio').
Proof.
  unfold render_channel.
  destruct (actual_row <? 0); [discriminate|].
  destruct (cell_at song ch (Z.to_nat actual_row)) as [c|]; [|discriminate].
  destruct (note c >? 0); [| intros [= <-]; auto].
  destruct (malloc_ok _); [| intros [= <-]; auto].
  match goal with
  | |- match ?rb with _ => _ end = _ -> _ => destruct rb as [row_buffer|]
  end; [| discriminate].
  apply mix_row_into_main_keeps.
Qed.

Lemma render_channels_keeps (song : Song D) (actual_row start_sample row_samples : Z)
    (chs : list nat) (audio audio' : list Z) :
  render_channels song actual_row start_sample row_samples chs audio = Some audio' ->
  length audio' = length audio /\ (Forall is_s16 audio -> Forall is_s16 audio').
Proof.
  revert audio. induction chs as [|ch chs IH]; intros audio; cbn [render_channels].
  - intros [= <-]. auto.
  - destruct (render_channel _ _ _ _ ch audio) as [audio1|] eqn:E; [|discriminate].
    intros Hrest. destruct (IH _ Hrest) as [Hl Hs].
    destruct (render_channel_keeps _ _ _ _ _ _ _ E) as [Hl1 Hs1].
    split; [congruence | auto].
Qed.

Lemma render_row_keeps (song : Song D) (note_duration current_row : Z)
    (st st' : render_state) :
  render_row song note_duration current_row st = Some st' ->
  length (rs_audio_buffer st') = length (rs_audio_buffer st) /\
  (Forall is_s16 (rs_audio_buffer st) -> Forall is_s16 (rs_audio_buffer st')).
Proof.
  unfold render_row.
  destruct (rs_left_loop st); [intros [= <-]; auto|].
  destruct (num_rows song =? 0); [discriminate|].
  match goal with
  | |- (if ?b then _ else _) = _ -> _ => destruct b
  end; [intros [= <-]; auto|].
  match goal with
  | |- match ?r with _ => _ end = _ -> _ => destruct r as [audio1|] eqn:E
  end; [| discriminate].
  intros [= <-]. cbn [rs_audio_buffer]. eapply render_channels_keeps. exact E.
Qed.

Lemma render_rows_keeps (song : Song D) (note_duration : Z) (rows : list Z)
    (st st' : render_state) :
  render_rows song note_duration rows st = Some st' ->
  length (rs_audio_buffer st') = length (rs_audio_buffer st) /\
  (Forall is_s16 (rs_audio_buffer st) -> Forall is_s16 (rs_audio_buffer st')).
Proof.
  revert st. induction rows as [|row rows IH]; intros st; cbn [render_rows].
  - intros [= <-]. auto.
  - destruct (render_row song note_duration row st) as [st1|] eqn:E; [|discriminate].
    intros Hrest. destruct (IH _ Hrest) as [Hl Hs].
    destruct (render_row_keeps _ _ _ _ _ E) as [Hl1 Hs1].
    split; [congruence | auto].
Qed.

(** A file is written exactly when 1 is returned, and it is the header
    followed by the whole main buffer as the row loop left it. *)
Lemma save_song_to_wav_file (song : Song D) (filename : string) (e : wav_export) :
  save_song_to_wav song filename = Some e -> returned e = 1 ->
  exists st : render_state,
    render_rows song (get_note_duration_ms song) (seqZ 0 (total_rows song))
      (mkRender 0 (replicate (Z.to_nat (wrap_u32 (total_samples song * 2))) 0) [] false)
    = Some st /\
    length (rs_audio_buffer st) = Z.to_nat (wrap_u32 (total_samples song * 2)) /\
    Forall is_s16 (rs_audio_buffer st) /\
    wav_file e = Some (header_bytes (prepare_header (total_samples song))
                       ++ sample_bytes (rs_audio_buffer st)).
Proof.
  unfold save_song_to_wav. cbv zeta.
  generalize (header_bytes (prepare_header (total_samples song))). intros header.
  destruct e as [ret file lines]. cbn [returned wav_file].
  destruct (malloc_ok _); cbn [negb]; [| intros [= <- _ _]; discriminate].
  destruct SDL_Init_ok; cbn [negb]; [| intros [= <- _ _]; discriminate].
  destruct Mix_OpenAudio_ok; cbn [negb]; [| intros [= <- _ _]; discriminate].
  destruct (render_rows _ _ _ _) as [st|] eqn:E; [| discriminate].
  destruct (fopen_ok filename); cbn [negb]; [| intros [= <- _ _]; discriminate].
  intros [= _ <- _] _. exists st. split; [reflexivity|].
  destruct (render_rows_keeps _ _ _ _ _ E) as [Hl Hs]. cbn [rs_audio_buffer] in Hl, Hs.
  split; [rewrite Hl; apply length_replicate|].
  split; [| reflexivity].
  apply Hs. apply Forall_replicate. unfold is_s16. lia.
Qed.

End BufferLength.

(** ** The WAV file *)

(** The fields of the header, read back from a file that starts with it. *)
Lemma header_fields (total_samples : Z) (rest : list byte) :
  let h := prepare_header total_samples in
  let file := header_bytes h ++ rest in
  bytes_at 0 4 file = list_byte_of_string "RIFF" /\
  bytes_at 4 4 file = le_bytes 4 (file_size h) /\
  bytes_at 8 4 file = list_byte_of_string "WAVE" /\
  bytes_at 12 4 file = list_byte_of_string "fmt " /\
  le_value (bytes_at 16 4 file) = 16 /\
  le_value (bytes_at 20 2 file) = 1 /\
  le_value (bytes_at 22 2 file) = 2 /\
  le_value (bytes_at 24 4 file) = 44100 /\
  le_value (bytes_at 28 4 file) = 44100 * 4 /\
  le_value (bytes_at 32 2 file) = 4 /\
  le_value (bytes_at 34 2 file) = 16 /\
  bytes_at 36 4 file = list_byte_of_string "data" /\
  bytes_at 40 4 file = le_bytes 4 (data_size h) /\
  drop 44 file = rest.
Proof. cbv zeta. split_ands; reflexivity. Qed.

(** Entry [j] of the buffer is the two bytes at [2 * j] of the data,
    low byte first. *)
Lemma sample_bytes_at (audio : list Z) (j : nat) (s : Z) :
  audio !! j = Some s -> bytes_at (2 * j) 2 (sample_bytes audio) = le_bytes 2 s.
Proof.
  revert j. induction audio as [|v audio IH]; intros j Hj; [discriminate Hj|].
  destruct j as [|j].
  - injection Hj as ->. reflexivity.
  - replace (2 * S j)%nat with (S (S (2 * j))) by lia.
    cbn [lookup list_lookup] in Hj. apply IH in Hj. exact Hj.
Qed.

Lemma data_bytes_at (total_samples : Z) (audio : list Z) (j : nat) (s : Z) :
  audio !! j = Some s ->
  le_value (bytes_at (44 + 2 * j) 2
              (header_bytes (prepare_header total_samples) ++ sample_bytes audio))
  = s mod 2 ^ 16.
Proof.
  intros Hj. unfold bytes_at.
  rewrite (drop_app_add' _ _ 44 (2 * j)) by reflexivity.
  fold (bytes_at (2 * j) 2 (sample_bytes audio)).
  rewrite (sample_bytes_at _ _ _ Hj), le_value_le_bytes. reflexivity.
Qed.

Lemma buf_get_replicate (n j : nat) : buf_get (replicate n 0) j = 0.
Proof.
  unfold buf_get. destruct (replicate n 0 !! j) as [v|] eqn:E; [| reflexivity].
  apply lookup_replicate in E. destruct E as [-> _]. reflexivity.
Qed.

Section OneToneRow.
Context {D : Type} {DA : DoubleArith D} {P : Platform} {L : Libm D}.

Lemma tone_sample_s16 (c_note : Z) (i : nat) : is_s16 (tone_sample c_note i).
Proof. apply wrap_s16_range. Qed.

(** The only row of a one-row, one-channel song without loop whose cell
    has a note and no sample file: the left entries of the main buffer
    get 7/10 of the tone, the right entries stay silent. *)
Lemma render_only_row (song : Song D) (note_duration : Z) (c : Cell D) :
  num_rows song = 1 -> num_channels song = 1 -> loop_enabled song = 0 ->
  cell_at song 0 0 = Some c -> 0 < note c -> sample c = ""%string ->
  (forall n, malloc_ok n = true) ->
  0 <= note_duration <= 750 ->
  let row_samples := Z.quot (note_duration * 44100) 1000 in
  exists after : list Z,
    render_rows song note_duration (seqZ 0 1)
      (mkRender 0 (replicate (Z.to_nat (row_samples * 2)) 0) [] false)
    = Some (mkRender 0 after [(0, 0)] false) /\
    forall i : nat, Z.of_nat i < row_samples ->
      after !! (2 * i)%nat = Some (Z.quot (7 * tone_sample (note c) i) 10) /\
      after !! (2 * i + 1)%nat = Some 0.
Proof.
  intros Hrows Hchs Hoff Hc Hnote Hsample Hmalloc Hd row_samples.
  assert (Hrs : 0 <= row_samples <= 33075).
  { unfold row_samples. split; [apply Z.quot_pos; lia|].
    apply Z.quot_le_upper_bound; lia. }
  change (seqZ 0 1) with [0]. cbn [render_rows]. unfold render_row.
  cbn [rs_left_loop rs_audio_buffer rs_loops_done rs_progress].
  rewrite Hrows, Hoff, Hchs. change (1 =? 0) with false. change (0 =? 0) with true.
  cbn [negb andb]. change (Z.rem 0 1) with 0.
  change (seq 0 (Z.to_nat 1)) with [0%nat]. cbn [render_channels].
  change (wrap_u32 (Z.quot (wrap_int (wrap_int (0 * note_duration) * SAMPLE_RATE)) 1000))
    with 0.
  unfold SAMPLE_RATE.
  rewrite (wrap_int_small (note_duration * 44100))
    by (unfold is_int, INT_MIN, INT_MAX; lia).
  fold row_samples. rewrite (wrap_u32_small row_samples) by lia.
  unfold render_channel. change (0 <? 0) with false. change (Z.to_nat 0) with 0%nat.
  rewrite Hc. destruct (Z.gtb_spec (note c) 0) as [_|]; [| lia].
  rewrite Hmalloc, Hsample. cbn [String.length Nat.ltb Nat.leb].
  rewrite (wrap_u32_small (row_samples * 2)) by lia.
  unfold tone_voice_row. change (Z.of_nat 0) with 0.
  set (rb0 := replicate (Z.to_nat (row_samples * 2)) 0).
  assert (Hpan : panned 0 (tone_sample (note c)) rb0 (Z.to_nat row_samples)
                   (pan_loop 0 row_samples (tone_sample (note c)) rb0)).
  { replace row_samples with (Z.of_nat (Z.to_nat row_samples)) at 2 by lia.
    apply pan_loop_panned. unfold rb0. rewrite length_replicate. lia. }
  set (rb := pan_loop 0 row_samples (tone_sample (note c)) rb0) in *.
  destruct Hpan as (Hlen & Hdone & Hrest).
  assert (Hl0 : length rb0 = Z.to_nat (row_samples * 2))
    by (unfold rb0; apply length_replicate).
  destruct (mix_row_into_main_mixed 0 row_samples rb rb0) as (after & -> & _ & Hat);
    [lia | lia | rewrite Hl0; lia | rewrite Hlen, Hl0; lia |].
  exists after. split; [reflexivity|].
  intros i Hi. change (Z.to_nat 0) with 0%nat in Hat.
  assert (Hleft : buf_get rb (2 * i) = Z.quot (7 * tone_sample (note c) i) 10).
  { apply buf_get_lookup.
    specialize (Hdone i ltac:(lia)). unfold pan_slot in Hdone.
    change (0 <? 4) with true in Hdone. cbv iota in Hdone.
    replace (i * 2)%nat with (2 * i)%nat in Hdone by lia. rewrite Hdone.
    unfold rb0. rewrite buf_get_replicate, Z.add_0_l.
    rewrite pan_scaled_0_7 by apply tone_sample_s16.
    assert (Hq : is_s16 (Z.quot (7 * tone_sample (note c) i) 10)).
    { pose proof (tone_sample_s16 (note c) i) as Ht. unfold is_s16 in *.
      split.
      - apply Z.quot_le_lower_bound; lia.
      - apply Z.quot_le_upper_bound; lia. }
    rewrite clamp_s16_small, wrap_s16_small by assumption. reflexivity. }
  assert (Hright : buf_get rb (2 * i + 1) = 0).
  { unfold buf_get. rewrite Hrest.
    - fold (buf_get rb0 (2 * i + 1)). unfold rb0. apply buf_get_replicate.
    - intros i0 _. unfold pan_slot. change (0 <? 4) with true. cbv iota. lia. }
  split.
  - rewrite Hat, decide_True by lia. unfold rb0 at 1.
    rewrite buf_get_replicate, Z.add_0_l.
    replace (2 * i - 2 * 0)%nat with (2 * i)%nat by lia. rewrite Hleft.
    assert (Hq : is_s16 (Z.quot (7 * tone_sample (note c) i) 10)).
    { pose proof (tone_sample_s16 (note c) i) as Ht. unfold is_s16 in *.
      split.
      - apply Z.quot_le_lower_bound; lia.
      - apply Z.quot_le_upper_bound; lia. }
    rewrite clamp_s16_small, wrap_s16_small by assumption. reflexivity.
  - rewrite Hat, decide_True by lia. unfold rb0 at 1.
    rewrite buf_get_replicate, Z.add_0_l.
    replace (2 * i + 1 - 2 * 0)%nat with (2 * i + 1)%nat by lia. rewrite Hright.
    reflexivity.
Qed.

End OneToneRow.

(** C7, amended.  For a song within the editor's limits, every export
    that returns 1 has written a file made of a 44-byte header and the
    main buffer as the row loop left it: "RIFF", the file size minus 8,
    "WAVE", "fmt ", the subchunk size 16, audio_format 1, 2 channels,
    sample rate 44100, byte rate 44100 * 4, block_align 4, 16 bits per
    sample, "data", and a data size of two bytes for each of the
    total_samples * 2 entries of the buffer; entry j of the buffer, a
    16-bit value (left for even j, right for odd j), is the two bytes at
    offset 44 + 2 * j, low byte first, in two's complement.  For a
    one-row, one-channel song whose cell has note 69 and no sample
    file, on a platform where allocation, SDL and the file succeed, the
    export does return 1, the data length is
    (row_ms * 44100 / 1000) * 4 bytes, the quotient being the integer
    quotient of the source, and frame i of the data is 7/10 of sample i
    of the tone on the left and silence on the right. *)
Theorem wav_export_layout {D : Type} {DA : DoubleArith D} {P : Platform} {L : Libm D}
    (song : Song D) (filename : string) :
  song_in_limits song ->
  (forall e : wav_export,
     save_song_to_wav song filename = Some e -> returned e = 1 ->
     exists (file : list byte) (st : render_state),
       wav_file e = Some file /\
       render_rows song (get_note_duration_ms song) (seqZ 0 (total_rows song))
         (mkRender 0 (replicate (Z.to_nat (total_samples song * 2)) 0) [] false)
       = Some st /\
       total_samples song
         = Z.quot (total_rows song * get_note_duration_ms song * SAMPLE_RATE) 1000 /\
       Z.of_nat (length (rs_audio_buffer st)) = total_samples song * 2 /\
       Z.of_nat (length file) = 44 + total_samples song * 2 * 2 /\
       bytes_at 0 4 file = list_byte_of_string "RIFF" /\
       le_value (bytes_at 4 4 file) = Z.of_nat (length file) - 8 /\
       bytes_at 8 4 file = list_byte_of_string "WAVE" /\
       bytes_at 12 4 file = list_byte_of_string "fmt " /\
       le_value (bytes_at 16 4 file) = 16 /\
       le_value (bytes_at 20 2 file) = 1 /\
       le_value (bytes_at 22 2 file) = 2 /\
       le_value (bytes_at 24 4 file) = 44100 /\
       le_value (bytes_at 28 4 file) = 44100 * 4 /\
       le_value (bytes_at 32 2 file) = 4 /\
       le_value (bytes_at 34 2 file) = 16 /\
       bytes_at 36 4 file = list_byte_of_string "data" /\
       le_value (bytes_at 40 4 file) = total_samples song * 2 * 2 /\
       forall (j : nat) (s : Z),
         rs_audio_buffer st !! j = Some s ->
         is_s16 s /\ le_value (bytes_at (44 + 2 * j) 2 file) = s mod 2 ^ 16) /\
  (num_rows song = 1 -> num_channels song = 1 ->
   (forall c : Cell D, cell_at song 0 0 = Some c -> note c = 69 /\ sample c = ""%string) ->
   is_Some (cell_at song 0 0) ->
   (forall n, malloc_ok n = true) -> SDL_Init_ok = true ->
   Mix_OpenAudio_ok = true -> fopen_ok filename = true ->
   exists (e : wav_export) (file : list byte),
     save_song_to_wav song filename = Some e /\ returned e = 1 /\
     wav_file e = Some file /\
     Z.of_nat (length file) - 44
       = Z.quot (get_note_duration_ms song * 44100) 1000 * 4 /\
     forall i : nat,
       Z.of_nat i < Z.quot (get_note_duration_ms song * 44100) 1000 ->
       le_value (bytes_at (44 + 4 * i) 2 file)
         = Z.quot (7 * tone_sample 69 i) 10 mod 2 ^ 16 /\
       le_value (bytes_at (44 + 4 * i + 2) 2 file) = 0).
Proof.
  intros Hlim.
  destruct (total_samples_exact song Hlim) as [Hts Htsr].
  pose proof (note_duration_range song Hlim) as Hd.
  assert (Hcount : wrap_u32 (total_samples song * 2) = total_samples song * 2)
    by (apply wrap_u32_small; lia).
  split.
  - intros e He Hret.
    destruct (save_song_to_wav_file song filename e He Hret)
      as (st & Hst & Hlen & Hs16 & Hf).
    rewrite Hcount in Hst, Hlen.
    exists (header_bytes (prepare_header (total_samples song))
            ++ sample_bytes (rs_audio_buffer st)), st.
    destruct (header_fields (total_samples song) (sample_bytes (rs_audio_buffer st)))
      as (F0 & F4 & F8 & F12 & F16 & F20 & F22 & F24 & F28 & F32 & F34 & F36 & F40 & Fd).
    assert (Hlf : Z.of_nat (length (header_bytes (prepare_header (total_samples song))
                                    ++ sample_bytes (rs_audio_buffer st)))
                  = 44 + total_samples song * 2 * 2).
    { rewrite length_app, length_header_bytes, length_sample_bytes. lia. }
    split_ands; try assumption.
    + lia.
    + rewrite F4, le_value_le_bytes. cbn [file_size prepare_header].
      unfold sizeof_WavHeader.
      rewrite (wrap_u32_small (total_samples song * 2)) by lia.
      rewrite (wrap_u32_small (total_samples song * 2 * 2)) by lia.
      rewrite wrap_u32_small by lia.
      rewrite Z.mod_small by (change (256 ^ Z.of_nat 4) with (2 ^ 32); lia). lia.
    + rewrite F40, le_value_le_bytes. cbn [data_size prepare_header].
      rewrite (wrap_u32_small (total_samples song * 2)) by lia.
      rewrite wrap_u32_small by lia.
      rewrite Z.mod_small by (change (256 ^ Z.of_nat 4) with (2 ^ 32); lia). lia.
    + intros j s Hj. split.
      * rewrite Forall_forall in Hs16. apply Hs16.
        apply (list_elem_of_lookup_2 _ j). exact Hj.
      * apply data_bytes_at. exact Hj.
  - intros Hrows Hchs Hcell [c Hc] Hmalloc Hsdl Hmix Hfopen.
    destruct (Hcell c Hc) as [Hnote Hsample].
    assert (Hoff : loop_enabled song = 0).
    { destruct Hlim as (_ & _ & Hloop). unfold loop_window_ok in Hloop.
      destruct (Z.eq_dec (loop_enabled song) 0) as [|Hon]; [assumption|].
      specialize (Hloop Hon). lia. }
    assert (Htr : total_rows song = 1).
    { unfold total_rows. rewrite Hoff. cbn. exact Hrows. }
    assert (Htotal : total_samples song
                     = Z.quot (get_note_duration_ms song * 44100) 1000).
    { rewrite Hts, Htr. unfold SAMPLE_RATE. f_equal. lia. }
    destruct (render_only_row song (get_note_duration_ms song) c Hrows Hchs Hoff Hc
                ltac:(lia) Hsample Hmalloc Hd) as (after & Hrender & Hframes).
    rewrite <- Htotal in Hrender, Hframes. rewrite Hnote in Hframes.
    assert (Hsave : save_song_to_wav song filename
                    = Some (mkExport 1
                              (Some (header_bytes (prepare_header (total_samples song))
                                     ++ sample_bytes after))
                              [(0, 0)])).
    { unfold save_song_to_wav. rewrite Hmalloc, Hsdl, Hmix, Hfopen, Htr, Hcount.
      cbn [negb]. rewrite Hrender. reflexivity. }
    destruct (save_song_to_wav_file song filename _ Hsave eq_refl)
      as (st & Hst & Hlen & _ & _).
    rewrite Htr, Hcount, Hrender in Hst. injection Hst as <-.
    cbn [rs_audio_buffer] in Hlen. rewrite Hcount in Hlen.
    eexists. eexists. split; [exact Hsave|]. split; [reflexivity|].
    split; [reflexivity|]. rewrite <- Htotal. split.
    + rewrite length_app, length_header_bytes, length_sample_bytes. lia.
    + intros i Hi. destruct (Hframes i Hi) as [Hleft Hright]. split.
      * replace (44 + 4 * i)%nat with (44 + 2 * (2 * i))%nat by lia.
        apply data_bytes_at. exact Hleft.
      * replace (44 + 4 * i + 2)%nat with (44 + 2 * (2 * i + 1))%nat by lia.
        rewrite (data_bytes_at _ _ _ _ Hright). reflexivity.
Qed.

Lemma a4_song_in_limits (L : Libm float) : song_in_limits (a4_song (DA := binary64)).
Proof. unfold song_in_limits, loop_window_ok, MAX_ROWS. cbn. lia. Qed.

Lemma wav_export_layout_witness :
  song_in_limits (a4_song (DA := binary64) (L := square_libm)) /\
  exists (e : wav_export) (file : list byte),
    save_song_to_wav (P := studio) (L := square_libm)
      (a4_song (DA := binary64) (L := square_libm)) "a4.wav" = Some e /\
    returned e = 1 /\ wav_file e = Some file /\
    Z.of_nat (length file) - 44 = 22048 /\
    le_value (bytes_at 4 4 file) = 22084 /\
    le_value (bytes_at 40 4 file) = 22048 /\
    le_value (bytes_at 44 2 file) = 6881 /\
    le_value (bytes_at 46 2 file) = 0 /\
    le_value (bytes_at 48 2 file) = 6881.
Proof.
  pose proof (a4_song_in_limits square_libm) as Hlim.
  split; [exact Hlim|].
  destruct (wav_export_layout (P := studio) (L := square_libm)
              (a4_song (DA := binary64) (L := square_libm)) "a4.wav" Hlim)
    as [Hall Hone].
  destruct Hone as (e & file & He & Hret & Hf & Hlen & Hframes); try reflexivity.
  - intros c [= <-]. split; reflexivity.
  - cbn. eauto.
  - destruct (Hall e He Hret)
      as (file' & st & Hf' & _ & _ & _ & Hlf & _ & F4 & _ & _ & _ & _ & _ & _ & _ & _
          & _ & _ & F40 & _).
    rewrite Hf in Hf'. injection Hf' as <-.
    exists e, file. split; [exact He|]. split; [exact Hret|]. split; [exact Hf|].
    split; [exact Hlen|].
    split; [rewrite F4, Hlf; reflexivity|].
    split; [rewrite F40; reflexivity|].
    destruct (Hframes 0%nat ltac:(reflexivity)) as [Hl0 Hr0].
    destruct (Hframes 1%nat ltac:(reflexivity)) as [Hl1 _].
    split; [exact Hl0|]. split; [exact Hr0 | exact Hl1].
Defined.

(** ** A song of rests outside the limits *)

Section Rests.
Context {D : Type} {DA : DoubleArith D} {P : Platform} {L : Libm D}.
Variable song : Song D.
Hypothesis loop_off : loop_enabled song = 0.
Hypothesis rests :
  forall ch row : nat,
    Z.of_nat ch < num_channels song -> Z.of_nat row < num_rows song ->
    exists c : Cell D, cell_at song ch row = Some c /\ note c <= 0.

Lemma render_channels_rests (actual_row start_sample row_samples : Z)
    (chs : list nat) (audio : list Z) :
  0 <= actual_row < num_rows song ->
  Forall (fun ch : nat => Z.of_nat ch < num_channels song) chs ->
  render_channels song actual_row start_sample row_samples chs audio = Some audio.
Proof.
  intros Hrow Hchs. induction Hchs as [|ch chs Hch _ IH]; cbn [render_channels];
    [reflexivity|].
  unfold render_channel at 1.
  destruct (Z.ltb_spec actual_row 0) as [|_]; [lia|].
  destruct (rests ch (Z.to_nat actual_row) Hch ltac:(lia)) as (c & -> & Hnote).
  destruct (Z.gtb_spec (note c) 0) as [|_]; [lia|]. exact IH.
Qed.

Lemma render_rows_rests (note_duration : Z) (n : nat) :
  forall (first : Z) (st : render_state),
  0 <= first -> first + Z.of_nat n <= num_rows song -> rs_left_loop st = false ->
  render_rows song note_duration (seqZ first (Z.of_nat n)) st
  = Some (mkRender (rs_loops_done st) (rs_audio_buffer st)
            (rs_progress st ++ map (fun k => (k, k)) (seqZ first (Z.of_nat n))) false).
Proof.
  induction n as [|n IH]; intros first st H0 Hn Hin.
  - change (seqZ first (Z.of_nat 0)) with (@nil Z). cbn [render_rows map].
    rewrite app_nil_r. destruct st; cbn in *. rewrite Hin. reflexivity.
  - replace (Z.of_nat (S n)) with (Z.succ (Z.of_nat n)) by lia.
    rewrite seqZ_cons by lia. cbn [render_rows map].
    replace (Z.pred (Z.succ (Z.of_nat n))) with (Z.of_nat n) by lia.
    unfold render_row at 1. rewrite Hin, loop_off.
    destruct (Z.eqb_spec (num_rows song) 0) as [|_]; [lia|].
    change (0 =? 0) with true. cbn [negb andb].
    rewrite Z.rem_small by lia.
    rewrite render_channels_rests;
      [| lia | apply Forall_forall; intros ch Hch; apply elem_of_seq in Hch; lia].
    rewrite IH by (cbn [rs_left_loop]; first [lia | reflexivity]).
    cbn [rs_loops_done rs_audio_buffer rs_progress]. rewrite <- app_assoc. reflexivity.
Qed.

(** The export of a song of rests: the header and a silent buffer, of
    the sizes that the source computes. *)
Lemma export_of_rests (filename : string) :
  0 <= num_rows song ->
  malloc_ok (wrap_u32 (total_samples song * 2) * 2) = true ->
  SDL_Init_ok = true -> Mix_OpenAudio_ok = true -> fopen_ok filename = true ->
  exists (e : wav_export) (file : list byte),
    save_song_to_wav song filename = Some e /\ returned e = 1 /\
    wav_file e = Some file /\
    Z.of_nat (length file) = 44 + 2 * wrap_u32 (total_samples song * 2) /\
    le_value (bytes_at 4 4 file) = file_size (prepare_header (total_samples song)) /\
    le_value (bytes_at 40 4 file) = data_size (prepare_header (total_samples song)).
Proof.
  intros Hrows Hmalloc Hsdl Hmix Hfopen.
  unfold save_song_to_wav. cbv zeta. rewrite Hmalloc, Hsdl, Hmix, Hfopen. cbn [negb].
  assert (Ht : total_rows song = num_rows song).
  { unfold total_rows. rewrite loop_off. reflexivity. }
  rewrite Ht.
  replace (seqZ 0 (num_rows song)) with (seqZ 0 (Z.of_nat (Z.to_nat (num_rows song))))
    by (rewrite Z2Nat.id by lia; reflexivity).
  rewrite render_rows_rests by (cbn [rs_left_loop]; first [lia | reflexivity]).
  cbn [rs_audio_buffer rs_progress].
  eexists. eexists. split; [reflexivity|]. split; [reflexivity|].
  split; [reflexivity|].
  destruct (header_fields (total_samples song)
              (sample_bytes (replicate (Z.to_nat (wrap_u32 (total_samples song * 2))) 0)))
    as (_ & F4 & _ & _ & _ & _ & _ & _ & _ & _ & _ & _ & F40 & _).
  pose proof (Z.mod_pos_bound (total_samples song * 2) (2 ^ 32) ltac:(lia)) as Hc.
  fold (wrap_u32 (total_samples song * 2)) in Hc.
  split_ands.
  - rewrite length_app, length_header_bytes, length_sample_bytes, length_replicate. lia.
  - rewrite F4. apply le_value_small. cbn [file_size prepare_header].
    change (256 ^ Z.of_nat 4) with (2 ^ 32). apply Z.mod_pos_bound. lia.
  - rewrite F40. apply le_value_small. cbn [data_size prepare_header].
    change (256 ^ Z.of_nat 4) with (2 ^ 32). apply Z.mod_pos_bound. lia.
Qed.

End Rests.

(** C7, as stated, fails outside the limits of the editor.  The song of
    [main] with the bpm -7 that [load_song] accepts has a row duration
    of -2142 ms, and its total_samples, an unsigned 32-bit number, is
    4293455901: the export returns 1 and writes 4291944506 entries,
    8583889012 bytes of data, under a header whose data size reads
    4288921716 and whose RIFF size reads 4288921752. *)
Lemma wav_header_sizes_outside_limits :
  ~ song_in_limits (set_bpm (-7) (initial_song (DA := binary64))) /\
  get_note_duration_ms (set_bpm (-7) (initial_song (DA := binary64))) = -2142 /\
  total_samples (set_bpm (-7) (initial_song (DA := binary64))) = 4293455901 /\
  exists (e : wav_export) (file : list byte),
    save_song_to_wav (P := studio) (L := square_libm)
      (set_bpm (-7) (initial_song (DA := binary64))) "song.wav" = Some e /\
    returned e = 1 /\ wav_file e = Some file /\
    Z.of_nat (length file) - 44 = 8583889012 /\
    le_value (bytes_at 40 4 file) = 4288921716 /\
    le_value (bytes_at 4 4 file) = 4288921752 /\
    le_value (bytes_at 4 4 file) <> Z.of_nat (length file) - 8.
Proof.
  split.
  { intros (_ & [H | H] & _); cbn in H; lia. }
  split; [reflexivity|]. split; [reflexivity|].
  assert (Hrests : forall ch row : nat,
            Z.of_nat ch < num_channels (set_bpm (-7) (initial_song (DA := binary64))) ->
            Z.of_nat row < num_rows (set_bpm (-7) (initial_song (DA := binary64))) ->
            exists c : Cell float,
              cell_at (set_bpm (-7) (initial_song (DA := binary64))) ch row = Some c /\
              note c <= 0).
  { intros ch row Hch Hrow.
    change (cell_at (set_bpm (-7) (initial_song (DA := binary64))) ch row)
      with (cell_at (initial_song (DA := binary64)) ch row).
    rewrite initial_song_grid by assumption. exists initial_cell.
    split; [reflexivity | cbn; lia]. }
  destruct (export_of_rests (P := studio) (L := square_libm)
              (set_bpm (-7) (initial_song (DA := binary64))) eq_refl Hrests
              "song.wav"%string)
    as (e & file & He & Hret & Hf & Hlen & F4 & F40); try reflexivity.
  - change (num_rows (set_bpm (-7) (initial_song (DA := binary64)))) with 16. lia.
  - assert (Hc : wrap_u32 (total_samples (set_bpm (-7) (initial_song (DA := binary64))) * 2)
                 = 4291944506) by reflexivity.
    assert (Hfs : file_size (prepare_header
                    (total_samples (set_bpm (-7) (initial_song (DA := binary64)))))
                  = 4288921752) by reflexivity.
    assert (Hds : data_size (prepare_header
                    (total_samples (set_bpm (-7) (initial_song (DA := binary64)))))
                  = 4288921716) by reflexivity.
    rewrite Hc in Hlen. rewrite Hfs in F4. rewrite Hds in F40.
    exists e, file. split_ands; try assumption; lia.
Qed.

(** * Binary64: rounding and its error *)

Lemma pow2_pos (e : Z) : (0 < pow2 e)%Q.
Proof. apply Qpower_0_lt. reflexivity. Qed.

#[export] Instance signed_Proper : Proper (eq ==> Qeq ==> Qeq) signed.
Proof. intros s ? <- a b E. destruct s; cbn [signed]; rewrite E; reflexivity. Qed.

Ltac split_hyps :=
  repeat match goal with H : _ /\ _ |- _ => destruct H end.

Ltac abstract_Q :=
  repeat match goal with
  | |- context [inject_Z ?z] =>
      let q := fresh "q" in set (q := inject_Z z) in *; clearbody q
  | H : context [inject_Z ?z] |- _ =>
      let q := fresh "q" in set (q := inject_Z z) in *; clearbody q
  | |- context [pow2 ?z] =>
      let q := fresh "q" in
      let Hq := fresh "Hq" in
      pose proof (pow2_pos z) as Hq; set (q := pow2 z) in *; clearbody q
  | H : context [pow2 ?z] |- _ =>
      let q := fresh "q" in
      let Hq := fresh "Hq" in
      pose proof (pow2_pos z) as Hq; set (q := pow2 z) in *; clearbody q
  end.

Section Pow2.
Local Open Scope Q_scope.

Lemma pow2_add (a b : Z) : pow2 (a + b) == pow2 a * pow2 b.
Proof. apply Qpower_plus. discriminate. Qed.

Lemma pow2_Z (n : Z) : (0 <= n)%Z -> pow2 n == inject_Z (2 ^ n).
Proof. intros Hn. unfold pow2. rewrite Zpower_Qpower by exact Hn. reflexivity. Qed.

Lemma pow2_le (a b : Z) : (a <= b)%Z -> pow2 a <= pow2 b.
Proof. intros H. apply Qpower_le_compat_l; [exact H | discriminate]. Qed.

Lemma pow2_lt (a b : Z) : (a < b)%Z -> pow2 a < pow2 b.
Proof. intros H. apply Qpower_lt_compat_l; [exact H | reflexivity]. Qed.

Lemma pow2_eq (a b : Z) : a = b -> pow2 a == pow2 b.
Proof. intros ->. reflexivity. Qed.

Lemma pow2_split (a b : Z) : pow2 a == pow2 (a - b) * pow2 b.
Proof. rewrite <- pow2_add. replace (a - b + b)%Z with a by lia. reflexivity. Qed.

Lemma pow2_half (a : Z) : pow2 (a - 1) == pow2 a * (1 # 2).
Proof.
  rewrite (pow2_split a 1). change (pow2 1) with 2. field.
Qed.

Lemma pow2_lt_inv (a b : Z) : pow2 a < pow2 b -> (a < b)%Z.
Proof.
  intros H. destruct (Z.lt_ge_cases a b) as [L|G]; [exact L|].
  apply pow2_le in G. lra.
Qed.

Lemma inject_Z_pos (p : positive) : 0 < inject_Z (Zpos p).
Proof. change 0 with (inject_Z 0). rewrite <- Zlt_Qlt. lia. Qed.

End Pow2.

Lemma digits2_pos_bounds (p : positive) :
  2 ^ (Zpos (digits2_pos p) - 1) <= Zpos p < 2 ^ Zpos (digits2_pos p).
Proof.
  induction p as [p IH | p IH |]; cbn [digits2_pos].
  - rewrite Pos2Z.inj_succ, Pos2Z.inj_xI.
    replace (Z.succ (Zpos (digits2_pos p)) - 1) with (Z.succ (Zpos (digits2_pos p) - 1)) by lia.
    rewrite !Z.pow_succ_r by lia.
    destruct IH as [IH1 IH2]. revert IH1 IH2.
    generalize (2 ^ (Zpos (digits2_pos p) - 1)), (2 ^ Zpos (digits2_pos p)). intros; lia.
  - rewrite Pos2Z.inj_succ. change (Zpos p~0) with (2 * Zpos p).
    replace (Z.succ (Zpos (digits2_pos p)) - 1) with (Z.succ (Zpos (digits2_pos p) - 1)) by lia.
    rewrite !Z.pow_succ_r by lia.
    destruct IH as [IH1 IH2]. revert IH1 IH2.
    generalize (2 ^ (Zpos (digits2_pos p) - 1)), (2 ^ Zpos (digits2_pos p)). intros; lia.
  - cbn. lia.
Qed.

Lemma Zdigits2_nonneg (m : Z) : 0 <= Zdigits2 m.
Proof. destruct m; cbn; lia. Qed.

Lemma Zdigits2_upper (m : Z) : 0 <= m -> m < 2 ^ Zdigits2 m.
Proof.
  destruct m as [|p|p]; cbn [Zdigits2]; intros H; [cbn; lia | | lia].
  apply digits2_pos_bounds.
Qed.

Lemma Zdigits2_lower (m : Z) : 0 < m -> 2 ^ (Zdigits2 m - 1) <= m.
Proof.
  destruct m as [|p|p]; cbn [Zdigits2]; intros H; [lia | | lia].
  apply digits2_pos_bounds.
Qed.

Lemma Zdigits2_le (m k : Z) : 0 <= k -> 0 <= m < 2 ^ k -> Zdigits2 m <= k.
Proof.
  intros Hk [H0 H1]. destruct (Z.eq_dec m 0) as [->|Hm]; [cbn; lia|].
  pose proof (Zdigits2_lower m ltac:(lia)) as Hl.
  pose proof (Zdigits2_nonneg m) as Hn.
  assert (Hlt : 2 ^ (Zdigits2 m - 1) < 2 ^ k) by lia.
  apply Z.pow_lt_mono_r_iff in Hlt; lia.
Qed.

Lemma Zdigits2_pow2 (k : Z) : 0 <= k -> Zdigits2 (2 ^ k) = k + 1.
Proof.
  intros Hk.
  assert (Hp : 0 < 2 ^ k) by (apply Z.pow_pos_nonneg; lia).
  pose proof (Zdigits2_lower _ Hp) as Hl.
  pose proof (Zdigits2_upper (2 ^ k) ltac:(lia)) as Hu.
  pose proof (Zdigits2_nonneg (2 ^ k)) as Hn.
  apply Z.pow_lt_mono_r_iff in Hu; [| lia | lia].
  destruct (Z.eq_dec (Zdigits2 (2 ^ k)) 0) as [E|E].
  - rewrite E in Hu. lia.
  - apply Z.pow_le_mono_r_iff in Hl; lia.
Qed.

Section Inbetween.
Local Open Scope Q_scope.

Lemma inbetween_comp (m : Z) (l : location) (x y : Q) :
  x == y -> inbetween m l x -> inbetween m l y.
Proof.
  intros E. destruct l as [|[]]; cbn; intros H; split_hyps; try split; abstract_Q; lra.
Qed.

Lemma inbetween_bounds (m : Z) (l : location) (x : Q) :
  inbetween m l x -> inject_Z m <= x /\ x < inject_Z m + 1.
Proof. destruct l as [|[]]; cbn; intros H; split_hyps; split; abstract_Q; lra. Qed.

Lemma inject_Z_xI (p : positive) :
  inject_Z (Zpos p~1) == 2 * inject_Z (Zpos p) + 1.
Proof. rewrite Pos2Z.inj_xI, inject_Z_plus, inject_Z_mult. reflexivity. Qed.

Lemma inject_Z_xO (p : positive) :
  inject_Z (Zpos p~0) == 2 * inject_Z (Zpos p).
Proof. change (Zpos p~0) with (2 * Zpos p)%Z. rewrite inject_Z_mult. reflexivity. Qed.

Lemma shr_1_inbetween (mrs : shr_record) (x : Q) :
  (0 <= shr_m mrs)%Z ->
  inbetween (shr_m mrs) (loc_of_shr_record mrs) x ->
  (0 <= shr_m (shr_1 mrs))%Z /\
  inbetween (shr_m (shr_1 mrs)) (loc_of_shr_record (shr_1 mrs)) (x * (1 # 2)).
Proof.
  destruct mrs as [m r s]. cbn [shr_m].
  destruct m as [|[p|p|]|p]; intros Hm; [| | | | lia].
  all: destruct r, s; cbn [shr_1 shr_m loc_of_shr_record orb inbetween];
    try rewrite inject_Z_xI; try rewrite inject_Z_xO;
    change (inject_Z 0) with 0; change (inject_Z 1) with 1;
    intros H; (split; [lia|]); split_hyps; try split; abstract_Q; lra.
Qed.

Lemma iter_shr_1_inbetween (n : positive) :
  forall (mrs : shr_record) (x : Q),
  (0 <= shr_m mrs)%Z ->
  inbetween (shr_m mrs) (loc_of_shr_record mrs) x ->
  (0 <= shr_m (@SpecFloat.iter_pos _ shr_1 n mrs))%Z /\
  inbetween (shr_m (@SpecFloat.iter_pos _ shr_1 n mrs))
            (loc_of_shr_record (@SpecFloat.iter_pos _ shr_1 n mrs)) (x * pow2 (- Zpos n)).
Proof.
  induction n as [n IH | n IH |]; intros mrs x Hm Hx; cbn [SpecFloat.iter_pos].
  - destruct (shr_1_inbetween mrs x Hm Hx) as [Hm1 Hx1].
    destruct (IH _ _ Hm1 Hx1) as [Hm2 Hx2].
    destruct (IH _ _ Hm2 Hx2) as [Hm3 Hx3].
    split; [exact Hm3|]. eapply inbetween_comp; [| exact Hx3].
    replace (- Zpos n~1)%Z with (-1 + (- Zpos n + - Zpos n))%Z by lia.
    rewrite !pow2_add. change (pow2 (-1)) with (1 # 2). ring.
  - destruct (IH _ _ Hm Hx) as [Hm2 Hx2].
    destruct (IH _ _ Hm2 Hx2) as [Hm3 Hx3].
    split; [exact Hm3|]. eapply inbetween_comp; [| exact Hx3].
    replace (- Zpos n~0)%Z with (- Zpos n + - Zpos n)%Z by lia.
    rewrite !pow2_add. ring.
  - apply shr_1_inbetween; assumption.
Qed.

Lemma shr_inbetween (mrs : shr_record) (e n : Z) (x : Q) :
  (0 <= shr_m mrs)%Z ->
  inbetween (shr_m mrs) (loc_of_shr_record mrs) x ->
  snd (shr mrs e n) = Z.max e (e + n) /\
  (0 <= shr_m (fst (shr mrs e n)))%Z /\
  inbetween (shr_m (fst (shr mrs e n)))
            (loc_of_shr_record (fst (shr mrs e n)))
            (x * pow2 (e - Z.max e (e + n))).
Proof.
  intros Hm Hx. destruct n as [|p|p]; cbn [shr fst snd].
  - split; [lia|]. split; [exact Hm|].
    eapply inbetween_comp; [| exact Hx].
    replace (e - Z.max e (e + 0))%Z with 0%Z by lia. change (pow2 0) with 1. ring.
  - split; [lia|].
    destruct (iter_shr_1_inbetween p mrs x Hm Hx) as [H1 H2].
    split; [exact H1|].
    replace (e - Z.max e (e + Zpos p))%Z with (- Zpos p)%Z by lia. exact H2.
  - split; [lia|]. split; [exact Hm|].
    eapply inbetween_comp; [| exact Hx].
    replace (e - Z.max e (e + Zneg p))%Z with 0%Z by lia. change (pow2 0) with 1. ring.
Qed.

Lemma shr_record_of_loc_m (m : Z) (l : location) : shr_m (shr_record_of_loc m l) = m.
Proof. destruct l as [|[]]; reflexivity. Qed.

Lemma loc_of_shr_record_of_loc (m : Z) (l : location) :
  loc_of_shr_record (shr_record_of_loc m l) = l.
Proof. destruct l as [|[]]; reflexivity. Qed.

Lemma round_nearest_even_spec (m : Z) (l : location) (x : Q) :
  inbetween m l x ->
  let m' := round_nearest_even m l in
  (m <= m' <= m + 1)%Z /\
  inject_Z m' - (1 # 2) <= x /\ x <= inject_Z m' + (1 # 2) /\
  (l = loc_Exact -> m' = m).
Proof.
  destruct l as [|[]]; cbn [inbetween round_nearest_even]; intros H.
  - split; [lia|]. split; [lra|]. split; [lra|]. reflexivity.
  - destruct (Z.even m).
    + split; [lia|]. split; [lra|]. split; [lra|]. discriminate.
    + rewrite inject_Z_plus. change (inject_Z 1) with 1.
      split; [lia|]. split; [lra|]. split; [lra|]. discriminate.
  - split_hyps. split; [lia|]. split; [lra|]. split; [lra|]. discriminate.
  - split_hyps. rewrite inject_Z_plus. change (inject_Z 1) with 1.
    split; [lia|]. split; [lra|]. split; [lra|]. discriminate.
Qed.

End Inbetween.

Lemma shr_nonpos (mrs : shr_record) (e n : Z) : n <= 0 -> shr mrs e n = (mrs, e).
Proof. destruct n; [reflexivity | lia | reflexivity]. Qed.

Lemma inject_Z_unique (m k : Z) :
  (inject_Z m <= inject_Z k)%Q -> (inject_Z k < inject_Z m + 1)%Q -> m = k.
Proof.
  intros H1 H2. rewrite <- Zle_Qle in H1.
  change 1%Q with (inject_Z 1) in H2. rewrite <- inject_Z_plus, <- Zlt_Qlt in H2. lia.
Qed.

Section Rounding.
Variables prec emax : Z.
Hypothesis prec_gt_0 : 0 < prec.
Hypothesis prec_lt_emax : prec < emax.

Local Notation "'emin'" := (SpecFloat.emin prec emax).
Local Notation "'fexp'" := (SpecFloat.fexp prec emax).
Local Notation "'ulp_half'" := (ulp_half_of prec).
Local Notation "'eta'" := (eta_of prec emax).
Local Notation "'rounded'" := (rounded_to prec emax).

Lemma fexp_ge_emin (e : Z) : emin <= fexp e.
Proof. unfold SpecFloat.fexp. lia. Qed.

Lemma fexp_ge (e : Z) : e - prec <= fexp e.
Proof. unfold SpecFloat.fexp. lia. Qed.

Lemma fexp_cases (e : Z) : fexp e = e - prec \/ fexp e = emin.
Proof. unfold SpecFloat.fexp. lia. Qed.

Lemma emin_lt : emin + 1 <= emax - prec.
Proof. unfold SpecFloat.emin. lia. Qed.


Lemma binary_round_aux_correct (sx : bool) (mx ex : Z) (lx : location) (x : Q) :
  0 <= mx -> inbetween mx lx x ->
  let E := Z.max ex (fexp (Zdigits2 mx + ex)) in
  E + 1 <= emax - prec ->
  exists m2 : Z,
    0 <= m2 /\
    (inject_Z m2 - (1 # 2) <= x * pow2 (ex - E))%Q /\
    (x * pow2 (ex - E) <= inject_Z m2 + (1 # 2))%Q /\
    (lx = loc_Exact -> E = ex -> m2 = mx) /\
    finite_sf (binary_round_aux prec emax sx mx ex lx) = true /\
    (SF2Q (binary_round_aux prec emax sx mx ex lx) == signed sx (inject_Z m2 * pow2 E))%Q.
Proof.
  intros Hmx Hx E HE.
  unfold binary_round_aux, shr_fexp.
  set (n := fexp (Zdigits2 mx + ex) - ex).
  assert (EE : E = Z.max ex (ex + n)) by (unfold E, n; lia).
  pose proof (shr_inbetween (shr_record_of_loc mx lx) ex n x) as Hs.
  rewrite shr_record_of_loc_m, loc_of_shr_record_of_loc in Hs.
  specialize (Hs Hmx Hx).
  assert (Hexact : lx = loc_Exact -> E = ex ->
            shr (shr_record_of_loc mx lx) ex n = (shr_record_of_loc mx loc_Exact, ex)).
  { intros -> Ee. apply shr_nonpos. lia. }
  destruct (shr (shr_record_of_loc mx lx) ex n) as [mrs1 e1].
  cbn [fst snd] in Hs. destruct Hs as (He1 & Hm1 & Hx1).
  rewrite <- EE in He1, Hx1. subst e1.
  set (m1 := shr_m mrs1) in *. set (l1 := loc_of_shr_record mrs1) in *.
  destruct (round_nearest_even_spec m1 l1 _ Hx1) as (Hr1 & Hr2 & Hr3 & Hr4).
  set (m2 := round_nearest_even m1 l1) in *.
  (* the shifted mantissa has at most prec digits *)
  assert (Hm1p : m1 < 2 ^ prec).
  { destruct (inbetween_bounds _ _ _ Hx) as [_ Hxu].
    destruct (inbetween_bounds _ _ _ Hx1) as [Hx1l _].
    pose proof (Zdigits2_upper mx Hmx) as Hd.
    pose proof (Zdigits2_nonneg mx) as Hd0.
    assert (Hxd : (x < pow2 (Zdigits2 mx))%Q).
    { rewrite pow2_Z by exact Hd0.
      eapply Qlt_le_trans; [exact Hxu|].
      change 1%Q with (inject_Z 1). rewrite <- inject_Z_plus, <- Zle_Qle. lia. }
    assert (Hle : (pow2 (Zdigits2 mx) * pow2 (ex - E) <= pow2 prec)%Q).
    { rewrite <- pow2_add. apply pow2_le.
      pose proof (fexp_ge (Zdigits2 mx + ex)). lia. }
    rewrite Zlt_Qlt, <- pow2_Z by lia.
    pose proof (pow2_pos (ex - E)) as Hp.
    revert Hx1l Hxd Hle Hp.
    generalize (pow2 (Zdigits2 mx)), (pow2 (ex - E)), (pow2 prec), (inject_Z m1).
    intros a b c d ????. nra. }
  assert (HEemin : emin <= E).
  { pose proof (fexp_ge_emin (Zdigits2 mx + ex)). lia. }
  exists m2. split; [lia|]. split; [exact Hr2|]. split; [exact Hr3|]. split.
  { intros Hl Ee. specialize (Hexact Hl Ee).
    subst m2 m1 l1. injection Hexact as ->. reflexivity. }
  clearbody m2. clear Hexact.
  destruct (Z.eq_dec m2 (2 ^ prec)) as [Hfull | Hnot].
  - (* the rounding carried into a new digit *)
    assert (Hd2 : Zdigits2 m2 = prec + 1) by (rewrite Hfull; apply Zdigits2_pow2; lia).
    assert (Hn2 : fexp (Zdigits2 m2 + E) - E = 1).
    { rewrite Hd2. unfold SpecFloat.fexp. lia. }
    rewrite Hn2. cbn [shr SpecFloat.iter_pos shr_record_of_loc].
    pose proof (shr_1_inbetween (shr_record_of_loc m2 loc_Exact) (inject_Z m2)) as Hs.
    cbn [shr_record_of_loc shr_m loc_of_shr_record inbetween] in Hs.
    destruct Hs as [Hs0 Hs1]; [lia | reflexivity |].
    set (mrs2 := shr_1 {| shr_m := m2; shr_r := false; shr_s := false |}) in *.
    assert (Hhalf : (inject_Z m2 * (1 # 2) == inject_Z (2 ^ (prec - 1)))%Q).
    { rewrite Hfull. replace prec with (Z.succ (prec - 1)) at 1 by lia.
      rewrite Z.pow_succ_r by lia. rewrite inject_Z_mult. change (inject_Z 2) with 2%Q.
      field. }
    apply (inbetween_comp _ _ _ _ Hhalf) in Hs1.
    destruct (inbetween_bounds _ _ _ Hs1) as [Hb1 Hb2].
    pose proof (inject_Z_unique _ _ Hb1 Hb2) as Hm.
    rewrite Hm.
    assert (Hpos : 0 < 2 ^ (prec - 1)) by (apply Z.pow_pos_nonneg; lia).
    destruct (2 ^ (prec - 1)) as [|p|p] eqn:Ep; [lia | | lia].
    assert (Hleb : (E + 1 <=? emax - prec) = true) by (apply Z.leb_le; lia).
    rewrite Hleb. split; [reflexivity|].
    cbn [SF2Q].
    assert (Hval : (inject_Z (Zpos p) * pow2 (E + 1) == inject_Z m2 * pow2 E)%Q).
    { rewrite pow2_add. change (pow2 1) with 2%Q.
      rewrite <- Hhalf. ring. }
    destruct sx; cbn [signed]; rewrite Hval; reflexivity.
  - assert (Hd2 : Zdigits2 m2 <= prec) by (apply Zdigits2_le; lia).
    assert (Hn2 : fexp (Zdigits2 m2 + E) - E <= 0).
    { unfold SpecFloat.fexp. lia. }
    rewrite (shr_nonpos _ _ _ Hn2). cbn [shr_record_of_loc shr_m].
    destruct m2 as [|p|p]; [| | lia].
    + split; [reflexivity|]. cbn [SF2Q]. change (inject_Z 0) with 0%Q.
      destruct sx; cbn [signed]; ring.
    + assert (Hleb : (E <=? emax - prec) = true) by (apply Z.leb_le; lia).
      rewrite Hleb. split; [reflexivity|]. cbn [SF2Q]. reflexivity.
Qed.



Lemma no_overflow (m : positive) (e k : Z) :
  (inject_Z (Zpos m) * pow2 e < pow2 k)%Q -> Zdigits2 (Zpos m) + e <= k.
Proof.
  intros H.
  pose proof (Zdigits2_lower (Zpos m) ltac:(lia)) as Hl.
  pose proof (Zdigits2_nonneg (Zpos m)) as Hn.
  assert (Hd : 1 <= Zdigits2 (Zpos m)) by (cbn; lia).
  rewrite Zle_Qle, <- pow2_Z in Hl by lia.
  assert (Hlt : (pow2 (Zdigits2 (Zpos m) - 1 + e) < pow2 k)%Q).
  { rewrite pow2_add. pose proof (pow2_pos e).
    revert H Hl H0. generalize (pow2 (Zdigits2 (Zpos m) - 1)), (pow2 e), (pow2 k), (inject_Z (Zpos m)).
    intros a b c d ???. nra. }
  apply pow2_lt_inv in Hlt. lia.
Qed.

Lemma signed_diff (s : bool) (q v : Q) :
  (Qabs (signed s q - signed s v) == Qabs (q - v))%Q.
Proof.
  destruct s; cbn [signed]; [| reflexivity].
  rewrite <- (Qabs_opp (q - v)). apply Qabs_wd. ring.
Qed.

Lemma signed_abs (s : bool) (v : Q) : (0 <= v)%Q -> (Qabs (signed s v) == v)%Q.
Proof.
  intros Hv. destruct s; cbn [signed].
  - rewrite Qabs_opp. apply Qabs_pos. exact Hv.
  - apply Qabs_pos. exact Hv.
Qed.

Lemma round_aux_exact (sx : bool) (m : positive) (ex : Z) :
  let v := (inject_Z (Zpos m) * pow2 ex)%Q in
  let r := binary_round_aux prec emax sx (Zpos m) ex loc_Exact in
  (v < pow2 (emax - prec))%Q ->
  exists q : Q,
    finite_sf r = true /\ (SF2Q r == signed sx q)%Q /\
    (Qabs (q - v) <= ulp_half * v + eta)%Q /\
    (fexp (Zdigits2 (Zpos m) + ex) <= ex -> (q == v)%Q).
Proof.
  intros v r Hv.
  pose proof (no_overflow _ _ _ Hv) as Hd.
  assert (Hd1 : 1 <= Zdigits2 (Zpos m)) by (cbn; lia).
  set (d := Zdigits2 (Zpos m)) in *.
  set (E := Z.max ex (fexp (d + ex))).
  assert (HE : E + 1 <= emax - prec).
  { pose proof emin_lt. destruct (fexp_cases (d + ex)); lia. }
  destruct (binary_round_aux_correct sx (Zpos m) ex loc_Exact (inject_Z (Zpos m)))
    as (m2 & Hm2 & Hlo & Hhi & Hex & Hfin & Hval);
    [lia | reflexivity | exact HE |].
  fold d in Hlo, Hhi, Hex, Hval. fold E in Hlo, Hhi, Hex, Hval. fold r in Hfin, Hval.
  exists (inject_Z m2 * pow2 E)%Q.
  split; [exact Hfin|]. split; [exact Hval|].
  assert (Hv0 : (0 < v)%Q).
  { unfold v. pose proof (inject_Z_pos m). pose proof (pow2_pos ex). nra. }
  assert (Heta : (0 < eta)%Q) by apply pow2_pos.
  assert (Hu : (0 < ulp_half)%Q) by apply pow2_pos.
  destruct (Z.eq_dec E ex) as [Ee | Ene].
  - rewrite (Hex eq_refl Ee). rewrite Ee.
    assert (Hq : (inject_Z (Zpos m) * pow2 ex - v == 0)%Q) by (unfold v; ring).
    split.
    + rewrite (Qabs_wd _ _ Hq). change (Qabs 0) with 0%Q. nra.
    + intros _. reflexivity.
  - assert (Efexp : E = fexp (d + ex)) by lia.
    split; [| intros Hle; lia].
    assert (Hdiff : (inject_Z m2 * pow2 E - v ==
                     (inject_Z m2 - inject_Z (Zpos m) * pow2 (ex - E)) * pow2 E)%Q).
    { unfold v. rewrite (pow2_split ex E). ring. }
    assert (Hhalf : (Qabs (inject_Z m2 * pow2 E - v) <= pow2 (E - 1))%Q).
    { rewrite (Qabs_wd _ _ Hdiff), pow2_half. apply Qabs_Qle_condition.
      pose proof (pow2_pos E) as HpE. revert Hlo Hhi HpE.
      generalize (inject_Z m2), (inject_Z (Zpos m) * pow2 (ex - E))%Q, (pow2 E).
      intros a b c ???. split; nra. }
    eapply Qle_trans; [exact Hhalf|].
    destruct (fexp_cases (d + ex)) as [Hn | He].
    + assert (Hdl : (pow2 (d - 1) <= inject_Z (Zpos m))%Q).
      { rewrite pow2_Z by lia. rewrite <- Zle_Qle. apply Zdigits2_lower. lia. }
      assert (Hp : (pow2 (E - 1) == ulp_half * (pow2 (d - 1) * pow2 ex))%Q).
      { unfold ulp_half_of. rewrite <- !pow2_add. apply pow2_eq. lia. }
      rewrite Hp. unfold v. pose proof (pow2_pos ex) as Hpe. revert Hdl Hpe Hu Heta.
      generalize (pow2 (d - 1)), (inject_Z (Zpos m)), (pow2 ex), ulp_half, eta.
      intros a b c u0 e0 ????. 
      assert (a * c <= b * c)%Q by nra. nra.
    + assert (Hp : (pow2 (E - 1) == eta)%Q).
      { unfold eta_of. apply pow2_eq. lia. }
      rewrite Hp. nra.
Qed.


Lemma iter_xO (m d : positive) : Zpos (Pos.iter xO m d) = Zpos m * 2 ^ Zpos d.
Proof.
  induction d as [|d IH] using Pos.peano_ind.
  - cbn. lia.
  - rewrite Pos.iter_succ, Pos2Z.inj_succ, Z.pow_succ_r by lia.
    change (Zpos (Pos.iter xO m d)~0) with (2 * Zpos (Pos.iter xO m d)).
    rewrite IH. ring.
Qed.

Lemma shl_align_spec (mx : positive) (ex ex' : Z) :
  snd (shl_align mx ex ex') = Z.min ex ex' /\
  Zpos (fst (shl_align mx ex ex')) = Zpos mx * 2 ^ (ex - Z.min ex ex').
Proof.
  unfold shl_align. destruct (ex' - ex) as [|d|d] eqn:Ed; cbn [fst snd].
  - split; [lia|]. replace (ex - Z.min ex ex') with 0 by lia. lia.
  - split; [lia|]. replace (ex - Z.min ex ex') with 0 by lia. lia.
  - split; [lia|]. rewrite iter_xO. f_equal. f_equal. lia.
Qed.

Lemma Zdigits2_unique (m k : Z) : 0 < m -> 2 ^ (k - 1) <= m < 2 ^ k -> Zdigits2 m = k.
Proof.
  intros Hm [Hl Hu].
  pose proof (Zdigits2_lower m Hm) as Dl.
  pose proof (Zdigits2_upper m ltac:(lia)) as Du.
  pose proof (Zdigits2_nonneg m) as Dn.
  assert (Hk : 1 <= k).
  { destruct (Z.lt_ge_cases k 1) as [L|G]; [| exact G]. exfalso.
    destruct (Z.eq_dec k 0) as [->|]; [cbn in Hu; lia|].
    rewrite Z.pow_neg_r in Hu by lia. lia. }
  assert (Hd : 1 <= Zdigits2 m).
  { destruct (Z.eq_dec (Zdigits2 m) 0) as [E|]; [| lia]. rewrite E in Du. cbn in Du. lia. }
  assert (H1 : 2 ^ (Zdigits2 m - 1) < 2 ^ k) by lia.
  assert (H2 : 2 ^ (k - 1) < 2 ^ Zdigits2 m) by lia.
  apply Z.pow_lt_mono_r_iff in H1; [| lia | lia].
  apply Z.pow_lt_mono_r_iff in H2; [| lia | lia]. lia.
Qed.

Lemma Zdigits2_shift (m : positive) (s : Z) :
  0 <= s -> Zdigits2 (Zpos m * 2 ^ s) = Zdigits2 (Zpos m) + s.
Proof.
  intros Hs.
  pose proof (Zdigits2_lower (Zpos m) ltac:(lia)) as Dl.
  pose proof (Zdigits2_upper (Zpos m) ltac:(lia)) as Du.
  assert (Hd : 1 <= Zdigits2 (Zpos m)) by (cbn; lia).
  assert (Hp : 0 < 2 ^ s) by (apply Z.pow_pos_nonneg; lia).
  apply Zdigits2_unique; [nia|].
  replace (Zdigits2 (Zpos m) + s - 1) with ((Zdigits2 (Zpos m) - 1) + s) by lia.
  rewrite !Z.pow_add_r by lia. split; nia.
Qed.

Lemma binary_round_correct (sx : bool) (mx : positive) (ex : Z) :
  let v := (inject_Z (Zpos mx) * pow2 ex)%Q in
  let r := binary_round prec emax sx mx ex in
  (v < pow2 (emax - prec))%Q ->
  exists q : Q,
    finite_sf r = true /\ (SF2Q r == signed sx q)%Q /\
    (Qabs (q - v) <= ulp_half * v + eta)%Q /\
    (fexp (Zdigits2 (Zpos mx) + ex) <= ex -> (q == v)%Q).
Proof.
  intros v r Hv. subst r. unfold binary_round.
  change (Zpos (digits2_pos mx)) with (Zdigits2 (Zpos mx)).
  set (d := Zdigits2 (Zpos mx)) in *.
  destruct (shl_align_spec mx ex (fexp (d + ex))) as [Hez Hmz].
  destruct (shl_align mx ex (fexp (d + ex))) as [mz ez]. cbn [fst snd] in Hez, Hmz.
  assert (Hs : 0 <= ex - ez) by lia.
  assert (Hval : (inject_Z (Zpos mz) * pow2 ez == v)%Q).
  { unfold v. rewrite Hmz, inject_Z_mult, <- pow2_Z by lia.
    rewrite (pow2_split ex ez). rewrite Hez. ring. }
  assert (Hdz : Zdigits2 (Zpos mz) + ez = d + ex).
  { rewrite Hmz, <- Hez, Zdigits2_shift by lia. fold d. lia. }
  destruct (round_aux_exact sx mz ez) as (q & Hfin & Hq & Herr & Hex).
  { rewrite Hval. exact Hv. }
  exists q. split; [exact Hfin|]. split; [exact Hq|]. split.
  - rewrite Hval in Herr. exact Herr.
  - intros Hle. rewrite <- Hval. apply Hex. rewrite Hdz. lia.
Qed.

Lemma rounded_exact (r : spec_float) (v : Q) :
  finite_sf r = true -> (SF2Q r == v)%Q -> rounded r v.
Proof.
  intros Hf Hv. split; [exact Hf|].
  assert (E : (SF2Q r - v == 0)%Q) by (rewrite Hv; ring).
  rewrite (Qabs_wd _ _ E). change (Qabs 0) with 0%Q.
  pose proof (Qabs_nonneg v). pose proof (pow2_pos (- prec)). pose proof (pow2_pos (emin - 1)).
  unfold ulp_half_of, eta_of. nra.
Qed.

Lemma rounded_comp (r : spec_float) (v w : Q) : (v == w)%Q -> rounded r v -> rounded r w.
Proof.
  intros E [Hf Hb]. split; [exact Hf|].
  assert (E1 : (SF2Q r - w == SF2Q r - v)%Q) by (rewrite E; reflexivity).
  rewrite (Qabs_wd _ _ E1). rewrite <- (Qabs_wd _ _ E). exact Hb.
Qed.

Lemma binary_normalize_correct (m e : Z) :
  let v := (inject_Z m * pow2 e)%Q in
  let r := binary_normalize prec emax m e false in
  (Qabs v < pow2 (emax - prec))%Q ->
  rounded r v /\ (fexp (Zdigits2 m + e) <= e -> (SF2Q r == v)%Q).
Proof.
  intros v r Hv. subst r. destruct m as [|p|p]; cbn [binary_normalize].
  - assert (E : (0 == v)%Q) by (unfold v; change (inject_Z 0) with 0%Q; ring).
    split; [| intros _; exact E]. apply rounded_exact; [reflexivity | exact E].
  - assert (Hv0 : (0 < v)%Q).
    { unfold v. pose proof (inject_Z_pos p). pose proof (pow2_pos e). nra. }
    rewrite Qabs_pos in Hv by lra.
    destruct (binary_round_correct false p e Hv) as (q & Hfin & Hq & Herr & Hex).
    cbn [signed] in Hq. split.
    + split; [exact Hfin|].
      rewrite (Qabs_pos v) by lra.
      assert (E : (SF2Q (binary_round prec emax false p e) - v == q - v)%Q)
        by (rewrite Hq; reflexivity).
      rewrite (Qabs_wd _ _ E). exact Herr.
    + intros Hle. rewrite Hq. apply Hex. exact Hle.
  - set (w := (inject_Z (Zpos p) * pow2 e)%Q).
    assert (Hvw : (v == - w)%Q).
    { unfold v, w. change (Zneg p) with (- Zpos p). rewrite inject_Z_opp. ring. }
    assert (Hw0 : (0 < w)%Q).
    { unfold w. pose proof (inject_Z_pos p). pose proof (pow2_pos e). nra. }
    assert (Hw : (w < pow2 (emax - prec))%Q).
    { rewrite (Qabs_wd _ _ Hvw), Qabs_opp, Qabs_pos in Hv by lra. exact Hv. }
    destruct (binary_round_correct true p e Hw) as (q & Hfin & Hq & Herr & Hex).
    cbn [signed] in Hq. fold w in Herr, Hex. split.
    + split; [exact Hfin|].
      rewrite (Qabs_wd _ _ Hvw), Qabs_opp, (Qabs_pos w) by lra.
      assert (E : (SF2Q (binary_round prec emax true p e) - v == - (q - w))%Q)
        by (rewrite Hq, Hvw; ring).
      rewrite (Qabs_wd _ _ E), Qabs_opp. exact Herr.
    + intros Hle. rewrite Hq, Hvw. rewrite (Hex Hle). reflexivity.
Qed.


Lemma rounded_signed (r : spec_float) (s : bool) (q v : Q) :
  finite_sf r = true -> (SF2Q r == signed s q)%Q -> (0 <= v)%Q ->
  (Qabs (q - v) <= ulp_half * v + eta)%Q ->
  rounded r (signed s v).
Proof.
  intros Hf Hq Hv Herr. split; [exact Hf|].
  assert (E : (SF2Q r - signed s v == signed s q - signed s v)%Q)
    by (rewrite Hq; reflexivity).
  rewrite (Qabs_wd _ _ E), signed_diff, signed_abs by exact Hv. exact Herr.
Qed.

Lemma signed_mul (sx sy : bool) (a b : Q) :
  (signed sx a * signed sy b == signed (xorb sx sy) (a * b))%Q.
Proof. destruct sx, sy; cbn [signed xorb]; ring. Qed.

Lemma signed_div (sx sy : bool) (a b : Q) :
  ~ (b == 0)%Q -> (signed sx a / signed sy b == signed (xorb sx sy) (a / b))%Q.
Proof. intros Hb. destruct sx, sy; cbn [signed xorb]; field; exact Hb. Qed.

Lemma mantissa_value_pos (m : positive) (e : Z) : (0 < inject_Z (Zpos m) * pow2 e)%Q.
Proof. pose proof (inject_Z_pos m). pose proof (pow2_pos e). nra. Qed.

Lemma SFmul_correct (x y : spec_float) :
  finite_sf x = true -> finite_sf y = true ->
  (Qabs (SF2Q x * SF2Q y) < pow2 (emax - prec))%Q ->
  rounded (SFmul prec emax x y) (SF2Q x * SF2Q y).
Proof.
  destruct x as [sx| | |sx mx ex], y as [sy| | |sy my ey]; try discriminate;
    intros _ _ Hv; cbn [SFmul].
  1-3: apply rounded_exact; [reflexivity | cbn [SF2Q]; ring].
  cbn [SF2Q] in *.
  set (v := (inject_Z (Zpos (mx * my)) * pow2 (ex + ey))%Q).
  assert (Ev : (signed sx (inject_Z (Zpos mx) * pow2 ex) *
                signed sy (inject_Z (Zpos my) * pow2 ey) == signed (xorb sx sy) v)%Q).
  { rewrite signed_mul. unfold v. rewrite Pos2Z.inj_mul, inject_Z_mult, pow2_add.
    destruct (xorb sx sy); cbn [signed]; ring. }
  assert (Hv0 : (0 < v)%Q) by apply mantissa_value_pos.
  rewrite (Qabs_wd _ _ Ev), signed_abs in Hv by lra.
  destruct (round_aux_exact (xorb sx sy) (mx * my) (ex + ey) Hv)
    as (q & Hfin & Hq & Herr & _).
  apply (rounded_comp _ (signed (xorb sx sy) v)); [symmetry; exact Ev|].
  apply (rounded_signed _ _ q); [exact Hfin | exact Hq | lra | exact Herr].
Qed.

Lemma inject_cond_Zopp (s : bool) (z : Z) :
  (inject_Z (cond_Zopp s z) == signed s (inject_Z z))%Q.
Proof. destruct s; cbn [cond_Zopp signed]; [rewrite inject_Z_opp |]; reflexivity. Qed.

Lemma signed_scale (s : bool) (a b : Q) : (signed s a * b == signed s (a * b))%Q.
Proof. destruct s; cbn [signed]; ring. Qed.

Lemma aligned_value (s : bool) (m : positive) (e ez : Z) :
  ez <= e ->
  (inject_Z (cond_Zopp s (Zpos (fst (shl_align m e ez)))) * pow2 ez
   == signed s (inject_Z (Zpos m) * pow2 e))%Q.
Proof.
  intros Hle. destruct (shl_align_spec m e ez) as [_ Hm].
  rewrite inject_cond_Zopp, signed_scale, Hm.
  replace (Z.min e ez) with ez by lia.
  rewrite inject_Z_mult, <- pow2_Z by lia. rewrite (pow2_split e ez).
  destruct s; cbn [signed]; ring.
Qed.

Lemma SFadd_correct (x y : spec_float) :
  finite_sf x = true -> finite_sf y = true ->
  (Qabs (SF2Q x + SF2Q y) < pow2 (emax - prec))%Q ->
  rounded (SFadd prec emax x y) (SF2Q x + SF2Q y).
Proof.
  destruct x as [sx| | |sx mx ex], y as [sy| | |sy my ey]; try discriminate;
    intros _ _ Hv; cbn [SFadd].
  - destruct sx, sy; apply rounded_exact; try reflexivity; cbn [SF2Q]; ring.
  - apply rounded_exact; [reflexivity | cbn [SF2Q]; ring].
  - apply rounded_exact; [reflexivity | cbn [SF2Q]; ring].
  - cbv zeta. set (ez := Z.min ex ey).
    set (S := cond_Zopp sx (Zpos (fst (shl_align mx ex ez))) +
              cond_Zopp sy (Zpos (fst (shl_align my ey ez)))).
    assert (Ev : (inject_Z S * pow2 ez == SF2Q (S754_finite sx mx ex) + SF2Q (S754_finite sy my ey))%Q).
    { unfold S. rewrite inject_Z_plus, Qmult_plus_distr_l.
      rewrite !aligned_value by (unfold ez; lia). reflexivity. }
    apply (rounded_comp _ _ _ Ev).
    apply binary_normalize_correct. rewrite (Qabs_wd _ _ Ev). exact Hv.
Qed.

Lemma SFsub_value (sx sy : bool) (mx my : positive) (ex ey : Z) :
  let ez := Z.min ex ey in
  let S := cond_Zopp sx (Zpos (fst (shl_align mx ex ez))) -
           cond_Zopp sy (Zpos (fst (shl_align my ey ez))) in
  (inject_Z S * pow2 ez ==
   SF2Q (S754_finite sx mx ex) - SF2Q (S754_finite sy my ey))%Q.
Proof.
  intros ez S. unfold S, Z.sub.
  rewrite inject_Z_plus, inject_Z_opp.
  assert (E : ((inject_Z (cond_Zopp sx (Zpos (fst (shl_align mx ex ez)))) +
                - inject_Z (cond_Zopp sy (Zpos (fst (shl_align my ey ez))))) * pow2 ez ==
               inject_Z (cond_Zopp sx (Zpos (fst (shl_align mx ex ez)))) * pow2 ez -
               inject_Z (cond_Zopp sy (Zpos (fst (shl_align my ey ez)))) * pow2 ez)%Q) by ring.
  rewrite E, !aligned_value by (unfold ez; lia). reflexivity.
Qed.

Lemma SFsub_correct (x y : spec_float) :
  finite_sf x = true -> finite_sf y = true ->
  (Qabs (SF2Q x - SF2Q y) < pow2 (emax - prec))%Q ->
  rounded (SFsub prec emax x y) (SF2Q x - SF2Q y).
Proof.
  destruct x as [sx| | |sx mx ex], y as [sy| | |sy my ey]; try discriminate;
    intros _ _ Hv; cbn [SFsub].
  - destruct sx, sy; apply rounded_exact; try reflexivity; cbn [SF2Q]; ring.
  - apply rounded_exact; [reflexivity |].
    cbn [SF2Q]. destruct sy; cbn [negb signed]; ring.
  - apply rounded_exact; [reflexivity | cbn [SF2Q]; ring].
  - cbv zeta. pose proof (SFsub_value sx sy mx my ex ey) as Ev. cbv zeta in Ev.
    apply (rounded_comp _ _ _ Ev).
    apply binary_normalize_correct. rewrite (Qabs_wd _ _ Ev). exact Hv.
Qed.

(** A difference that fits the precision is computed exactly. *)
Lemma SFsub_exact (sx sy : bool) (mx my : positive) (ex ey : Z) :
  let x := S754_finite sx mx ex in
  let y := S754_finite sy my ey in
  emin <= ex -> emin <= ey ->
  (Qabs (SF2Q x - SF2Q y) < pow2 (emax - prec))%Q ->
  (Qabs (SF2Q x - SF2Q y) < pow2 (prec + Z.min ex ey))%Q ->
  finite_sf (SFsub prec emax x y) = true /\
  (SF2Q (SFsub prec emax x y) == SF2Q x - SF2Q y)%Q.
Proof.
  intros x y Hex Hey Hv Hsmall. subst x y. cbn [SFsub]. cbv zeta.
  pose proof (SFsub_value sx sy mx my ex ey) as Ev. cbv zeta in Ev.
  set (ez := Z.min ex ey) in *.
  set (S := cond_Zopp sx (Zpos (fst (shl_align mx ex ez))) -
            cond_Zopp sy (Zpos (fst (shl_align my ey ez)))) in *.
  rewrite <- (Qabs_wd _ _ Ev) in Hv, Hsmall.
  destruct (binary_normalize_correct S ez Hv) as [[Hfin _] Hexact].
  split; [exact Hfin|]. rewrite <- Ev. apply Hexact.
  assert (HS : Z.abs S < 2 ^ prec).
  { rewrite Qabs_Qmult, (Qabs_pos (pow2 ez)) in Hsmall by (pose proof (pow2_pos ez); lra).
    rewrite pow2_add in Hsmall.
    assert (Hlt : (Qabs (inject_Z S) < pow2 prec)%Q).
    { pose proof (pow2_pos ez). revert Hsmall H.
      generalize (Qabs (inject_Z S)), (pow2 prec), (pow2 ez). intros a b c ??. nra. }
    rewrite pow2_Z in Hlt by lia.
    assert (Ea : (Qabs (inject_Z S) == inject_Z (Z.abs S))%Q).
    { unfold inject_Z. symmetry. apply Zabs_Qabs. }
    rewrite Ea, <- Zlt_Qlt in Hlt. exact Hlt. }
  assert (Hd : Zdigits2 S <= prec).
  { replace (Zdigits2 S) with (Zdigits2 (Z.abs S)) by (destruct S; reflexivity).
    apply Zdigits2_le; lia. }
  unfold SpecFloat.fexp. lia.
Qed.


Lemma new_location_inbetween (nb k q : Z) :
  0 < nb -> 0 <= k < nb ->
  inbetween q (new_location nb k) (inject_Z q + inject_Z k / inject_Z nb).
Proof.
  intros Hnb Hk.
  assert (Hb : (0 < inject_Z nb)%Q) by (change 0%Q with (inject_Z 0); rewrite <- Zlt_Qlt; lia).
  unfold new_location.
  destruct (Z.eq_dec k 0) as [-> | Hk0].
  - assert (E : (inject_Z q + inject_Z 0 / inject_Z nb == inject_Z q)%Q).
    { change (inject_Z 0) with 0%Q. field. lra. }
    destruct (Z.even nb); unfold new_location_even, new_location_odd;
      cbn [Z.eqb inbetween]; exact E.
  - assert (Hk1 : (0 < inject_Z k)%Q)
      by (change 0%Q with (inject_Z 0); rewrite <- Zlt_Qlt; lia).
    assert (Hlt1 : (inject_Z k / inject_Z nb < 1)%Q).
    { apply Qlt_shift_div_r; [exact Hb|]. rewrite Qmult_1_l, <- Zlt_Qlt. lia. }
    assert (Hgt0 : (0 < inject_Z k / inject_Z nb)%Q).
    { apply Qlt_shift_div_l; [exact Hb|]. rewrite Qmult_0_l. exact Hk1. }
    assert (Hlow : 2 * k < nb -> (inject_Z k / inject_Z nb < 1 # 2)%Q).
    { intros L. apply Qlt_shift_div_r; [exact Hb|].
      rewrite Zlt_Qlt, inject_Z_mult in L. change (inject_Z 2) with 2%Q in L. lra. }
    assert (Hhigh : nb < 2 * k -> ((1 # 2) < inject_Z k / inject_Z nb)%Q).
    { intros L. apply Qlt_shift_div_l; [exact Hb|].
      rewrite Zlt_Qlt, inject_Z_mult in L. change (inject_Z 2) with 2%Q in L. lra. }
    assert (Hne : (k =? 0) = false) by (apply Z.eqb_neq; exact Hk0).
    destruct (Z.even nb) eqn:Ev; unfold new_location_even, new_location_odd; rewrite Hne.
    + destruct (Z.compare_spec (2 * k) nb) as [E|L|G]; cbn [inbetween].
      * assert (Eh : (inject_Z k / inject_Z nb == 1 # 2)%Q).
        { rewrite <- E, inject_Z_mult. change (inject_Z 2) with 2%Q. field. lra. }
        rewrite Eh. reflexivity.
      * specialize (Hlow L). split; lra.
      * specialize (Hhigh G). split; lra.
    + assert (Hodd : 2 * k <> nb).
      { intros E. rewrite <- E, Z.even_mul in Ev. discriminate. }
      destruct (Z.compare_spec (2 * k + 1) nb) as [E|L|G]; cbn [inbetween].
      * specialize (Hlow ltac:(lia)). split; lra.
      * specialize (Hlow ltac:(lia)). split; lra.
      * specialize (Hhigh ltac:(lia)). split; lra.
Qed.

Lemma mantissa_lower (m : positive) (e : Z) :
  (pow2 (Zdigits2 (Zpos m) - 1 + e) <= inject_Z (Zpos m) * pow2 e)%Q.
Proof.
  assert (Hd : 1 <= Zdigits2 (Zpos m)) by (cbn; lia).
  pose proof (Zdigits2_lower (Zpos m) ltac:(lia)) as Hl.
  rewrite Zle_Qle, <- pow2_Z in Hl by lia.
  rewrite pow2_add. pose proof (pow2_pos e). nra.
Qed.

Lemma mantissa_upper (m : positive) (e : Z) :
  (inject_Z (Zpos m) * pow2 e < pow2 (Zdigits2 (Zpos m) + e))%Q.
Proof.
  pose proof (Zdigits2_upper (Zpos m) ltac:(lia)) as Hu.
  pose proof (Zdigits2_nonneg (Zpos m)) as Hn.
  rewrite Zlt_Qlt, <- pow2_Z in Hu by lia.
  rewrite pow2_add. pose proof (pow2_pos e). nra.
Qed.

Lemma half_ulp_error (m2 t pE v : Q) :
  (m2 - (1 # 2) <= t)%Q -> (t <= m2 + (1 # 2))%Q -> (v == t * pE)%Q -> (0 < pE)%Q ->
  (Qabs (m2 * pE - v) <= pE * (1 # 2))%Q.
Proof.
  intros Hlo Hhi Hv Hp. apply Qabs_Qle_condition. rewrite Hv. split; nra.
Qed.

Lemma SFdiv_correct (x : spec_float) (sy : bool) (my : positive) (ey : Z) :
  let y := S754_finite sy my ey in
  finite_sf x = true ->
  (Qabs (SF2Q x / SF2Q y) < pow2 (emax - prec))%Q ->
  rounded (SFdiv prec emax x y) (SF2Q x / SF2Q y).
Proof.
  intros y Hfx Hv. subst y.
  destruct x as [sx| | |sx mx ex]; try discriminate; cbn [SFdiv].
  { apply rounded_exact; [reflexivity|]. cbn [SF2Q]. unfold Qdiv. ring. }
  clear Hfx. cbn [SF2Q] in Hv |- *.
  set (X := (inject_Z (Zpos mx) * pow2 ex)%Q) in *.
  set (Y := (inject_Z (Zpos my) * pow2 ey)%Q) in *.
  assert (HX : (0 < X)%Q) by apply mantissa_value_pos.
  assert (HY : (0 < Y)%Q) by apply mantissa_value_pos.
  assert (HQ : (0 < X / Y)%Q).
  { apply Qlt_shift_div_l; [exact HY | lra]. }
  assert (HQY : (X / Y * Y == X)%Q) by (field; lra).
  assert (Ev : (signed sx X / signed sy Y == signed (xorb sx sy) (X / Y))%Q)
    by (apply signed_div; lra).
  rewrite (Qabs_wd _ _ Ev), signed_abs in Hv by lra.
  apply (rounded_comp _ (signed (xorb sx sy) (X / Y))); [symmetry; exact Ev|].
  unfold SFdiv_core_binary.
  set (d1 := Zdigits2 (Zpos mx)). set (d2 := Zdigits2 (Zpos my)).
  set (delta := d1 + ex - (d2 + ey)).
  set (e' := Z.min (fexp delta) (ex - ey)).
  set (s := ex - ey - e').
  assert (Hs : 0 <= s) by (unfold s, e'; lia).
  set (m' := match s with Z0 => Zpos mx | Zpos _ => Z.shiftl (Zpos mx) s | Zneg _ => 0 end).
  assert (Hm' : m' = Zpos mx * 2 ^ s).
  { unfold m'. destruct s as [|p|p] eqn:Es; [lia | | lia].
    apply Z.shiftl_mul_pow2. lia. }
  assert (Hm'0 : 0 < m').
  { rewrite Hm'. assert (0 < 2 ^ s) by (apply Z.pow_pos_nonneg; lia). nia. }
  pose proof (Z_div_mod m' (Zpos my) ltac:(lia)) as Hdm.
  destruct (Z.div_eucl m' (Zpos my)) as [q r]. destruct Hdm as [Hdm Hr].
  assert (Hq0 : 0 <= q) by nia.
  set (xq := (inject_Z q + inject_Z r / inject_Z (Zpos my))%Q).
  pose proof (new_location_inbetween (Zpos my) r q ltac:(lia) Hr) as Hin. fold xq in Hin.
  pose proof (inject_Z_pos my) as Hmy.
  assert (Hxq : (xq * pow2 e' == X / Y)%Q).
  { assert (E1 : (xq == inject_Z m' / inject_Z (Zpos my))%Q).
    { unfold xq. rewrite Hdm, inject_Z_plus, inject_Z_mult. field. lra. }
    rewrite E1, Hm', inject_Z_mult, <- pow2_Z by exact Hs.
    unfold X, Y. rewrite (pow2_split ex ey), (pow2_split (ex - ey) e'). fold s.
    field. pose proof (pow2_pos ey). split; lra. }
  (* magnitude of the quotient *)
  assert (Hdelta : (pow2 (delta - 1) < X / Y)%Q).
  { pose proof (mantissa_lower mx ex) as Hl. pose proof (mantissa_upper my ey) as Hu.
    fold d1 in Hl. fold d2 in Hu. fold X in Hl. fold Y in Hu.
    assert (Ep : (pow2 (delta - 1) * pow2 (d2 + ey) == pow2 (d1 - 1 + ex))%Q).
    { rewrite <- pow2_add. apply pow2_eq. unfold delta. lia. }
    pose proof (pow2_pos (d2 + ey)). pose proof (pow2_pos (delta - 1)).
    revert Ep Hl Hu HQY HQ HY H H0.
    generalize (pow2 (delta - 1)), (pow2 (d2 + ey)), (pow2 (d1 - 1 + ex)), (X / Y)%Q.
    intros a b c t ????????. nra. }
  assert (Hdelta_K : delta <= emax - prec).
  { assert (L : (pow2 (delta - 1) < pow2 (emax - prec))%Q) by lra.
    apply pow2_lt_inv in L. lia. }
  assert (Hqv : (inject_Z q * pow2 e' <= X / Y)%Q).
  { destruct (inbetween_bounds _ _ _ Hin) as [Hl _]. rewrite <- Hxq.
    pose proof (pow2_pos e'). nra. }
  assert (Hdq : 0 < q -> (pow2 (Zdigits2 q - 1 + e') <= X / Y)%Q).
  { intros Hq. destruct q as [|p|p]; [lia | | lia].
    eapply Qle_trans; [apply mantissa_lower | exact Hqv]. }
  assert (Hdq_K : Zdigits2 q + e' <= emax - prec \/ q = 0).
  { destruct (Z.eq_dec q 0) as [E|N]; [right; exact E | left].
    specialize (Hdq ltac:(lia)).
    assert (L : (pow2 (Zdigits2 q - 1 + e') < pow2 (emax - prec))%Q) by lra.
    apply pow2_lt_inv in L. lia. }
  set (E := Z.max e' (fexp (Zdigits2 q + e'))).
  assert (He'K : e' + 1 <= emax - prec).
  { pose proof emin_lt. unfold e'. destruct (fexp_cases delta); lia. }
  assert (HE : E + 1 <= emax - prec).
  { pose proof emin_lt. unfold E. destruct (fexp_cases (Zdigits2 q + e')) as [F|F].
    - destruct Hdq_K as [K | ->]; [lia | cbn [Zdigits2] in *; lia].
    - lia. }
  destruct (binary_round_aux_correct (xorb sx sy) q e' _ xq Hq0 Hin HE)
    as (m2 & Hm2 & Hlo & Hhi & _ & Hfin & Hval).
  fold E in Hlo, Hhi, Hval.
  apply (rounded_signed _ _ (inject_Z m2 * pow2 E)); [exact Hfin | exact Hval | lra |].
  assert (Hv2 : (X / Y == xq * pow2 (e' - E) * pow2 E)%Q).
  { rewrite <- Hxq, (pow2_split e' E). ring. }
  eapply Qle_trans; [apply (half_ulp_error _ _ _ _ Hlo Hhi Hv2 (pow2_pos E))|].
  rewrite <- pow2_half.
  assert (Hu : (0 < ulp_half)%Q) by apply pow2_pos.
  assert (Heta : (0 < eta)%Q) by apply pow2_pos.
  assert (Hcase : E - 1 <= emin - 1 \/
                  (pow2 (E - 1) <= ulp_half * (X / Y))%Q).
  { destruct (Z.max_spec e' (fexp (Zdigits2 q + e'))) as [[_ Em] | [_ Em]];
      fold E in Em.
    - (* the quotient is shifted *)
      destruct (fexp_cases (Zdigits2 q + e')) as [F|F]; [| left; lia].
      right. destruct (Z.eq_dec q 0) as [Eq0|N].
      + exfalso. subst q. cbn [Zdigits2] in *. lia.
      + specialize (Hdq ltac:(lia)).
        assert (Ep : (pow2 (E - 1) == ulp_half * pow2 (Zdigits2 q - 1 + e'))%Q).
        { unfold ulp_half_of. rewrite <- pow2_add. apply pow2_eq. lia. }
        rewrite Ep. nra.
    - destruct (fexp_cases delta) as [F|F]; [| left; unfold e' in Em; lia].
      right.
      assert (Ep : (pow2 (E - 1) <= ulp_half * pow2 (delta - 1))%Q).
      { unfold ulp_half_of. rewrite <- pow2_add. apply pow2_le. unfold e' in Em. lia. }
      eapply Qle_trans; [exact Ep|]. nra. }
  destruct Hcase as [C|C].
  - apply pow2_le in C. fold (eta_of prec emax) in C. nra.
  - nra.
Qed.


Lemma binary_round_aux_canonical (s : bool) (m : positive) (e : Z) :
  fexp (Zdigits2 (Zpos m) + e) = e -> e <= emax - prec ->
  binary_round_aux prec emax s (Zpos m) e loc_Exact = S754_finite s m e.
Proof.
  intros Hc He. unfold binary_round_aux, shr_fexp.
  rewrite Hc, Z.sub_diag. cbn [shr shr_record_of_loc shr_m loc_of_shr_record round_nearest_even].
  rewrite Hc, Z.sub_diag. cbn [shr shr_m].
  apply Z.leb_le in He. rewrite He. reflexivity.
Qed.

(** The conversion of an integer of at most [prec] digits. *)
Lemma binary_round_int (s : bool) (m : positive) :
  Zdigits2 (Zpos m) <= prec ->
  exists mz : positive,
    binary_round prec emax s m 0 = S754_finite s mz (Zdigits2 (Zpos m) - prec) /\
    Zpos mz = Zpos m * 2 ^ (prec - Zdigits2 (Zpos m)) /\
    SpecFloat.valid_binary prec emax (S754_finite s mz (Zdigits2 (Zpos m) - prec)) = true.
Proof.
  intros Hd. unfold binary_round.
  change (Zpos (digits2_pos m)) with (Zdigits2 (Zpos m)).
  set (d := Zdigits2 (Zpos m)) in *.
  assert (Hd1 : 1 <= d) by (unfold d; cbn; lia).
  assert (Hf : fexp (d + 0) = d - prec).
  { unfold SpecFloat.fexp, SpecFloat.emin. lia. }
  destruct (shl_align_spec m 0 (fexp (d + 0))) as [Hez Hmz].
  destruct (shl_align m 0 (fexp (d + 0))) as [mz ez]. cbn [fst snd] in Hez, Hmz.
  rewrite Hf in Hez, Hmz.
  replace (0 - Z.min 0 (d - prec)) with (prec - d) in Hmz by lia.
  replace (Z.min 0 (d - prec)) with (d - prec) in Hez by lia. subst ez.
  assert (Hdz : Zdigits2 (Zpos mz) = prec).
  { rewrite Hmz, Zdigits2_shift by lia. fold d. lia. }
  assert (Hcan : fexp (Zdigits2 (Zpos mz) + (d - prec)) = d - prec).
  { rewrite Hdz. unfold SpecFloat.fexp, SpecFloat.emin. lia. }
  exists mz. split; [| split; [exact Hmz|]].
  - apply binary_round_aux_canonical; [exact Hcan | lia].
  - cbn [SpecFloat.valid_binary]. unfold SpecFloat.bounded, SpecFloat.canonical_mantissa.
    change (Zpos (digits2_pos mz)) with (Zdigits2 (Zpos mz)).
    rewrite Hcan, Z.eqb_refl. cbn [andb]. apply Z.leb_le. lia.
Qed.

End Rounding.

(** ** The integer part *)

Lemma SFtrunc_finite (s : bool) (m : positive) (e : Z) :
  SFtrunc (S754_finite s m e) = cond_Zopp s (Qfloor (inject_Z (Zpos m) * pow2 e)).
Proof.
  cbn [SFtrunc].
  assert (E : match e with
              | Zneg p => Z.shiftr (Zpos m) (Zpos p)
              | _ => Z.shiftl (Zpos m) e
              end = Qfloor (inject_Z (Zpos m) * pow2 e)).
  { destruct e as [|p|p].
    - change (pow2 0) with 1%Q. rewrite Qmult_1_r, Qfloor_Z. reflexivity.
    - rewrite Z.shiftl_mul_pow2 by lia.
      rewrite (Qfloor_comp _ (inject_Z (Zpos m * 2 ^ Zpos p))).
      + rewrite Qfloor_Z. reflexivity.
      + rewrite inject_Z_mult, pow2_Z by lia. reflexivity.
    - rewrite Z.shiftr_div_pow2 by lia. rewrite Zdiv_Qdiv.
      apply Qfloor_comp.
      change (Zneg p) with (- Zpos p). unfold pow2. rewrite Qpower_opp.
      fold (pow2 (Zpos p)). rewrite pow2_Z by lia. reflexivity. }
  rewrite E. destruct s; reflexivity.
Qed.

Lemma SFtrunc_range (x : spec_float) (lo hi : Z) :
  finite_sf x = true -> lo <= 0 <= hi ->
  (inject_Z lo - 1 < SF2Q x)%Q -> (SF2Q x < inject_Z hi + 1)%Q ->
  lo <= SFtrunc x <= hi.
Proof.
  destruct x as [s| | |s m e]; try discriminate; intros _ Hlh Hlo Hhi.
  - cbn. lia.
  - rewrite SFtrunc_finite. cbn [SF2Q] in Hlo, Hhi.
    set (v := (inject_Z (Zpos m) * pow2 e)%Q) in *.
    assert (Hv : (0 < v)%Q).
    { unfold v. pose proof (inject_Z_pos m). pose proof (pow2_pos e). nra. }
    pose proof (Qfloor_le v) as Hfl.
    assert (Hf0 : 0 <= Qfloor v).
    { rewrite <- (Qfloor_Z 0). apply Qfloor_resp_le. change (inject_Z 0) with 0%Q. lra. }
    destruct s; cbn [signed cond_Zopp] in *.
    + split; [| lia].
      assert (L : (inject_Z (Qfloor v) < inject_Z (1 - lo))%Q).
      { unfold Z.sub. rewrite inject_Z_plus, inject_Z_opp. change (inject_Z 1) with 1%Q. lra. }
      rewrite <- Zlt_Qlt in L. lia.
    + split; [lia|].
      assert (L : (inject_Z (Qfloor v) < inject_Z (hi + 1))%Q).
      { rewrite inject_Z_plus. change (inject_Z 1) with 1%Q. lra. }
      rewrite <- Zlt_Qlt in L. lia.
Qed.

Lemma SFtrunc_floor (x : spec_float) :
  finite_sf x = true -> (0 <= SF2Q x)%Q -> SFtrunc x = Qfloor (SF2Q x).
Proof.
  destruct x as [s| | |s m e]; try discriminate; intros _ Hx.
  - reflexivity.
  - rewrite SFtrunc_finite. cbn [SF2Q] in *.
    assert (Hv : (0 < inject_Z (Zpos m) * pow2 e)%Q).
    { pose proof (inject_Z_pos m). pose proof (pow2_pos e). nra. }
    destruct s; cbn [signed cond_Zopp] in *; [lra | reflexivity].
Qed.

Section Binary64.
Local Open Scope Q_scope.

Lemma prec_gt_0 : (0 < FloatOps.prec)%Z.
Proof. reflexivity. Qed.

Lemma prec_lt_emax : (FloatOps.prec < FloatOps.emax)%Z.
Proof. reflexivity. Qed.

Lemma b64_mul_correct (x y : float) :
  b64_finite x = true -> b64_finite y = true ->
  Qabs (B2Q x * B2Q y) < pow2 971 ->
  b64_rounded (x * y)%float (B2Q x * B2Q y).
Proof.
  intros Hx Hy Hv. unfold b64_rounded, b64_finite, B2Q. rewrite mul_spec.
  exact (SFmul_correct _ _ prec_gt_0 prec_lt_emax _ _ Hx Hy Hv).
Qed.

Lemma b64_add_correct (x y : float) :
  b64_finite x = true -> b64_finite y = true ->
  Qabs (B2Q x + B2Q y) < pow2 971 ->
  b64_rounded (x + y)%float (B2Q x + B2Q y).
Proof.
  intros Hx Hy Hv. unfold b64_rounded, b64_finite, B2Q. rewrite add_spec.
  exact (SFadd_correct _ _ prec_gt_0 prec_lt_emax _ _ Hx Hy Hv).
Qed.

Lemma b64_sub_correct (x y : float) :
  b64_finite x = true -> b64_finite y = true ->
  Qabs (B2Q x - B2Q y) < pow2 971 ->
  b64_rounded (x - y)%float (B2Q x - B2Q y).
Proof.
  intros Hx Hy Hv. unfold b64_rounded, b64_finite, B2Q. rewrite sub_spec.
  exact (SFsub_correct _ _ prec_gt_0 prec_lt_emax _ _ Hx Hy Hv).
Qed.

Lemma b64_div_correct (x y : float) (sy : bool) (my : positive) (ey : Z) :
  b64_finite x = true -> Prim2SF y = S754_finite sy my ey ->
  Qabs (B2Q x / B2Q y) < pow2 971 ->
  b64_rounded (x / y)%float (B2Q x / B2Q y).
Proof.
  intros Hx Hy Hv. unfold b64_rounded, b64_finite, B2Q in *. rewrite div_spec.
  rewrite Hy in *.
  exact (SFdiv_correct _ _ prec_gt_0 prec_lt_emax _ _ _ _ Hx Hv).
Qed.

(** The two-sided form of a rounding error, for a value of known size. *)
Lemma b64_rounded_within (x : float) (v bound err : Q) :
  b64_rounded x v -> Qabs v <= bound -> u64 * bound + eta64 <= err ->
  v - err <= B2Q x /\ B2Q x <= v + err.
Proof.
  intros [_ Hr] Hb He.
  assert (Hu : 0 < u64) by apply pow2_pos.
  assert (Hle : Qabs (B2Q x - v) <= err) by nra.
  apply Qabs_Qle_condition in Hle. split; lra.
Qed.

Lemma b64_of_int_spec (z : Z) :
  (Z.abs z < 2 ^ 53)%Z ->
  b64_finite (b64_of_int z) = true /\ B2Q (b64_of_int z) == inject_Z z /\
  (z <> 0%Z -> exists m, Prim2SF (b64_of_int z)
                     = S754_finite (z <? 0)%Z m (Zdigits2 z - 53)).
Proof.
  intros Hz. unfold b64_finite, B2Q, b64_of_int.
  destruct z as [|p|p]; cbn [binary_normalize].
  - rewrite Prim2SF_SF2Prim by reflexivity. split; [reflexivity|].
    split; [reflexivity | intros N; contradiction].
  - assert (Hd : (Zdigits2 (Zpos p) <= FloatOps.prec)%Z) by (change FloatOps.prec with 53%Z; apply Zdigits2_le; cbn [Z.abs] in Hz; lia).
    destruct (binary_round_int _ _ prec_gt_0 prec_lt_emax false p Hd) as (mz & -> & Hmz & Hvalid).
    rewrite Prim2SF_SF2Prim by exact Hvalid.
    split; [reflexivity|]. split; [| intros _; exists mz; reflexivity].
    cbn [SF2Q signed]. rewrite Hmz, inject_Z_mult.
    assert (Hd1 : (1 <= Zdigits2 (Zpos p))%Z) by (cbn; lia).
    rewrite <- pow2_Z by (unfold FloatOps.prec in *; lia).
    rewrite <- Qmult_assoc, <- pow2_add.
    replace (FloatOps.prec - Zdigits2 (Zpos p) + (Zdigits2 (Zpos p) - FloatOps.prec))%Z
      with 0%Z by lia.
    change (pow2 0) with 1. ring.
  - assert (Hd : (Zdigits2 (Zpos p) <= FloatOps.prec)%Z) by (change FloatOps.prec with 53%Z; apply Zdigits2_le; cbn [Z.abs] in Hz; lia).
    destruct (binary_round_int _ _ prec_gt_0 prec_lt_emax true p Hd) as (mz & -> & Hmz & Hvalid).
    rewrite Prim2SF_SF2Prim by exact Hvalid.
    split; [reflexivity|]. split; [| intros _; exists mz; reflexivity].
    cbn [SF2Q signed]. rewrite Hmz, inject_Z_mult.
    assert (Hd1 : (1 <= Zdigits2 (Zpos p))%Z) by (cbn; lia).
    rewrite <- pow2_Z by (unfold FloatOps.prec in *; lia).
    rewrite <- Qmult_assoc, <- pow2_add.
    replace (FloatOps.prec - Zdigits2 (Zpos p) + (Zdigits2 (Zpos p) - FloatOps.prec))%Z
      with 0%Z by lia.
    change (pow2 0) with 1. change (Zneg p) with (- Zpos p)%Z. rewrite inject_Z_opp. ring.
Qed.

(** Every primitive float is canonical: a finite one has an exponent of
    at least the smallest one, and 53 digits unless it is subnormal. *)
Lemma b64_canonical (x : float) (s : bool) (m : positive) (e : Z) :
  Prim2SF x = S754_finite s m e ->
  (e = Z.max (Zdigits2 (Zpos m) + e - 53) (-1074))%Z.
Proof.
  intros Hx. pose proof (Prim2SF_valid x) as Hv. rewrite Hx in Hv.
  unfold valid_binary, SpecFloat.valid_binary, bounded, canonical_mantissa in Hv.
  apply andb_prop in Hv. destruct Hv as [Hc _]. apply Z.eqb_eq in Hc.
  unfold fexp, emin, FloatOps.prec, FloatOps.emax in Hc.
  change (Zpos (digits2_pos m)) with (Zdigits2 (Zpos m)) in Hc. lia.
Qed.

Lemma pow_2_52 : (2 ^ (53 - 1))%Z = 4503599627370496%Z.
Proof. vm_compute. reflexivity. Qed.

Lemma pow_2_53 : (2 ^ 53)%Z = 9007199254740992%Z.
Proof. vm_compute. reflexivity. Qed.

(** What the two limiting comparisons leave: a NaN, or a positive
    finite value between 0.5 and 2.0. *)
Lemma b64_between_half_and_two (r : float) :
  (2 <? r)%float = false -> (r <? 0.5)%float = false ->
  Prim2SF r = S754_nan \/
  exists m e, Prim2SF r = S754_finite false m e /\ (-53 <= e)%Z /\
              (1 # 2) <= B2Q r /\ B2Q r <= 2.
Proof.
  rewrite !ltb_spec. intros H2 H5. unfold B2Q.
  pose proof (b64_canonical r) as Hcan.
  change (Prim2SF 2) with (S754_finite false 4503599627370496 (-51)) in H2.
  change (Prim2SF 0.5) with (S754_finite false 4503599627370496 (-53)) in H5.
  destruct (Prim2SF r) as [s|s| |s m e]; [| | left; reflexivity |].
  - destruct s; discriminate H5.
  - destruct s; [discriminate H5 | discriminate H2].
  - right. specialize (Hcan s m e eq_refl).
    destruct s; [discriminate H5|].
    unfold SFltb, SFcompare in H2, H5.
    pose proof (digits2_pos_bounds m) as Hd.
    change (Zpos (digits2_pos m)) with (Zdigits2 (Zpos m)) in Hd.
    assert (H2m := Pos.compare_spec 4503599627370496 m).
    assert (H5m := Pos.compare_spec m 4503599627370496).
    unfold Pos.compare in H2m, H5m.
    exists m, e. split; [reflexivity|].
    destruct (Z.compare_spec (-51) e) as [E51|L51|G51]; [| discriminate H2 |].
    + (* the exponent of 2.0 *)
      subst e.
      destruct (Pos.compare_cont Eq 4503599627370496 m); [| discriminate H2 |].
      * inversion H2m as [Em| |]. split; [lia|]. cbn [SF2Q signed].
        assert (Hq : inject_Z (Zpos m) == 4503599627370496 # 1)
          by (rewrite <- Em; reflexivity).
        replace (pow2 (-51)) with (1 # 2251799813685248) by (vm_compute; reflexivity).
        revert Hq. generalize (inject_Z (Zpos m)). intros q Hq. split; lra.
      * exfalso. inversion H2m as [| |Gm].
        assert (Ed : Zdigits2 (Zpos m) = 53%Z) by (clear - Hcan; lia).
        rewrite Ed in Hd. destruct Hd as [Hl _].
        rewrite pow_2_52 in Hl. apply Pos2Z.pos_lt_pos in Gm. clear - Hl Gm. lia.
    + destruct (Z.compare_spec e (-53)) as [E53|L53|G53]; [| discriminate H5 |].
      * subst e.
        assert (Ed : Zdigits2 (Zpos m) = 53%Z) by (clear - Hcan; lia). rewrite Ed in Hd.
        split; [lia|]. cbn [SF2Q signed].
        destruct Hd as [Hl Hu]. rewrite Zle_Qle in Hl. rewrite Zlt_Qlt in Hu.
        rewrite pow_2_52 in Hl. rewrite pow_2_53 in Hu.
        replace (pow2 (-53)) with (1 # 9007199254740992) by (vm_compute; reflexivity).
        change (inject_Z 4503599627370496) with (4503599627370496 # 1) in Hl.
        change (inject_Z 9007199254740992) with (9007199254740992 # 1) in Hu.
        revert Hl Hu. generalize (inject_Z (Zpos m)). intros q ??. split; lra.
      * assert (Ee : e = (-52)%Z) by lia. subst e.
        assert (Ed : Zdigits2 (Zpos m) = 53%Z) by (clear - Hcan; lia). rewrite Ed in Hd.
        split; [lia|]. cbn [SF2Q signed].
        destruct Hd as [Hl Hu]. rewrite Zle_Qle in Hl. rewrite Zlt_Qlt in Hu.
        rewrite pow_2_52 in Hl. rewrite pow_2_53 in Hu.
        replace (pow2 (-52)) with (1 # 4503599627370496) by (vm_compute; reflexivity).
        change (inject_Z 4503599627370496) with (4503599627370496 # 1) in Hl.
        change (inject_Z 9007199254740992) with (9007199254740992 # 1) in Hu.
        revert Hl Hu. generalize (inject_Z (Zpos m)). intros q ??. split; lra.
Qed.

End Binary64.


(** * Operations whose exact result is a floating-point number *)

Section Representable.
Variables prec emax : Z.
Hypothesis prec_gt_0 : 0 < prec.
Hypothesis prec_lt_emax : prec < emax.

Local Notation "'emin'" := (SpecFloat.emin prec emax).
Local Notation "'fexp'" := (SpecFloat.fexp prec emax).
Local Notation "'rounded'" := (rounded_to prec emax).

Lemma fexp_mono (a b : Z) : a <= b -> fexp a <= fexp b.
Proof. unfold SpecFloat.fexp. lia. Qed.

Lemma inject_Z_nearest (m k : Z) :
  (inject_Z m - (1 # 2) <= inject_Z k)%Q -> (inject_Z k <= inject_Z m + (1 # 2))%Q ->
  m = k.
Proof.
  intros H1 H2.
  assert (L1 : (inject_Z m < inject_Z k + 1)%Q) by lra.
  assert (L2 : (inject_Z k < inject_Z m + 1)%Q) by lra.
  change 1%Q with (inject_Z 1) in L1, L2.
  rewrite <- inject_Z_plus, <- Zlt_Qlt in L1, L2. lia.
Qed.

(** A value [k * 2^e] with [k] of at most [prec] digits is a multiple
    of the unit in which it is rounded. *)
Lemma representable_multiple (v : Q) (k e d : Z) :
  (v == inject_Z k * pow2 e)%Q -> 0 < k < 2 ^ prec -> emin <= e ->
  (pow2 (d - 1) <= v)%Q ->
  exists K : Z, (v == inject_Z K * pow2 (fexp d))%Q.
Proof.
  intros Hv Hk He Hd.
  assert (Hlt : (v < pow2 (prec + e))%Q).
  { assert (Hkq : (inject_Z k < pow2 prec)%Q).
    { rewrite pow2_Z by lia. rewrite <- Zlt_Qlt. lia. }
    rewrite Hv, pow2_add. pose proof (pow2_pos e).
    revert Hkq H. generalize (inject_Z k), (pow2 prec), (pow2 e).
    intros a b c ??. nra. }
  assert (Hde : d - 1 < prec + e).
  { apply pow2_lt_inv. lra. }
  assert (Hfe : fexp d <= e) by (unfold SpecFloat.fexp; lia).
  exists (k * 2 ^ (e - fexp d)).
  rewrite Hv, inject_Z_mult, <- pow2_Z by lia.
  rewrite (pow2_split e (fexp d)). ring.
Qed.

Lemma binary_round_aux_representable (sx : bool) (mx ex : Z) (lx : location)
    (x : Q) (k e : Z) :
  0 <= mx -> inbetween mx lx x ->
  Z.max ex (fexp (Zdigits2 mx + ex)) + 1 <= emax - prec ->
  lx = loc_Exact \/ ex <= fexp (Zdigits2 mx + ex) ->
  (x * pow2 ex == inject_Z k * pow2 e)%Q -> 0 <= k < 2 ^ prec -> emin <= e ->
  finite_sf (binary_round_aux prec emax sx mx ex lx) = true /\
  (SF2Q (binary_round_aux prec emax sx mx ex lx) == signed sx (x * pow2 ex))%Q.
Proof.
  intros Hmx Hin HE Hloc Hv Hk He.
  destruct (binary_round_aux_correct prec emax prec_gt_0 sx mx ex lx x Hmx Hin HE)
    as (m2 & Hm2 & Hlo & Hhi & Hex & Hfin & Hval).
  set (E := Z.max ex (fexp (Zdigits2 mx + ex))) in *.
  assert (HEdef : E = Z.max ex (fexp (Zdigits2 mx + ex))) by reflexivity.
  clearbody E.
  split; [exact Hfin|]. rewrite Hval.
  assert (Hgoal : (inject_Z m2 * pow2 E == x * pow2 ex)%Q);
    [| destruct sx; cbn [signed]; rewrite Hgoal; reflexivity].
  destruct (inbetween_bounds _ _ _ Hin) as [Hxl Hxu].
  destruct (Z.eq_dec E ex) as [EE | NE].
  - destruct Hloc as [Hl | Hl].
    + (* no shift and no remainder *)
      rewrite (Hex Hl EE). subst lx. cbn [inbetween] in Hin. rewrite Hin, EE. reflexivity.
    + assert (Ef : E = fexp (Zdigits2 mx + ex)) by lia.
      revert Hlo Hhi. rewrite EE, Z.sub_diag. change (pow2 0) with 1%Q. intros Hlo Hhi.
      destruct (Z.eq_dec k 0) as [-> | Hk0].
      * assert (Hx0 : (x == 0)%Q).
        { change (inject_Z 0) with 0%Q in Hv. pose proof (pow2_pos ex).
          assert (x * pow2 ex == 0)%Q by (rewrite Hv; ring).
          destruct (Qlt_le_dec 0 x) as [P|N]; [nra|].
          assert (0 <= x)%Q.
          { eapply Qle_trans; [| exact Hxl]. change 0%Q with (inject_Z 0).
            rewrite <- Zle_Qle. exact Hmx. }
          lra. }
        assert (m2 = 0).
        { apply (inject_Z_nearest m2 0); change (inject_Z 0) with 0%Q; lra. }
        subst m2. rewrite Hx0. change (inject_Z 0) with 0%Q. ring.
      * assert (Hd : (pow2 (Zdigits2 mx + ex - 1) <= x * pow2 ex)%Q).
        { destruct mx as [|p|p]; [| | lia].
          - exfalso. cbn [Zdigits2] in *.
            unfold SpecFloat.fexp in Ef, HEdef. cbn [Z.add] in Ef, HEdef.
            (* E = ex = emin; the value is below one unit *)
            assert (Hxe : (x * pow2 ex < pow2 ex)%Q).
            { pose proof (pow2_pos ex). change (inject_Z 0) with 0%Q in Hxu. nra. }
            assert (Hke : (pow2 e <= inject_Z k * pow2 e)%Q).
            { pose proof (pow2_pos e).
              assert (1 <= inject_Z k)%Q
                by (change 1%Q with (inject_Z 1); rewrite <- Zle_Qle; lia).
              nra. }
            assert (Hlt : (pow2 e < pow2 ex)%Q) by lra.
            apply pow2_lt_inv in Hlt. lia.
          - replace (Zdigits2 (Zpos p) + ex - 1) with (Zdigits2 (Zpos p) - 1 + ex) by lia.
            eapply Qle_trans; [apply mantissa_lower|].
            pose proof (pow2_pos ex). nra. }
        destruct (representable_multiple _ k e (Zdigits2 mx + ex) Hv ltac:(lia) He Hd)
          as [K HK].
        rewrite <- Ef, EE in HK.
        assert (HxK : (x == inject_Z K)%Q).
        { pose proof (pow2_pos ex). 
          assert (Hc : ((x - inject_Z K) * pow2 ex == 0)%Q) by (rewrite Qmult_minus_distr_l || idtac; lra).
          destruct (Qmult_integral _ _ Hc) as [Z | Z]; lra. }
        assert (m2 = K) by (apply inject_Z_nearest; rewrite <- HxK; lra).
        subst m2. rewrite HxK. reflexivity.
  - assert (Ef : E = fexp (Zdigits2 mx + ex)) by lia.
    assert (Hgt : ex < E) by lia.
    destruct (Z.eq_dec k 0) as [-> | Hk0].
    + assert (Hx0 : (x * pow2 ex == 0)%Q) by (rewrite Hv; change (inject_Z 0) with 0%Q; ring).
      assert (Ht : (x * pow2 (ex - E) == 0)%Q).
      { pose proof (pow2_pos ex). destruct (Qmult_integral _ _ Hx0) as [Z | Z]; [| lra].
        rewrite Z. ring. }
      rewrite Ht in Hlo, Hhi.
      assert (m2 = 0).
      { apply (inject_Z_nearest m2 0); change (inject_Z 0) with 0%Q; lra. }
      subst m2. rewrite Hx0. change (inject_Z 0) with 0%Q. ring.
    + assert (Hd : (pow2 (Zdigits2 mx + ex - 1) <= x * pow2 ex)%Q).
      { destruct mx as [|p|p]; [| | lia].
        - cbn [Zdigits2] in *.
          (* E = emin > ex and the value is at least 2^e >= 2^emin *)
          assert (Hke : (pow2 e <= inject_Z k * pow2 e)%Q).
          { pose proof (pow2_pos e).
            assert (1 <= inject_Z k)%Q
              by (change 1%Q with (inject_Z 1); rewrite <- Zle_Qle; lia).
            nra. }
          assert (Hle : (pow2 (0 + ex - 1) <= pow2 e)%Q).
          { apply pow2_le. unfold SpecFloat.fexp in Ef. lia. }
          rewrite Hv. lra.
        - replace (Zdigits2 (Zpos p) + ex - 1) with (Zdigits2 (Zpos p) - 1 + ex) by lia.
          eapply Qle_trans; [apply mantissa_lower|].
          pose proof (pow2_pos ex). nra. }
      destruct (representable_multiple _ k e (Zdigits2 mx + ex) Hv ltac:(lia) He Hd)
        as [K HK].
      rewrite <- Ef in HK.
      assert (Ht : (x * pow2 (ex - E) == inject_Z K)%Q).
      { assert (Hs : (x * pow2 ex == x * pow2 (ex - E) * pow2 E)%Q).
        { rewrite (pow2_split ex E) at 1. ring. }
        rewrite Hs in HK. pose proof (pow2_pos E).
        assert (Hc : ((x * pow2 (ex - E) - inject_Z K) * pow2 E == 0)%Q) by lra.
        destruct (Qmult_integral _ _ Hc) as [Z | Z]; lra. }
      assert (m2 = K) by (apply inject_Z_nearest; rewrite <- Ht; assumption).
      subst m2. rewrite HK. reflexivity.
Qed.


(** The nearest float of a representable value is the value. *)
Lemma round_aux_representable (sx : bool) (m : positive) (ex k e : Z) :
  let v := (inject_Z (Zpos m) * pow2 ex)%Q in
  (v == inject_Z k * pow2 e)%Q -> 0 <= k < 2 ^ prec -> emin <= e ->
  (v < pow2 (emax - prec))%Q ->
  finite_sf (binary_round_aux prec emax sx (Zpos m) ex loc_Exact) = true /\
  (SF2Q (binary_round_aux prec emax sx (Zpos m) ex loc_Exact) == signed sx v)%Q.
Proof.
  intros v Hv Hk He Hlt.
  pose proof (no_overflow _ _ _ Hlt) as Hd.
  assert (Hd1 : 1 <= Zdigits2 (Zpos m)) by (cbn; lia).
  apply (binary_round_aux_representable sx (Zpos m) ex loc_Exact
           (inject_Z (Zpos m)) k e); try assumption.
  - lia.
  - reflexivity.
  - pose proof (emin_lt prec emax prec_gt_0 prec_lt_emax).
    destruct (fexp_cases prec emax (Zdigits2 (Zpos m) + ex)); lia.
  - left. reflexivity.
Qed.

Lemma binary_round_representable (sx : bool) (mx : positive) (ex k e : Z) :
  let v := (inject_Z (Zpos mx) * pow2 ex)%Q in
  (v == inject_Z k * pow2 e)%Q -> 0 <= k < 2 ^ prec -> emin <= e ->
  (v < pow2 (emax - prec))%Q ->
  finite_sf (binary_round prec emax sx mx ex) = true /\
  (SF2Q (binary_round prec emax sx mx ex) == signed sx v)%Q.
Proof.
  intros v Hv Hk He Hlt. unfold binary_round.
  change (Zpos (digits2_pos mx)) with (Zdigits2 (Zpos mx)).
  set (d := Zdigits2 (Zpos mx)) in *.
  destruct (shl_align_spec mx ex (fexp (d + ex))) as [Hez Hmz].
  destruct (shl_align mx ex (fexp (d + ex))) as [mz ez]. cbn [fst snd] in Hez, Hmz.
  assert (Hs : 0 <= ex - ez) by lia.
  assert (Hval : (inject_Z (Zpos mz) * pow2 ez == v)%Q).
  { unfold v. rewrite Hmz, inject_Z_mult, <- pow2_Z by lia.
    rewrite (pow2_split ex ez). rewrite Hez. ring. }
  destruct (round_aux_representable sx mz ez k e) as [Hfin Hq];
    try assumption; try (rewrite Hval; assumption).
  split; [exact Hfin|]. rewrite Hq, Hval. reflexivity.
Qed.

Lemma binary_normalize_representable (m e0 k e : Z) :
  let v := (inject_Z m * pow2 e0)%Q in
  (Qabs v == inject_Z k * pow2 e)%Q -> 0 <= k < 2 ^ prec -> emin <= e ->
  (Qabs v < pow2 (emax - prec))%Q ->
  finite_sf (binary_normalize prec emax m e0 false) = true /\
  (SF2Q (binary_normalize prec emax m e0 false) == v)%Q.
Proof.
  intros v Hv Hk He Hlt. destruct m as [|p|p]; cbn [binary_normalize].
  - split; [reflexivity|]. unfold v. change (inject_Z 0) with 0%Q. cbn [SF2Q]. ring.
  - assert (Hv0 : (0 < v)%Q) by apply mantissa_value_pos.
    rewrite Qabs_pos in Hv, Hlt by lra.
    exact (binary_round_representable false p e0 k e Hv Hk He Hlt).
  - set (w := (inject_Z (Zpos p) * pow2 e0)%Q).
    assert (Hw0 : (0 < w)%Q) by apply mantissa_value_pos.
    assert (Hvw : (v == - w)%Q).
    { unfold v, w. change (Zneg p) with (- Zpos p). rewrite inject_Z_opp. ring. }
    rewrite (Qabs_wd _ _ Hvw), Qabs_opp, Qabs_pos in Hv, Hlt by lra.
    destruct (binary_round_representable true p e0 k e Hv Hk He Hlt) as [Hfin Hq].
    split; [exact Hfin|]. rewrite Hq, Hvw. reflexivity.
Qed.

Lemma SFmul_representable (x y : spec_float) (k e : Z) :
  finite_sf x = true -> finite_sf y = true ->
  (Qabs (SF2Q x * SF2Q y) == inject_Z k * pow2 e)%Q -> 0 <= k < 2 ^ prec ->
  emin <= e -> (Qabs (SF2Q x * SF2Q y) < pow2 (emax - prec))%Q ->
  finite_sf (SFmul prec emax x y) = true /\
  (SF2Q (SFmul prec emax x y) == SF2Q x * SF2Q y)%Q.
Proof.
  destruct x as [sx| | |sx mx ex], y as [sy| | |sy my ey]; try discriminate;
    intros _ _ Hv Hk He Hlt; cbn [SFmul].
  1-3: split; [reflexivity | cbn [SF2Q]; ring].
  cbn [SF2Q] in *.
  set (v := (inject_Z (Zpos (mx * my)) * pow2 (ex + ey))%Q).
  assert (Ev : (signed sx (inject_Z (Zpos mx) * pow2 ex) *
                signed sy (inject_Z (Zpos my) * pow2 ey) == signed (xorb sx sy) v)%Q).
  { rewrite signed_mul. unfold v. rewrite Pos2Z.inj_mul, inject_Z_mult, pow2_add.
    destruct (xorb sx sy); cbn [signed]; ring. }
  assert (Hv0 : (0 < v)%Q) by apply mantissa_value_pos.
  rewrite (Qabs_wd _ _ Ev), signed_abs in Hv, Hlt by lra.
  destruct (round_aux_representable (xorb sx sy) (mx * my) (ex + ey) k e Hv Hk He Hlt)
    as [Hfin Hq].
  split; [exact Hfin|]. rewrite Hq, Ev. reflexivity.
Qed.

Lemma SFadd_representable (x y : spec_float) (k e : Z) :
  finite_sf x = true -> finite_sf y = true ->
  (Qabs (SF2Q x + SF2Q y) == inject_Z k * pow2 e)%Q -> 0 <= k < 2 ^ prec ->
  emin <= e -> (Qabs (SF2Q x + SF2Q y) < pow2 (emax - prec))%Q ->
  finite_sf (SFadd prec emax x y) = true /\
  (SF2Q (SFadd prec emax x y) == SF2Q x + SF2Q y)%Q.
Proof.
  destruct x as [sx| | |sx mx ex], y as [sy| | |sy my ey]; try discriminate;
    intros _ _ Hv Hk He Hlt; cbn [SFadd].
  - destruct sx, sy; split; try reflexivity; cbn [SF2Q]; ring.
  - split; [reflexivity | cbn [SF2Q]; ring].
  - split; [reflexivity | cbn [SF2Q]; ring].
  - cbv zeta. set (ez := Z.min ex ey).
    set (S := cond_Zopp sx (Zpos (fst (shl_align mx ex ez))) +
              cond_Zopp sy (Zpos (fst (shl_align my ey ez)))).
    assert (Ev : (inject_Z S * pow2 ez
                  == SF2Q (S754_finite sx mx ex) + SF2Q (S754_finite sy my ey))%Q).
    { unfold S. rewrite inject_Z_plus, Qmult_plus_distr_l.
      rewrite !aligned_value by (unfold ez; lia). reflexivity. }
    rewrite <- (Qabs_wd _ _ Ev) in Hv, Hlt.
    destruct (binary_normalize_representable S ez k e Hv Hk He Hlt) as [Hfin Hq].
    split; [exact Hfin|]. rewrite Hq. exact Ev.
Qed.

Lemma SFsub_representable (x y : spec_float) (k e : Z) :
  finite_sf x = true -> finite_sf y = true ->
  (Qabs (SF2Q x - SF2Q y) == inject_Z k * pow2 e)%Q -> 0 <= k < 2 ^ prec ->
  emin <= e -> (Qabs (SF2Q x - SF2Q y) < pow2 (emax - prec))%Q ->
  finite_sf (SFsub prec emax x y) = true /\
  (SF2Q (SFsub prec emax x y) == SF2Q x - SF2Q y)%Q.
Proof.
  destruct x as [sx| | |sx mx ex], y as [sy| | |sy my ey]; try discriminate;
    intros _ _ Hv Hk He Hlt; cbn [SFsub].
  - destruct sx, sy; split; try reflexivity; cbn [SF2Q]; ring.
  - split; [reflexivity|]. cbn [SF2Q]. destruct sy; cbn [negb signed]; ring.
  - split; [reflexivity | cbn [SF2Q]; ring].
  - cbv zeta. pose proof (SFsub_value sx sy mx my ex ey) as Ev. cbv zeta in Ev.
    rewrite <- (Qabs_wd _ _ Ev) in Hv, Hlt.
    destruct (binary_normalize_representable _ _ k e Hv Hk He Hlt) as [Hfin Hq].
    split; [exact Hfin|]. rewrite Hq. exact Ev.
Qed.


Lemma SFdiv_representable (x : spec_float) (sy : bool) (my : positive) (ey k e : Z) :
  let y := S754_finite sy my ey in
  finite_sf x = true ->
  (Qabs (SF2Q x / SF2Q y) == inject_Z k * pow2 e)%Q -> 0 <= k < 2 ^ prec ->
  emin <= e -> (Qabs (SF2Q x / SF2Q y) < pow2 (emax - prec))%Q ->
  finite_sf (SFdiv prec emax x y) = true /\
  (SF2Q (SFdiv prec emax x y) == SF2Q x / SF2Q y)%Q.
Proof.
  intros y Hfx Hrep Hk He Hv. subst y.
  destruct x as [sx| | |sx mx ex]; try discriminate; cbn [SFdiv].
  { split; [reflexivity|]. cbn [SF2Q]. unfold Qdiv. ring. }
  clear Hfx. cbn [SF2Q] in Hv, Hrep |- *.
  set (X := (inject_Z (Zpos mx) * pow2 ex)%Q) in *.
  set (Y := (inject_Z (Zpos my) * pow2 ey)%Q) in *.
  assert (HX : (0 < X)%Q) by apply mantissa_value_pos.
  assert (HY : (0 < Y)%Q) by apply mantissa_value_pos.
  assert (HQ : (0 < X / Y)%Q).
  { apply Qlt_shift_div_l; [exact HY | lra]. }
  assert (HQY : (X / Y * Y == X)%Q) by (field; lra).
  assert (Ev : (signed sx X / signed sy Y == signed (xorb sx sy) (X / Y))%Q)
    by (apply signed_div; lra).
  rewrite (Qabs_wd _ _ Ev), signed_abs in Hv, Hrep by lra.
  rewrite Ev.
  unfold SFdiv_core_binary.
  set (d1 := Zdigits2 (Zpos mx)). set (d2 := Zdigits2 (Zpos my)).
  set (delta := d1 + ex - (d2 + ey)).
  set (e' := Z.min (fexp delta) (ex - ey)).
  set (s := ex - ey - e').
  assert (Hs : 0 <= s) by (unfold s, e'; lia).
  set (m' := match s with Z0 => Zpos mx | Zpos _ => Z.shiftl (Zpos mx) s | Zneg _ => 0 end).
  assert (Hm' : m' = Zpos mx * 2 ^ s).
  { unfold m'. destruct s as [|p|p] eqn:Es; [lia | | lia].
    apply Z.shiftl_mul_pow2. lia. }
  assert (Hm'0 : 0 < m').
  { rewrite Hm'. assert (0 < 2 ^ s) by (apply Z.pow_pos_nonneg; lia). nia. }
  pose proof (Z_div_mod m' (Zpos my) ltac:(lia)) as Hdm.
  destruct (Z.div_eucl m' (Zpos my)) as [q r]. destruct Hdm as [Hdm Hr].
  assert (Hq0 : 0 <= q) by nia.
  set (xq := (inject_Z q + inject_Z r / inject_Z (Zpos my))%Q).
  pose proof (new_location_inbetween (Zpos my) r q ltac:(lia) Hr) as Hin. fold xq in Hin.
  pose proof (inject_Z_pos my) as Hmy.
  assert (Hxq : (xq * pow2 e' == X / Y)%Q).
  { assert (E1 : (xq == inject_Z m' / inject_Z (Zpos my))%Q).
    { unfold xq. rewrite Hdm, inject_Z_plus, inject_Z_mult. field. lra. }
    rewrite E1, Hm', inject_Z_mult, <- pow2_Z by exact Hs.
    unfold X, Y. rewrite (pow2_split ex ey), (pow2_split (ex - ey) e'). fold s.
    field. pose proof (pow2_pos ey). split; lra. }
  assert (Hdelta : (pow2 (delta - 1) < X / Y)%Q).
  { pose proof (mantissa_lower mx ex) as Hl. pose proof (mantissa_upper my ey) as Hu.
    fold d1 in Hl. fold d2 in Hu. fold X in Hl. fold Y in Hu.
    assert (Ep : (pow2 (delta - 1) * pow2 (d2 + ey) == pow2 (d1 - 1 + ex))%Q).
    { rewrite <- pow2_add. apply pow2_eq. unfold delta. lia. }
    pose proof (pow2_pos (d2 + ey)). pose proof (pow2_pos (delta - 1)).
    revert Ep Hl Hu HQY HQ HY H H0.
    generalize (pow2 (delta - 1)), (pow2 (d2 + ey)), (pow2 (d1 - 1 + ex)), (X / Y)%Q.
    intros a b c t ????????. nra. }
  assert (Hqv : (inject_Z q * pow2 e' <= X / Y)%Q).
  { destruct (inbetween_bounds _ _ _ Hin) as [Hl _]. rewrite <- Hxq.
    pose proof (pow2_pos e'). nra. }
  assert (Hdq : 0 < q -> (pow2 (Zdigits2 q - 1 + e') <= X / Y)%Q).
  { intros Hq. destruct q as [|p|p]; [lia | | lia].
    eapply Qle_trans; [apply mantissa_lower | exact Hqv]. }
  assert (Hdq_K : Zdigits2 q + e' <= emax - prec \/ q = 0).
  { destruct (Z.eq_dec q 0) as [E|N]; [right; exact E | left].
    specialize (Hdq ltac:(lia)).
    assert (L : (pow2 (Zdigits2 q - 1 + e') < pow2 (emax - prec))%Q) by lra.
    apply pow2_lt_inv in L. lia. }
  assert (Hdelta_K : delta <= emax - prec).
  { assert (L : (pow2 (delta - 1) < pow2 (emax - prec))%Q) by lra.
    apply pow2_lt_inv in L. lia. }
  assert (He'K : e' + 1 <= emax - prec).
  { pose proof (emin_lt prec emax prec_gt_0 prec_lt_emax).
    unfold e'. destruct (fexp_cases prec emax delta); lia. }
  assert (HE : Z.max e' (fexp (Zdigits2 q + e')) + 1 <= emax - prec).
  { pose proof (emin_lt prec emax prec_gt_0 prec_lt_emax).
    destruct (fexp_cases prec emax (Zdigits2 q + e')) as [F|F].
    - destruct Hdq_K as [K | ->]; [lia | cbn [Zdigits2] in *; lia].
    - lia. }
  (* the quotient has the digits of its magnitude *)
  assert (Hdig : delta <= Zdigits2 q + e').
  { destruct (inbetween_bounds _ _ _ Hin) as [_ Hxu].
    pose proof (Zdigits2_upper q Hq0) as Hqu.
    pose proof (Zdigits2_nonneg q) as Hqn.
    assert (Hq1 : (inject_Z q + 1 <= pow2 (Zdigits2 q))%Q).
    { rewrite pow2_Z by exact Hqn. change 1%Q with (inject_Z 1).
      rewrite <- inject_Z_plus, <- Zle_Qle. lia. }
    assert (Hlt : (X / Y < pow2 (Zdigits2 q + e'))%Q).
    { rewrite <- Hxq, pow2_add. pose proof (pow2_pos e'). nra. }
    assert (L : (pow2 (delta - 1) < pow2 (Zdigits2 q + e'))%Q) by lra.
    apply pow2_lt_inv in L. lia. }
  assert (Hshift : e' <= fexp (Zdigits2 q + e')).
  { pose proof (fexp_mono delta (Zdigits2 q + e') Hdig).
    assert (He'f : e' <= fexp delta) by (unfold e'; lia). lia. }
  rewrite <- Hxq in Hrep |- *.
  apply (binary_round_aux_representable (xorb sx sy) q e' _ xq k e);
    try assumption.
  right. exact Hshift.
Qed.

End Representable.

(** ** The integer part of a value *)

Lemma Qfloor_frac (n : Z) (d : positive) : Qfloor (n # d) = (n / Zpos d)%Z.
Proof. reflexivity. Qed.

(** [SFtrunc] truncates toward zero. *)
Lemma SFtrunc_value (x : spec_float) (n : Z) (d : positive) :
  finite_sf x = true -> (SF2Q x == n # d)%Q -> SFtrunc x = Z.quot n (Zpos d).
Proof.
  destruct x as [s| | |s m e]; try discriminate; intros _ Hv.
  - cbn [SF2Q] in Hv. cbn [SFtrunc].
    assert (n = 0).
    { unfold Qeq in Hv. cbn in Hv. lia. }
    subst n. reflexivity.
  - rewrite SFtrunc_finite. cbn [SF2Q] in Hv.
    set (v := (inject_Z (Zpos m) * pow2 e)%Q) in *.
    assert (Hv0 : (0 < v)%Q) by apply mantissa_value_pos.
    destruct s; cbn [signed cond_Zopp] in *.
    + assert (Hw : (v == (- n) # d)%Q).
      { assert (E : (v == - (n # d))%Q) by (rewrite <- Hv; ring). rewrite E. reflexivity. }
      rewrite (Qfloor_comp _ _ Hw), Qfloor_frac.
      assert (Hn : n < 0).
      { rewrite Hw in Hv0. unfold Qlt in Hv0. cbn in Hv0. lia. }
      rewrite <- (Z.opp_involutive n) at 2. rewrite Z.quot_opp_l by lia.
      rewrite Z.quot_div_nonneg by lia. reflexivity.
    + rewrite (Qfloor_comp _ _ Hv), Qfloor_frac.
      assert (Hn : 0 < n).
      { rewrite Hv in Hv0. unfold Qlt in Hv0. cbn in Hv0. lia. }
      rewrite Z.quot_div_nonneg by lia. reflexivity.
Qed.

(** ** binary64 *)

Section B64Representable.
Local Open Scope Q_scope.

Lemma b64_mul_exact (x y : float) (k e : Z) :
  b64_finite x = true -> b64_finite y = true ->
  Qabs (B2Q x * B2Q y) == inject_Z k * pow2 e -> (0 <= k < 2 ^ 53)%Z ->
  (-1074 <= e)%Z -> Qabs (B2Q x * B2Q y) < pow2 971 ->
  b64_finite (x * y) = true /\ B2Q (x * y)%float == B2Q x * B2Q y.
Proof.
  intros Hx Hy Hv Hk He Hlt. unfold b64_finite, B2Q in *. rewrite mul_spec.
  exact (SFmul_representable _ _ prec_gt_0 prec_lt_emax _ _ k e Hx Hy Hv Hk He Hlt).
Qed.

Lemma b64_add_exact (x y : float) (k e : Z) :
  b64_finite x = true -> b64_finite y = true ->
  Qabs (B2Q x + B2Q y) == inject_Z k * pow2 e -> (0 <= k < 2 ^ 53)%Z ->
  (-1074 <= e)%Z -> Qabs (B2Q x + B2Q y) < pow2 971 ->
  b64_finite (x + y) = true /\ B2Q (x + y)%float == B2Q x + B2Q y.
Proof.
  intros Hx Hy Hv Hk He Hlt. unfold b64_finite, B2Q in *. rewrite add_spec.
  exact (SFadd_representable _ _ prec_gt_0 prec_lt_emax _ _ k e Hx Hy Hv Hk He Hlt).
Qed.

Lemma b64_sub_representable (x y : float) (k e : Z) :
  b64_finite x = true -> b64_finite y = true ->
  Qabs (B2Q x - B2Q y) == inject_Z k * pow2 e -> (0 <= k < 2 ^ 53)%Z ->
  (-1074 <= e)%Z -> Qabs (B2Q x - B2Q y) < pow2 971 ->
  b64_finite (x - y) = true /\ B2Q (x - y)%float == B2Q x - B2Q y.
Proof.
  intros Hx Hy Hv Hk He Hlt. unfold b64_finite, B2Q in *. rewrite sub_spec.
  exact (SFsub_representable _ _ prec_gt_0 prec_lt_emax _ _ k e Hx Hy Hv Hk He Hlt).
Qed.

Lemma b64_div_exact (x y : float) (sy : bool) (my : positive) (ey k e : Z) :
  b64_finite x = true -> Prim2SF y = S754_finite sy my ey ->
  Qabs (B2Q x / B2Q y) == inject_Z k * pow2 e -> (0 <= k < 2 ^ 53)%Z ->
  (-1074 <= e)%Z -> Qabs (B2Q x / B2Q y) < pow2 971 ->
  b64_finite (x / y) = true /\ B2Q (x / y)%float == B2Q x / B2Q y.
Proof.
  intros Hx Hy Hv Hk He Hlt. unfold b64_finite, B2Q in *. rewrite div_spec.
  rewrite Hy in *.
  exact (SFdiv_representable _ _ prec_gt_0 prec_lt_emax _ _ _ _ k e Hx Hv Hk He Hlt).
Qed.

Lemma b64_to_int_value (x : float) (n : Z) (d : positive) :
  b64_finite x = true -> B2Q x == n # d -> b64_to_int x = Z.quot n (Zpos d).
Proof. intros Hf Hv. unfold b64_to_int. apply SFtrunc_value; assumption. Qed.

End B64Representable.

(** ** Comparisons *)

Section Comparisons.
Local Open Scope Q_scope.

Lemma canonical_order (m1 m2 : positive) (e1 e2 : Z) :
  canonical64 (S754_finite false m1 e1) -> canonical64 (S754_finite false m2 e2) ->
  (e1 < e2)%Z ->
  inject_Z (Zpos m1) * pow2 e1 < inject_Z (Zpos m2) * pow2 e2.
Proof.
  cbn [canonical64]. intros C1 C2 Hlt.
  pose proof (mantissa_upper m1 e1) as Hu. pose proof (mantissa_lower m2 e2) as Hl.
  assert (Hp : pow2 (Zdigits2 (Zpos m1) + e1) <= pow2 (Zdigits2 (Zpos m2) - 1 + e2)).
  { apply pow2_le. lia. }
  lra.
Qed.

Lemma mantissa_order (m1 m2 : positive) (e : Z) :
  (inject_Z (Zpos m1) * pow2 e ?= inject_Z (Zpos m2) * pow2 e)
  = Pos.compare_cont Eq m1 m2.
Proof.
  change (Pos.compare_cont Eq m1 m2) with (Pos.compare m1 m2).
  pose proof (pow2_pos e) as Hp.
  destruct (Pos.compare_spec m1 m2) as [E | L | G].
  - subst. apply Qeq_alt. reflexivity.
  - apply (proj1 (Qlt_alt _ _)).
    apply Qmult_lt_compat_r; [exact Hp|]. rewrite <- Zlt_Qlt. lia.
  - apply Qgt_alt.
    apply Qmult_lt_compat_r; [exact Hp|]. rewrite <- Zlt_Qlt. lia.
Qed.

Lemma Qcompare_lt (a b : Q) : a < b -> (a ?= b) = Lt.
Proof. intros H. apply (proj1 (Qlt_alt a b)). exact H. Qed.

Lemma Qcompare_gt (a b : Q) : b < a -> (a ?= b) = Gt.
Proof. intros H. apply (proj1 (Qgt_alt a b)). exact H. Qed.

Lemma Qcompare_opp (a b : Q) : (- a ?= - b) = CompOpp (a ?= b).
Proof.
  destruct (Qcompare_spec a b) as [E | L | G]; cbn [CompOpp].
  - apply Qeq_alt. rewrite E. reflexivity.
  - apply Qgt_alt. lra.
  - apply (proj1 (Qlt_alt (- a) (- b))). lra.
Qed.

(** [SFcompare] is the order of the values. *)
Lemma SFcompare_value (x y : spec_float) :
  finite_sf x = true -> finite_sf y = true -> canonical64 x -> canonical64 y ->
  SFcompare x y = Some (SF2Q x ?= SF2Q y).
Proof.
  destruct x as [sx| | |sx mx ex], y as [sy| | |sy my ey]; try discriminate;
    intros _ _ Cx Cy; cbn [SFcompare SF2Q].
  - reflexivity.
  - pose proof (mantissa_value_pos my ey).
    destruct sy; cbn [signed]; f_equal; symmetry;
      [apply Qgt_alt | apply (proj1 (Qlt_alt _ _))]; lra.
  - pose proof (mantissa_value_pos mx ex).
    destruct sx; cbn [signed]; f_equal; symmetry;
      [apply (proj1 (Qlt_alt _ _)) | apply Qgt_alt]; lra.
  - pose proof (mantissa_value_pos mx ex) as Hx.
    pose proof (mantissa_value_pos my ey) as Hy.
    assert (Cx' : canonical64 (S754_finite false mx ex)) by exact Cx.
    assert (Cy' : canonical64 (S754_finite false my ey)) by exact Cy.
    f_equal. destruct sx, sy; cbn [signed].
    + (* both negative *)
      rewrite Qcompare_opp.
      destruct (Z.compare_spec ex ey) as [E | L | G].
      * subst ey. rewrite mantissa_order. reflexivity.
      * pose proof (canonical_order mx my ex ey Cx' Cy' L) as Ho.
        rewrite (Qcompare_lt _ _ Ho). reflexivity.
      * pose proof (canonical_order my mx ey ex Cy' Cx' G) as Ho.
        rewrite (Qcompare_gt _ _ Ho). reflexivity.
    + symmetry. apply (proj1 (Qlt_alt _ _)). lra.
    + symmetry. apply Qgt_alt. lra.
    + destruct (Z.compare_spec ex ey) as [E | L | G].
      * subst ey. rewrite mantissa_order. reflexivity.
      * pose proof (canonical_order mx my ex ey Cx' Cy' L) as Ho.
        rewrite (Qcompare_lt _ _ Ho). reflexivity.
      * pose proof (canonical_order my mx ey ex Cy' Cx' G) as Ho.
        rewrite (Qcompare_gt _ _ Ho). reflexivity.
Qed.

Lemma b64_canonical64 (x : float) : canonical64 (Prim2SF x).
Proof.
  destruct (Prim2SF x) as [s| | |s m e] eqn:E; cbn [canonical64]; try exact I.
  exact (b64_canonical x s m e E).
Qed.

Lemma b64_ltb_value (x y : float) :
  b64_finite x = true -> b64_finite y = true ->
  ((x <? y)%float = true <-> B2Q x < B2Q y).
Proof.
  intros Hx Hy. rewrite ltb_spec. unfold SFltb.
  rewrite (SFcompare_value _ _ Hx Hy (b64_canonical64 x) (b64_canonical64 y)).
  fold (B2Q x) (B2Q y). rewrite Qlt_alt.
  destruct (B2Q x ?= B2Q y); split; congruence.
Qed.

Lemma b64_ltb_false (x y : float) :
  b64_finite x = true -> b64_finite y = true ->
  ((x <? y)%float = false <-> B2Q y <= B2Q x).
Proof.
  intros Hx Hy. pose proof (b64_ltb_value x y Hx Hy) as H.
  destruct (x <? y)%float.
  - split; [discriminate|]. intros Hle.
    assert (B2Q x < B2Q y) by (apply H; reflexivity). lra.
  - split; [| reflexivity]. intros _.
    destruct (Qlt_le_dec (B2Q x) (B2Q y)) as [L | G]; [| exact G].
    apply H in L. discriminate.
Qed.

Lemma b64_abs_value (x : float) :
  b64_finite x = true ->
  b64_finite (abs x) = true /\ B2Q (abs x) == Qabs (B2Q x).
Proof.
  unfold b64_finite, B2Q. rewrite abs_spec.
  destruct (Prim2SF x) as [s| | |s m e]; try discriminate; intros _.
  - split; reflexivity.
  - cbn [SFabs finite_sf SF2Q]. split; [reflexivity|].
    pose proof (mantissa_value_pos m e) as Hp.
    destruct s; cbn [signed].
    + rewrite Qabs_opp, Qabs_pos by lra. reflexivity.
    + rewrite Qabs_pos by lra. reflexivity.
Qed.

End Comparisons.

(** * A quotient is not rounded across an integer *)

Section DivisionMonotone.
Variables prec emax : Z.
Hypothesis prec_gt_0 : 0 < prec.
Hypothesis prec_lt_emax : prec < emax.

Local Notation "'emin'" := (SpecFloat.emin prec emax).
Local Notation "'fexp'" := (SpecFloat.fexp prec emax).

(** A mantissa that is within a half of [t] lies on the same side of an
    integer as [t]. *)
Lemma nearest_integer_side (m2 K : Z) (t : Q) :
  (inject_Z m2 - (1 # 2) <= t)%Q -> (t <= inject_Z m2 + (1 # 2))%Q ->
  ((inject_Z K <= t)%Q -> K <= m2) /\ ((t <= inject_Z K)%Q -> m2 <= K).
Proof.
  intros Hlo Hhi. split; intros H.
  - assert (L : (inject_Z K < inject_Z (m2 + 1))%Q).
    { rewrite inject_Z_plus. change (inject_Z 1) with 1%Q. lra. }
    rewrite <- Zlt_Qlt in L. lia.
  - assert (L : (inject_Z m2 < inject_Z (K + 1))%Q).
    { rewrite inject_Z_plus. change (inject_Z 1) with 1%Q. lra. }
    rewrite <- Zlt_Qlt in L. lia.
Qed.

(** The quotient of two positive numbers, when it is below [2^prec]: the
    rounded quotient is on the same side of every integer as the real
    quotient. *)
Lemma SFdiv_integer_side (mx my : positive) (ex ey : Z) (N : Z) :
  let x := S754_finite false mx ex in
  let y := S754_finite false my ey in
  (SF2Q x / SF2Q y < pow2 prec)%Q ->
  (SF2Q x / SF2Q y < pow2 (emax - prec))%Q ->
  finite_sf (SFdiv prec emax x y) = true /\
  (0 <= SF2Q (SFdiv prec emax x y))%Q /\
  ((inject_Z N <= SF2Q x / SF2Q y)%Q -> (inject_Z N <= SF2Q (SFdiv prec emax x y))%Q) /\
  ((SF2Q x / SF2Q y <= inject_Z N)%Q -> (SF2Q (SFdiv prec emax x y) <= inject_Z N)%Q).
Proof.
  intros x y Hsmall Hv. subst x y. cbn [SFdiv]. cbn [SF2Q signed] in Hsmall, Hv |- *.
  set (X := (inject_Z (Zpos mx) * pow2 ex)%Q) in *.
  set (Y := (inject_Z (Zpos my) * pow2 ey)%Q) in *.
  assert (HX : (0 < X)%Q) by apply mantissa_value_pos.
  assert (HY : (0 < Y)%Q) by apply mantissa_value_pos.
  assert (HQ : (0 < X / Y)%Q).
  { apply Qlt_shift_div_l; [exact HY | lra]. }
  assert (HQY : (X / Y * Y == X)%Q) by (field; lra).
  unfold SFdiv_core_binary.
  set (d1 := Zdigits2 (Zpos mx)). set (d2 := Zdigits2 (Zpos my)).
  set (delta := d1 + ex - (d2 + ey)).
  set (e' := Z.min (fexp delta) (ex - ey)).
  set (s := ex - ey - e').
  assert (Hs : 0 <= s) by (unfold s, e'; lia).
  set (m' := match s with Z0 => Zpos mx | Zpos _ => Z.shiftl (Zpos mx) s | Zneg _ => 0 end).
  assert (Hm' : m' = Zpos mx * 2 ^ s).
  { unfold m'. destruct s as [|p|p] eqn:Es; [lia | | lia].
    apply Z.shiftl_mul_pow2. lia. }
  assert (Hm'0 : 0 < m').
  { rewrite Hm'. assert (0 < 2 ^ s) by (apply Z.pow_pos_nonneg; lia). nia. }
  pose proof (Z_div_mod m' (Zpos my) ltac:(lia)) as Hdm.
  destruct (Z.div_eucl m' (Zpos my)) as [q r]. destruct Hdm as [Hdm Hr].
  assert (Hq0 : 0 <= q) by nia.
  set (xq := (inject_Z q + inject_Z r / inject_Z (Zpos my))%Q).
  pose proof (new_location_inbetween (Zpos my) r q ltac:(lia) Hr) as Hin. fold xq in Hin.
  pose proof (inject_Z_pos my) as Hmy.
  assert (Hxq : (xq * pow2 e' == X / Y)%Q).
  { assert (E1 : (xq == inject_Z m' / inject_Z (Zpos my))%Q).
    { unfold xq. rewrite Hdm, inject_Z_plus, inject_Z_mult. field. lra. }
    rewrite E1, Hm', inject_Z_mult, <- pow2_Z by exact Hs.
    unfold X, Y. rewrite (pow2_split ex ey), (pow2_split (ex - ey) e'). fold s.
    field. pose proof (pow2_pos ey). split; lra. }
  assert (Hdelta : (pow2 (delta - 1) < X / Y)%Q).
  { pose proof (mantissa_lower mx ex) as Hl. pose proof (mantissa_upper my ey) as Hu.
    fold d1 in Hl. fold d2 in Hu. fold X in Hl. fold Y in Hu.
    assert (Ep : (pow2 (delta - 1) * pow2 (d2 + ey) == pow2 (d1 - 1 + ex))%Q).
    { rewrite <- pow2_add. apply pow2_eq. unfold delta. lia. }
    pose proof (pow2_pos (d2 + ey)). pose proof (pow2_pos (delta - 1)).
    revert Ep Hl Hu HQY HQ HY H H0.
    generalize (pow2 (delta - 1)), (pow2 (d2 + ey)), (pow2 (d1 - 1 + ex)), (X / Y)%Q.
    intros a b c t ????????. nra. }
  assert (Hdelta_K : delta <= emax - prec).
  { assert (L : (pow2 (delta - 1) < pow2 (emax - prec))%Q) by lra.
    apply pow2_lt_inv in L. lia. }
  assert (Hdelta_p : delta <= prec).
  { assert (L : (pow2 (delta - 1) < pow2 prec)%Q) by lra.
    apply pow2_lt_inv in L. lia. }
  assert (Hqv : (inject_Z q * pow2 e' <= X / Y)%Q).
  { destruct (inbetween_bounds _ _ _ Hin) as [Hl _]. rewrite <- Hxq.
    pose proof (pow2_pos e'). nra. }
  assert (Hdq : 0 < q -> (pow2 (Zdigits2 q - 1 + e') <= X / Y)%Q).
  { intros Hq. destruct q as [|p|p]; [lia | | lia].
    eapply Qle_trans; [apply mantissa_lower | exact Hqv]. }
  assert (Hdq_K : Zdigits2 q + e' <= emax - prec \/ q = 0).
  { destruct (Z.eq_dec q 0) as [E|N0]; [right; exact E | left].
    specialize (Hdq ltac:(lia)).
    assert (L : (pow2 (Zdigits2 q - 1 + e') < pow2 (emax - prec))%Q) by lra.
    apply pow2_lt_inv in L. lia. }
  assert (Hdq_p : Zdigits2 q + e' <= prec \/ q = 0).
  { destruct (Z.eq_dec q 0) as [E|N0]; [right; exact E | left].
    specialize (Hdq ltac:(lia)).
    assert (L : (pow2 (Zdigits2 q - 1 + e') < pow2 prec)%Q) by lra.
    apply pow2_lt_inv in L. lia. }
  set (E := Z.max e' (fexp (Zdigits2 q + e'))).
  assert (He'K : e' + 1 <= emax - prec).
  { pose proof (emin_lt prec emax prec_gt_0 prec_lt_emax).
    unfold e'. destruct (fexp_cases prec emax delta); lia. }
  assert (HE : E + 1 <= emax - prec).
  { pose proof (emin_lt prec emax prec_gt_0 prec_lt_emax).
    unfold E. destruct (fexp_cases prec emax (Zdigits2 q + e')) as [F|F].
    - destruct Hdq_K as [K | ->]; [lia | cbn [Zdigits2] in *; lia].
    - lia. }
  assert (He'0 : e' <= 0).
  { unfold e', SpecFloat.fexp, SpecFloat.emin. lia. }
  assert (HE0 : E <= 0).
  { unfold E. destruct Hdq_p as [K | ->].
    - unfold SpecFloat.fexp, SpecFloat.emin. lia.
    - cbn [Zdigits2]. unfold SpecFloat.fexp, SpecFloat.emin. lia. }
  destruct (binary_round_aux_correct prec emax prec_gt_0
              (xorb false false) q e' _ xq Hq0 Hin HE)
    as (m2 & Hm2 & Hlo & Hhi & _ & Hfin & Hval).
  fold E in Hlo, Hhi, Hval. cbn [xorb signed] in Hval, Hfin |- *.
  split; [exact Hfin|]. rewrite Hval.
  pose proof (pow2_pos E) as HpE. pose proof (pow2_pos (- E)) as HpnE.
  assert (Hinv : (pow2 E * pow2 (- E) == 1)%Q).
  { rewrite <- pow2_add. replace (E + - E) with 0 by lia. reflexivity. }
  assert (Hm2q : (0 <= inject_Z m2)%Q).
  { change 0%Q with (inject_Z 0). rewrite <- Zle_Qle. exact Hm2. }
  split; [nra|].
  set (t := (xq * pow2 (e' - E))%Q) in *.
  assert (Hv2 : (X / Y == t * pow2 E)%Q).
  { unfold t. rewrite <- Hxq, (pow2_split e' E). ring. }
  assert (HK : (inject_Z (N * 2 ^ (- E)) == inject_Z N * pow2 (- E))%Q).
  { rewrite inject_Z_mult, pow2_Z by lia. reflexivity. }
  destruct (nearest_integer_side m2 (N * 2 ^ (- E)) t Hlo Hhi) as [Hbelow Habove].
  assert (HN : (inject_Z N == inject_Z (N * 2 ^ (- E)) * pow2 E)%Q).
  { rewrite HK, <- Qmult_assoc, (Qmult_comm (pow2 (- E))), Hinv. ring. }
  split; intros Hside.
  - assert (Hk : (inject_Z (N * 2 ^ (- E)) <= t)%Q).
    { rewrite HK. rewrite Hv2 in Hside.
      assert (Ht : (t == t * pow2 E * pow2 (- E))%Q)
        by (rewrite <- Qmult_assoc, Hinv; ring).
      rewrite Ht. apply Qmult_le_compat_r; lra. }
    apply Hbelow in Hk. rewrite Zle_Qle in Hk. rewrite HN.
    apply Qmult_le_compat_r; lra.
  - assert (Hk : (t <= inject_Z (N * 2 ^ (- E)))%Q).
    { rewrite HK. rewrite Hv2 in Hside.
      assert (Ht : (t == t * pow2 E * pow2 (- E))%Q)
        by (rewrite <- Qmult_assoc, Hinv; ring).
      rewrite Ht. apply Qmult_le_compat_r; lra. }
    apply Habove in Hk. rewrite Zle_Qle in Hk. rewrite HN.
    apply Qmult_le_compat_r; lra.
Qed.

End DivisionMonotone.

(** * The resampler in binary64 *)

Section B64Facts.
Local Open Scope Q_scope.

Lemma u64_eq : u64 = 1 # 9007199254740992.
Proof. vm_compute. reflexivity. Qed.

Lemma eta64_bounds : 0 < eta64 /\ eta64 <= 1 # 1267650600228229401496703205376.
Proof.
  split; [apply pow2_pos|].
  replace (1 # 1267650600228229401496703205376) with (pow2 (-100))
    by (vm_compute; reflexivity).
  apply pow2_le. lia.
Qed.

Lemma pow2_971_large : 1267650600228229401496703205376 # 1 <= pow2 971.
Proof.
  replace (1267650600228229401496703205376 # 1) with (pow2 100)
    by (vm_compute; reflexivity).
  apply pow2_le. lia.
Qed.

Lemma b64_of_int_0 : Prim2SF (b64_of_int 0) = S754_zero false.
Proof. reflexivity. Qed.

Lemma b64_of_int_1 : Prim2SF (b64_of_int 1) = S754_finite false 4503599627370496 (-52).
Proof. reflexivity. Qed.

Lemma inject_Z_nonneg (z : Z) : (0 <= z)%Z -> 0 <= inject_Z z.
Proof. intros H. change 0 with (inject_Z 0). rewrite <- Zle_Qle. exact H. Qed.

(** The error of a rounding, for an exact value within a known bound. *)
Lemma b64_rounded_err (x : float) (v bound err : Q) :
  b64_rounded x v -> - bound <= v -> v <= bound ->
  bound * (1 # 9007199254740992) + (1 # 1267650600228229401496703205376) <= err ->
  b64_finite x = true /\ v - err <= B2Q x /\ B2Q x <= v + err.
Proof.
  intros Hr Hl Hu He. split; [exact (proj1 Hr)|].
  apply (b64_rounded_within x v bound err Hr).
  - apply Qabs_Qle_condition. split; assumption.
  - rewrite u64_eq. pose proof eta64_bounds as [_ E]. lra.
Qed.

Lemma Qmult_le_nonneg_l (a b c : Q) : 0 <= a -> b <= c -> a * b <= a * c.
Proof. intros. nra. Qed.

Lemma Qmult_le_nonneg_r (a b c : Q) : 0 <= a -> b <= c -> b * a <= c * a.
Proof. intros. nra. Qed.

Lemma b64_no_overflow (v bound : Q) :
  - bound <= v -> v <= bound -> bound <= 18446744073709551616 ->
  Qabs v < pow2 971.
Proof.
  intros Hl Hu Hb. apply Qabs_Qlt_condition.
  pose proof pow2_971_large. split; lra.
Qed.

Lemma b64_rounded_comp (x : float) (v w : Q) :
  v == w -> b64_rounded x v -> b64_rounded x w.
Proof.
  intros E [Hf Hb]. split; [exact Hf|].
  assert (E1 : B2Q x - w == B2Q x - v) by (rewrite E; reflexivity).
  rewrite (Qabs_wd _ _ E1). rewrite <- (Qabs_wd _ _ E). exact Hb.
Qed.

End B64Facts.
Section B64Exact.
Local Open Scope Q_scope.

(** A value of size at least 2^k has an exponent of at least k - 52. *)
Lemma b64_exponent_lower (x : float) (s : bool) (m : positive) (e k : Z) :
  Prim2SF x = S754_finite s m e -> pow2 k <= inject_Z (Zpos m) * pow2 e ->
  (k - 52 <= e)%Z.
Proof.
  intros Hx Hk. pose proof (b64_canonical x s m e Hx) as Hc.
  pose proof (mantissa_upper m e) as Hu.
  assert (Hlt : pow2 k < pow2 (Zdigits2 (Zpos m) + e)) by lra.
  apply pow2_lt_inv in Hlt. lia.
Qed.

Lemma b64_sub_exact (x y : float) (sx sy : bool) (mx my : positive) (ex ey : Z) :
  Prim2SF x = S754_finite sx mx ex -> Prim2SF y = S754_finite sy my ey ->
  Qabs (B2Q x - B2Q y) < pow2 (53 + Z.min ex ey) ->
  Qabs (B2Q x - B2Q y) < pow2 971 ->
  b64_finite (x - y) = true /\ B2Q (x - y)%float == B2Q x - B2Q y.
Proof.
  intros Hx Hy Hsmall Hbig.
  pose proof (b64_canonical x sx mx ex Hx) as Cx.
  pose proof (b64_canonical y sy my ey Hy) as Cy.
  unfold b64_finite, B2Q in *. rewrite sub_spec, Hx, Hy in *.
  apply (SFsub_exact _ _ prec_gt_0 prec_lt_emax sx sy mx my ex ey).
  - unfold emin, FloatOps.prec, FloatOps.emax. lia.
  - unfold emin, FloatOps.prec, FloatOps.emax. lia.
  - exact Hbig.
  - exact Hsmall.
Qed.

(** Subtracting the zero that [0] converts to changes nothing. *)
Lemma b64_sub_zero (x : float) :
  b64_finite x = true ->
  b64_finite (x - b64_of_int 0) = true /\ B2Q (x - b64_of_int 0)%float == B2Q x.
Proof.
  unfold b64_finite, B2Q. rewrite sub_spec, b64_of_int_0.
  destruct (Prim2SF x) as [s| | |s m e]; try discriminate; intros _.
  - destruct s; split; reflexivity.
  - split; reflexivity.
Qed.

End B64Exact.
Section B64Interpolate.
Local Open Scope Q_scope.

Lemma b64_one : b64_finite 1 = true /\ B2Q 1 == 1.
Proof. split; [reflexivity | vm_compute; reflexivity]. Qed.

Lemma b64_s16_exact (a : Z) :
  is_s16 a ->
  b64_finite (b64_of_int a) = true /\ B2Q (b64_of_int a) == inject_Z a /\
  -32768 <= inject_Z a /\ inject_Z a <= 32767.
Proof.
  intros [Hl Hu]. destruct (b64_of_int_spec a) as (Hf & Hv & _); [lia|].
  split; [exact Hf|]. split; [exact Hv|].
  change (-32768) with (inject_Z (-32768)). change 32767 with (inject_Z 32767).
  rewrite <- !Zle_Qle. lia.
Qed.

(** [original[idx1] * (1.0 - frac) + original[idx2] * frac] for two
    16-bit samples and a weight in [0, 1]: the binary64 value is within
    2^-34 of the interval between the two samples, and its integer part
    is a 16-bit value. *)
Lemma b64_interpolate_range (a b : Z) (f : float) :
  is_s16 a -> is_s16 b ->
  b64_finite f = true -> 0 <= B2Q f -> B2Q f <= 1 ->
  b64_finite (interpolate a b f) = true /\
  inject_Z (Z.min a b) - (1 # 17179869184) <= B2Q (interpolate a b f) /\
  B2Q (interpolate a b f) <= inject_Z (Z.max a b) + (1 # 17179869184) /\
  is_s16 (b64_to_int (interpolate a b f)).
Proof.
  intros Sa Sb Ff F0 F1.
  destruct (b64_s16_exact a Sa) as (Af & Av & Al & Au).
  destruct (b64_s16_exact b Sb) as (Bf & Bv & Bl & Bu).
  unfold interpolate. rewrite b64_lit_1. cbn [d_add d_mul d_sub d_of_int binary64].
  set (F := B2Q f) in *.
  (* 1.0 - frac *)
  assert (R1 : b64_rounded (1 - f) (1 - F)).
  { assert (E : B2Q 1 - B2Q f == 1 - F) by (rewrite (proj2 b64_one); reflexivity).
    apply (b64_rounded_comp _ _ _ E).
    apply (b64_sub_correct 1 f (proj1 b64_one) Ff).
    rewrite E. apply (b64_no_overflow _ 1); lra. }
  destruct (b64_rounded_err _ _ 1 (1 # 4503599627370496) R1) as (Of & Ol & Ou);
    [lra | lra | vm_compute; discriminate |].
  set (OM := B2Q (1 - f)) in *.
  (* original[idx1] * (1.0 - frac) *)
  set (P1 := inject_Z a * OM).
  assert (P1b : -32769 <= P1 /\ P1 <= 32769) by (unfold P1; split; nra).
  assert (R2 : b64_rounded (b64_of_int a * (1 - f)) P1).
  { assert (E : B2Q (b64_of_int a) * B2Q (1 - f) == P1) by (unfold P1; rewrite Av; reflexivity).
    unfold b64_rounded. rewrite <- E. apply (b64_mul_correct _ _ Af Of).
    rewrite E. apply (b64_no_overflow _ 32769); lra. }
  destruct (b64_rounded_err _ _ 32769 (1 # 137438953472) R2) as (T1f & T1l & T1u);
    [lra | lra | vm_compute; discriminate |].
  set (T1 := B2Q (b64_of_int a * (1 - f))) in *.
  (* original[idx2] * frac *)
  set (P2 := inject_Z b * F).
  assert (P2b : -32768 <= P2 /\ P2 <= 32768) by (unfold P2; split; nra).
  assert (R3 : b64_rounded (b64_of_int b * f) P2).
  { assert (E : B2Q (b64_of_int b) * B2Q f == P2) by (unfold P2, F; rewrite Bv; reflexivity).
    unfold b64_rounded. rewrite <- E. apply (b64_mul_correct _ _ Bf Ff).
    rewrite E. apply (b64_no_overflow _ 32769); lra. }
  destruct (b64_rounded_err _ _ 32769 (1 # 137438953472) R3) as (T2f & T2l & T2u);
    [lra | lra | vm_compute; discriminate |].
  set (T2 := B2Q (b64_of_int b * f)) in *.
  (* the sum *)
  assert (R4 : b64_rounded (b64_of_int a * (1 - f) + b64_of_int b * f) (T1 + T2)).
  { apply (b64_add_correct _ _ T1f T2f). fold T1 T2.
    apply (b64_no_overflow _ 65540); lra. }
  destruct (b64_rounded_err _ _ 65540 (1 # 68719476736) R4) as (Sf & Sl & Su);
    [lra | lra | vm_compute; discriminate |].
  set (S := B2Q (b64_of_int a * (1 - f) + b64_of_int b * f)) in *.
  (* the exact convex combination *)
  set (c := inject_Z a * (1 - F) + inject_Z b * F).
  assert (Hmin_a : inject_Z (Z.min a b) <= inject_Z a) by (rewrite <- Zle_Qle; lia).
  assert (Hmin_b : inject_Z (Z.min a b) <= inject_Z b) by (rewrite <- Zle_Qle; lia).
  assert (Hmax_a : inject_Z a <= inject_Z (Z.max a b)) by (rewrite <- Zle_Qle; lia).
  assert (Hmax_b : inject_Z b <= inject_Z (Z.max a b)) by (rewrite <- Zle_Qle; lia).
  assert (Hc : inject_Z (Z.min a b) <= c /\ c <= inject_Z (Z.max a b))
    by (unfold c; split; nra).
  assert (Hmin : -32768 <= inject_Z (Z.min a b)).
  { destruct (Z.min_spec a b) as [[_ ->] | [_ ->]]; assumption. }
  assert (Hmax : inject_Z (Z.max a b) <= 32767).
  { destruct (Z.max_spec a b) as [[_ ->] | [_ ->]]; assumption. }
  assert (Hd : P1 - inject_Z a * (1 - F) <= 32768 * (1 # 4503599627370496) /\
               - (32768 * (1 # 4503599627370496)) <= P1 - inject_Z a * (1 - F)).
  { unfold P1. split; nra. }
  assert (HS : c - (1 # 17179869184) <= S /\ S <= c + (1 # 17179869184)).
  { unfold c. fold P2. destruct Hd. split; lra. }
  split; [exact Sf|]. split; [lra|]. split; [lra|].
  unfold is_s16, b64_to_int. apply SFtrunc_range.
  - exact Sf.
  - lia.
  - change (inject_Z (-32768)) with (-32768). fold (B2Q (b64_of_int a * (1 - f) + b64_of_int b * f)).
    fold S. lra.
  - change (inject_Z 32767) with 32767. fold (B2Q (b64_of_int a * (1 - f) + b64_of_int b * f)).
    fold S. lra.
Qed.

End B64Interpolate.
Section B64Resampler.
Local Open Scope Q_scope.

Variable original : list Z.
Let len : Z := Z.of_nat (length original).
Hypothesis len_u32 : (len < 2 ^ 32)%Z.
Variable r : float.
Variable mr : positive.
Variable er : Z.
Hypothesis r_finite : Prim2SF r = S754_finite false mr er.
Hypothesis r_lo : 1 # 2 <= B2Q r.
Hypothesis r_hi : B2Q r <= 2.

Lemma b64_len_exact :
  b64_finite (b64_of_int len) = true /\ B2Q (b64_of_int len) == inject_Z len.
Proof.
  destruct (b64_of_int_spec len) as (Hf & Hv & _); [subst len; lia|].
  split; assumption.
Qed.

(** [original_len / pitch_ratio]: finite, not negative, and at most the
    real quotient up to the rounding error. *)
Lemma b64_quotient :
  let q := (b64_of_int len / r)%float in
  b64_finite q = true /\ 0 <= B2Q q /\
  B2Q q * B2Q r <= inject_Z len + (1 # 262144).
Proof.
  intros q. destruct b64_len_exact as [Hf Hv].
  assert (HL : 0 <= inject_Z len) by (apply inject_Z_nonneg; subst len; lia).
  destruct (Z.eq_dec len 0%Z) as [E0 | N0].
  - assert (Hq : Prim2SF q = S754_zero false).
    { unfold q. rewrite div_spec, E0, b64_of_int_0, r_finite. reflexivity. }
    unfold b64_finite, B2Q. rewrite Hq. cbn [finite_sf SF2Q].
    split; [reflexivity|]. split; [lra|]. rewrite Qmult_0_l. lra.
  - assert (HL1 : 1 <= inject_Z len).
    { change 1 with (inject_Z 1). rewrite <- Zle_Qle. subst len. lia. }
    assert (HLu : inject_Z len <= 4294967296).
    { change 4294967296 with (inject_Z (2 ^ 32)). rewrite <- Zle_Qle. lia. }
    set (v := inject_Z len / B2Q r).
    assert (HvR : v * B2Q r == inject_Z len) by (unfold v; field; lra).
    assert (Hv0 : 1 # 2 <= v).
    { unfold v. apply Qle_shift_div_l; [lra|]. lra. }
    assert (Hv1 : v <= 8589934592).
    { unfold v. apply Qle_shift_div_r; [lra|]. lra. }
    assert (Hr : b64_rounded q v).
    { assert (E : B2Q (b64_of_int len) / B2Q r == v) by (unfold v; rewrite Hv; reflexivity).
      unfold b64_rounded. rewrite <- E.
      apply (b64_div_correct _ _ false mr er Hf r_finite).
      rewrite E. apply (b64_no_overflow _ 8589934592); lra. }
    destruct (b64_rounded_err q v 8589934592 (1 # 524288) Hr) as (Hqf & Hql & Hqu);
      [lra | lra | vm_compute; discriminate |].
    split; [exact Hqf|]. split; [lra|].
    assert (H1 : B2Q q * B2Q r <= (v + (1 # 524288)) * B2Q r)
      by (apply Qmult_le_compat_r; lra).
    assert (H2 : (v + (1 # 524288)) * B2Q r == inject_Z len + (1 # 524288) * B2Q r)
      by (rewrite <- HvR; ring).
    rewrite H2 in H1. lra.
Qed.

Lemma b64_shifted_len :
  let q := (b64_of_int len / r)%float in
  shifted_len len r = wrap_u32 (Qfloor (B2Q q)) /\
  (0 <= shifted_len len r)%Z /\ inject_Z (shifted_len len r) <= B2Q q /\
  ((len < 2 ^ 31)%Z ->
     (0 <= b64_to_int q < 2 ^ 32)%Z /\ shifted_len len r = b64_to_int q).
Proof.
  intros q. destruct b64_quotient as (Hf & H0 & Hu). fold q in Hf, H0, Hu.
  assert (Ht : b64_to_int q = Qfloor (B2Q q)).
  { unfold b64_to_int. apply SFtrunc_floor; assumption. }
  assert (Hfl0 : (0 <= Qfloor (B2Q q))%Z).
  { rewrite <- (Qfloor_Z 0). apply Qfloor_resp_le. exact H0. }
  assert (E : shifted_len len r = wrap_u32 (Qfloor (B2Q q))).
  { unfold shifted_len. cbn [d_to_int d_div d_of_int binary64]. fold q.
    rewrite Ht. reflexivity. }
  split; [exact E|]. rewrite E.
  pose proof (wrap_u32_le _ Hfl0) as [W0 W1].
  split; [exact W0|]. split.
  - eapply Qle_trans; [| apply Qfloor_le]. rewrite <- Zle_Qle. exact W1.
  - intros Hlen. rewrite Ht.
    assert (Hq : B2Q q < 4294967296).
    { assert (HLu : inject_Z len <= 2147483647).
      { change 2147483647 with (inject_Z (2 ^ 31 - 1)). rewrite <- Zle_Qle. lia. }
      assert (B2Q q * (1 # 2) <= B2Q q * B2Q r) by (apply Qmult_le_nonneg_l; lra).
      lra. }
    assert (Hfl : (Qfloor (B2Q q) < 2 ^ 32)%Z).
    { rewrite Zlt_Qlt. eapply Qle_lt_trans; [apply Qfloor_le | exact Hq]. }
    split; [lia|]. apply wrap_u32_small. lia.
Qed.


Variable i : Z.
Hypothesis i_range : (0 <= i < shifted_len len r)%Z.

Lemma b64_i_exact :
  (i < 2 ^ 32)%Z /\ b64_finite (b64_of_int i) = true /\ B2Q (b64_of_int i) == inject_Z i.
Proof.
  assert (Hi : (i < 2 ^ 32)%Z).
  { destruct b64_shifted_len as (E & _). rewrite E in i_range.
    unfold wrap_u32 in i_range.
    pose proof (Z.mod_pos_bound (Qfloor (B2Q (b64_of_int len / r))) (2 ^ 32) ltac:(lia)).
    lia. }
  split; [exact Hi|].
  destruct (b64_of_int_spec i) as (Hf & Hv & _); [lia|]. split; assumption.
Qed.

Lemma b64_source_not_empty : 1 <= inject_Z len.
Proof.
  destruct b64_quotient as (_ & _ & Hu).
  destruct b64_shifted_len as (_ & _ & HN & _).
  assert (H1 : 1 <= inject_Z (shifted_len len r)).
  { change 1 with (inject_Z 1). rewrite <- Zle_Qle. lia. }
  assert (H2 : B2Q (b64_of_int len / r) * (1 # 2) <= B2Q (b64_of_int len / r) * B2Q r)
    by (apply Qmult_le_nonneg_l; lra).
  assert (H3 : 0 < inject_Z len) by lra.
  change 0 with (inject_Z 0) in H3. rewrite <- Zlt_Qlt in H3.
  change 1 with (inject_Z 1). rewrite <- Zle_Qle. lia.
Qed.

Lemma b64_next_pos_in_source :
  (inject_Z i + 1) * B2Q r <= inject_Z len + (1 # 262144).
Proof.
  destruct b64_quotient as (_ & _ & Hu).
  destruct b64_shifted_len as (_ & _ & HN & _).
  assert (H1 : inject_Z i + 1 <= B2Q (b64_of_int len / r)).
  { eapply Qle_trans; [| exact HN].
    change 1 with (inject_Z 1). rewrite <- inject_Z_plus, <- Zle_Qle. lia. }
  eapply Qle_trans; [| exact Hu]. apply Qmult_le_nonneg_r; lra.
Qed.

(** [src_pos = i * pitch_ratio] is finite and lies in [0, len). *)
Lemma b64_src_pos :
  b64_finite (src_pos r i) = true /\
  0 <= B2Q (src_pos r i) /\ B2Q (src_pos r i) < inject_Z len /\
  ((1 <= i)%Z -> (1 # 4) <= B2Q (src_pos r i)).
Proof.
  destruct b64_i_exact as (Hi & Hf & Hv).
  pose proof b64_source_not_empty as HL.
  pose proof b64_next_pos_in_source as Hn.
  unfold src_pos. cbn [d_mul d_of_int binary64].
  destruct (Z.eq_dec i 0%Z) as [E0 | N0].
  - assert (Hs : Prim2SF (b64_of_int i * r) = S754_zero false).
    { rewrite mul_spec, E0, b64_of_int_0, r_finite. reflexivity. }
    unfold b64_finite, B2Q. rewrite Hs. cbn [finite_sf SF2Q].
    split; [reflexivity|]. split; [lra|]. split; [lra|]. intros; lia.
  - assert (Hi1 : 1 <= inject_Z i).
    { change 1 with (inject_Z 1). rewrite <- Zle_Qle. lia. }
    assert (Hiu : inject_Z i <= 4294967296).
    { change 4294967296 with (inject_Z (2 ^ 32)). rewrite <- Zle_Qle. lia. }
    set (v := inject_Z i * B2Q r).
    assert (Hv0 : 1 # 2 <= v) by (unfold v; nra).
    assert (Hv1 : v <= 8589934592) by (unfold v; nra).
    assert (Hr : b64_rounded (b64_of_int i * r) v).
    { assert (E : B2Q (b64_of_int i) * B2Q r == v) by (unfold v; rewrite Hv; reflexivity).
      unfold b64_rounded. rewrite <- E.
      apply (b64_mul_correct _ _ Hf).
      - unfold b64_finite. rewrite r_finite. reflexivity.
      - rewrite E. apply (b64_no_overflow _ 8589934592); lra. }
    destruct (b64_rounded_err _ v 8589934592 (1 # 524288) Hr) as (Hqf & Hql & Hqu);
      [lra | lra | vm_compute; discriminate |].
    split; [exact Hqf|]. split; [lra|]. split; [| intros _; lra].
    assert (Hvn : v == (inject_Z i + 1) * B2Q r - B2Q r) by (unfold v; ring).
    lra.
Qed.

Lemma b64_idx1 :
  idx1 r i = b64_to_int (src_pos r i) /\ (0 <= idx1 r i <= len - 1)%Z.
Proof.
  destruct b64_src_pos as (Hf & H0 & H1 & _).
  assert (Ht : b64_to_int (src_pos r i) = Qfloor (B2Q (src_pos r i))).
  { unfold b64_to_int. apply SFtrunc_floor; assumption. }
  assert (Hfl0 : (0 <= Qfloor (B2Q (src_pos r i)))%Z).
  { rewrite <- (Qfloor_Z 0). apply Qfloor_resp_le. exact H0. }
  assert (Hfl1 : (Qfloor (B2Q (src_pos r i)) < len)%Z).
  { rewrite Zlt_Qlt. eapply Qle_lt_trans; [apply Qfloor_le | exact H1]. }
  assert (E : idx1 r i = b64_to_int (src_pos r i)).
  { unfold idx1. cbn [d_to_int binary64]. rewrite Ht. apply wrap_u32_small. lia. }
  split; [exact E | rewrite E, Ht; lia].
Qed.

Lemma b64_idx2 : (0 <= idx2 len r i <= len - 1)%Z.
Proof.
  destruct b64_idx1 as [_ H1]. unfold idx2.
  rewrite (wrap_u32_small (idx1 r i + 1)) by lia.
  destruct (Z.leb_spec len (idx1 r i + 1)).
  - rewrite wrap_u32_small by lia. lia.
  - lia.
Qed.


(** [frac = src_pos - idx1] is computed without rounding, and lies in
    [0, 1). *)
Lemma b64_frac :
  b64_finite (frac r i) = true /\
  B2Q (frac r i) == B2Q (src_pos r i) - inject_Z (idx1 r i) /\
  0 <= B2Q (frac r i) /\ B2Q (frac r i) < 1.
Proof.
  destruct b64_src_pos as (Hf & H0 & H1 & _).
  destruct b64_idx1 as [E1 B1].
  assert (Ht : b64_to_int (src_pos r i) = Qfloor (B2Q (src_pos r i))).
  { unfold b64_to_int. apply SFtrunc_floor; assumption. }
  rewrite Ht in E1.
  pose proof (Qfloor_le (B2Q (src_pos r i))) as Fl.
  pose proof (Qlt_floor (B2Q (src_pos r i))) as Fu.
  rewrite <- E1 in Fl, Fu. rewrite inject_Z_plus in Fu. change (inject_Z 1) with 1 in Fu.
  assert (Hex : b64_finite (frac r i) = true /\
                B2Q (frac r i) == B2Q (src_pos r i) - inject_Z (idx1 r i)).
  { unfold frac. cbn [d_sub d_of_int binary64].
    destruct (Z.eq_dec (idx1 r i) 0%Z) as [E0 | N0].
    - rewrite E0. destruct (b64_sub_zero _ Hf) as [Zf Zv].
      split; [exact Zf|]. rewrite Zv. change (inject_Z 0) with 0. ring.
    - destruct (b64_of_int_spec (idx1 r i)) as (Kf & Kv & Ks); [lia|].
      destruct (Ks N0) as [mk Hk].
      replace (idx1 r i <? 0)%Z with false in Hk by (symmetry; apply Z.ltb_ge; lia).
      assert (Hk1 : 1 <= inject_Z (idx1 r i)).
      { change 1 with (inject_Z 1). rewrite <- Zle_Qle. lia. }
      assert (Hs1 : 1 <= B2Q (src_pos r i)) by lra.
      unfold b64_finite, B2Q in Hf, Hs1, Fl, Fu.
      destruct (Prim2SF (src_pos r i)) as [ss| | |ss ms es] eqn:Hs; try discriminate.
      { cbn [SF2Q] in Hs1. lra. }
      assert (Sgn : ss = false).
      { destruct ss; [| reflexivity]. cbn [SF2Q signed] in Hs1.
        pose proof (mantissa_value_pos ms es). lra. }
      subst ss. cbn [SF2Q signed] in Hs1, Fl, Fu.
      assert (Hes : (0 - 52 <= es)%Z).
      { apply (b64_exponent_lower _ _ _ _ _ Hs). change (pow2 0) with 1. exact Hs1. }
      assert (Hdk : (1 <= Zdigits2 (idx1 r i))%Z).
      { destruct (idx1 r i); [lia | cbn; lia | cbn; lia]. }
      assert (Hval : B2Q (src_pos r i) - B2Q (b64_of_int (idx1 r i))
                     == inject_Z (Zpos ms) * pow2 es - inject_Z (idx1 r i)).
      { unfold B2Q at 1. rewrite Hs, Kv. reflexivity. }
      destruct (b64_sub_exact _ _ _ _ _ _ _ _ Hs Hk) as [Xf Xv].
      + rewrite (Qabs_wd _ _ Hval), Qabs_pos by lra.
        eapply Qlt_le_trans; [| apply (pow2_le 1); lia]. change (pow2 1) with 2. lra.
      + rewrite (Qabs_wd _ _ Hval). apply (b64_no_overflow _ 1); lra.
      + split; [exact Xf|]. rewrite Xv, Kv. unfold B2Q. rewrite Hs. reflexivity. }
  destruct Hex as [Xf Xv]. split; [exact Xf|]. split; [exact Xv|].
  rewrite Xv. split; lra.
Qed.


Hypothesis source_s16 : Forall is_s16 original.

Lemma b64_shifted_at :
  exists a b : Z,
    original !! Z.to_nat (idx1 r i) = Some a /\
    original !! Z.to_nat (idx2 len r i) = Some b /\
    is_s16 (b64_to_int (interpolate a b (frac r i))) /\
    inject_Z (Z.min a b) - (1 # 17179869184) <= B2Q (interpolate a b (frac r i)) /\
    B2Q (interpolate a b (frac r i)) <= inject_Z (Z.max a b) + (1 # 17179869184) /\
    shifted_at original r i = Some (b64_to_int (interpolate a b (frac r i))).
Proof.
  destruct b64_idx1 as [_ B1]. pose proof b64_idx2 as B2.
  destruct b64_frac as (Ff & _ & F0 & F1).
  destruct (lookup_lt_is_Some_2 original (Z.to_nat (idx1 r i))) as [a Ha];
    [subst len; lia|].
  destruct (lookup_lt_is_Some_2 original (Z.to_nat (idx2 len r i))) as [b Hb];
    [subst len; lia|].
  exists a, b.
  pose proof (Forall_lookup_1 _ _ _ _ source_s16 Ha) as Sa.
  pose proof (Forall_lookup_1 _ _ _ _ source_s16 Hb) as Sb.
  destruct (b64_interpolate_range a b (frac r i) Sa Sb Ff F0) as (_ & Il & Iu & S);
    [lra|].
  split; [exact Ha|]. split; [exact Hb|]. split; [exact S|].
  split; [exact Il|]. split; [exact Iu|].
  unfold shifted_at. fold len. rewrite Ha, Hb.
  cbn [d_to_int binary64]. rewrite wrap_s16_small by exact S. reflexivity.
Qed.

End B64Resampler.

Section B64Limit.
Local Open Scope Q_scope.

(** The ratio after the two limiting assignments: a NaN when the ratio
    was one, a value between 0.5 and 2.0 otherwise. *)
Lemma b64_limit_pitch (ratio : float) :
  (Prim2SF ratio = S754_nan /\ Prim2SF (limit_pitch ratio) = S754_nan) \/
  (exists m e, Prim2SF (limit_pitch ratio) = S754_finite false m e /\
               1 # 2 <= B2Q (limit_pitch ratio) /\ B2Q (limit_pitch ratio) <= 2).
Proof.
  unfold limit_pitch. rewrite b64_lit_2. cbn [d_lt d_0_5 binary64].
  destruct (2 <? ratio)%float eqn:H2.
  - replace (2 <? 0.5)%float with false by reflexivity.
    right. exists 4503599627370496%positive, (-51)%Z.
    split; [reflexivity|]. split; vm_compute; discriminate.
  - destruct (ratio <? 0.5)%float eqn:H5.
    + right. exists 4503599627370496%positive, (-53)%Z.
      split; [reflexivity|]. split; vm_compute; discriminate.
    + destruct (b64_between_half_and_two ratio H2 H5) as [Hn | (m & e & Hr & _ & Hl & Hu)].
      * left. split; exact Hn.
      * right. exists m, e. split; [exact Hr|]. split; assumption.
Qed.

Lemma b64_is_nan (x : float) : PrimFloat.is_nan x = false -> Prim2SF x <> S754_nan.
Proof.
  unfold PrimFloat.is_nan. rewrite FloatAxioms.eqb_spec. intros H E. rewrite E in H. discriminate.
Qed.

(** No sample is produced for a NaN ratio. *)
Lemma b64_shifted_len_nan (len : Z) (r : float) :
  Prim2SF r = S754_nan -> shifted_len len r = 0%Z.
Proof.
  intros Hr. unfold shifted_len. cbn [d_to_int d_div d_of_int binary64].
  unfold b64_to_int. rewrite div_spec, Hr.
  destruct (Prim2SF (b64_of_int len)); reflexivity.
Qed.

End B64Limit.

(** The resampler in binary64: bounds of every index, weight and
    sample. *)
Lemma b64_pitch_shift_sample_spec {P : Platform}
    (original : list Z) (ratio : float) :
  Forall is_s16 original ->
  Z.of_nat (length original) < 2 ^ 32 ->
  let len := Z.of_nat (length original) in
  let res := pitch_shift_sample original ratio in
  shifted res <> OutOfBounds /\
  (forall out, shifted res = Returned out -> Forall is_s16 out) /\
  (no_shift_needed ratio = false -> PrimFloat.is_nan ratio = false ->
     let r := limit_pitch ratio in
     (1 # 2 <= B2Q r /\ B2Q r <= 2)%Q /\
     (len < 2 ^ 31 ->
        0 <= b64_to_int (b64_of_int len / r) < 2 ^ 32 /\
        new_len res = Some (b64_to_int (b64_of_int len / r))) /\
     forall out, shifted res = Returned out ->
       forall (i : nat) (v : Z), out !! i = Some v ->
         let i1 := idx1 r (Z.of_nat i) in
         let i2 := idx2 len r (Z.of_nat i) in
         let f := frac r (Z.of_nat i) in
         i1 = b64_to_int (src_pos r (Z.of_nat i)) /\
         0 <= i1 <= len - 1 /\ 0 <= i2 <= len - 1 /\
         (0 <= B2Q f /\ B2Q f < 1)%Q /\
         exists a b : Z,
           original !! Z.to_nat i1 = Some a /\
           original !! Z.to_nat i2 = Some b /\
           (inject_Z (Z.min a b) - (1 # 17179869184) <= B2Q (interpolate a b f))%Q /\
           (B2Q (interpolate a b f) <= inject_Z (Z.max a b) + (1 # 17179869184))%Q /\
           is_s16 (b64_to_int (interpolate a b f)) /\
           v = b64_to_int (interpolate a b f)).
Proof.
  intros Hs16 Hlen len res.
  assert (Hslow : no_shift_needed ratio = false ->
            res = (let r := limit_pitch ratio in
                   let n := shifted_len len r in
                   if malloc_ok (n * 2) then
                     match mapM (shifted_at original r) (seqZ 0 n) with
                     | Some shifted => mkShift (Returned shifted) (Some n)
                     | None => mkShift OutOfBounds (Some n)
                     end
                   else mkShift ReturnedNull (Some n))).
  { intros E. subst res. unfold pitch_shift_sample. rewrite E. reflexivity. }
  destruct (no_shift_needed ratio) eqn:Hfast.
  - (* the copy *)
    assert (Hres : shifted res = Returned original \/ shifted res = ReturnedNull).
    { subst res. unfold pitch_shift_sample. rewrite Hfast.
      destruct (malloc_ok _); [left | right]; reflexivity. }
    split; [destruct Hres as [-> | ->]; discriminate|].
    split; [| discriminate].
    intros out Hout. destruct Hres as [E | E]; rewrite E in Hout; [| discriminate].
    injection Hout as <-. exact Hs16.
  - specialize (Hslow eq_refl). cbv zeta in Hslow.
    pose proof (b64_limit_pitch ratio) as HL.
    set (r := limit_pitch ratio) in *.
    destruct HL as [[Hn Hrn] | (m & e & Hr & Hlo & Hhi)].
    + (* a NaN ratio: the loop runs zero times *)
      rewrite (b64_shifted_len_nan len r Hrn) in Hslow. cbn [seqZ] in Hslow.
      assert (Hres : shifted res = Returned [] \/ shifted res = ReturnedNull).
      { rewrite Hslow. destruct (malloc_ok _); [left | right]; reflexivity. }
      split; [destruct Hres as [-> | ->]; discriminate|].
      split.
      * intros out Hout. destruct Hres as [E | E]; rewrite E in Hout; [| discriminate].
        injection Hout as <-. constructor.
      * intros _ Hnan. exfalso. exact (b64_is_nan _ Hnan Hn).
    + pose proof (b64_shifted_at original Hlen r m e Hr Hlo Hhi) as Hat.
      fold len in Hat.
      assert (Hall : forall i, 0 <= i < shifted_len len r ->
                is_Some (shifted_at original r i)).
      { intros i Hi. destruct (Hat i Hi Hs16) as (a & b & _ & _ & _ & _ & _ & E).
        rewrite E. eauto. }
      assert (Hmap : is_Some (mapM (shifted_at original r) (seqZ 0 (shifted_len len r)))).
      { destruct (mapM _ _) as [out|] eqn:Hm; [eauto|]. exfalso.
        apply mapM_None_1 in Hm. apply Exists_exists in Hm.
        destruct Hm as (i & Hin & Hnone). apply elem_of_seqZ in Hin.
        destruct (Hall i) as [v Hv]; [lia | congruence]. }
      destruct Hmap as [out' Hm].
      assert (Hout' : forall (i : nat) (v : Z), out' !! i = Some v ->
                0 <= Z.of_nat i < shifted_len len r /\
                shifted_at original r (Z.of_nat i) = Some v).
      { intros i v Hv. apply mapM_Some_1 in Hm.
        destruct (Forall2_lookup_r _ _ _ _ _ Hm Hv) as (z & Hz & Ez).
        apply lookup_seqZ in Hz. destruct Hz as [-> Hi]. rewrite Z.add_0_l in Ez.
        split; [lia | exact Ez]. }
      rewrite Hm in Hslow.
      assert (Hres : shifted res = Returned out' \/ shifted res = ReturnedNull).
      { rewrite Hslow. destruct (malloc_ok _); [left | right]; reflexivity. }
      split; [destruct Hres as [-> | ->]; discriminate|].
      split.
      * intros out Hout. destruct Hres as [E | E]; rewrite E in Hout; [| discriminate].
        injection Hout as <-. apply Forall_lookup_2. intros i v Hv.
        destruct (Hout' i v Hv) as [Hi Ev].
        destruct (Hat _ Hi Hs16) as (a & b & _ & _ & S & _ & _ & E').
        rewrite E' in Ev. injection Ev as <-. exact S.
      * intros _ _. cbv zeta. split; [split; assumption|]. split.
        { intros Hlen31.
          destruct (b64_shifted_len original Hlen r m e Hr Hlo Hhi) as (_ & _ & _ & H31).
          fold len in H31. destruct (H31 Hlen31) as [Hrange Heq].
          split; [exact Hrange|]. rewrite Hslow, <- Heq.
          destruct (malloc_ok _); reflexivity. }
        intros out Hout i v Hv.
        destruct Hres as [E | E]; rewrite E in Hout; [| discriminate].
        injection Hout as <-.
        destruct (Hout' i v Hv) as [Hi Ev].
        destruct (Hat _ Hi Hs16) as (a & b & Ha & Hb & S & Il & Iu & E').
        rewrite E' in Ev. injection Ev as <-.
        destruct (b64_idx1 original Hlen r m e Hr Hlo Hhi _ Hi) as [I1 B1].
        pose proof (b64_idx2 original Hlen r m e Hr Hlo Hhi _ Hi) as B2.
        destruct (b64_frac original Hlen r m e Hr Hlo Hhi _ Hi) as (_ & _ & F0 & F1).
        fold len in B1, B2.
        split; [exact I1|]. split; [exact B1|]. split; [exact B2|].
        split; [split; assumption|].
        exists a, b. split_ands; try assumption. reflexivity.
Qed.

(** X1.  [pitch_shift_sample] in IEEE-754 binary64, for a source of
    16-bit samples: whatever the ratio, it never reads outside the
    source and every sample it returns is a 16-bit value.  For a ratio
    that is not a NaN and does not take the copy path, the limited ratio
    lies in [0.5, 2.0]; for a source of fewer than 2^31 samples (what
    both callers pass) the quotient [original_len / pitch_ratio] has its
    integer part below 2^32, so the cast to [Uint32] is defined; in
    every iteration [src_pos] has an integer part [idx1] within
    [0, len - 1], the upper-clamped [idx2] lies within [0, len - 1],
    [frac] lies in [0, 1), the interpolated [double] is within 2^-34 of
    the interval between the two samples read, and its integer part is
    within [-32768, 32767], so the cast to [Sint16] is defined and
    stores it unchanged. *)
Theorem resampler_binary64_reads_in_bounds {P : Platform}
    (original : list Z) (ratio : float) :
  Forall is_s16 original ->
  Z.of_nat (length original) < 2 ^ 32 ->
  let len := Z.of_nat (length original) in
  let res := pitch_shift_sample original ratio in
  shifted res <> OutOfBounds /\
  (forall out, shifted res = Returned out -> Forall is_s16 out) /\
  (no_shift_needed ratio = false -> PrimFloat.is_nan ratio = false ->
     let r := limit_pitch ratio in
     (1 # 2 <= B2Q r /\ B2Q r <= 2)%Q /\
     (len < 2 ^ 31 ->
        0 <= b64_to_int (b64_of_int len / r) < 2 ^ 32 /\
        new_len res = Some (b64_to_int (b64_of_int len / r))) /\
     forall out, shifted res = Returned out ->
       forall (i : nat) (v : Z), out !! i = Some v ->
         let i1 := idx1 r (Z.of_nat i) in
         let i2 := idx2 len r (Z.of_nat i) in
         let f := frac r (Z.of_nat i) in
         i1 = b64_to_int (src_pos r (Z.of_nat i)) /\
         0 <= i1 <= len - 1 /\ 0 <= i2 <= len - 1 /\
         (0 <= B2Q f /\ B2Q f < 1)%Q /\
         exists a b : Z,
           original !! Z.to_nat i1 = Some a /\
           original !! Z.to_nat i2 = Some b /\
           (inject_Z (Z.min a b) - (1 # 17179869184) <= B2Q (interpolate a b f))%Q /\
           (B2Q (interpolate a b f) <= inject_Z (Z.max a b) + (1 # 17179869184))%Q /\
           is_s16 (b64_to_int (interpolate a b f)) /\
           v = b64_to_int (interpolate a b f)).
Proof. exact (b64_pitch_shift_sample_spec original ratio). Qed.

Lemma resampler_binary64_reads_in_bounds_witness :
  Forall is_s16 [100; -200; 300; 400; 1000; -32768; 32767] /\
  Z.of_nat (length [100; -200; 300; 400; 1000; -32768; 32767]) < 2 ^ 32 /\
  shifted (pitch_shift_sample (P := studio)
             [100; -200; 300; 400; 1000; -32768; 32767] (0.7)%float)
    = Returned [100; -110; 0; 310; 380; 700; -5753; -29391; 6552; 32767] /\
  Forall is_s16 [100; -110; 0; 310; 380; 700; -5753; -29391; 6552; 32767].
Proof.
  assert (Hs : Forall is_s16 [100; -200; 300; 400; 1000; -32768; 32767]).
  { repeat constructor; unfold is_s16; lia. }
  assert (Hl : Z.of_nat (length [100; -200; 300; 400; 1000; -32768; 32767]) < 2 ^ 32).
  { cbn. lia. }
  assert (Hr : shifted (pitch_shift_sample (P := studio)
                 [100; -200; 300; 400; 1000; -32768; 32767] (0.7)%float)
               = Returned [100; -110; 0; 310; 380; 700; -5753; -29391; 6552; 32767]).
  { vm_compute. reflexivity. }
  split; [exact Hs|]. split; [exact Hl|]. split; [exact Hr|].
  destruct (resampler_binary64_reads_in_bounds (P := studio)
              [100; -200; 300; 400; 1000; -32768; 32767] (0.7)%float Hs Hl)
    as (_ & Hout & _).
  exact (Hout _ Hr).
Defined.

(** * The resampler in binary64: the length and the samples *)

(** The integer part of a finite value is on the same side of every
    integer as the value. *)
Lemma SFtrunc_integer_side (x : spec_float) (N : Z) :
  finite_sf x = true ->
  ((inject_Z N <= SF2Q x)%Q -> N <= SFtrunc x) /\
  ((SF2Q x <= inject_Z N)%Q -> SFtrunc x <= N).
Proof.
  destruct x as [s| | |s m e]; try discriminate; intros _.
  - cbn [SF2Q SFtrunc]. change 0%Q with (inject_Z 0). rewrite <- !Zle_Qle. lia.
  - rewrite SFtrunc_finite. cbn [SF2Q].
    set (w := (inject_Z (Zpos m) * pow2 e)%Q).
    pose proof (Qfloor_le w) as Hfl. pose proof (Qlt_floor w) as Hfu.
    rewrite inject_Z_plus in Hfu. change (inject_Z 1) with 1%Q in Hfu.
    destruct s; cbn [signed cond_Zopp]; split; intros H.
    + assert (L : (inject_Z (Qfloor w) <= inject_Z (- N))%Q)
        by (rewrite inject_Z_opp; lra).
      rewrite <- Zle_Qle in L. lia.
    + assert (L : (inject_Z (- N) < inject_Z (Qfloor w + 1))%Q).
      { rewrite inject_Z_opp, inject_Z_plus. change (inject_Z 1) with 1%Q. lra. }
      rewrite <- Zlt_Qlt in L. lia.
    + assert (L : (inject_Z N < inject_Z (Qfloor w + 1))%Q).
      { rewrite inject_Z_plus. change (inject_Z 1) with 1%Q. lra. }
      rewrite <- Zlt_Qlt in L. lia.
    + assert (L : (inject_Z (Qfloor w) <= inject_Z N)%Q) by lra.
      rewrite <- Zle_Qle in L. exact L.
Qed.

(** A ratio that the two comparisons of the claim accept. *)
Lemma b64_ratio_in_range (ratio : float) :
  PrimFloat.leb 0.5 ratio = true -> PrimFloat.leb ratio 2 = true ->
  limit_pitch ratio = ratio /\
  exists (m : positive) (e : Z),
    Prim2SF ratio = S754_finite false m e /\
    (1 # 2 <= B2Q ratio)%Q /\ (B2Q ratio <= 2)%Q.
Proof.
  intros Hlo Hhi. split; [apply b64_limit_pitch_id; assumption|].
  destruct (b64_between_half_and_two ratio (b64_leb_ltb _ _ Hhi) (b64_leb_ltb _ _ Hlo))
    as [Hn | (m & e & Hr & _ & Hl & Hu)].
  - exfalso. rewrite leb_spec, Hn in Hlo. discriminate Hlo.
  - exists m, e. split; [exact Hr|]. split; assumption.
Qed.

(** [original_len / pitch_ratio] in binary64 is on the same side of
    every integer as the real quotient. *)
Lemma b64_quotient_integer_side (len : Z) (r : float) (mr : positive) (er : Z) (N : Z) :
  0 < len < 2 ^ 31 -> Prim2SF r = S754_finite false mr er ->
  (1 # 2 <= B2Q r)%Q ->
  let q := (b64_of_int len / r)%float in
  b64_finite q = true /\ (0 <= B2Q q)%Q /\
  ((inject_Z N <= inject_Z len / B2Q r)%Q -> (inject_Z N <= B2Q q)%Q) /\
  ((inject_Z len / B2Q r <= inject_Z N)%Q -> (B2Q q <= inject_Z N)%Q).
Proof.
  intros Hlen Hr Hlo q.
  destruct (b64_of_int_spec len) as (Hf & Hv & Hm); [lia|].
  destruct (Hm ltac:(lia)) as [m Hx].
  replace (len <? 0) with false in Hx by (symmetry; apply Z.ltb_ge; lia).
  assert (Hquot : (inject_Z len / B2Q r <= 4294967296)%Q).
  { apply Qle_shift_div_r; [lra|].
    assert (HL : (inject_Z len <= 2147483648)%Q).
    { change 2147483648%Q with (inject_Z (2 ^ 31)). rewrite <- Zle_Qle. lia. }
    lra. }
  unfold b64_finite, B2Q in *. unfold q. rewrite div_spec, Hx, Hr in *.
  assert (Ev : (SF2Q (S754_finite false m (Zdigits2 len - 53))
                / SF2Q (S754_finite false mr er)
                == inject_Z len / SF2Q (S754_finite false mr er))%Q)
    by (rewrite Hv; reflexivity).
  destruct (SFdiv_integer_side FloatOps.prec FloatOps.emax prec_gt_0 prec_lt_emax
              m mr (Zdigits2 len - 53) er N) as (Hfin & H0 & Hbelow & Habove).
  - rewrite Ev. eapply Qle_lt_trans; [exact Hquot|]. vm_compute. reflexivity.
  - rewrite Ev. eapply Qle_lt_trans; [exact Hquot|].
    eapply Qlt_le_trans; [| apply pow2_971_large]. vm_compute. reflexivity.
  - split; [exact Hfin|]. split; [exact H0|].
    rewrite Ev in Hbelow, Habove. split; assumption.
Qed.

(** C3, amended.  In binary64, for a ratio r with 0.5 <= r <= 2.0 and a
    non-empty source of fewer than 2^31 samples.  When r misses the
    guard fabs(r - 1.0) < 0.001, the length stored in [*new_len], which
    is the length of the buffer returned, is the integer part of the
    binary64 quotient len / r: it is floor(len / r) or floor(len / r) + 1
    for the real quotient of len and the value of r, and the latter only
    when the binary64 quotient is that integer, the real quotient having
    been rounded up to it; a buffer is returned whenever it can be
    allocated.  When r is inside the guard, the buffer returned is the
    source, of length len. *)
Theorem resample_length_outside_no_shift_band {P : Platform}
    (original : list Z) (ratio : float) :
  original <> [] -> Z.of_nat (length original) < 2 ^ 31 ->
  PrimFloat.leb 0.5 ratio = true -> PrimFloat.leb ratio 2 = true ->
  let len := Z.of_nat (length original) in
  let res := pitch_shift_sample original ratio in
  let quotient := (b64_of_int len / ratio)%float in
  let n := b64_to_int quotient in
  let floor_q := Qfloor (inject_Z len / B2Q ratio) in
  (no_shift_needed ratio = false ->
     new_len res = Some n /\
     floor_q <= n <= floor_q + 1 /\
     (n = floor_q + 1 -> (B2Q quotient == inject_Z n)%Q) /\
     (forall out, shifted res = Returned out -> Z.of_nat (length out) = n) /\
     (malloc_ok (n * 2) = true -> exists out, shifted res = Returned out)) /\
  (no_shift_needed ratio = true ->
     (forall out, shifted res = Returned out -> out = original) /\
     (malloc_ok (len * 2) = true -> res = mkShift (Returned original) (Some len))).
Proof.
  intros Hne Hlen Hlo Hhi len res quotient n floor_q.
  destruct (b64_ratio_in_range ratio Hlo Hhi) as (Hid & m & e & Hr & Hrl & Hru).
  assert (Hlen0 : 0 < len).
  { unfold len. destruct original; [contradiction | cbn [length]; lia]. }
  assert (Hlen32 : Z.of_nat (length original) < 2 ^ 32) by lia.
  split.
  - intros Hslow.
    destruct (b64_shifted_len original Hlen32 ratio m e Hr Hrl Hru)
      as (_ & _ & _ & H31).
    destruct (H31 Hlen) as [Hrange Hn]. fold len in Hn. fold quotient in Hn, Hrange.
    fold n in Hn, Hrange.
    assert (Hnew : new_len res = Some n).
    { unfold res. rewrite new_len_shifted by exact Hslow. rewrite Hid.
      fold len. rewrite Hn. reflexivity. }
    destruct (b64_quotient_integer_side len ratio m e floor_q ltac:(lia) Hr Hrl)
      as (Hfin & H0 & Hbelow & _).
    destruct (b64_quotient_integer_side len ratio m e (floor_q + 1) ltac:(lia) Hr Hrl)
      as (_ & _ & _ & Habove).
    fold quotient in Hfin, H0, Hbelow, Habove.
    specialize (Hbelow (Qfloor_le _)).
    specialize (Habove (Qlt_le_weak _ _ (Qlt_floor _))).
    destruct (SFtrunc_integer_side (Prim2SF quotient) floor_q Hfin) as [Hlow _].
    destruct (SFtrunc_integer_side (Prim2SF quotient) (floor_q + 1) Hfin) as [_ Hupp].
    specialize (Hlow Hbelow). specialize (Hupp Habove).
    fold (b64_to_int quotient) in Hlow, Hupp. fold n in Hlow, Hupp.
    split; [exact Hnew|]. split; [lia|]. split; [| split].
    + intros En. apply Qle_antisym.
      * rewrite En. exact Habove.
      * assert (Ht : n = Qfloor (B2Q quotient)).
        { unfold n, b64_to_int. apply SFtrunc_floor; assumption. }
        rewrite Ht. apply Qfloor_le.
    + intros out Hout. unfold res in Hout.
      rewrite (length_shifted original ratio out Hslow Hout), Hid. fold len. exact Hn.
    + intros Hmalloc. unfold res, pitch_shift_sample. rewrite Hslow, Hid.
      fold len. rewrite Hn, Hmalloc.
      destruct (mapM (shifted_at original ratio) (seqZ 0 n)) as [out|] eqn:Hmap;
        [eauto|].
      exfalso. apply mapM_None_1 in Hmap. apply Exists_exists in Hmap.
      destruct Hmap as (i & Hin & Hnone). apply elem_of_seqZ in Hin.
      assert (Hi : 0 <= i < shifted_len (Z.of_nat (length original)) ratio)
        by (fold len; rewrite Hn; lia).
      destruct (b64_idx1 original Hlen32 ratio m e Hr Hrl Hru i Hi) as [_ B1].
      pose proof (b64_idx2 original Hlen32 ratio m e Hr Hrl Hru i Hi) as B2.
      unfold shifted_at in Hnone.
      destruct (lookup_lt_is_Some_2 original (Z.to_nat (idx1 ratio i))) as [a Ha];
        [lia|].
      destruct (lookup_lt_is_Some_2 original
                  (Z.to_nat (idx2 (Z.of_nat (length original)) ratio i))) as [b Hb];
        [lia|].
      rewrite Ha, Hb in Hnone. discriminate Hnone.
  - intros Hfast. unfold res, pitch_shift_sample. rewrite Hfast. fold len. split.
    + intros out. destruct (malloc_ok (len * 2)); cbn [shifted]; [| discriminate].
      intros [= <-]. reflexivity.
    + intros ->. reflexivity.
Qed.

Lemma resample_length_outside_no_shift_band_witness :
  [1; 2; 3; 4; 5; 6; 7; 8; 9; 10; 11] <> [] /\
  Z.of_nat (length [1; 2; 3; 4; 5; 6; 7; 8; 9; 10; 11]) < 2 ^ 31 /\
  PrimFloat.leb 0.5 1.1 = true /\ PrimFloat.leb 1.1 2 = true /\
  no_shift_needed (1.1)%float = false /\
  Qfloor (inject_Z 11 / B2Q (1.1)%float) = 9 /\
  new_len (pitch_shift_sample (P := studio) [1; 2; 3; 4; 5; 6; 7; 8; 9; 10; 11] (1.1)%float)
    = Some 10 /\
  (B2Q (b64_of_int 11 / 1.1)%float == inject_Z 10)%Q /\
  exists out : list Z,
    shifted (pitch_shift_sample (P := studio) [1; 2; 3; 4; 5; 6; 7; 8; 9; 10; 11] (1.1)%float)
      = Returned out /\
    Z.of_nat (length out) = 10.
Proof.
  assert (Hne : [1; 2; 3; 4; 5; 6; 7; 8; 9; 10; 11] <> []) by discriminate.
  assert (Hlen : Z.of_nat (length [1; 2; 3; 4; 5; 6; 7; 8; 9; 10; 11]) < 2 ^ 31)
    by (cbn; lia).
  assert (Hslow : no_shift_needed (1.1)%float = false) by (vm_compute; reflexivity).
  destruct (resample_length_outside_no_shift_band (P := studio)
              [1; 2; 3; 4; 5; 6; 7; 8; 9; 10; 11] (1.1)%float Hne Hlen eq_refl eq_refl)
    as [Hshift _].
  destruct (Hshift Hslow) as (Hnew & _ & Hup & Hout & Hret).
  destruct (Hret eq_refl) as [out Hr].
  split; [exact Hne|]. split; [exact Hlen|]. split; [reflexivity|].
  split; [reflexivity|]. split; [exact Hslow|]. split; [vm_compute; reflexivity|].
  split; [exact Hnew|]. split; [exact (Hup eq_refl)|].
  exists out. split; [exact Hr | exact (Hout out Hr)].
Defined.




(** * The resampler at the octaves (binary64) *)

Section B64Integers.
Local Open Scope Q_scope.

Lemma Qabs_scaled_int (v : Q) (n e : Z) :
  v == inject_Z n * pow2 e -> Qabs v == inject_Z (Z.abs n) * pow2 e.
Proof.
  intros Hv. rewrite (Qabs_wd _ _ Hv), Qabs_Qmult.
  pose proof (pow2_pos e). rewrite (Qabs_pos (pow2 e)) by lra.
  assert (Ea : Qabs (inject_Z n) == inject_Z (Z.abs n)).
  { unfold inject_Z. symmetry. apply Zabs_Qabs. }
  rewrite Ea. reflexivity.
Qed.

Lemma scaled_int_small (n e : Z) :
  (Z.abs n < 2 ^ 53)%Z -> (e <= 0)%Z ->
  Qabs (inject_Z n * pow2 e) < pow2 971.
Proof.
  intros Hn He.
  rewrite (Qabs_scaled_int _ n e) by reflexivity.
  assert (H1 : inject_Z (Z.abs n) < pow2 53).
  { rewrite pow2_Z by lia. rewrite <- Zlt_Qlt. exact Hn. }
  assert (H2 : pow2 e <= 1) by (change 1 with (pow2 0); apply pow2_le; exact He).
  assert (H3 : pow2 53 <= pow2 971) by (apply pow2_le; lia).
  assert (H0 : 0 <= inject_Z (Z.abs n)).
  { change 0 with (inject_Z 0). rewrite <- Zle_Qle. lia. }
  pose proof (pow2_pos e). nra.
Qed.

(** Operations whose exact result is [n * 2^e] for an integer [n] of at
    most 53 bits. *)
Lemma b64_mul_int (x y : float) (n e : Z) :
  b64_finite x = true -> b64_finite y = true ->
  B2Q x * B2Q y == inject_Z n * pow2 e ->
  (Z.abs n < 2 ^ 53)%Z -> (-1074 <= e <= 0)%Z ->
  b64_finite (x * y) = true /\ B2Q (x * y)%float == inject_Z n * pow2 e.
Proof.
  intros Hx Hy Hv Hn He.
  destruct (b64_mul_exact x y (Z.abs n) e Hx Hy) as [Hf Hq].
  - apply Qabs_scaled_int. exact Hv.
  - lia.
  - lia.
  - rewrite (Qabs_wd _ _ Hv). apply scaled_int_small; lia.
  - split; [exact Hf|]. rewrite Hq. exact Hv.
Qed.

Lemma b64_add_int (x y : float) (n e : Z) :
  b64_finite x = true -> b64_finite y = true ->
  B2Q x + B2Q y == inject_Z n * pow2 e ->
  (Z.abs n < 2 ^ 53)%Z -> (-1074 <= e <= 0)%Z ->
  b64_finite (x + y) = true /\ B2Q (x + y)%float == inject_Z n * pow2 e.
Proof.
  intros Hx Hy Hv Hn He.
  destruct (b64_add_exact x y (Z.abs n) e Hx Hy) as [Hf Hq].
  - apply Qabs_scaled_int. exact Hv.
  - lia.
  - lia.
  - rewrite (Qabs_wd _ _ Hv). apply scaled_int_small; lia.
  - split; [exact Hf|]. rewrite Hq. exact Hv.
Qed.

Lemma b64_sub_int (x y : float) (n e : Z) :
  b64_finite x = true -> b64_finite y = true ->
  B2Q x - B2Q y == inject_Z n * pow2 e ->
  (Z.abs n < 2 ^ 53)%Z -> (-1074 <= e <= 0)%Z ->
  b64_finite (x - y) = true /\ B2Q (x - y)%float == inject_Z n * pow2 e.
Proof.
  intros Hx Hy Hv Hn He.
  destruct (b64_sub_representable x y (Z.abs n) e Hx Hy) as [Hf Hq].
  - apply Qabs_scaled_int. exact Hv.
  - lia.
  - lia.
  - rewrite (Qabs_wd _ _ Hv). apply scaled_int_small; lia.
  - split; [exact Hf|]. rewrite Hq. exact Hv.
Qed.

Lemma b64_div_int (x y : float) (sy : bool) (my : positive) (ey n e : Z) :
  b64_finite x = true -> Prim2SF y = S754_finite sy my ey ->
  B2Q x / B2Q y == inject_Z n * pow2 e ->
  (Z.abs n < 2 ^ 53)%Z -> (-1074 <= e <= 0)%Z ->
  b64_finite (x / y) = true /\ B2Q (x / y)%float == inject_Z n * pow2 e.
Proof.
  intros Hx Hy Hv Hn He.
  destruct (b64_div_exact x y sy my ey (Z.abs n) e Hx Hy) as [Hf Hq].
  - apply Qabs_scaled_int. exact Hv.
  - lia.
  - lia.
  - rewrite (Qabs_wd _ _ Hv). apply scaled_int_small; lia.
  - split; [exact Hf|]. rewrite Hq. exact Hv.
Qed.

Lemma b64_to_int_int (x : float) (n : Z) :
  b64_finite x = true -> B2Q x == inject_Z n * pow2 0 -> b64_to_int x = n.
Proof.
  intros Hf Hv. rewrite (b64_to_int_value x n 1 Hf).
  - apply Z.quot_1_r.
  - rewrite Hv. change (pow2 0) with 1. rewrite Qmult_1_r. reflexivity.
Qed.

Lemma b64_to_int_half (x : float) (n : Z) :
  b64_finite x = true -> B2Q x == inject_Z n * pow2 (-1) -> b64_to_int x = Z.quot n 2.
Proof.
  intros Hf Hv. apply (b64_to_int_value x n 2 Hf).
  rewrite Hv. change (pow2 (-1)) with (1 # 2). unfold inject_Z.
  unfold Qeq, Qmult. cbn. lia.
Qed.

(** The interpolation with the weight 0 gives the first sample. *)
Lemma interpolate_at_zero (a b : Z) (f : float) :
  is_s16 a -> is_s16 b -> b64_finite f = true -> B2Q f == 0 ->
  b64_to_int (interpolate a b f) = a.
Proof.
  intros Sa Sb Ff F0.
  destruct (b64_s16_exact a Sa) as (Af & Av & _).
  destruct (b64_s16_exact b Sb) as (Bf & Bv & _).
  unfold interpolate. rewrite b64_lit_1. cbn [d_add d_mul d_sub d_of_int binary64].
  destruct (b64_sub_int 1 f 1 0 (proj1 b64_one) Ff) as [Of Ov];
    [rewrite (proj2 b64_one), F0; change (pow2 0) with 1; reflexivity | cbn; lia | lia |].
  destruct (b64_mul_int (b64_of_int a) (1 - f) a 0 Af Of) as [T1f T1v];
    [rewrite Av, Ov; change (inject_Z 1) with 1; ring | unfold is_s16 in Sa; lia | lia |].
  destruct (b64_mul_int (b64_of_int b) f 0 0 Bf Ff) as [T2f T2v];
    [rewrite F0; change (inject_Z 0) with 0; ring | cbn; lia | lia |].
  destruct (b64_add_int _ _ a 0 T1f T2f) as [Sf Sv];
    [rewrite T1v, T2v; change (inject_Z 0) with 0; ring | unfold is_s16 in Sa; lia | lia |].
  apply b64_to_int_int; assumption.
Qed.

(** The interpolation with the weight 1/2 gives the mean of the two
    samples, truncated toward zero. *)
Lemma interpolate_at_half (a b : Z) (f : float) :
  is_s16 a -> is_s16 b -> b64_finite f = true -> B2Q f == 1 # 2 ->
  b64_to_int (interpolate a b f) = Z.quot (a + b) 2.
Proof.
  intros Sa Sb Ff F0.
  destruct (b64_s16_exact a Sa) as (Af & Av & _).
  destruct (b64_s16_exact b Sb) as (Bf & Bv & _).
  unfold interpolate. rewrite b64_lit_1. cbn [d_add d_mul d_sub d_of_int binary64].
  assert (Hh : pow2 (-1) == 1 # 2) by reflexivity.
  destruct (b64_sub_int 1 f 1 (-1) (proj1 b64_one) Ff) as [Of Ov];
    [rewrite (proj2 b64_one), F0, Hh; reflexivity | cbn; lia | lia |].
  destruct (b64_mul_int (b64_of_int a) (1 - f) a (-1) Af Of) as [T1f T1v];
    [rewrite Av, Ov; change (inject_Z 1) with 1; ring | unfold is_s16 in Sa; lia | lia |].
  destruct (b64_mul_int (b64_of_int b) f b (-1) Bf Ff) as [T2f T2v];
    [rewrite Bv, F0, Hh; reflexivity | unfold is_s16 in Sb; lia | lia |].
  destruct (b64_add_int _ _ (a + b) (-1) T1f T2f) as [Sf Sv];
    [rewrite T1v, T2v, inject_Z_plus; ring | unfold is_s16 in Sa, Sb; lia | lia |].
  apply b64_to_int_half; assumption.
Qed.

End B64Integers.

Section Limits.

Lemma SFcompare_Eq_finite (x : spec_float) (s : bool) (m : positive) (e : Z) :
  SFcompare x (S754_finite s m e) = Some Eq -> x = S754_finite s m e.
Proof.
  destruct x as [sx|sx| |sx mx ex]; cbn [SFcompare].
  - destruct s; discriminate.
  - destruct sx; discriminate.
  - discriminate.
  - assert (Hm := Pos.compare_spec mx m). unfold Pos.compare in Hm.
    destruct sx, s; try discriminate.
    + destruct (Z.compare_spec ex e) as [-> | |]; try discriminate.
      destruct (Pos.compare_cont Eq mx m); try discriminate.
      inversion Hm. subst. reflexivity.
    + destruct (Z.compare_spec ex e) as [-> | |]; try discriminate.
      destruct (Pos.compare_cont Eq mx m); try discriminate.
      inversion Hm. subst. reflexivity.
Qed.

(** Two values that compare equal, the second finite and not zero, are
    the same value. *)
Lemma b64_leb_not_ltb (x y : float) (s : bool) (m : positive) (e : Z) :
  Prim2SF y = S754_finite s m e ->
  (x <=? y)%float = true -> (x <? y)%float = false -> x = y.
Proof.
  intros Hy. rewrite leb_spec, ltb_spec. unfold SFleb, SFltb. rewrite Hy.
  intros Hle Hlt.
  assert (Hc : SFcompare (Prim2SF x) (S754_finite s m e) = Some Eq).
  { destruct (SFcompare (Prim2SF x) (S754_finite s m e)) as [[]|]; congruence. }
  apply SFcompare_Eq_finite in Hc.
  rewrite <- (SF2Prim_Prim2SF x), <- (SF2Prim_Prim2SF y). congruence.
Qed.

Lemma limit_pitch_above_two (ratio : float) :
  (2 <=? ratio)%float = true -> limit_pitch ratio = 2%float.
Proof.
  intros Hle. unfold limit_pitch. rewrite b64_lit_2. cbn [d_lt d_0_5 binary64].
  destruct (2 <? ratio)%float eqn:Hlt; [reflexivity|].
  assert (E : 2%float = ratio).
  { destruct (Prim2SF ratio) as [sr|sr| |sr mr er] eqn:Hr.
    - rewrite leb_spec, Hr in Hle. discriminate.
    - rewrite leb_spec, Hr in Hle. rewrite ltb_spec, Hr in Hlt.
      destruct sr; discriminate.
    - rewrite leb_spec, Hr in Hle. discriminate.
    - exact (b64_leb_not_ltb 2 ratio sr mr er Hr Hle Hlt). }
  rewrite <- E. reflexivity.
Qed.

Lemma limit_pitch_below_half (ratio : float) :
  (ratio <=? 0.5)%float = true -> limit_pitch ratio = 0.5%float.
Proof.
  intros Hle. unfold limit_pitch. rewrite b64_lit_2. cbn [d_lt d_0_5 binary64].
  assert (H2 : (2 <? ratio)%float = false).
  { revert Hle. rewrite leb_spec, ltb_spec. unfold SFleb, SFltb.
    destruct (Prim2SF ratio) as [sr|sr| |sr mr er] eqn:Hr.
    - reflexivity.
    - destruct sr; [reflexivity | discriminate].
    - discriminate.
    - intros Hle. 
      assert (Hf : b64_finite ratio = true) by (unfold b64_finite; rewrite Hr; reflexivity).
      assert (Hv : (B2Q ratio <= B2Q 0.5)%Q).
      { apply (b64_ltb_false 0.5 ratio eq_refl Hf).
        apply b64_leb_ltb. rewrite leb_spec, Hr. unfold SFleb. exact Hle. }
      assert (Hn : (2 <? ratio)%float = false).
      { apply (b64_ltb_false 2 ratio eq_refl Hf).
        eapply Qle_trans; [exact Hv|]. vm_compute. discriminate. }
      rewrite ltb_spec, Hr in Hn. exact Hn. }
  rewrite H2.
  destruct (ratio <? 0.5)%float eqn:Hlt; [reflexivity|].
  exact (b64_leb_not_ltb ratio 0.5 false 4503599627370496 (-53) eq_refl Hle Hlt).
Qed.

End Limits.

Section Octaves.
Context {P : Platform}.
Local Open Scope Q_scope.

Variable original : list Z.
Hypothesis source_s16 : Forall is_s16 original.
Hypothesis len_small : (Z.of_nat (length original) < 2 ^ 31)%Z.

Local Notation "'len'" := (Z.of_nat (length original)).

Lemma source_lookup (i : Z) :
  (0 <= i < len)%Z -> exists a, original !! Z.to_nat i = Some a /\ is_s16 a.
Proof.
  intros Hi. destruct (lookup_lt_is_Some_2 original (Z.to_nat i)) as [a Ha]; [lia|].
  exists a. split; [exact Ha|].
  rewrite Forall_forall in source_s16. apply source_s16.
  eapply list_elem_of_lookup_2. exact Ha.
Qed.

Lemma b64_two : Prim2SF 2 = S754_finite false 4503599627370496 (-51) /\
                b64_finite 2 = true /\ B2Q 2 == 2.
Proof. split; [reflexivity|]. split; [reflexivity | vm_compute; reflexivity]. Qed.

Lemma b64_half : Prim2SF 0.5 = S754_finite false 4503599627370496 (-53) /\
                 b64_finite 0.5 = true /\ B2Q 0.5 == 1 # 2.
Proof. split; [reflexivity|]. split; [reflexivity | vm_compute; reflexivity]. Qed.

Lemma b64_int (i : Z) :
  (0 <= i < 2 ^ 32)%Z ->
  b64_finite (b64_of_int i) = true /\ B2Q (b64_of_int i) == inject_Z i.
Proof.
  intros Hi. destruct (b64_of_int_spec i) as (Hf & Hv & _); [lia|]. split; assumption.
Qed.

(** *** An octave up: the ratio 2.0 *)

Lemma shifted_len_two : shifted_len len 2%float = (len / 2)%Z.
Proof.
  unfold shifted_len. cbn [d_to_int d_div d_of_int binary64].
  destruct (b64_int len) as [Lf Lv]; [lia|].
  destruct b64_two as (T & _ & Tv).
  destruct (b64_div_int (b64_of_int len) 2%float _ _ _ len (-1) Lf T) as [Qf Qv];
    [rewrite Lv, Tv; change (pow2 (-1)) with (1 # 2); field | lia | lia |].
  rewrite (b64_to_int_half _ len Qf Qv).
  rewrite Z.quot_div_nonneg by lia.
  apply wrap_u32_small.
  assert (0 <= len / 2 <= len)%Z; [| lia].
  split; [apply Z.div_pos; lia | apply Z.div_le_upper_bound; lia].
Qed.

Lemma shifted_at_two (i : Z) :
  (0 <= i < len / 2)%Z ->
  exists a, original !! Z.to_nat (2 * i) = Some a /\ shifted_at original 2%float i = Some a.
Proof.
  intros Hi.
  assert (Hlen : (2 * i + 1 < len)%Z).
  { pose proof (Z.mul_div_le len 2 ltac:(lia)). lia. }
  destruct (b64_int i) as [If Iv]; [lia|].
  destruct b64_two as (T & Tf & Tv).
  (* src_pos *)
  assert (Hsrc : b64_finite (src_pos 2%float i) = true /\
                 B2Q (src_pos 2%float i) == inject_Z (2 * i) * pow2 0).
  { unfold src_pos. cbn [d_mul d_of_int binary64].
    apply (b64_mul_int (b64_of_int i) 2%float (2 * i) 0 If Tf); [| lia | lia].
    rewrite Iv, Tv, inject_Z_mult. change (pow2 0) with 1. change (inject_Z 2) with 2.
    ring. }
  destruct Hsrc as [Sf Sv].
  assert (H1 : idx1 2%float i = (2 * i)%Z).
  { unfold idx1. cbn [d_to_int binary64]. rewrite (b64_to_int_int _ (2 * i) Sf Sv).
    apply wrap_u32_small. lia. }
  assert (H2 : idx2 len 2%float i = (2 * i + 1)%Z).
  { unfold idx2. rewrite H1, wrap_u32_small by lia.
    destruct (Z.leb_spec len (2 * i + 1)); [lia | reflexivity]. }
  destruct (b64_int (2 * i)) as [Jf Jv]; [lia|].
  assert (Hfrac : b64_finite (frac 2%float i) = true /\ B2Q (frac 2%float i) == 0).
  { unfold frac. rewrite H1. cbn [d_sub d_of_int binary64].
    destruct (b64_sub_int (src_pos 2%float i) (b64_of_int (2 * i)) 0 0 Sf Jf) as [Ff Fv];
      [rewrite Sv, Jv; change (pow2 0) with 1; change (inject_Z 0) with 0; ring
      | cbn; lia | lia |].
    split; [exact Ff|]. rewrite Fv. change (inject_Z 0) with 0. ring. }
  destruct Hfrac as [Ff Fv].
  destruct (source_lookup (2 * i)) as (a & Ha & Sa); [lia|].
  destruct (source_lookup (2 * i + 1)) as (b & Hb & Sb); [lia|].
  exists a. split; [exact Ha|].
  unfold shifted_at. rewrite H1, H2, Ha, Hb. cbn [d_to_int binary64].
  rewrite (interpolate_at_zero a b _ Sa Sb Ff Fv).
  rewrite wrap_s16_small by exact Sa. reflexivity.
Qed.

(** *** An octave down: the ratio 0.5 *)

Lemma shifted_len_half : shifted_len len 0.5%float = (2 * len)%Z.
Proof.
  unfold shifted_len. cbn [d_to_int d_div d_of_int binary64].
  destruct (b64_int len) as [Lf Lv]; [lia|].
  destruct b64_half as (T & _ & Tv).
  destruct (b64_div_int (b64_of_int len) 0.5%float _ _ _ (2 * len) 0 Lf T) as [Qf Qv];
    [rewrite Lv, Tv, inject_Z_mult; change (pow2 0) with 1;
     change (inject_Z 2) with 2; field | lia | lia |].
  rewrite (b64_to_int_int _ (2 * len) Qf Qv).
  apply wrap_u32_small. lia.
Qed.

Lemma shifted_at_half (i : Z) :
  (0 <= i < 2 * len)%Z ->
  exists a b,
    original !! Z.to_nat (i / 2) = Some a /\
    original !! Z.to_nat (Z.min (i / 2 + 1) (len - 1)) = Some b /\
    shifted_at original 0.5%float i
    = Some (if Z.even i then a else Z.quot (a + b) 2).
Proof.
  intros Hi.
  assert (Hj : (0 <= i / 2 < len)%Z).
  { split; [apply Z.div_pos; lia | apply Z.div_lt_upper_bound; lia]. }
  destruct (b64_int i) as [If Iv]; [lia|].
  destruct b64_half as (T & Tf & Tv).
  assert (Hsrc : b64_finite (src_pos 0.5%float i) = true /\
                 B2Q (src_pos 0.5%float i) == inject_Z i * pow2 (-1)).
  { unfold src_pos. cbn [d_mul d_of_int binary64].
    apply (b64_mul_int (b64_of_int i) 0.5%float i (-1) If Tf); [| lia | lia].
    rewrite Iv, Tv. reflexivity. }
  destruct Hsrc as [Sf Sv].
  assert (H1 : idx1 0.5%float i = (i / 2)%Z).
  { unfold idx1. cbn [d_to_int binary64]. rewrite (b64_to_int_half _ i Sf Sv).
    rewrite Z.quot_div_nonneg by lia. apply wrap_u32_small. lia. }
  assert (H2 : idx2 len 0.5%float i = Z.min (i / 2 + 1) (len - 1)).
  { unfold idx2. rewrite H1, wrap_u32_small by lia.
    destruct (Z.leb_spec len (i / 2 + 1)).
    - rewrite wrap_u32_small by lia. lia.
    - lia. }
  destruct (b64_int (i / 2)) as [Jf Jv]; [lia|].
  pose proof (Z.div_mod i 2 ltac:(lia)) as Hdm.
  pose proof (Z.mod_pos_bound i 2 ltac:(lia)) as Hmod.
  assert (Hfrac : b64_finite (frac 0.5%float i) = true /\
                  B2Q (frac 0.5%float i) == inject_Z (i mod 2) * pow2 (-1)).
  { unfold frac. rewrite H1. cbn [d_sub d_of_int binary64].
    apply (b64_sub_int (src_pos 0.5%float i) (b64_of_int (i / 2)) (i mod 2) (-1) Sf Jf);
      [| lia | lia].
    rewrite Sv, Jv. rewrite Hdm at 1. rewrite inject_Z_plus, inject_Z_mult.
    change (pow2 (-1)) with (1 # 2). change (inject_Z 2) with 2. ring. }
  destruct Hfrac as [Ff Fv].
  destruct (source_lookup (i / 2)) as (a & Ha & Sa); [lia|].
  destruct (source_lookup (Z.min (i / 2 + 1) (len - 1))) as (b & Hb & Sb); [lia|].
  exists a, b. split; [exact Ha|]. split; [exact Hb|].
  unfold shifted_at. rewrite H1, H2, Ha, Hb. cbn [d_to_int binary64].
  destruct (Z.even i) eqn:Hev.
  - assert (Hm : (i mod 2 = 0)%Z).
    { apply Z.even_spec in Hev. destruct Hev as [k ->].
      rewrite Z.mul_comm, Z.mod_mul by lia. reflexivity. }
    rewrite Hm in Fv.
    assert (Fv0 : B2Q (frac 0.5%float i) == 0).
    { rewrite Fv. change (inject_Z 0) with 0. ring. }
    rewrite (interpolate_at_zero a b _ Sa Sb Ff Fv0).
    rewrite wrap_s16_small by exact Sa. reflexivity.
  - assert (Hm : (i mod 2 = 1)%Z).
    { rewrite <- Z.negb_odd in Hev. apply negb_false_iff in Hev.
      apply Z.odd_spec in Hev. destruct Hev as [k ->].
      rewrite Z.add_comm, Z.mul_comm, Z.mod_add by lia. reflexivity. }
    rewrite Hm in Fv.
    assert (Fv1 : B2Q (frac 0.5%float i) == 1 # 2).
    { rewrite Fv. reflexivity. }
    rewrite (interpolate_at_half a b _ Sa Sb Ff Fv1).
    rewrite wrap_s16_small; [reflexivity|].
    unfold is_s16 in *.
    assert (Hq : (-32768 <= Z.quot (a + b) 2 <= 32767)%Z)
      by (Z.to_euclidean_division_equations; lia).
    exact Hq.
Qed.

End Octaves.

Lemma mapM_seqZ_Some (f : Z -> option Z) (g : Z -> Z) (n : Z) :
  (forall i, 0 <= i < n -> f i = Some (g i)) ->
  mapM f (seqZ 0 n) = Some (map g (seqZ 0 n)).
Proof.
  intros Hf. apply mapM_Some. apply Forall2_fmap_r.
  apply Forall_Forall2_diag. apply Forall_forall. intros i Hi.
  apply elem_of_seqZ in Hi. apply Hf. lia.
Qed.

(** X21.  An octave up.  For a ratio of 2.0 or more (which is limited
    to 2.0) the resampler, in binary64, returns every second sample of
    the source, unchanged: len / 2 samples, the i-th being
    original[2 * i]. *)
Theorem octave_up_keeps_every_second_sample {P : Platform}
    (original : list Z) (ratio : float) :
  Forall is_s16 original -> Z.of_nat (length original) < 2 ^ 31 ->
  (2 <=? ratio)%float = true -> no_shift_needed ratio = false ->
  malloc_ok (Z.of_nat (length original) / 2 * 2) = true ->
  exists out : list Z,
    pitch_shift_sample original ratio
    = mkShift (Returned out) (Some (Z.of_nat (length original) / 2)) /\
    Z.of_nat (length out) = Z.of_nat (length original) / 2 /\
    forall i : nat, Z.of_nat i < Z.of_nat (length original) / 2 ->
      out !! i = original !! (2 * i)%nat.
Proof.
  intros Hs Hlen Hratio Hslow Hmalloc.
  set (len := Z.of_nat (length original)) in *.
  set (g := fun i : Z => default 0 (original !! Z.to_nat (2 * i))).
  assert (Hn : 0 <= len / 2) by (apply Z.div_pos; lia).
  exists (map g (seqZ 0 (len / 2))).
  unfold pitch_shift_sample. rewrite Hslow. cbv zeta.
  rewrite (limit_pitch_above_two ratio Hratio).
  rewrite (shifted_len_two original Hlen). fold len. rewrite Hmalloc.
  rewrite (mapM_seqZ_Some _ g).
  - split; [reflexivity|]. split.
    + rewrite length_map, length_seqZ. lia.
    + intros i Hi. rewrite list_lookup_fmap, lookup_seqZ_lt by lia.
      cbn [fmap option_fmap option_map]. unfold g.
      destruct (shifted_at_two original Hs Hlen (Z.of_nat i)) as (a & Ha & _); [fold len; lia|].
      replace (Z.to_nat (2 * (0 + Z.of_nat i))) with (2 * i)%nat by lia.
      replace (Z.to_nat (2 * Z.of_nat i)) with (2 * i)%nat in Ha by lia.
      rewrite Ha. reflexivity.
  - intros i Hi.
    destruct (shifted_at_two original Hs Hlen i) as (a & Ha & Hat); [fold len; lia|].
    rewrite Hat. unfold g. rewrite Ha. reflexivity.
Qed.

Lemma octave_up_keeps_every_second_sample_witness :
  exists out : list Z,
    pitch_shift_sample (P := studio) [100; -200; 300; 400; 1000; -32768; 32767] 4%float
    = mkShift (Returned out) (Some 3) /\
    out !! 1%nat = Some 300.
Proof.
  destruct (octave_up_keeps_every_second_sample (P := studio)
              [100; -200; 300; 400; 1000; -32768; 32767] 4%float)
    as (out & Hout & _ & Hi).
  - repeat constructor; unfold is_s16; lia.
  - reflexivity.
  - reflexivity.
  - reflexivity.
  - reflexivity.
  - exists out. split; [exact Hout|]. exact (Hi 1%nat eq_refl).
Defined.

(** X22.  An octave down.  For a ratio of 0.5 or less (which is limited
    to 0.5) the resampler, in binary64, returns twice as many samples:
    the sample 2 * j is original[j], unchanged, and the sample
    2 * j + 1 is the mean of original[j] and its successor (the last
    sample being its own successor), truncated toward zero. *)
Theorem octave_down_inserts_the_means {P : Platform}
    (original : list Z) (ratio : float) :
  Forall is_s16 original -> Z.of_nat (length original) < 2 ^ 31 ->
  (ratio <=? 0.5)%float = true -> no_shift_needed ratio = false ->
  malloc_ok (2 * Z.of_nat (length original) * 2) = true ->
  exists out : list Z,
    pitch_shift_sample original ratio
    = mkShift (Returned out) (Some (2 * Z.of_nat (length original))) /\
    length out = (2 * length original)%nat /\
    forall (j : nat) (a b : Z),
      original !! j = Some a ->
      original !! Nat.min (j + 1) (length original - 1) = Some b ->
      out !! (2 * j)%nat = Some a /\
      out !! (2 * j + 1)%nat = Some (Z.quot (a + b) 2).
Proof.
  intros Hs Hlen Hratio Hslow Hmalloc.
  set (len := Z.of_nat (length original)) in *.
  set (g := fun i : Z =>
              let a := default 0 (original !! Z.to_nat (i / 2)) in
              let b := default 0 (original !! Z.to_nat (Z.min (i / 2 + 1) (len - 1))) in
              if Z.even i then a else Z.quot (a + b) 2).
  exists (map g (seqZ 0 (2 * len))).
  unfold pitch_shift_sample. rewrite Hslow. cbv zeta.
  rewrite (limit_pitch_below_half ratio Hratio).
  rewrite (shifted_len_half original Hlen). fold len. rewrite Hmalloc.
  rewrite (mapM_seqZ_Some _ g).
  - split; [reflexivity|]. split.
    + rewrite length_map, length_seqZ. lia.
    + intros j a b Ha Hb.
      assert (Hj : (j < length original)%nat) by (apply lookup_lt_Some in Ha; exact Ha).
      rewrite !list_lookup_fmap, !lookup_seqZ_lt by lia.
      cbn [fmap option_fmap option_map]. unfold g. cbv zeta.
      rewrite !Z.add_0_l.
      replace (Z.of_nat (2 * j) / 2) with (Z.of_nat j)
        by (rewrite Nat2Z.inj_mul, Z.mul_comm, Z.div_mul; lia).
      replace (Z.of_nat (2 * j + 1) / 2) with (Z.of_nat j).
      2:{ rewrite Nat2Z.inj_add, Nat2Z.inj_mul.
          change (Z.of_nat 2) with 2. change (Z.of_nat 1) with 1.
          rewrite Z.add_comm, Z.mul_comm, Z.div_add by lia.
          change (1 / 2) with 0. lia. }
      replace (Z.to_nat (Z.min (Z.of_nat j + 1) (len - 1)))
        with (Nat.min (j + 1) (length original - 1)) by (unfold len; lia).
      rewrite Nat2Z.id, Ha, Hb. cbn [default].
      replace (Z.even (Z.of_nat (2 * j))) with true.
      2:{ symmetry. rewrite Nat2Z.inj_mul. apply Z.even_mul. }
      replace (Z.even (Z.of_nat (2 * j + 1))) with false.
      2:{ symmetry. rewrite Nat2Z.inj_add, Nat2Z.inj_mul.
          rewrite Z.even_add, Z.even_mul. reflexivity. }
      split; reflexivity.
  - intros i Hi.
    destruct (shifted_at_half original Hs Hlen i) as (a & b & Ha & Hb & Hat);
      [fold len; lia|].
    rewrite Hat. unfold g. cbv zeta. fold len in Hb. rewrite Ha, Hb. reflexivity.
Qed.

Lemma octave_down_inserts_the_means_witness :
  exists out : list Z,
    pitch_shift_sample (P := studio) [100; -200; 301] (0.25)%float
    = mkShift (Returned out) (Some 6) /\
    out !! 2%nat = Some (-200) /\ out !! 3%nat = Some 50.
Proof.
  destruct (octave_down_inserts_the_means (P := studio) [100; -200; 301] (0.25)%float)
    as (out & Hout & _ & Hj).
  - repeat constructor; unfold is_s16; lia.
  - reflexivity.
  - reflexivity.
  - reflexivity.
  - reflexivity.
  - exists out. split; [exact Hout|].
    exact (Hj 1%nat (-200) 301 eq_refl eq_refl).
Defined.

(** X23.  Whatever the ratio, the resampled buffer starts with the
    first sample of the source: in binary64, for a source of 16-bit
    samples and a ratio that is not a NaN, the first sample returned is
    original[0], unchanged. *)
Theorem resampler_keeps_the_first_sample {P : Platform}
    (original : list Z) (ratio : float) (out : list Z) (v : Z) :
  Forall is_s16 original -> Z.of_nat (length original) < 2 ^ 32 ->
  PrimFloat.is_nan ratio = false ->
  shifted (pitch_shift_sample original ratio) = Returned out ->
  out !! 0%nat = Some v ->
  original !! 0%nat = Some v.
Proof.
  intros Hs Hlen Hnan Hout Hv.
  destruct (no_shift_needed ratio) eqn:Hfast.
  - (* the copy *)
    unfold pitch_shift_sample in Hout. rewrite Hfast in Hout.
    destruct (malloc_ok _); [| discriminate].
    cbn [shifted] in Hout. injection Hout as <-. exact Hv.
  - destruct (b64_pitch_shift_sample_spec original ratio Hs Hlen) as (_ & _ & Hspec).
    destruct (Hspec Hfast Hnan) as (_ & _ & Hat). clear Hspec.
    destruct (Hat out Hout 0%nat v Hv)
      as (I1 & _ & _ & _ & a' & b' & Ha' & Hb' & _ & _ & _ & ->).
    change (Z.of_nat 0) with 0 in *.
    set (r := limit_pitch ratio) in *.
    assert (Hr : b64_finite r = true).
    { destruct (b64_limit_pitch ratio) as [[Hn _] | (m & e & Hm & _)].
      - exfalso. exact (b64_is_nan _ Hnan Hn).
      - unfold b64_finite. fold r in Hm. rewrite Hm. reflexivity. }
    destruct (b64_of_int_spec 0) as (Zf & Zv & _); [cbn; lia|].
    assert (Hsrc : b64_finite (src_pos r 0) = true /\
                   (B2Q (src_pos r 0) == inject_Z 0 * pow2 0)%Q).
    { unfold src_pos. cbn [d_mul d_of_int binary64].
      apply (b64_mul_int (b64_of_int 0) r 0 0 Zf Hr); [| cbn; lia | lia].
      rewrite Zv. change (inject_Z 0) with 0%Q. ring. }
    destruct Hsrc as [Sf Sv].
    assert (H1 : idx1 r 0 = 0).
    { rewrite I1. apply b64_to_int_int; assumption. }
    assert (Hfrac : b64_finite (frac r 0) = true /\ (B2Q (frac r 0) == 0)%Q).
    { unfold frac. rewrite H1. cbn [d_sub d_of_int binary64].
      destruct (b64_sub_int (src_pos r 0) (b64_of_int 0) 0 0 Sf Zf) as [Ff Fv];
        [rewrite Sv, Zv; change (inject_Z 0) with 0%Q; ring | cbn; lia | lia |].
      split; [exact Ff|]. rewrite Fv. change (inject_Z 0) with 0%Q. ring. }
    destruct Hfrac as [Ff Fv].
    rewrite H1 in Ha'. change (Z.to_nat 0) with 0%nat in Ha'.
    rewrite Ha'. f_equal. symmetry.
    rewrite Forall_forall in Hs.
    apply interpolate_at_zero; try assumption.
    + apply Hs. eapply list_elem_of_lookup_2. exact Ha'.
    + apply Hs. eapply list_elem_of_lookup_2. exact Hb'.
Qed.

Lemma resampler_keeps_the_first_sample_witness :
  [100; -200; 300; 400; 1000; -32768; 32767] !! 0%nat = Some 100.
Proof.
  apply (resampler_keeps_the_first_sample (P := studio)
           [100; -200; 300; 400; 1000; -32768; 32767] (0.7)%float
           [100; -110; 0; 310; 380; 700; -5753; -29391; 6552; 32767] 100).
  - repeat constructor; unfold is_s16; lia.
  - reflexivity.
  - reflexivity.
  - vm_compute. reflexivity.
  - reflexivity.
Defined.


(** * Playback *)

Section Playback.
Context {D : Type} {DA : DoubleArith D}.

(** Without a loop and without a key, the clock counts up to the last
    row and stops. *)
Lemma play_song_rows_counts_up (song : Song D) (fuel : nat) :
  forall (n : nat) (current_row loop_count : Z),
  loop_enabled song = 0 -> is_int (num_rows song) ->
  0 <= current_row -> current_row < Z.max 1 (num_rows song) ->
  Z.max 1 (num_rows song) - current_row <= Z.of_nat fuel ->
  play_song_rows song (fun _ => false) fuel n current_row loop_count
  = seqZ current_row (Z.max 1 (num_rows song) - current_row).
Proof.
  induction fuel as [|fuel IH]; intros n row count Hoff Hint H0 Hlt Hfuel; [lia|].
  cbn [play_song_rows]. unfold play_song_step.
  assert (Hw : wrap_int (row + 1) = row + 1).
  { apply wrap_int_small. unfold is_int, INT_MIN, INT_MAX in *. lia. }
  rewrite Hw, Hoff. cbn [Z.eqb negb].
  replace (Z.max 1 (num_rows song) - row) with (Z.succ (Z.max 1 (num_rows song) - row - 1))
    by lia.
  rewrite seqZ_cons by lia.
  replace (Z.pred (Z.succ (Z.max 1 (num_rows song) - row - 1)))
    with (Z.max 1 (num_rows song) - Z.succ row) by lia.
  destruct (Z.geb_spec (row + 1) (num_rows song)) as [Hge | Hnext].
  - replace (Z.max 1 (num_rows song) - Z.succ row) with 0 by lia. reflexivity.
  - f_equal. replace (Z.succ row) with (row + 1) by lia.
    apply IH; try assumption; lia.
Qed.

(** With the loop window inside the pattern, every row handed to
    [play_row] is a row of the pattern. *)
Lemma play_song_rows_in_pattern (song : Song D) (keys : nat -> bool) (fuel : nat) :
  forall (n : nat) (current_row loop_count : Z),
  is_int (num_rows song) -> loop_window_ok song ->
  0 <= current_row < num_rows song ->
  (loop_enabled song <> 0 -> current_row <= loop_end song) ->
  Forall (fun row => 0 <= row < num_rows song)
         (play_song_rows song keys fuel n current_row loop_count).
Proof.
  induction fuel as [|fuel IH]; intros n row count Hint Hwin Hrow Hend;
    cbn [play_song_rows]; [constructor|].
  constructor; [exact Hrow|].
  unfold play_song_step. destruct (keys n); [constructor|].
  assert (Hw : wrap_int (row + 1) = row + 1).
  { apply wrap_int_small. unfold is_int, INT_MIN, INT_MAX in *. lia. }
  rewrite Hw.
  destruct (Z.eqb_spec (loop_enabled song) 0) as [Hoff | Hon]; cbn [negb].
  - destruct (Z.geb_spec (row + 1) (num_rows song)); [constructor|].
    apply IH; try assumption; [lia | intros; congruence].
  - pose proof (Hwin Hon) as Hwin'. specialize (Hend Hon).
    destruct (Z.gtb_spec (row + 1) (loop_end song)).
    + apply IH; try assumption; [lia | intros; lia].
    + apply IH; try assumption; [lia | intros; lia].
Qed.

(** With the loop on, only a key ends the playback. *)
Lemma play_song_rows_loop_forever (song : Song D) (fuel : nat) :
  forall (n : nat) (current_row loop_count : Z),
  loop_enabled song <> 0 ->
  length (play_song_rows song (fun _ => false) fuel n current_row loop_count) = fuel.
Proof.
  induction fuel as [|fuel IH]; intros n row count Hon; cbn [play_song_rows]; [reflexivity|].
  unfold play_song_step.
  destruct (Z.eqb_spec (loop_enabled song) 0) as [Hoff | _]; [contradiction|]. cbn [negb].
  destruct (wrap_int (row + 1) >? loop_end song); cbn [length]; rewrite IH by exact Hon;
    reflexivity.
Qed.

(** A key ends the playback after the row in progress: up to the first
    key the rows are those played when no key is pressed. *)
Lemma play_song_rows_until_key (song : Song D) (keys : nat -> bool) (fuel : nat) :
  forall (n first : nat) (current_row loop_count : Z),
  (forall k, (n <= k < first)%nat -> keys k = false) ->
  keys first = true -> (n <= first)%nat -> (first - n < fuel)%nat ->
  play_song_rows song keys fuel n current_row loop_count
  = take (S (first - n))
         (play_song_rows song (fun _ => false) fuel n current_row loop_count).
Proof.
  induction fuel as [|fuel IH]; intros n first row count Hquiet Hkey Hle Hfuel; [lia|].
  cbn [play_song_rows]. cbn [take]. f_equal.
  destruct (Nat.eq_dec n first) as [-> | Hne].
  - unfold play_song_step at 1. rewrite Hkey.
    replace (first - first)%nat with 0%nat by lia. rewrite take_0. reflexivity.
  - assert (Hn : keys n = false) by (apply Hquiet; lia).
    unfold play_song_step. rewrite Hn.
    replace (first - n)%nat with (S (first - S n)) by lia.
    repeat match goal with
           | |- context [if ?c then _ else _] => destruct c
           end; try reflexivity; try (rewrite take_nil; reflexivity).
    all: apply IH; try assumption; try lia; intros; apply Hquiet; lia.
Qed.

End Playback.

Section PlaybackLoop.
Context {D : Type} {DA : DoubleArith D}.

(** With the loop on and its window in order, the clock runs up to
    [loop_end] and then round the window. *)
Lemma play_song_rows_window (song : Song D) (fuel : nat) :
  forall (n : nat) (k loop_count : Z),
  loop_enabled song <> 0 -> loop_window_ok song -> is_int (num_rows song) ->
  0 <= k ->
  let row_of k :=
    if k <=? loop_end song then k
    else loop_start song
         + (k - loop_start song) mod (loop_end song - loop_start song + 1) in
  play_song_rows song (fun _ => false) fuel n (row_of k) loop_count
  = map row_of (seqZ k (Z.of_nat fuel)).
Proof.
  induction fuel as [|fuel IH]; intros n k count Hon Hwin Hint Hk row_of; [reflexivity|].
  destruct (Hwin Hon) as (Hs & Hse & Hen).
  assert (Hrange : 0 <= row_of k <= loop_end song).
  { unfold row_of. destruct (Z.leb_spec k (loop_end song)); [lia|].
    pose proof (Z.mod_pos_bound (k - loop_start song)
                  (loop_end song - loop_start song + 1) ltac:(lia)). lia. }
  assert (Hnext : row_of (k + 1)
                  = if row_of k + 1 >? loop_end song then loop_start song
                    else row_of k + 1).
  { unfold row_of.
    destruct (Z.leb_spec k (loop_end song)), (Z.leb_spec (k + 1) (loop_end song));
      repeat match goal with
             | |- context [?a >? ?b] => destruct (Z.gtb_spec a b)
             end; try lia.
    - replace (k + 1 - loop_start song)
        with (0 + 1 * (loop_end song - loop_start song + 1)) by lia.
      rewrite Z.mod_add by lia. rewrite Z.mod_0_l by lia. lia.
    - set (p := loop_end song - loop_start song + 1) in *.
      assert (Hp : 0 < p) by (unfold p; lia).
      pose proof (Z.mod_pos_bound (k - loop_start song) p Hp) as Hb.
      assert (Hm : (k - loop_start song) mod p = p - 1) by lia.
      replace (k + 1 - loop_start song) with ((k - loop_start song) + 1) by lia.
      rewrite <- Zplus_mod_idemp_l, Hm.
      replace (p - 1 + 1) with p by lia. rewrite Z.mod_same by lia. lia.
    - set (p := loop_end song - loop_start song + 1) in *.
      assert (Hp : 0 < p) by (unfold p; lia).
      pose proof (Z.mod_pos_bound (k - loop_start song) p Hp) as Hb.
      replace (k + 1 - loop_start song) with ((k - loop_start song) + 1) by lia.
      rewrite <- Zplus_mod_idemp_l.
      rewrite (Z.mod_small ((k - loop_start song) mod p + 1)) by lia. lia. }
  replace (Z.of_nat (S fuel)) with (Z.succ (Z.of_nat fuel)) by lia.
  rewrite seqZ_cons by lia. cbn [play_song_rows map]. f_equal.
  replace (Z.pred (Z.succ (Z.of_nat fuel))) with (Z.of_nat fuel) by lia.
  unfold play_song_step.
  rewrite wrap_int_small by (unfold is_int, INT_MIN, INT_MAX in *; lia).
  destruct (Z.eqb_spec (loop_enabled song) 0); [contradiction|]. cbn [negb].
  replace (Z.succ k) with (k + 1) by lia.
  specialize (IH (S n) (k + 1)). cbv zeta in IH. fold row_of in IH.
  destruct (row_of k + 1 >? loop_end song); rewrite <- Hnext; apply IH;
    try assumption; lia.
Qed.

End PlaybackLoop.

(** X2.  Without a loop and without a key, [play_song] plays the rows
    0, 1, ..., num_rows - 1 once, in order, and stops; the body of its
    loop comes before the test, so a pattern without rows still has its
    row 0 played. *)
Theorem play_song_plays_pattern_once {D : Type} {DA : DoubleArith D} {P : Platform}
    (song : Song D) (fuel : nat) :
  SDL_Init_ok = true -> Mix_OpenAudio_ok = true ->
  loop_enabled song = 0 -> is_int (num_rows song) ->
  Z.max 1 (num_rows song) <= Z.of_nat fuel ->
  play_song song (fun _ => false) fuel = seqZ 0 (Z.max 1 (num_rows song)).
Proof.
  intros Hsdl Hmix Hoff Hint Hfuel. unfold play_song. rewrite Hsdl, Hmix. cbn [negb].
  rewrite (play_song_rows_counts_up song fuel 0 0 0 Hoff Hint) by lia.
  f_equal. lia.
Qed.

Lemma play_song_plays_pattern_once_witness :
  play_song (P := studio) (initial_song (DA := binary64)) (fun _ => false) 20
  = seqZ 0 (Z.max 1 (num_rows (initial_song (DA := binary64)))).
Proof.
  apply (play_song_plays_pattern_once (P := studio) (initial_song (DA := binary64)) 20).
  - reflexivity.
  - reflexivity.
  - reflexivity.
  - unfold is_int, INT_MIN, INT_MAX.
    change (num_rows (initial_song (DA := binary64))) with 16. lia.
  - change (num_rows (initial_song (DA := binary64))) with 16. lia.
Defined.

(** X3.  Whatever keys are pressed, every row [play_song] hands to
    [play_row] is a row of the pattern, provided the pattern has a row
    and the loop window, when the loop is on, lies inside it. *)
Theorem play_song_stays_in_pattern {D : Type} {DA : DoubleArith D} {P : Platform}
    (song : Song D) (keys : nat -> bool) (fuel : nat) :
  0 < num_rows song -> is_int (num_rows song) -> loop_window_ok song ->
  Forall (fun row => 0 <= row < num_rows song) (play_song song keys fuel).
Proof.
  intros Hrows Hint Hwin. unfold play_song.
  destruct SDL_Init_ok; cbn [negb]; [| constructor].
  destruct Mix_OpenAudio_ok; cbn [negb]; [| constructor].
  apply play_song_rows_in_pattern; try assumption; [lia|].
  intros Hon. destruct (Hwin Hon). lia.
Qed.

Lemma play_song_stays_in_pattern_witness :
  Forall (fun row => 0 <= row < num_rows (looped_2_5 (DA := binary64)))
         (play_song (P := studio) (looped_2_5 (DA := binary64))
                    (fun n => Nat.eqb n 9) 20).
Proof.
  apply (play_song_stays_in_pattern (P := studio) (looped_2_5 (DA := binary64))).
  - change (num_rows (looped_2_5 (DA := binary64))) with 16. lia.
  - unfold is_int, INT_MIN, INT_MAX.
    change (num_rows (looped_2_5 (DA := binary64))) with 16. lia.
  - unfold loop_window_ok.
    change (num_rows (looped_2_5 (DA := binary64))) with 16.
    change (loop_start (looped_2_5 (DA := binary64))) with 2.
    change (loop_end (looped_2_5 (DA := binary64))) with 5. lia.
Defined.

(** X4.  A key ends the playback after the row in progress: when the
    first key arrives during pass [first] of the loop, the rows played
    are the first [first + 1] rows of the playback without a key. *)
Theorem play_song_key_stops_after_row {D : Type} {DA : DoubleArith D} {P : Platform}
    (song : Song D) (keys : nat -> bool) (fuel first : nat) :
  (forall k, (k < first)%nat -> keys k = false) -> keys first = true ->
  (first < fuel)%nat ->
  play_song song keys fuel = take (S first) (play_song song (fun _ => false) fuel).
Proof.
  intros Hquiet Hkey Hfuel. unfold play_song.
  destruct SDL_Init_ok; cbn [negb]; [| reflexivity].
  destruct Mix_OpenAudio_ok; cbn [negb]; [| reflexivity].
  rewrite (play_song_rows_until_key song keys fuel 0 first 0 0);
    [ replace (first - 0)%nat with first by lia; reflexivity
    | intros k Hk; apply Hquiet; lia | exact Hkey | lia | lia ].
Qed.

Lemma play_song_key_stops_after_row_witness :
  play_song (P := studio) (looped_2_5 (DA := binary64)) (fun n => Nat.eqb n 7) 20
  = take 8 (play_song (P := studio) (looped_2_5 (DA := binary64)) (fun _ => false) 20).
Proof.
  apply (play_song_key_stops_after_row (P := studio) (looped_2_5 (DA := binary64))
           (fun n => Nat.eqb n 7) 20 7).
  - intros k Hk. apply Nat.eqb_neq. lia.
  - reflexivity.
  - lia.
Defined.

(** X5.  With the loop on, its window inside the pattern and no key,
    [play_song] never stops: pass k of its loop plays row k up to
    loop_end, and from there on goes round the window,
    loop_start + (k - loop_start) mod (loop_end - loop_start + 1). *)
Theorem play_song_goes_round_the_window {D : Type} {DA : DoubleArith D} {P : Platform}
    (song : Song D) (fuel : nat) :
  SDL_Init_ok = true -> Mix_OpenAudio_ok = true ->
  loop_enabled song <> 0 -> loop_window_ok song -> is_int (num_rows song) ->
  play_song song (fun _ => false) fuel
  = map (fun k => if k <=? loop_end song then k
                  else loop_start song
                       + (k - loop_start song) mod (loop_end song - loop_start song + 1))
        (seqZ 0 (Z.of_nat fuel)).
Proof.
  intros Hsdl Hmix Hon Hwin Hint. unfold play_song. rewrite Hsdl, Hmix. cbn [negb].
  pose proof (play_song_rows_window song fuel 0 0 0 Hon Hwin Hint ltac:(lia)) as H.
  cbv zeta in H. rewrite <- H. f_equal.
  destruct (Hwin Hon) as (Hs & Hse & _).
  destruct (Z.leb_spec 0 (loop_end song)); [reflexivity | lia].
Qed.

Lemma play_song_goes_round_the_window_witness :
  play_song (P := studio) (looped_2_5 (DA := binary64)) (fun _ => false) 12
  = map (fun k => if k <=? loop_end (looped_2_5 (DA := binary64)) then k
                  else loop_start (looped_2_5 (DA := binary64))
                       + (k - loop_start (looped_2_5 (DA := binary64)))
                         mod (loop_end (looped_2_5 (DA := binary64))
                              - loop_start (looped_2_5 (DA := binary64)) + 1))
        (seqZ 0 (Z.of_nat 12)).
Proof.
  apply (play_song_goes_round_the_window (P := studio) (looped_2_5 (DA := binary64)) 12).
  - reflexivity.
  - reflexivity.
  - change (loop_enabled (looped_2_5 (DA := binary64))) with 1. lia.
  - unfold loop_window_ok.
    change (num_rows (looped_2_5 (DA := binary64))) with 16.
    change (loop_start (looped_2_5 (DA := binary64))) with 2.
    change (loop_end (looped_2_5 (DA := binary64))) with 5. lia.
  - unfold is_int, INT_MIN, INT_MAX.
    change (num_rows (looped_2_5 (DA := binary64))) with 16. lia.
Defined.


(** * Note names *)

Section NoteNames.

Lemma find_note_Some (names : list string) (name : string) (from i : Z) :
  find_note names name from = Some i ->
  from <= i < from + Z.of_nat (length names) /\
  names !! Z.to_nat (i - from) = Some name.
Proof.
  revert from. induction names as [|n rest IH]; intros from; cbn [find_note]; [discriminate|].
  destruct (String.eqb_spec name n) as [-> | Hne].
  - intros [= <-]. cbn [length]. split; [lia|]. rewrite Z.sub_diag. reflexivity.
  - intros H. destruct (IH _ H) as [Hr Hl]. cbn [length]. split; [lia|].
    replace (Z.to_nat (i - from)) with (S (Z.to_nat (i - (from + 1)))) by lia.
    exact Hl.
Qed.

Lemma find_note_None (names : list string) (name : string) (from : Z) :
  find_note names name from = None -> name ∉ names.
Proof.
  revert from. induction names as [|n rest IH]; intros from; cbn [find_note].
  - intros _ H. inversion H.
  - destruct (String.eqb_spec name n) as [-> | Hne]; [discriminate|].
    intros H Hin. apply elem_of_cons in Hin. destruct Hin as [-> | Hin]; [congruence|].
    exact (IH _ H Hin).
Qed.

Lemma find_note_first (names : list string) (name : string) (from : Z) (k : nat) :
  names !! k = Some name ->
  (forall j, (j < k)%nat -> names !! j <> Some name) ->
  find_note names name from = Some (from + Z.of_nat k).
Proof.
  revert from k. induction names as [|n rest IH]; intros from k Hk Hfirst; [discriminate|].
  cbn [find_note]. destruct k as [|k].
  - injection Hk as ->. rewrite String.eqb_refl. f_equal. lia.
  - destruct (String.eqb_spec name n) as [-> | Hne].
    + exfalso. apply (Hfirst 0%nat); [lia | reflexivity].
    + rewrite (IH (from + 1) k Hk).
      * f_equal. lia.
      * intros j Hj. apply (Hfirst (S j)). lia.
Qed.

Lemma length_to_upper (s : string) : String.length (to_upper s) = String.length s.
Proof. induction s as [|c s IH]; cbn; [reflexivity | rewrite IH; reflexivity]. Qed.

Lemma toupper_idempotent (c : ascii) : toupper (toupper c) = toupper c.
Proof. destruct c as [[] [] [] [] [] [] [] []]; reflexivity. Qed.

Lemma to_upper_idempotent (s : string) : to_upper (to_upper s) = to_upper s.
Proof.
  induction s as [|c s IH]; cbn; [reflexivity|].
  rewrite toupper_idempotent, IH. reflexivity.
Qed.

Lemma toupper_dash (c : ascii) : toupper c = "-"%char -> c = "-"%char.
Proof. destruct c as [[] [] [] [] [] [] [] []]; cbv; congruence. Qed.

Lemma to_upper_rest (s : string) : to_upper s = "---"%string -> s = "---"%string.
Proof.
  destruct s as [|c1 [|c2 [|c3 [|c4 s]]]]; cbn; try discriminate.
  intros [= H1 H2 H3]. apply toupper_dash in H1, H2, H3. congruence.
Qed.

Lemma to_upper_empty (s : string) : to_upper s = ""%string -> s = ""%string.
Proof. destruct s; cbn; [reflexivity | discriminate]. Qed.

(** The names searched are in upper case already, and short. *)
Lemma searched_names_upper : map to_upper searched_names = searched_names.
Proof. vm_compute. reflexivity. Qed.

Lemma searched_names_short :
  Forall (fun n => (String.length n <= 4)%nat /\ n <> "---"%string /\ n <> ""%string)
         searched_names.
Proof.
  apply Forall_forall. intros n Hn.
  assert (Hb : forallb (fun n => (String.length n <=? 4)%nat
                                 && negb (String.eqb n "---") && negb (String.eqb n ""))
                       searched_names = true) by (vm_compute; reflexivity).
  rewrite forallb_forall in Hb. apply list_elem_of_In in Hn. specialize (Hb n Hn).
  apply andb_true_iff in Hb. destruct Hb as [Hb H3]. apply andb_true_iff in Hb.
  destruct Hb as [H1 H2]. apply Nat.leb_le in H1.
  apply negb_true_iff in H2, H3. apply String.eqb_neq in H2, H3. auto.
Qed.

Lemma is_rest_to_upper (s : string) :
  String.eqb (to_upper s) "---" || String.eqb (to_upper s) ""
  = String.eqb s "---" || String.eqb s "".
Proof.
  destruct (String.eqb_spec s "---") as [-> | N1]; [reflexivity|].
  destruct (String.eqb_spec s "") as [-> | N2]; [reflexivity|].
  destruct (String.eqb_spec (to_upper s) "---") as [E1 | _];
    [apply to_upper_rest in E1; contradiction|].
  destruct (String.eqb_spec (to_upper s) "") as [E2 | _];
    [apply to_upper_empty in E2; contradiction|].
  reflexivity.
Qed.

End NoteNames.

Section NoteNameTheorems.

Lemma length_searched_names : length searched_names = 128%nat.
Proof. reflexivity. Qed.

Lemma note_round_trip_checked :
  forallb (fun n => match note_name_to_midi (midi_to_note_name n) with
                    | Some m => m =? n
                    | None => false
                    end) (seqZ 1 127) = true.
Proof. vm_compute. reflexivity. Qed.

(** X6.  Naming a note and reading the name back gives the note: for
    every MIDI number from 1 to 127 [note_name_to_midi] of
    [midi_to_note_name] is the number itself; every other number is
    named as a rest and read back as 0. *)
Theorem note_name_round_trip (n : Z) :
  note_name_to_midi (midi_to_note_name n)
  = Some (if (0 <? n) && (n <? TOTAL_NOTES) then n else 0).
Proof.
  destruct (Z.ltb_spec 0 n) as [Hpos | Hneg]; cbn [andb].
  - destruct (Z.ltb_spec n TOTAL_NOTES) as [Hlt | Hge].
    + pose proof note_round_trip_checked as Hall.
      rewrite forallb_forall in Hall.
      assert (Hin : In n (seqZ 1 127)).
      { apply list_elem_of_In, elem_of_seqZ. unfold TOTAL_NOTES in Hlt. lia. }
      specialize (Hall n Hin).
      destruct (note_name_to_midi (midi_to_note_name n)) as [m|]; [| discriminate].
      apply Z.eqb_eq in Hall. congruence.
    + unfold midi_to_note_name.
      replace (n >=? TOTAL_NOTES) with true by (symmetry; apply Z.geb_le; lia).
      rewrite orb_true_r. reflexivity.
  - unfold midi_to_note_name.
    replace (n <=? 0) with true by (symmetry; apply Z.leb_le; lia).
    reflexivity.
Qed.

Lemma note_name_to_midi_cases (name : string) :
  (note_name_to_midi name = None <-> (16 <= String.length name)%nat) /\
  (forall n, note_name_to_midi name = Some n -> 0 <= n <= 127).
Proof.
  unfold note_name_to_midi.
  destruct (String.eqb_spec name "---") as [-> | N1]; cbn [orb].
  { split; [split; [discriminate | cbn; lia] | intros n [= <-]; lia]. }
  destruct (String.eqb_spec name "") as [-> | N2].
  { split; [split; [discriminate | cbn; lia] | intros n [= <-]; lia]. }
  destruct (find_note searched_names name 0) as [i|] eqn:Hexact.
  - destruct (find_note_Some _ _ _ _ Hexact) as [Hr Hl].
    rewrite length_searched_names in Hr.
    apply list_elem_of_lookup_2 in Hl.
    pose proof searched_names_short as Hshort. rewrite Forall_forall in Hshort.
    destruct (Hshort _ Hl) as (Hlen & _).
    split; [split; [discriminate | lia] | intros n [= <-]; lia].
  - destruct (Nat.leb_spec 16 (String.length name)) as [Hlong | Hshort].
    + split; [split; [lia | reflexivity] | discriminate].
    + destruct (find_note (map to_upper searched_names) (to_upper name) 0) as [i|] eqn:Hup.
      * destruct (find_note_Some _ _ _ _ Hup) as [Hr _].
        rewrite length_map, length_searched_names in Hr.
        split; [split; [discriminate | lia] | intros n [= <-]; lia].
      * split; [split; [discriminate | lia] | intros n [= <-]; lia].
Qed.

(** X7.  [note_name_to_midi] overruns [upper_input] exactly for the
    names of 16 characters or more; for every shorter name it returns a
    MIDI number between 0 and 127. *)
Theorem note_name_to_midi_defined (name : string) :
  (note_name_to_midi name = None <-> (16 <= String.length name)%nat) /\
  (forall n, note_name_to_midi name = Some n -> 0 <= n <= 127).
Proof. exact (note_name_to_midi_cases name). Qed.

(** X8.  The case of the letters does not matter: a name and its
    upper-case form are read as the same note. *)
Theorem note_name_to_midi_ignores_case (name : string) :
  note_name_to_midi (to_upper name) = note_name_to_midi name.
Proof.
  unfold note_name_to_midi. rewrite is_rest_to_upper.
  destruct (String.eqb name "---" || String.eqb name ""); [reflexivity|].
  rewrite length_to_upper, to_upper_idempotent, searched_names_upper.
  pose proof searched_names_short as Hshort. rewrite Forall_forall in Hshort.
  destruct (find_note searched_names name 0) as [i|] eqn:Hexact.
  - (* an exact match is in upper case already *)
    destruct (find_note_Some _ _ _ _ Hexact) as [_ Hl].
    assert (Hfix : to_upper name = name).
    { pose proof searched_names_upper as Hu.
      apply (f_equal (fun l => l !! Z.to_nat (i - 0))) in Hu.
      rewrite list_lookup_fmap, Hl in Hu. cbn in Hu. congruence. }
    rewrite Hfix, Hexact. reflexivity.
  - destruct (find_note searched_names (to_upper name) 0) as [j|] eqn:Hup.
    + destruct (find_note_Some _ _ _ _ Hup) as [_ Hl].
      apply list_elem_of_lookup_2 in Hl. destruct (Hshort _ Hl) as (Hlen & _).
      rewrite length_to_upper in Hlen.
      replace (16 <=? String.length name)%nat with false
        by (symmetry; apply Nat.leb_gt; lia).
      reflexivity.
    + reflexivity.
Qed.

(** X9.  The table names twelve notes above G8 (MIDI 127), from G#8 to
    G9, that neither loop reaches: each of them is read as a rest. *)
Theorem notes_above_G8_are_rests :
  drop (Z.to_nat TOTAL_NOTES) NOTE_NAMES
    = ["G#8"; "A8"; "A#8"; "B8"; "C9"; "C#9"; "D9"; "D#9"; "E9"; "F9"; "F#9"; "G9"]%string /\
  Forall (fun name => note_name_to_midi name = Some 0)
         (drop (Z.to_nat TOTAL_NOTES) NOTE_NAMES).
Proof. split; [reflexivity|]. repeat constructor. Qed.

End NoteNameTheorems.


(** * The editor *)

Section Lines.

Lemma length_line_of (s : string) : (String.length (line_of s) <= String.length s)%nat.
Proof.
  induction s as [|c s IH]; cbn [line_of String.length]; [lia|].
  destruct (Ascii.eqb c "010" || Ascii.eqb c "000"); cbn [String.length]; lia.
Qed.

Lemma length_fgets_chars (n : nat) (stdin : string) :
  (String.length (fst (fgets_chars n stdin)) <= n)%nat.
Proof.
  revert stdin. induction n as [|n IH]; intros stdin; cbn [fgets_chars]; [cbn; lia|].
  destruct stdin as [|c rest]; [cbn; lia|].
  destruct (Ascii.eqb c "010"); [cbn; lia|].
  specialize (IH rest). destruct (fgets_chars n rest) as [buf left].
  cbn [fst String.length] in *. lia.
Qed.

Lemma length_fgets_line (size : nat) (stdin buf left : string) :
  fgets size stdin = Some (buf, left) ->
  (String.length (line_of buf) <= size - 1)%nat.
Proof.
  unfold fgets. destruct stdin as [|c rest]; [discriminate|].
  intros [= H]. pose proof (length_fgets_chars (size - 1) (String c rest)) as Hl.
  rewrite H in Hl. cbn [fst] in Hl. pose proof (length_line_of buf). lia.
Qed.

(** A line as the editor sees it: no newline and no NUL inside. *)
Lemma line_of_String (c : ascii) (s : string) :
  line_of (String c s) = String c s ->
  Ascii.eqb c "010" = false /\ Ascii.eqb c "000" = false /\ line_of s = s.
Proof.
  cbn [line_of]. destruct (Ascii.eqb c "010"); [discriminate|].
  destruct (Ascii.eqb c "000"); [discriminate|]. cbn [orb].
  intros [= H]. auto.
Qed.

Lemma line_of_line_nl (line rest : string) :
  line_of line = line -> line_of (line ++ nl ++ rest) = line.
Proof.
  induction line as [|c line IH]; intros Hl; [reflexivity|].
  destruct (line_of_String _ _ Hl) as (H1 & H2 & H3).
  cbn [append line_of]. rewrite H1, H2. cbn [orb]. rewrite (IH H3). reflexivity.
Qed.

(** [fgets] takes a whole line when the line fits the buffer. *)
Lemma fgets_chars_line (n : nat) (line rest : string) :
  line_of line = line -> (String.length line < n)%nat ->
  fgets_chars n (line ++ nl ++ rest) = (line ++ nl, rest)%string.
Proof.
  revert line. induction n as [|n IH]; intros line Hl Hn; [lia|].
  destruct line as [|c line]; [reflexivity|].
  destruct (line_of_String _ _ Hl) as (H1 & H2 & H3).
  cbn [append fgets_chars]. rewrite H1.
  change ((line ++ nl ++ rest)%string) with (append line (append nl rest)).
  rewrite (IH line H3) by (cbn [String.length] in Hn; lia). reflexivity.
Qed.

Lemma fgets_line (size : nat) (line rest : string) :
  line_of line = line -> (String.length line < size - 1)%nat ->
  fgets size (line ++ nl ++ rest) = Some ((line ++ nl)%string, rest).
Proof.
  intros Hl Hn. unfold fgets.
  rewrite fgets_chars_line by assumption.
  destruct line; reflexivity.
Qed.

Lemma line_of_nl (line : string) : line_of line = line -> line_of (line ++ nl) = line.
Proof.
  induction line as [|c line IH]; intros Hl; [reflexivity|].
  destruct (line_of_String _ _ Hl) as (H1 & H2 & H3).
  cbn [append line_of]. rewrite H1, H2. cbn [orb]. rewrite (IH H3). reflexivity.
Qed.

(** A line that does not fit is cut, and stays as long as the buffer
    allows. *)
Lemma fgets_chars_long (n : nat) (line rest : string) :
  line_of line = line ->
  (Nat.min n (String.length line)
   <= String.length (line_of (fst (fgets_chars n (line ++ nl ++ rest)))))%nat.
Proof.
  revert line. induction n as [|n IH]; intros line Hl; [cbn; lia|].
  destruct line as [|c line]; [cbn; lia|].
  destruct (line_of_String _ _ Hl) as (H1 & H2 & H3).
  cbn [append fgets_chars]. rewrite H1.
  specialize (IH line H3).
  change ((line ++ nl ++ rest)%string) with (append line (append nl rest)) in IH.
  destruct (fgets_chars n (append line (append nl rest))) as [buf left].
  cbn [fst line_of String.length] in *. rewrite H1, H2. cbn [orb String.length]. lia.
Qed.

End Lines.

Section EditCell.
Context {D : Type} {DA : DoubleArith D} {L : Libm D}.

(** The guard of lines 409-414 repeats the one of
    [calculate_pitch_ratio]. *)
Lemma guarded_pitch_ratio (original note : Z) :
  (if (note >? 0) && (original >? 0)
   then calculate_pitch_ratio original note else d_lit 1)
  = calculate_pitch_ratio original note.
Proof.
  unfold calculate_pitch_ratio.
  destruct (Z.gtb_spec note 0), (Z.gtb_spec original 0),
           (Z.leb_spec original 0), (Z.leb_spec note 0); cbn [andb orb];
    try reflexivity; lia.
Qed.

(** What a call that returns has done. *)
Lemma edit_cell_Some (song song' : Song D) (row channel : Z) (stdin stdin' : string) :
  edit_cell song row channel stdin = Some (song', stdin') ->
  exists (c : Cell D) (note original : Z) (sample_name : string),
    0 <= row /\ 0 <= channel /\
    cell_at song (Z.to_nat channel) (Z.to_nat row) = Some c /\
    song' = alter_cell
              (fun c => mkCell note original (get_note_duration_ms song) sample_name
                               (playing c) (calculate_pitch_ratio original note))
              (Z.to_nat channel) (Z.to_nat row) song /\
    0 <= note <= 127 /\
    (1 <= original <= 127 \/ original = 60 \/ original = original_note c) /\
    (String.length sample_name <= 63)%nat.
Proof.
  unfold edit_cell.
  destruct (Z.ltb_spec row 0) as [|Hrow]; [discriminate|].
  destruct (Z.ltb_spec channel 0) as [|Hch]; [discriminate|]. cbn [orb].
  destruct (cell_at song (Z.to_nat channel) (Z.to_nat row)) as [c|]; [|discriminate].
  destruct (fgets 64 stdin) as [[input stdin1]|]; [|discriminate].
  destruct (fgets 64 stdin1) as [[sample_buf stdin2]|] eqn:Hs; [|discriminate].
  destruct (note_name_to_midi (line_of input)) as [note|] eqn:Hnote; [|discriminate].
  pose proof (proj2 (note_name_to_midi_cases (line_of input)) note Hnote) as Hrange.
  apply length_fgets_line in Hs.
  match goal with
  | |- match ?a with _ => _ end = _ -> _ => destruct a as [[original stdin3]|] eqn:Hasked
  end; [|discriminate].
  intros [= <- <-]. rewrite guarded_pitch_ratio.
  exists c, note, original, (line_of sample_buf).
  split_ands; try assumption; try reflexivity; try lia.
  destruct ((0 <? String.length (line_of sample_buf))%nat && (note >? 0)).
  - destruct (fgets 64 stdin2) as [[orig_note_input stdin4]|]; [|discriminate].
    destruct (note_name_to_midi (line_of orig_note_input)) as [n|] eqn:Hn; [|discriminate].
    pose proof (proj2 (note_name_to_midi_cases (line_of orig_note_input)) n Hn) as Hr.
    injection Hasked as <- _. destruct (Z.leb_spec n 0); [right; left; reflexivity | left; lia].
  - destruct ((String.length (line_of sample_buf) =? 0)%nat
              && (0 <? String.length (sample c))%nat).
    + injection Hasked as <- _. right; right; reflexivity.
    + injection Hasked as <- _.
      destruct (0 <? String.length (sample c))%nat; [right; right | right; left]; reflexivity.
Qed.

End EditCell.

Section EditCellTheorems.
Context {D : Type} {DA : DoubleArith D} {L : Libm D}.

(** X10.  A call of [edit_cell] that returns has changed the cell under
    the cursor and nothing else: the header of the song and every other
    cell are as before.  The cell gets a note in 0..127, the row
    duration of the song, a sample name that fits its 64 bytes, and the
    pitch ratio of its two notes; [playing] is not touched, and the
    original note is one typed (1..127), the default 60, or the one the
    cell had. *)
Theorem edit_cell_changes_one_cell (song song' : Song D) (row channel : Z)
    (stdin stdin' : string) :
  edit_cell song row channel stdin = Some (song', stdin') ->
  (num_channels song' = num_channels song /\ num_rows song' = num_rows song /\
   bpm song' = bpm song /\ loop_start song' = loop_start song /\
   loop_end song' = loop_end song /\ loop_enabled song' = loop_enabled song) /\
  (forall ch r : nat,
     ch <> Z.to_nat channel \/ r <> Z.to_nat row ->
     cell_at song' ch r = cell_at song ch r) /\
  exists c c' : Cell D,
    cell_at song (Z.to_nat channel) (Z.to_nat row) = Some c /\
    cell_at song' (Z.to_nat channel) (Z.to_nat row) = Some c' /\
    0 <= note c' <= 127 /\
    duration_ms c' = get_note_duration_ms song /\
    (String.length (sample c') <= 63)%nat /\
    playing c' = playing c /\
    pitch_ratio c' = calculate_pitch_ratio (original_note c') (note c') /\
    (1 <= original_note c' <= 127 \/ original_note c' = 60 \/
     original_note c' = original_note c).
Proof.
  intros H.
  destruct (edit_cell_Some _ _ _ _ _ _ H)
    as (c & n & o & s & Hrow & Hch & Hc & -> & Hn & Ho & Hs).
  split; [split_ands; reflexivity|]. split.
  - intros ch r Hne. rewrite cell_at_alter_cell.
    rewrite decide_False by tauto. reflexivity.
  - eexists c, _. split; [exact Hc|]. split.
    + rewrite cell_at_alter_cell, decide_True by auto. rewrite Hc. reflexivity.
    + cbn [note duration_ms sample playing pitch_ratio original_note].
      split_ands; try reflexivity; try lia; assumption.
Qed.

(** X12.  A note of 16 characters or more typed at the first prompt of
    [edit_cell] reaches the [strcpy] of [note_name_to_midi] and overruns
    its 16 bytes.  With a cell under the cursor, a note line of 16 to 62
    characters and a sample line of at most 62, each ended by its
    newline: the two calls of [fgets] store the two lines, the note
    line reaches [note_name_to_midi] whole, which copies it into its 16
    bytes, and the behaviour of the call is undefined, whatever follows
    in the input. *)
Theorem edit_cell_long_note_overruns (song : Song D) (row channel : Z) (c : Cell D)
    (typed sample_line rest : string) :
  0 <= row -> 0 <= channel ->
  cell_at song (Z.to_nat channel) (Z.to_nat row) = Some c ->
  line_of typed = typed -> line_of sample_line = sample_line ->
  (16 <= String.length typed <= 62)%nat -> (String.length sample_line <= 62)%nat ->
  fgets 64 (typed ++ nl ++ sample_line ++ nl ++ rest)
    = Some ((typed ++ nl)%string, (sample_line ++ nl ++ rest)%string) /\
  fgets 64 (sample_line ++ nl ++ rest) = Some ((sample_line ++ nl)%string, rest) /\
  line_of (typed ++ nl) = typed /\
  note_name_to_midi typed = None /\
  edit_cell song row channel (typed ++ nl ++ sample_line ++ nl ++ rest) = None.
Proof.
  intros Hrow Hch Hc Hline Hsline Hlen Hslen.
  assert (Hf1 : fgets 64 (typed ++ nl ++ sample_line ++ nl ++ rest)
                = Some ((typed ++ nl)%string, (sample_line ++ nl ++ rest)%string))
    by (apply fgets_line; [exact Hline | cbn; lia]).
  assert (Hf2 : fgets 64 (sample_line ++ nl ++ rest)
                = Some ((sample_line ++ nl)%string, rest))
    by (apply fgets_line; [exact Hsline | cbn; lia]).
  assert (Hover : note_name_to_midi typed = None)
    by (apply (proj1 (note_name_to_midi_cases typed)); lia).
  split; [exact Hf1|]. split; [exact Hf2|].
  split; [apply line_of_nl; exact Hline|]. split; [exact Hover|].
  unfold edit_cell.
  destruct (Z.ltb_spec row 0) as [|_]; [lia|].
  destruct (Z.ltb_spec channel 0) as [|_]; [lia|]. cbn [orb].
  rewrite Hc, Hf1, Hf2, (line_of_nl typed Hline), Hover. reflexivity.
Qed.

(** X13.  What [edit_cell] stores for the lines typed.  With a note
    line and, if asked for, an original note line shorter than 16
    characters and a sample line shorter than 63, the call returns; the
    cell gets the note and the sample name typed; the third line is
    read only when a sample name was typed for a note that is not a
    rest, and then gives the original note (60 when it names no note);
    otherwise the original note is the one of the cell when the cell
    had a sample, and 60 when it had none. *)
Theorem edit_cell_stores_typed_lines (song : Song D) (row channel : Z) (c : Cell D)
    (note_line sample_line orig_line rest : string) :
  0 <= row -> 0 <= channel ->
  cell_at song (Z.to_nat channel) (Z.to_nat row) = Some c ->
  line_of note_line = note_line -> line_of sample_line = sample_line ->
  line_of orig_line = orig_line ->
  (String.length note_line < 16)%nat -> (String.length sample_line < 63)%nat ->
  (String.length orig_line < 16)%nat ->
  exists (song' : Song D) (c' : Cell D) (typed_note typed_original : Z),
    note_name_to_midi note_line = Some typed_note /\
    note_name_to_midi orig_line = Some typed_original /\
    let asked := (0 <? String.length sample_line)%nat && (typed_note >? 0) in
    edit_cell song row channel
      (note_line ++ nl ++ sample_line ++ nl ++ orig_line ++ nl ++ rest)
    = Some (song', if asked then rest else (orig_line ++ nl ++ rest)%string) /\
    cell_at song' (Z.to_nat channel) (Z.to_nat row) = Some c' /\
    note c' = typed_note /\ sample c' = sample_line /\
    original_note c' =
      (if asked then (if typed_original <=? 0 then 60 else typed_original)
       else if (0 <? String.length (sample c))%nat then original_note c else 60).
Proof.
  intros Hrow Hch Hc Hl1 Hl2 Hl3 Hn1 Hn2 Hn3.
  destruct (note_name_to_midi note_line) as [n|] eqn:En;
    [| apply (proj1 (note_name_to_midi_cases note_line)) in En; lia].
  destruct (note_name_to_midi orig_line) as [o|] eqn:Eo;
    [| apply (proj1 (note_name_to_midi_cases orig_line)) in Eo; lia].
  unfold edit_cell.
  destruct (Z.ltb_spec row 0) as [|_]; [lia|].
  destruct (Z.ltb_spec channel 0) as [|_]; [lia|]. cbn [orb]. rewrite Hc.
  rewrite (fgets_line 64 note_line) by (cbn; try assumption; lia).
  rewrite (fgets_line 64 sample_line) by (cbn; try assumption; lia).
  rewrite !line_of_nl by assumption. rewrite En.
  destruct ((0 <? String.length sample_line)%nat && (n >? 0)) eqn:Easked.
  - rewrite (fgets_line 64 orig_line) by (cbn; try assumption; lia).
    rewrite line_of_nl by assumption. rewrite Eo.
    eexists _, _, n, o. split; [reflexivity|]. split; [reflexivity|].
    cbv zeta. rewrite Easked. split; [reflexivity|]. split.
    + rewrite cell_at_alter_cell, decide_True by auto. rewrite Hc. reflexivity.
    + split_ands; reflexivity.
  - destruct ((String.length sample_line =? 0)%nat && (0 <? String.length (sample c))%nat)
      eqn:Ekeep.
    + eexists _, _, n, o. split; [reflexivity|]. split; [reflexivity|].
      cbv zeta. rewrite Easked.
      split; [reflexivity|]. split.
      * rewrite cell_at_alter_cell, decide_True by auto. rewrite Hc. reflexivity.
      * cbn [note sample original_note]. split_ands; try reflexivity.
        apply andb_true_iff in Ekeep. destruct Ekeep as [_ ->]. reflexivity.
    + eexists _, _, n, o. split; [reflexivity|]. split; [reflexivity|].
      cbv zeta. rewrite Easked.
      split; [reflexivity|]. split.
      * rewrite cell_at_alter_cell, decide_True by auto. rewrite Hc. reflexivity.
      * split_ands; reflexivity.
Qed.

End EditCellTheorems.

Lemma edit_cell_changes_one_cell_witness :
  exists (song' : Song float) (stdin' : string),
    edit_cell (DA := binary64) (L := square_libm) initial_song 3 2
      ("c#4" ++ nl ++ "kick.wav" ++ nl ++ nl)
    = Some (song', stdin') /\
    bpm song' = bpm (initial_song (DA := binary64)) /\
    forall ch r : nat,
      ch <> Z.to_nat 2 \/ r <> Z.to_nat 3 ->
      cell_at song' ch r = cell_at (initial_song (DA := binary64)) ch r.
Proof.
  destruct (edit_cell (DA := binary64) (L := square_libm) initial_song 3 2
              ("c#4" ++ nl ++ "kick.wav" ++ nl ++ nl)) as [[song' stdin']|] eqn:E;
    [| vm_compute in E; discriminate].
  exists song', stdin'. split; [reflexivity|].
  destruct (edit_cell_changes_one_cell _ _ _ _ _ _ E) as ((_ & _ & Hbpm & _) & Hframe & _).
  split; [exact Hbpm | exact Hframe].
Defined.

Lemma edit_cell_long_note_overruns_witness :
  fgets 64 ("C4 with vibrato, please" ++ nl ++ "" ++ nl ++ "")
    = Some (("C4 with vibrato, please" ++ nl)%string, ("" ++ nl ++ "")%string) /\
  fgets 64 ("" ++ nl ++ "") = Some (("" ++ nl)%string, ""%string) /\
  note_name_to_midi "C4 with vibrato, please" = None /\
  edit_cell (DA := binary64) (L := square_libm) initial_song 0 0
    ("C4 with vibrato, please" ++ nl ++ "" ++ nl ++ "") = None /\
  is_Some (edit_cell (DA := binary64) (L := square_libm) initial_song 0 0
             ("C4" ++ nl ++ "" ++ nl ++ "")).
Proof.
  destruct (edit_cell_long_note_overruns (DA := binary64) (L := square_libm)
              initial_song 0 0 initial_cell "C4 with vibrato, please" "" "")
    as (Hf1 & Hf2 & _ & Hover & Hcall);
    try reflexivity; try lia; try (cbn; lia).
  split; [exact Hf1|]. split; [exact Hf2|]. split; [exact Hover|].
  split; [exact Hcall|]. vm_compute. eauto.
Defined.

Lemma edit_cell_stores_typed_lines_witness :
  exists (song' : Song float) (c' : Cell float),
    edit_cell (DA := binary64) (L := square_libm) initial_song 3 2
      ("c#4" ++ nl ++ "kick.wav" ++ nl ++ "C3" ++ nl ++ "p")
    = Some (song', "p"%string) /\
    cell_at song' 2 3 = Some c' /\
    note c' = 73 /\ sample c' = "kick.wav"%string /\ original_note c' = 60.
Proof.
  destruct (edit_cell_stores_typed_lines (DA := binary64) (L := square_libm)
              initial_song 3 2 initial_cell "c#4" "kick.wav" "C3" "p")
    as (song' & c' & n & o & Hn & Ho & Hcall & Hcell & Hnote & Hsample & Horig);
    try reflexivity; try lia; try (cbn; lia).
  assert (n = 73) as -> by (vm_compute in Hn; congruence).
  assert (o = 60) as -> by (vm_compute in Ho; congruence).
  exists song', c'. split; [exact Hcall|]. split; [exact Hcell|].
  split; [exact Hnote|]. split; [exact Hsample|]. exact Horig.
Defined.

(** X11.  The stored pitch ratio of every cell is the ratio of its two
    notes: this holds for the song [main] starts with and is kept by
    [edit_cell], [change_bpm] and [set_loop], whenever the call
    returns. *)
Theorem editor_keeps_pitch_ratios {D : Type} {DA : DoubleArith D} {L : Libm D} :
  ratios_consistent (initial_song (D := D)) /\
  forall song : Song D, ratios_consistent song ->
    (forall (row channel : Z) (stdin stdin' : string) (song' : Song D),
       edit_cell song row channel stdin = Some (song', stdin') ->
       ratios_consistent song') /\
    (forall (new_bpm : Z) (song' : Song D),
       change_bpm new_bpm song = Some song' -> ratios_consistent song') /\
    (forall (choice : ascii) (start end_ : Z),
       ratios_consistent (set_loop choice start end_ song)).
Proof.
  split.
  - intros ch row c Hc. unfold cell_at, initial_song in Hc. cbn [channels] in Hc.
    destruct (replicate (Z.to_nat MAX_CHANNELS) _ !! ch) as [t|] eqn:Et; [|discriminate].
    apply lookup_replicate in Et. destruct Et as [-> _]. cbn [cells] in Hc.
    apply lookup_replicate in Hc. destruct Hc as [-> _]. reflexivity.
  - intros song Hinv. split; [| split].
    + intros row channel stdin stdin' song' H ch r c' Hc'.
      destruct (edit_cell_Some _ _ _ _ _ _ H) as (c & n & o & s & _ & _ & Hc & -> & _).
      rewrite cell_at_alter_cell in Hc'.
      destruct (decide (ch = Z.to_nat channel /\ r = Z.to_nat row)) as [[-> ->]|Hne].
      * rewrite Hc in Hc'. injection Hc' as <-. reflexivity.
      * exact (Hinv _ _ _ Hc').
    + intros new_bpm song' Hsome ch r c' Hc'.
      destruct (Z_lt_le_dec new_bpm 20) as [Hlo|Hlo];
        [rewrite change_bpm_rejected in Hsome by lia; injection Hsome as <-;
         exact (Hinv _ _ _ Hc')|].
      destruct (Z_lt_le_dec 300 new_bpm) as [Hhi|Hhi];
        [rewrite change_bpm_rejected in Hsome by lia; injection Hsome as <-;
         exact (Hinv _ _ _ Hc')|].
      pose proof (change_bpm_accepted new_bpm song ltac:(lia)) as Hacc.
      rewrite Hsome in Hacc. destruct Hacc as (_ & _ & _ & _ & _ & _ & Hcells).
      rewrite Hcells in Hc'.
      change (cell_at (set_bpm new_bpm song) ch r) with (cell_at song ch r) in Hc'.
      destruct (decide _) in Hc'; [| exact (Hinv _ _ _ Hc')].
      destruct (cell_at song ch r) as [c|] eqn:Hc; [|discriminate].
      injection Hc' as <-. exact (Hinv _ _ _ Hc).
    + intros choice start end_ ch r c' Hc'. apply (Hinv ch r).
      rewrite <- Hc'. unfold set_loop.
      repeat match goal with
             | |- context [if ?b then _ else _] => destruct b
             end; reflexivity.
Qed.

(** ** The cursor of [main] *)

Section Cursor.
Context {D : Type}.
Variable song : Song D.
Hypothesis rows_int : is_int (num_rows song).
Hypothesis channels_int : is_int (num_channels song).

Lemma move_cursor_in_grid (c : ascii) (cursor : Z * Z) :
  0 <= fst cursor < num_rows song -> 0 <= snd cursor < num_channels song ->
  0 <= fst (move_cursor song c cursor) < num_rows song /\
  0 <= snd (move_cursor song c cursor) < num_channels song.
Proof.
  destruct cursor as [r ch]. cbn [fst snd]. intros Hr Hch. unfold move_cursor.
  unfold is_int, INT_MIN, INT_MAX in *.
  rewrite !(wrap_int_small (num_rows song - 1)),
          !(wrap_int_small (num_channels song - 1)),
          !(wrap_int_small (r - 1)), !(wrap_int_small (r + 1)),
          !(wrap_int_small (ch - 1)), !(wrap_int_small (ch + 1))
    by (unfold is_int, INT_MIN, INT_MAX; lia).
  repeat match goal with
         | |- context [if Ascii.eqb ?a ?b then _ else _] => destruct (Ascii.eqb a b)
         | |- context [?a <? ?b] => destruct (Z.ltb_spec a b)
         end; cbn [fst snd]; lia.
Qed.

Lemma move_down (r ch : Z) :
  0 <= r -> r + 1 < num_rows song ->
  move_cursor song "s" (r, ch) = (r + 1, ch).
Proof.
  intros H0 H1. unfold move_cursor, is_int, INT_MIN, INT_MAX in *. cbn [Ascii.eqb Bool.eqb].
  rewrite !wrap_int_small by (unfold is_int, INT_MIN, INT_MAX; lia).
  destruct (Z.ltb_spec r (num_rows song - 1)); [reflexivity | lia].
Qed.

Lemma move_right (r ch : Z) :
  0 <= ch -> ch + 1 < num_channels song ->
  move_cursor song "d" (r, ch) = (r, ch + 1).
Proof.
  intros H0 H1. unfold move_cursor, is_int, INT_MIN, INT_MAX in *. cbn [Ascii.eqb Bool.eqb].
  rewrite !wrap_int_small by (unfold is_int, INT_MIN, INT_MAX; lia).
  destruct (Z.ltb_spec ch (num_channels song - 1)); [reflexivity | lia].
Qed.

Lemma moves_down (n : nat) (r ch : Z) :
  0 <= r -> r + Z.of_nat n < num_rows song ->
  fold_left (fun cursor c => move_cursor song c cursor) (replicate n "s"%char) (r, ch)
  = (r + Z.of_nat n, ch).
Proof.
  revert r. induction n as [|n IH]; intros r H0 H1; cbn [replicate fold_left].
  - f_equal. lia.
  - rewrite move_down by lia. rewrite IH by lia. f_equal. lia.
Qed.

Lemma moves_right (n : nat) (r ch : Z) :
  0 <= ch -> ch + Z.of_nat n < num_channels song ->
  fold_left (fun cursor c => move_cursor song c cursor) (replicate n "d"%char) (r, ch)
  = (r, ch + Z.of_nat n).
Proof.
  revert ch. induction n as [|n IH]; intros ch H0 H1; cbn [replicate fold_left].
  - f_equal. lia.
  - rewrite move_right by lia. rewrite IH by lia. f_equal. lia.
Qed.

End Cursor.

(** X14.  The cursor keys of [main] never take the cursor out of the
    pattern, whatever is typed, so the cell [edit_cell] is called for
    is a cell of the pattern; and every cell of the pattern can be
    reached from the top left corner, with [s] and [d]. *)
Theorem cursor_stays_in_pattern {D : Type} (song : Song D) (keys : list ascii)
    (cursor : Z * Z) :
  is_int (num_rows song) -> is_int (num_channels song) ->
  0 <= fst cursor < num_rows song -> 0 <= snd cursor < num_channels song ->
  let moved := fold_left (fun cursor c => move_cursor song c cursor) keys cursor in
  (0 <= fst moved < num_rows song /\ 0 <= snd moved < num_channels song) /\
  forall row channel : Z,
    0 <= row < num_rows song -> 0 <= channel < num_channels song ->
    fold_left (fun cursor c => move_cursor song c cursor)
      (replicate (Z.to_nat row) "s"%char ++ replicate (Z.to_nat channel) "d"%char) (0, 0)
    = (row, channel).
Proof.
  intros Hri Hci Hr Hc. cbv zeta. split.
  - revert cursor Hr Hc. induction keys as [|k keys IH]; intros cursor Hr Hc;
      cbn [fold_left]; [tauto|].
    destruct (move_cursor_in_grid song Hri Hci k cursor Hr Hc). apply IH; assumption.
  - intros row channel Hrow Hch. rewrite fold_left_app.
    rewrite (moves_down song Hri) by lia. rewrite (moves_right song Hci) by lia.
    f_equal; lia.
Qed.

Lemma cursor_stays_in_pattern_witness :
  0 <= fst (fold_left (fun cursor c => move_cursor (initial_song (DA := binary64)) c cursor)
              (list_ascii_of_string "ssssssssssssssssssssddddddddddddw") (0, 0))
    < num_rows (initial_song (DA := binary64)) /\
  0 <= snd (fold_left (fun cursor c => move_cursor (initial_song (DA := binary64)) c cursor)
              (list_ascii_of_string "ssssssssssssssssssssddddddddddddw") (0, 0))
    < num_channels (initial_song (DA := binary64)).
Proof.
  apply (cursor_stays_in_pattern (initial_song (DA := binary64))
           (list_ascii_of_string "ssssssssssssssssssssddddddddddddw") (0, 0)).
  - unfold is_int, INT_MIN, INT_MAX. change (num_rows initial_song) with 16. lia.
  - unfold is_int, INT_MIN, INT_MAX. change (num_channels initial_song) with 8. lia.
  - change (num_rows initial_song) with 16. cbn [fst]. lia.
  - change (num_channels initial_song) with 8. cbn [snd]. lia.
Defined.


(** * The voices and the export never leave their buffers (binary64) *)

Section Binary64Safety.
Context {P : Platform} {L : Libm float}.

(** What [Mix_LoadWAV] hands over: 16-bit samples, [alen / 2] of them
    with [alen] a [Uint32]. *)
Hypothesis chunks_s16 :
  forall (name : string) (abuf : list Z),
    Mix_LoadWAV name = Some abuf ->
    Forall is_s16 abuf /\ Z.of_nat (length abuf) < 2 ^ 31.

Lemma b64_shift_in_bounds (name : string) (abuf : list Z) (ratio : float) :
  Mix_LoadWAV name = Some abuf ->
  shifted (pitch_shift_sample abuf ratio) <> OutOfBounds.
Proof.
  intros Hload. destruct (chunks_s16 _ _ Hload) as [Hs Hl].
  destruct (b64_pitch_shift_sample_spec abuf ratio Hs ltac:(lia)) as [H _]. exact H.
Qed.

Lemma length_pan_loop (ch count : Z) (sample_at : nat -> Z) (row_buffer : list Z) :
  length (pan_loop ch count sample_at row_buffer) = length row_buffer.
Proof.
  unfold pan_loop. rewrite for_loop_of_nat.
  apply (for_loop_invariant (fun (i : nat) rb => length rb = length row_buffer)).
  - reflexivity.
  - intros i rb _ Hl. rewrite pan_into_row_slot, length_insert. exact Hl.
Qed.

Lemma sample_voice_row_defined (ch : Z) (c : Cell float) (row_samples : Z)
    (row_buffer : list Z) :
  exists row_buffer' : list Z,
    sample_voice_row ch c row_samples row_buffer = Some row_buffer' /\
    length row_buffer' = length row_buffer.
Proof.
  unfold sample_voice_row.
  destruct (Mix_LoadWAV (sample c)) as [abuf|] eqn:Hload; [| eauto].
  destruct (d_lt d_0_001 (d_fabs (d_sub (pitch_ratio c) (d_lit 1)))).
  - pose proof (b64_shift_in_bounds _ _ (pitch_ratio c) Hload) as Hin.
    destruct (shifted (pitch_shift_sample abuf (pitch_ratio c))); [| eauto | contradiction].
    eexists. split; [reflexivity | apply length_pan_loop].
  - cbn [shifted]. destruct (malloc_ok _); [| eauto].
    eexists. split; [reflexivity | apply length_pan_loop].
Qed.

(** One channel of a row that lies inside the main buffer. *)
Lemma render_channel_defined (song : Song float) (actual_row start_sample row_samples : Z)
    (ch : nat) (audio : list Z) :
  0 <= actual_row -> is_Some (cell_at song ch (Z.to_nat actual_row)) ->
  0 <= start_sample -> 0 <= row_samples -> row_samples * 2 < 2 ^ 32 ->
  (start_sample + row_samples) * 2 <= Z.of_nat (length audio) < 2 ^ 32 ->
  is_Some (render_channel song actual_row start_sample row_samples ch audio).
Proof.
  intros Hrow [c Hc] Hstart Hrs Hrs32 Hmain. unfold render_channel.
  destruct (Z.ltb_spec actual_row 0) as [|_]; [lia|]. rewrite Hc.
  destruct (note c >? 0); [| eauto].
  destruct (malloc_ok _); [| eauto].
  rewrite (wrap_u32_small (row_samples * 2)) by lia.
  set (rb0 := replicate (Z.to_nat (row_samples * 2)) 0).
  assert (Hl0 : length rb0 = Z.to_nat (row_samples * 2)) by apply length_replicate.
  assert (Hrb : exists rb : list Z,
            (if (0 <? String.length (sample c))%nat
             then sample_voice_row (Z.of_nat ch) c row_samples rb0
             else Some (tone_voice_row (Z.of_nat ch) c row_samples rb0)) = Some rb /\
            length rb = length rb0).
  { destruct (0 <? String.length (sample c))%nat.
    - apply sample_voice_row_defined.
    - eexists. split; [reflexivity | apply length_pan_loop]. }
  destruct Hrb as (rb & -> & Hl).
  destruct (mix_row_into_main_mixed start_sample row_samples rb audio)
    as (after & -> & _); [lia | lia | lia | rewrite Hl, Hl0; lia |].
  eauto.
Qed.

Lemma render_channels_defined (song : Song float) (actual_row start_sample row_samples : Z)
    (chs : list nat) (audio : list Z) :
  0 <= actual_row ->
  Forall (fun ch => is_Some (cell_at song ch (Z.to_nat actual_row))) chs ->
  0 <= start_sample -> 0 <= row_samples -> row_samples * 2 < 2 ^ 32 ->
  (start_sample + row_samples) * 2 <= Z.of_nat (length audio) < 2 ^ 32 ->
  is_Some (render_channels song actual_row start_sample row_samples chs audio).
Proof.
  intros Hrow Hchs Hstart Hrs Hrs32. revert audio.
  induction Hchs as [|ch chs Hch _ IH]; intros audio Hmain; cbn [render_channels];
    [eauto|].
  destruct (render_channel_defined song actual_row start_sample row_samples ch audio
              Hrow Hch Hstart Hrs Hrs32 Hmain) as [audio1 E].
  rewrite E. apply IH.
  destruct (render_channel_keeps _ _ _ _ _ _ _ E) as [-> _]. exact Hmain.
Qed.

Section Song.
Variable song : Song float.
Hypothesis limits : song_in_limits song.
Hypothesis grid :
  forall ch row : nat,
    Z.of_nat ch < num_channels song -> Z.of_nat row < num_rows song ->
    is_Some (cell_at song ch row).

Lemma render_row_defined (current_row : Z) (st : render_state) :
  0 <= current_row < total_rows song -> 0 < num_rows song ->
  Z.of_nat (length (rs_audio_buffer st)) = total_samples song * 2 ->
  is_Some (render_row song (get_note_duration_ms song) current_row st).
Proof.
  intros Hrow Hrows Hlen. unfold render_row.
  destruct (rs_left_loop st); [eauto|].
  destruct (Z.eqb_spec (num_rows song) 0) as [|_]; [lia|].
  set (wraps := negb (loop_enabled song =? 0)
                && (Z.rem current_row (num_rows song) >? loop_end song)).
  set (actual_row := if wraps then loop_start song
                     else Z.rem current_row (num_rows song)).
  assert (Hactual : 0 <= actual_row < num_rows song).
  { unfold actual_row. destruct wraps eqn:Hw.
    - unfold wraps in Hw. apply andb_true_iff in Hw. destruct Hw as [Hon _].
      destruct limits as (_ & _ & Hwin).
      destruct (Z.eqb_spec (loop_enabled song) 0) as [|Hon']; [discriminate|].
      specialize (Hwin Hon'). lia.
    - pose proof (Z.rem_bound_pos current_row (num_rows song) ltac:(lia) Hrows). lia. }
  destruct (wraps && _); [eauto|].
  destruct (row_lies_in_main_buffer song limits current_row Hrow) as [Hfit _].
  destruct (total_samples_exact song limits) as [_ Hts].
  match goal with
  | |- context [render_channels song actual_row ?s ?r ?chs ?a] =>
      destruct (render_channels_defined song actual_row s r chs a) as [audio ->]
  end; try (apply Z.mod_pos_bound; lia); [lia | | | lia | eauto].
  - apply Forall_forall. intros ch Hch. apply elem_of_seq in Hch.
    apply grid; lia.
  - match goal with
    | |- ?r * 2 < _ =>
        assert (0 <= r) by (apply Z.mod_pos_bound; lia)
    end.
    match type of Hfit with
    | ?s + _ <= _ => assert (0 <= s) by (apply Z.mod_pos_bound; lia)
    end.
    lia.
Qed.

Lemma render_rows_defined (rows : list Z) (st : render_state) :
  Forall (fun current_row => 0 <= current_row < total_rows song) rows ->
  rows = [] \/ 0 < num_rows song ->
  Z.of_nat (length (rs_audio_buffer st)) = total_samples song * 2 ->
  is_Some (render_rows song (get_note_duration_ms song) rows st).
Proof.
  intros Hrows Hany. revert st.
  induction Hrows as [|row rows Hrow _ IH]; intros st Hlen; cbn [render_rows]; [eauto|].
  destruct Hany as [|Hpos]; [discriminate|].
  destruct (render_row_defined row st Hrow Hpos Hlen) as [st1 E]. rewrite E.
  apply IH; [right; exact Hpos|].
  destruct (render_row_keeps _ _ _ _ _ E) as [-> _]. exact Hlen.
Qed.

Lemma save_song_to_wav_defined (filename : string) :
  exists e : wav_export,
    save_song_to_wav song filename = Some e /\
    returned e =
      if malloc_ok (wrap_u32 (total_samples song * 2) * 2)
         && SDL_Init_ok && Mix_OpenAudio_ok && fopen_ok filename
      then 1 else 0.
Proof.
  unfold save_song_to_wav. cbv zeta.
  destruct (malloc_ok _); cbn [negb andb]; [| eauto].
  destruct SDL_Init_ok; cbn [negb andb]; [| eauto].
  destruct Mix_OpenAudio_ok; cbn [negb andb]; [| eauto].
  destruct (total_samples_exact song limits) as [_ Hts].
  match goal with
  | |- context [render_rows song ?d ?rows ?st] =>
      destruct (render_rows_defined rows st) as [st' ->]
  end.
  - apply Forall_forall. intros row Hrow. apply elem_of_seqZ in Hrow. lia.
  - destruct limits as (Hr & _ & Hwin).
    destruct (Z.eq_dec (num_rows song) 0) as [H0|]; [| right; lia].
    left. unfold total_rows.
    destruct (Z.eqb_spec (loop_enabled song) 0) as [Hoff|Hon]; cbn [negb andb].
    + rewrite H0. reflexivity.
    + specialize (Hwin Hon). lia.
  - cbn [rs_audio_buffer]. rewrite length_replicate, wrap_u32_small by lia. lia.
  - destruct (fopen_ok filename); cbn [negb]; eauto.
Qed.

End Song.

(** [(int)x] in binary64, for a value that fits. *)
Lemma b64_int_of_double (x : float) :
  b64_finite x = true ->
  (- (2147483649) < B2Q x)%Q -> (B2Q x < 2147483648)%Q ->
  int_of_double x = Some (b64_to_int x).
Proof.
  intros Hf Hlo Hhi. unfold int_of_double. cbn [d_lt d_to_int binary64].
  unfold d_lit. cbn [d_of_int binary64].
  destruct (b64_of_int_spec (INT_MIN - 1)) as (Hf1 & Hv1 & _);
    [unfold INT_MIN; lia|].
  destruct (b64_of_int_spec (INT_MAX + 1)) as (Hf2 & Hv2 & _);
    [unfold INT_MAX; lia|].
  assert (L1 : (b64_of_int (INT_MIN - 1) <? x)%float = true).
  { apply (b64_ltb_value _ _ Hf1 Hf). rewrite Hv1. exact Hlo. }
  assert (L2 : (x <? b64_of_int (INT_MAX + 1))%float = true).
  { apply (b64_ltb_value _ _ Hf Hf2). rewrite Hv2. exact Hhi. }
  rewrite L1, L2. reflexivity.
Qed.

(** [duration_ms / pitch_ratio] fits an [int] for a duration of at most
    2^19 ms and a ratio of at least 2^-11. *)
Lemma b64_play_duration (duration_ms : Z) (ratio : float) :
  Z.abs duration_ms <= 2 ^ 19 -> b64_finite ratio = true ->
  (1 # 2048 <= Qabs (B2Q ratio))%Q ->
  is_Some (int_of_double (b64_of_int duration_ms / ratio)%float).
Proof.
  intros Hd Hf Hr.
  destruct (b64_of_int_spec duration_ms) as (Hfd & Hvd & _); [lia|].
  assert (Hfin : exists s m e, Prim2SF ratio = S754_finite s m e).
  { unfold b64_finite, B2Q in *.
    destruct (Prim2SF ratio) as [s| | |s m e]; try discriminate; [| eauto].
    exfalso. cbn [SF2Q] in Hr. revert Hr. vm_compute. intros H. apply H. reflexivity. }
  destruct Hfin as (s & m & e & Hrs).
  set (v := (inject_Z duration_ms / B2Q ratio)%Q).
  assert (Hr0 : (0 < Qabs (B2Q ratio))%Q) by lra.
  assert (Hdq : (Qabs (inject_Z duration_ms) <= 524288)%Q).
  { change (Qabs (inject_Z duration_ms)) with (inject_Z (Z.abs duration_ms)).
    change 524288%Q with (inject_Z (2 ^ 19)).
    rewrite <- Zle_Qle. exact Hd. }
  assert (Hv : (Qabs v <= 1073741824)%Q).
  { unfold v, Qdiv. rewrite Qabs_Qmult, Qabs_Qinv.
    apply Qle_shift_div_r; [exact Hr0|].
    assert (H1 : (1073741824 * (1 # 2048) <= 1073741824 * Qabs (B2Q ratio))%Q)
      by (apply Qmult_le_l; [reflexivity | exact Hr]).
    lra. }
  apply Qabs_Qle_condition in Hv. destruct Hv as [Hvl Hvu].
  assert (Hround : b64_rounded (b64_of_int duration_ms / ratio)%float v).
  { assert (E : (B2Q (b64_of_int duration_ms) / B2Q ratio == v)%Q)
      by (unfold v; rewrite Hvd; reflexivity).
    eapply b64_rounded_comp; [exact E|].
    apply (b64_div_correct _ _ s m e Hfd Hrs).
    rewrite E. apply (b64_no_overflow _ 1073741824); lra. }
  destruct (b64_rounded_err _ v 1073741824 1 Hround) as (Hqf & Hql & Hqu);
    [lra | lra | vm_compute; discriminate |].
  rewrite b64_int_of_double; [eauto | exact Hqf | lra | lra].
Qed.

Lemma play_sample_thread_defined (data : SampleThreadData float) :
  Z.abs (sd_duration_ms data) <= 2 ^ 19 ->
  b64_finite (sd_pitch_ratio data) = true ->
  (1 # 2048 <= Qabs (B2Q (sd_pitch_ratio data)))%Q ->
  is_Some (play_sample_thread data).
Proof.
  intros Hd Hf Hr. unfold play_sample_thread.
  destruct ((String.length (sd_filename data) =? 0)%nat || (sd_active data =? 0)); [eauto|].
  destruct (Mix_LoadWAV (sd_filename data)) as [abuf|] eqn:Hload; [| eauto].
  destruct (b64_play_duration _ _ Hd Hf Hr) as [play_duration Hplay].
  cbn [d_div d_of_int binary64]. rewrite Hplay. cbn [mbind option_bind].
  destruct (d_lt d_0_001 (d_fabs (d_sub (sd_pitch_ratio data) (d_lit 1)))); [| eauto].
  pose proof (b64_shift_in_bounds _ _ (sd_pitch_ratio data) Hload) as Hin.
  destruct (shifted (pitch_shift_sample abuf (sd_pitch_ratio data))) as [out| |];
    [| eauto | contradiction].
  destruct (Mix_QuickLoad_RAW_ok out); eauto.
Qed.

End Binary64Safety.

(** X15.  In binary64, [save_song_to_wav] is free of the undefined
    behaviour it could have, for every song within the limits of the
    editor whose num_channels x num_rows cells are cells of the arrays,
    on a platform whose chunks are 16-bit samples: no cell is read
    outside the arrays, no remainder is taken by zero, the resampler
    stays inside its chunk, and every row is mixed into entries of the
    main buffer that were allocated.  The value returned is 1 exactly
    when the allocation of the main buffer, SDL, the mixer and the
    output file all succeed. *)
Theorem export_is_defined {P : Platform} {L : Libm float} (song : Song float)
    (filename : string) :
  (forall (name : string) (abuf : list Z),
     Mix_LoadWAV name = Some abuf ->
     Forall is_s16 abuf /\ Z.of_nat (length abuf) < 2 ^ 31) ->
  song_in_limits song ->
  (forall ch row : nat,
     Z.of_nat ch < num_channels song -> Z.of_nat row < num_rows song ->
     is_Some (cell_at song ch row)) ->
  (exists e : wav_export,
     save_song_to_wav song filename = Some e /\
     returned e =
       if malloc_ok (wrap_u32 (total_samples song * 2) * 2)
          && SDL_Init_ok && Mix_OpenAudio_ok && fopen_ok filename
       then 1 else 0) /\
  forall current_row : Z, 0 <= current_row < total_rows song ->
    let note_duration := get_note_duration_ms song in
    let start_sample :=
      wrap_u32 (Z.quot (wrap_int (wrap_int (current_row * note_duration) * SAMPLE_RATE))
                       1000) in
    let row_samples := wrap_u32 (Z.quot (wrap_int (note_duration * SAMPLE_RATE)) 1000) in
    forall i : Z, 0 <= i < row_samples ->
      let dest_idx := wrap_u32 ((start_sample + i) * 2) in
      0 <= dest_idx /\ dest_idx + 1 < wrap_u32 (total_samples song * 2).
Proof.
  intros Hchunks Hlim Hgrid. split.
  - exact (save_song_to_wav_defined Hchunks song Hlim Hgrid filename).
  - intros current_row Hrow. cbv zeta.
    exact (proj2 (row_lies_in_main_buffer song Hlim current_row Hrow)).
Qed.

(** X16.  In binary64 the sample voice is free of undefined behaviour
    on a platform whose chunks are 16-bit samples, for a record whose
    duration is at most 2^19 ms and whose pitch ratio is finite and at
    least 2^-11 in magnitude: [play_sample_thread] returns, the
    resampler having stayed inside the chunk and the play duration
    [duration_ms / pitch_ratio] being a value that fits an [int]. *)
Theorem sample_voice_is_defined {P : Platform} (data : SampleThreadData float) :
  (forall (name : string) (abuf : list Z),
     Mix_LoadWAV name = Some abuf ->
     Forall is_s16 abuf /\ Z.of_nat (length abuf) < 2 ^ 31) ->
  Z.abs (sd_duration_ms data) <= 2 ^ 19 ->
  b64_finite (sd_pitch_ratio data) = true ->
  (1 # 2048 <= Qabs (B2Q (sd_pitch_ratio data)))%Q ->
  is_Some (play_sample_thread data).
Proof.
  intros Hchunks Hd Hf Hr. exact (play_sample_thread_defined Hchunks data Hd Hf Hr).
Qed.

Lemma studio_chunks (name : string) (abuf : list Z) :
  @Mix_LoadWAV studio name = Some abuf ->
  Forall is_s16 abuf /\ Z.of_nat (length abuf) < 2 ^ 31.
Proof.
  cbn [Mix_LoadWAV studio]. destruct (String.eqb name "kick.wav"); [| discriminate].
  intros [= <-]. split; [| cbn; lia].
  repeat constructor; unfold is_s16; lia.
Qed.

Lemma export_is_defined_witness :
  exists e : wav_export,
    save_song_to_wav (P := studio) (L := square_libm) (initial_song (DA := binary64)) "song.wav" = Some e /\
    returned e = 1.
Proof.
  destruct (export_is_defined (P := studio) (L := square_libm) (initial_song (DA := binary64)) "song.wav")
    as [(e & He & Hret) _].
  - exact studio_chunks.
  - unfold song_in_limits, loop_window_ok, MAX_ROWS.
    change (num_rows (initial_song (DA := binary64))) with 16.
    change (bpm (initial_song (DA := binary64))) with 120.
    change (loop_enabled (initial_song (DA := binary64))) with 0. lia.
  - intros ch row Hch Hrow. rewrite initial_song_grid by assumption. eauto.
  - exists e. split; [exact He | exact Hret].
Defined.

Lemma sample_voice_is_defined_witness :
  is_Some (play_sample_thread (P := studio)
             (mkSampleThreadData "kick.wav" 60 67 2 125 (1.5)%float 1)) /\
  play_sample_thread (P := studio)
    (mkSampleThreadData "kick.wav" 60 67 2 125 0%float 1) = None.
Proof.
  split; [| vm_compute; reflexivity].
  apply (sample_voice_is_defined (P := studio)).
  - exact studio_chunks.
  - cbn. lia.
  - reflexivity.
  - vm_compute. discriminate.
Defined.


(** * The tone voices (binary64) *)

Section B64Bounded.
Local Open Scope Q_scope.

(** A product of two bounded values is finite and bounded. *)
Lemma b64_mul_bounded (x y : float) (bx bY b : Q) :
  b64_finite x = true -> b64_finite y = true ->
  - bx <= B2Q x -> B2Q x <= bx -> - bY <= B2Q y -> B2Q y <= bY ->
  bx * bY <= b -> b <= 18446744073709551615 ->
  b64_finite (x * y) = true /\
  - (2 * b + 1) <= B2Q (x * y)%float /\ B2Q (x * y)%float <= 2 * b + 1.
Proof.
  intros Fx Fy Xl Xu Yl Yu Hb Hbig.
  assert (Hbx : 0 <= bx) by lra. assert (HbY : 0 <= bY) by lra.
  assert (Hv : - b <= B2Q x * B2Q y /\ B2Q x * B2Q y <= b).
  { set (X := B2Q x) in *. set (Y := B2Q y) in *. split; nra. }
  destruct Hv as [Hvl Hvu].
  assert (R : b64_rounded (x * y) (B2Q x * B2Q y)).
  { apply (b64_mul_correct _ _ Fx Fy). apply (b64_no_overflow _ b); lra. }
  destruct (b64_rounded_err _ _ b (b + 1) R) as (F & Lo & Hi); [lra | lra | | ].
  - assert (b * (1 # 9007199254740992) <= b) by lra.
    assert ((1 # 1267650600228229401496703205376) <= 1) by (vm_compute; discriminate).
    lra.
  - split; [exact F|]. split; lra.
Qed.

(** A quotient by a finite divisor of at least 1 is finite and bounded. *)
Lemma b64_div_bounded (x y : float) (m : positive) (e : Z) (b : Q) :
  b64_finite x = true -> Prim2SF y = S754_finite false m e -> 1 <= B2Q y ->
  - b <= B2Q x -> B2Q x <= b -> b <= 18446744073709551615 ->
  b64_finite (x / y) = true /\
  - (2 * b + 1) <= B2Q (x / y)%float /\ B2Q (x / y)%float <= 2 * b + 1.
Proof.
  intros Fx Hy Y1 Xl Xu Hbig.
  assert (Hb : 0 <= b) by lra.
  assert (Hv : - b <= B2Q x / B2Q y /\ B2Q x / B2Q y <= b).
  { set (X := B2Q x) in *. set (Y := B2Q y) in *.
    assert (Hi : 0 < / Y) by (apply Qinv_lt_0_compat; lra).
    assert (Hi1 : / Y <= 1).
    { assert (E : Y * / Y == 1) by (apply Qmult_inv_r; lra). nra. }
    unfold Qdiv. split; nra. }
  destruct Hv as [Hvl Hvu].
  assert (R : b64_rounded (x / y) (B2Q x / B2Q y)).
  { apply (b64_div_correct _ _ false m e Fx Hy). apply (b64_no_overflow _ b); lra. }
  destruct (b64_rounded_err _ _ b (b + 1) R) as (F & Lo & Hi); [lra | lra | | ].
  - assert (b * (1 # 9007199254740992) <= b) by lra.
    assert ((1 # 1267650600228229401496703205376) <= 1) by (vm_compute; discriminate).
    lra.
  - split; [exact F|]. split; lra.
Qed.

(** The integer part of a finite value strictly between two integers. *)
Lemma b64_to_int_range (x : float) (lo hi : Z) :
  b64_finite x = true -> (lo <= 0 <= hi)%Z ->
  inject_Z lo - 1 < B2Q x -> B2Q x < inject_Z hi + 1 ->
  (lo <= b64_to_int x <= hi)%Z.
Proof. intros F H0 Hl Hu. unfold b64_to_int. apply SFtrunc_range; assumption. Qed.

End B64Bounded.

Section ToneRange.
Context {P : Platform} {L : Libm float}.
Local Open Scope Q_scope.

(** What is asked of [sin]: a finite value within [-1, 1] for a finite
    argument. *)
Hypothesis sin_bounded :
  forall x : float, b64_finite x = true ->
    b64_finite (libm_sin x) = true /\ -1 <= B2Q (libm_sin x) /\ B2Q (libm_sin x) <= 1.

Lemma two_pi_bounded :
  b64_finite (d_mul (d_lit 2) d_M_PI) = true /\
  -7 <= B2Q (d_mul (d_lit 2) d_M_PI) /\ B2Q (d_mul (d_lit 2) d_M_PI) <= 7.
Proof. split; [reflexivity|]. split; vm_compute; discriminate. Qed.

Lemma sample_rate_divisor :
  Prim2SF (d_of_int SAMPLE_RATE) = S754_finite false 6061057848115200 (-37) /\
  1 <= B2Q (d_of_int SAMPLE_RATE).
Proof. split; [reflexivity | vm_compute; discriminate]. Qed.

(** The argument of [sin] is finite for every sample index and every
    frequency up to 2^20 Hz. *)
Lemma sine_argument_finite (freq : float) (i : Z) :
  b64_finite freq = true -> - 1048576 <= B2Q freq -> B2Q freq <= 1048576 ->
  (0 <= i < 2 ^ 32)%Z ->
  b64_finite (d_div (d_mul (d_mul (d_mul (d_lit 2) d_M_PI) freq) (d_of_int i))
                    (d_of_int SAMPLE_RATE)) = true.
Proof.
  intros Ff Fl Fu Hi.
  destruct two_pi_bounded as (Cf & Cl & Cu).
  set (c := d_mul (d_lit 2) d_M_PI) in *.
  destruct (b64_mul_bounded c freq 7 1048576 7340032 Cf Ff Cl Cu Fl Fu)
    as (X1f & X1l & X1u); [lra | lra |].
  change (d_mul c freq) with (c * freq)%float.
  set (x1 := (c * freq)%float) in *.
  destruct (b64_of_int_spec i) as (If & Iv & _); [lia|].
  assert (Ib : -4294967296 <= B2Q (b64_of_int i) /\ B2Q (b64_of_int i) <= 4294967296).
  { rewrite Iv. change (-4294967296) with (inject_Z (-4294967296)).
    change 4294967296 with (inject_Z 4294967296).
    rewrite <- !Zle_Qle. lia. }
  destruct Ib as [Il Iu].
  destruct (b64_mul_bounded x1 (b64_of_int i) 14680065 4294967296
              63050399078154240 X1f If) as (X2f & X2l & X2u); try lra.
  change (d_mul x1 (d_of_int i)) with (x1 * b64_of_int i)%float.
  set (x2 := (x1 * b64_of_int i)%float) in *.
  destruct sample_rate_divisor as [Hd Hd1].
  destruct (b64_div_bounded x2 (d_of_int SAMPLE_RATE) _ _ 126100798156308481 X2f Hd Hd1)
    as (X3f & _); try lra.
  exact X3f.
Qed.

(** [32767 * sin(...)] keeps its integer part within the 16 bits. *)
Lemma full_scale_sample (x : float) :
  b64_finite x = true ->
  (-32767 <= wrap_s16 (d_to_int (d_mul (d_lit 32767) (libm_sin x))) <= 32767)%Z.
Proof.
  intros Fx. destruct (sin_bounded x Fx) as (Sf & Sl & Su).
  destruct (b64_of_int_spec 32767) as (Af & Av & _); [lia|].
  assert (E : B2Q (b64_of_int 32767) * B2Q (libm_sin x) == 32767 * B2Q (libm_sin x)).
  { rewrite Av. reflexivity. }
  assert (R : b64_rounded (b64_of_int 32767 * libm_sin x) (32767 * B2Q (libm_sin x))).
  { apply (b64_rounded_comp _ _ _ E). apply (b64_mul_correct _ _ Af Sf).
    rewrite E. apply (b64_no_overflow _ 32767); nra. }
  destruct (b64_rounded_err _ _ 32767 (1 # 2) R) as (F & Lo & Hi);
    [nra | nra | vm_compute; discriminate |].
  change (d_mul (d_lit 32767) (libm_sin x)) with (b64_of_int 32767 * libm_sin x)%float.
  change (d_to_int (b64_of_int 32767 * libm_sin x)%float)
    with (b64_to_int (b64_of_int 32767 * libm_sin x)%float).
  assert (Hr : (-32767 <= b64_to_int (b64_of_int 32767 * libm_sin x) <= 32767)%Z).
  { apply b64_to_int_range; [exact F | lia | |].
    - change (inject_Z (-32767)) with (-32767). nra.
    - change (inject_Z 32767) with 32767. nra. }
  rewrite wrap_s16_small by (unfold is_s16; lia). exact Hr.
Qed.

End ToneRange.

Section ToneTheorems.
Context {P : Platform} {L : Libm float}.
Local Open Scope Q_scope.

Hypothesis sin_bounded :
  forall x : float, b64_finite x = true ->
    b64_finite (libm_sin x) = true /\ -1 <= B2Q (libm_sin x) /\ B2Q (libm_sin x) <= 1.

(** What is asked of [pow]: 2^y is finite and at most 32 for y in
    [-6, 5]. *)
Hypothesis pow_bounded :
  forall y : float, b64_finite y = true -> -6 <= B2Q y -> B2Q y <= 5 ->
    b64_finite (libm_pow (d_lit 2) y) = true /\
    0 <= B2Q (libm_pow (d_lit 2) y) /\ B2Q (libm_pow (d_lit 2) y) <= 32.

(** [440.0 * pow(2, (note - 69) / 12.0)] for a MIDI note. *)
Lemma note_frequency_bounded (c_note : Z) :
  (1 <= c_note <= 127)%Z ->
  let freq := d_mul (d_lit 440)
                (libm_pow (d_lit 2) (d_div (d_of_int (wrap_int (c_note - 69))) (d_lit 12))) in
  b64_finite freq = true /\ - 1048576 <= B2Q freq /\ B2Q freq <= 1048576.
Proof.
  intros Hn. cbv zeta.
  rewrite wrap_int_small by (unfold is_int, INT_MIN, INT_MAX; lia).
  destruct (b64_of_int_spec (c_note - 69)) as (Nf & Nv & _); [lia|].
  assert (Hd : Prim2SF (d_lit 12) = S754_finite false 6755399441055744 (-49))
    by reflexivity.
  assert (Hd12 : B2Q (d_lit 12) == 12) by (vm_compute; reflexivity).
  assert (Nb : -68 <= inject_Z (c_note - 69) /\ inject_Z (c_note - 69) <= 58).
  { change (-68) with (inject_Z (-68)). change 58 with (inject_Z 58).
    rewrite <- !Zle_Qle. lia. }
  assert (E : B2Q (b64_of_int (c_note - 69)) / B2Q (d_lit 12)
              == inject_Z (c_note - 69) / 12).
  { rewrite Nv, Hd12. reflexivity. }
  assert (Vb : -6 + (1 # 4) <= inject_Z (c_note - 69) / 12 /\
               inject_Z (c_note - 69) / 12 <= 5 - (1 # 10)).
  { destruct Nb. split.
    - apply Qle_shift_div_l; [reflexivity | lra].
    - apply Qle_shift_div_r; [reflexivity | lra]. }
  assert (R : b64_rounded (b64_of_int (c_note - 69) / d_lit 12)
                (inject_Z (c_note - 69) / 12)).
  { apply (b64_rounded_comp _ _ _ E).
    apply (b64_div_correct _ _ false _ _ Nf Hd).
    rewrite E. apply (b64_no_overflow _ 6); lra. }
  destruct (b64_rounded_err _ _ 6 (1 # 100) R) as (Yf & Yl & Yu);
    [lra | lra | vm_compute; discriminate |].
  change (d_div (d_of_int (c_note - 69)) (d_lit 12))
    with (b64_of_int (c_note - 69) / d_lit 12)%float.
  set (y := (b64_of_int (c_note - 69) / d_lit 12)%float) in *.
  destruct (pow_bounded y Yf) as (Pf & Pl & Pu); [lra | lra |].
  destruct (b64_of_int_spec 440) as (Af & Av & _); [lia|].
  change (inject_Z 440) with 440 in Av.
  destruct (b64_mul_bounded (b64_of_int 440) (libm_pow (d_lit 2) y) 440 32 14080 Af Pf)
    as (Ff & Fl & Fu); try lra.
  change (d_mul (d_lit 440) (libm_pow (d_lit 2) y))
    with (b64_of_int 440 * libm_pow (d_lit 2) y)%float.
  split; [exact Ff|]. split; lra.
Qed.

(** The factor [32767 * 0.3] of the export. *)
Lemma export_scale_bounded :
  b64_finite (d_mul (d_lit 32767) d_0_3) = true /\
  -9831 + (1 # 2) <= B2Q (d_mul (d_lit 32767) d_0_3) /\
  B2Q (d_mul (d_lit 32767) d_0_3) <= 9831 - (1 # 2).
Proof. split; [reflexivity|]. split; vm_compute; discriminate. Qed.

Lemma export_scale_sample (x : float) :
  b64_finite x = true ->
  (-9830 <= wrap_s16 (d_to_int (d_mul (d_mul (d_lit 32767) d_0_3) (libm_sin x)))
   <= 9830)%Z.
Proof.
  intros Fx. destruct (sin_bounded x Fx) as (Sf & Sl & Su).
  destruct export_scale_bounded as (Cf & Cl & Cu).
  set (c := d_mul (d_lit 32767) d_0_3) in *.
  assert (Hv : - (9831 - (1 # 2)) <= B2Q c * B2Q (libm_sin x) /\
               B2Q c * B2Q (libm_sin x) <= 9831 - (1 # 2)).
  { set (C := B2Q c) in *. set (S := B2Q (libm_sin x)) in *. split; nra. }
  destruct Hv as [Hvl Hvu].
  assert (R : b64_rounded (c * libm_sin x) (B2Q c * B2Q (libm_sin x))).
  { apply (b64_mul_correct _ _ Cf Sf). apply (b64_no_overflow _ 9831); lra. }
  destruct (b64_rounded_err _ _ 9831 (1 # 4) R) as (F & Lo & Hi);
    [lra | lra | vm_compute; discriminate |].
  change (d_mul c (libm_sin x)) with (c * libm_sin x)%float.
  change (d_to_int (c * libm_sin x)%float) with (b64_to_int (c * libm_sin x)%float).
  assert (Hr : (-9830 <= b64_to_int (c * libm_sin x) <= 9830)%Z).
  { apply b64_to_int_range; [exact F | lia | |].
    - change (inject_Z (-9830)) with (-9830). lra.
    - change (inject_Z 9830) with 9830. lra. }
  rewrite wrap_s16_small by (unfold is_s16; lia). exact Hr.
Qed.

Lemma tone_sample_range (c_note : Z) (i : nat) :
  (1 <= c_note <= 127)%Z -> (Z.of_nat i < 2 ^ 32)%Z ->
  (-9830 <= tone_sample c_note i <= 9830)%Z.
Proof.
  intros Hn Hi. unfold tone_sample. cbv zeta.
  destruct (note_frequency_bounded c_note Hn) as (Ff & Fl & Fu).
  apply export_scale_sample.
  apply (sine_argument_finite _ (Z.of_nat i) Ff Fl Fu). lia.
Qed.

Lemma tone_thread_buffer (ok : bool) (data : ToneThreadData) (buffer : list Z) :
  b64_finite (td_freq data) = true ->
  - 1048576 <= B2Q (td_freq data) -> B2Q (td_freq data) <= 1048576 ->
  In (AudioQueued buffer) (snd (play_tone_thread ok data)) ->
  Z.of_nat (length buffer)
    = wrap_u32 (Z.quot (wrap_int (td_duration_ms data * SAMPLE_RATE)) 1000) /\
  Forall (fun v => (-32767 <= v <= 32767)%Z) buffer.
Proof.
  intros Ff Fl Fu. unfold play_tone_thread.
  destruct (_ || _); [intros []|].
  cbv zeta. set (samples := wrap_u32 _).
  destruct (negb (malloc_ok _)); [intros []|].
  destruct (negb ok); [intros []|].
  cbn [snd In]. intros [[= <-] | [[=] | []]].
  assert (Hs : (0 <= samples < 2 ^ 32)%Z).
  { unfold samples, wrap_u32. apply Z.mod_pos_bound. lia. }
  split.
  - rewrite length_map, length_seqZ. lia.
  - apply Forall_forall. intros v Hv. apply list_elem_of_In in Hv.
    apply in_map_iff in Hv. destruct Hv as (i & <- & Hi).
    apply list_elem_of_In, elem_of_seqZ in Hi.
    unfold tone_thread_sample. apply (full_scale_sample sin_bounded).
    apply (sine_argument_finite _ i Ff Fl Fu). lia.
Qed.

End ToneTheorems.

(** X17.  The tone voice that [play_row] starts for a cell with a note
    in 1..127 and no sample file, in binary64 with a [sin] that stays
    within [-1, 1] and a [pow] that gives 2^y at most 32 for y in
    [-6, 5]: the buffer it queues has
    note_duration * 44100 / 1000 samples, and every sample
    (Sint16)(32767 * sin(...)) lies within [-32767, 32767], so the cast
    is defined. *)
Theorem tone_voice_stays_in_range {P : Platform} {L : Libm float}
    (c : Cell float) (note_duration : Z) (SDL_OpenAudioDevice_ok : bool)
    (buffer : list Z) :
  (forall x : float, b64_finite x = true ->
     b64_finite (libm_sin x) = true /\
     (-1 <= B2Q (libm_sin x))%Q /\ (B2Q (libm_sin x) <= 1)%Q) ->
  (forall y : float, b64_finite y = true -> (-6 <= B2Q y)%Q -> (B2Q y <= 5)%Q ->
     b64_finite (libm_pow (d_lit 2) y) = true /\
     (0 <= B2Q (libm_pow (d_lit 2) y))%Q /\ (B2Q (libm_pow (d_lit 2) y) <= 32)%Q) ->
  1 <= note c <= 127 ->
  In (AudioQueued buffer)
     (snd (play_tone_thread SDL_OpenAudioDevice_ok (tone_thread_of_cell c note_duration))) ->
  Z.of_nat (length buffer)
    = wrap_u32 (Z.quot (wrap_int (note_duration * SAMPLE_RATE)) 1000) /\
  Forall (fun v => -32767 <= v <= 32767) buffer.
Proof.
  intros Hsin Hpow Hnote Hq.
  destruct (note_frequency_bounded Hpow (note c) Hnote) as (Ff & Fl & Fu).
  exact (tone_thread_buffer Hsin SDL_OpenAudioDevice_ok
           (tone_thread_of_cell c note_duration) buffer Ff Fl Fu Hq).
Qed.

(** X18.  The tone the export renders for a cell with a note in 1..127
    and no sample file, under the same assumptions on [sin] and [pow]:
    every sample (Sint16)(32767 * 0.3 * sin(...)) lies within
    [-9830, 9830], three tenths of the full scale. *)
Theorem export_tone_stays_in_range {L : Libm float} (c_note : Z) (i : nat) :
  (forall x : float, b64_finite x = true ->
     b64_finite (libm_sin x) = true /\
     (-1 <= B2Q (libm_sin x))%Q /\ (B2Q (libm_sin x) <= 1)%Q) ->
  (forall y : float, b64_finite y = true -> (-6 <= B2Q y)%Q -> (B2Q y <= 5)%Q ->
     b64_finite (libm_pow (d_lit 2) y) = true /\
     (0 <= B2Q (libm_pow (d_lit 2) y))%Q /\ (B2Q (libm_pow (d_lit 2) y) <= 32)%Q) ->
  1 <= c_note <= 127 -> Z.of_nat i < 2 ^ 32 ->
  -9830 <= tone_sample c_note i <= 9830.
Proof.
  intros Hsin Hpow Hnote Hi. exact (tone_sample_range Hsin Hpow c_note i Hnote Hi).
Qed.

Lemma square_libm_sin (x : float) :
  b64_finite x = true ->
  b64_finite (libm_sin (Libm := square_libm) x) = true /\
  (-1 <= B2Q (libm_sin (Libm := square_libm) x))%Q /\
  (B2Q (libm_sin (Libm := square_libm) x) <= 1)%Q.
Proof. intros _. split; [reflexivity|]. split; vm_compute; discriminate. Qed.

Lemma square_libm_pow (y : float) :
  b64_finite y = true -> (-6 <= B2Q y)%Q -> (B2Q y <= 5)%Q ->
  b64_finite (libm_pow (Libm := square_libm) (d_lit 2) y) = true /\
  (0 <= B2Q (libm_pow (Libm := square_libm) (d_lit 2) y))%Q /\
  (B2Q (libm_pow (Libm := square_libm) (d_lit 2) y) <= 32)%Q.
Proof. intros _ _ _. split; [reflexivity|]. split; vm_compute; discriminate. Qed.

Lemma tone_voice_stays_in_range_witness :
  exists buffer : list Z,
    In (AudioQueued buffer)
       (snd (play_tone_thread (P := studio) (L := square_libm) true
               (tone_thread_of_cell (L := square_libm)
                  (mkCell 69 60 2 EmptyString 0 1%float) 2))) /\
    Z.of_nat (length buffer) = 88 /\
    Forall (fun v => -32767 <= v <= 32767) buffer.
Proof.
  eexists. split; [left; reflexivity|].
  apply (tone_voice_stays_in_range (P := studio) (L := square_libm)
           (mkCell 69 60 2 EmptyString 0 1%float) 2 true).
  - exact square_libm_sin.
  - exact square_libm_pow.
  - cbn [note]. lia.
  - left. reflexivity.
Defined.

Lemma export_tone_stays_in_range_witness :
  -9830 <= tone_sample (L := square_libm) 69 7 <= 9830.
Proof.
  apply (export_tone_stays_in_range (L := square_libm) 69 7).
  - exact square_libm_sin.
  - exact square_libm_pow.
  - lia.
  - cbn. lia.
Defined.

(** * The export without a loop *)

Section UnloopedExport.
Context {P : Platform} {L : Libm float}.
Hypothesis chunks_s16 :
  forall (name : string) (abuf : list Z),
    Mix_LoadWAV name = Some abuf ->
    Forall is_s16 abuf /\ Z.of_nat (length abuf) < 2 ^ 31.
Variable song : Song float.
Hypothesis limits : song_in_limits song.
Hypothesis grid :
  forall ch row : nat,
    Z.of_nat ch < num_channels song -> Z.of_nat row < num_rows song ->
    is_Some (cell_at song ch row).
Hypothesis loop_off : loop_enabled song = 0.

Lemma total_rows_unlooped : total_rows song = num_rows song.
Proof. unfold total_rows. rewrite loop_off. reflexivity. Qed.

Lemma render_row_unlooped (current_row : Z) (st : render_state) :
  0 <= current_row < num_rows song -> rs_left_loop st = false ->
  Z.of_nat (length (rs_audio_buffer st)) = total_samples song * 2 ->
  exists audio : list Z,
    render_row song (get_note_duration_ms song) current_row st
    = Some (mkRender (rs_loops_done st) audio
                     (rs_progress st ++ [(current_row, current_row)]) false) /\
    length audio = length (rs_audio_buffer st).
Proof.
  intros Hrow Hin Hlen.
  destruct (render_row_defined chunks_s16 song limits grid current_row st)
    as [st' Hst]; [rewrite total_rows_unlooped; lia | lia | exact Hlen |].
  destruct (render_row_keeps _ _ _ _ _ Hst) as [Hkeep _].
  exists (rs_audio_buffer st'). split; [| exact Hkeep].
  rewrite Hst. f_equal. revert Hst. unfold render_row. rewrite Hin, loop_off.
  destruct (Z.eqb_spec (num_rows song) 0) as [|_]; [lia|].
  change (0 =? 0) with true. cbn [negb andb].
  rewrite Z.rem_small by lia.
  destruct (render_channels _ _ _ _ _ _) as [audio|]; [| discriminate].
  intros [= <-]. reflexivity.
Qed.

Lemma render_rows_unlooped (n : nat) :
  forall (first : Z) (st : render_state),
  0 <= first -> first + Z.of_nat n <= num_rows song -> rs_left_loop st = false ->
  Z.of_nat (length (rs_audio_buffer st)) = total_samples song * 2 ->
  exists audio : list Z,
    render_rows song (get_note_duration_ms song) (seqZ first (Z.of_nat n)) st
    = Some (mkRender (rs_loops_done st) audio
              (rs_progress st ++ map (fun k => (k, k)) (seqZ first (Z.of_nat n))) false).
Proof.
  induction n as [|n IH]; intros first st H0 Hn Hin Hlen.
  - exists (rs_audio_buffer st).
    change (seqZ first (Z.of_nat 0)) with (@nil Z). cbn [render_rows map].
    rewrite app_nil_r. destruct st; cbn in *. rewrite Hin. reflexivity.
  - replace (Z.of_nat (S n)) with (Z.succ (Z.of_nat n)) by lia.
    rewrite seqZ_cons by lia. cbn [render_rows map].
    destruct (render_row_unlooped first st ltac:(lia) Hin Hlen) as (audio1 & -> & Hl1).
    replace (Z.pred (Z.succ (Z.of_nat n))) with (Z.of_nat n) by lia.
    destruct (IH (Z.succ first)
                (mkRender (rs_loops_done st) audio1
                          (rs_progress st ++ [(first, first)]) false))
      as [audio2 ->]; [lia | lia | reflexivity | cbn [rs_audio_buffer]; lia |].
    exists audio2. cbn [rs_loops_done rs_progress]. rewrite <- app_assoc. reflexivity.
Qed.

End UnloopedExport.

(** X19.  Without a loop the export renders every row of the pattern
    once, in order: the progress lines of [save_song_to_wav] are
    (0, 0), (1, 1), ..., (num_rows - 1, num_rows - 1).  In binary64,
    for a song within the limits of the editor whose
    num_channels x num_rows cells lie inside the arrays, so that every
    row is mixed inside the main buffer, on a platform whose chunks are
    16-bit samples and where the main buffer, SDL and the mixer are
    available. *)
Theorem export_renders_rows_in_order {P : Platform} {L : Libm float}
    (song : Song float) (filename : string) :
  (forall (name : string) (abuf : list Z),
     Mix_LoadWAV name = Some abuf ->
     Forall is_s16 abuf /\ Z.of_nat (length abuf) < 2 ^ 31) ->
  song_in_limits song ->
  (forall ch row : nat,
     Z.of_nat ch < num_channels song -> Z.of_nat row < num_rows song ->
     is_Some (cell_at song ch row)) ->
  loop_enabled song = 0 ->
  malloc_ok (wrap_u32 (total_samples song * 2) * 2) = true ->
  SDL_Init_ok = true -> Mix_OpenAudio_ok = true ->
  exists e : wav_export,
    save_song_to_wav song filename = Some e /\
    rendered e = map (fun k => (k, k)) (seqZ 0 (num_rows song)).
Proof.
  intros Hchunks Hlim Hgrid Hoff Hmalloc Hsdl Hmix.
  unfold save_song_to_wav. cbv zeta. rewrite Hmalloc, Hsdl, Hmix. cbn [negb].
  rewrite (total_rows_unlooped song Hoff).
  destruct (total_samples_exact song Hlim) as [_ Hts].
  assert (Hrows : 0 <= num_rows song) by (destruct Hlim as (Hr & _); lia).
  destruct (render_rows_unlooped Hchunks song Hlim Hgrid Hoff
              (Z.to_nat (num_rows song)) 0
              (mkRender 0 (replicate (Z.to_nat (wrap_u32 (total_samples song * 2))) 0)
                        [] false)) as [audio H]; [lia | lia | reflexivity | |].
  - cbn [rs_audio_buffer]. rewrite length_replicate, wrap_u32_small by lia. lia.
  - rewrite Z2Nat.id in H by lia. rewrite H.
    destruct (negb (fopen_ok filename)); eexists; split; reflexivity.
Qed.

Lemma export_renders_rows_in_order_witness :
  exists e : wav_export,
    save_song_to_wav (P := studio) (L := square_libm)
      (a4_song (DA := binary64) (L := square_libm)) "a4.wav" = Some e /\
    rendered e = [(0, 0)].
Proof.
  apply (export_renders_rows_in_order (P := studio) (L := square_libm)
           (a4_song (DA := binary64) (L := square_libm)) "a4.wav").
  - exact studio_chunks.
  - exact (a4_song_in_limits square_libm).
  - intros ch row Hch Hrow.
    change (num_channels (a4_song (DA := binary64) (L := square_libm))) with 1 in Hch.
    change (num_rows (a4_song (DA := binary64) (L := square_libm))) with 1 in Hrow.
    destruct ch as [|ch]; [| lia]. destruct row as [|row]; [| lia].
    cbn. eauto.
  - reflexivity.
  - reflexivity.
  - reflexivity.
  - reflexivity.
Defined.


(** * Loading a song *)

Section LoadSong.
Context {D : Type} {DA : DoubleArith D} {L : Libm D}.

Variable lines : list CellLine.
Variable note_duration : Z.
Variable song0 : Song D.
Variable R : nat.

Local Notation "'loaded_upto'" := (cells_loaded lines note_duration song0 R).

Lemma load_cell_step (ch row : nat) (st : Song D * list CellLine * bool) :
  (row < R)%nat -> is_Some (cell_at song0 ch row) ->
  loaded_upto (ch * R + row)%nat st ->
  exists st' : Song D * list CellLine * bool,
    load_cell note_duration ch row (Some st) = Some st' /\
    loaded_upto (S (ch * R + row)) st'.
Proof.
  intros Hrow Hcell [Hok Hfail]. destruct st as [[song rest] failed]. cbn [fst snd] in *.
  set (n := (ch * R + row)%nat) in *.
  unfold load_cell. cbn [mbind option_bind].
  destruct (le_lt_dec n (length lines)) as [Hn | Hn].
  - destruct (Hok Hn) as (-> & -> & Hc & Hr & Hb & Hls & Hle & Hen & Hcells).
    destruct (drop n lines) as [|line rest'] eqn:Hdrop.
    + (* the file ends here *)
      assert (Hlen : length lines = n).
      { apply (f_equal length) in Hdrop. rewrite length_drop in Hdrop.
        cbn in Hdrop. lia. }
      eexists. split; [reflexivity|].
      split; cbn [fst snd]; [lia | reflexivity].
    + assert (Hline : lines !! n = Some line).
      { rewrite <- (Nat.add_0_r n), <- lookup_drop, Hdrop. reflexivity. }
      assert (Hlen : (n < length lines)%nat).
      { apply lookup_lt_Some in Hline. exact Hline. }
      assert (Hhere : cell_at song ch row = cell_at song0 ch row).
      { rewrite Hcells. fold n. rewrite decide_False by lia. reflexivity. }
      destruct Hcell as [c0 Hc0]. rewrite Hhere, Hc0. cbn [mbind option_bind].
      eexists. split; [reflexivity|].
      split; cbn [fst snd]; [| lia]. intros _.
      split; [reflexivity|]. split.
      { replace (S n) with (n + 1)%nat by lia.
        rewrite <- drop_drop, Hdrop. reflexivity. }
      cbn [alter_cell num_channels num_rows bpm loop_start loop_end loop_enabled].
      split_ands; try assumption.
      intros c1 r1. rewrite cell_at_alter_cell, Hcells.
      destruct (decide (c1 = ch /\ r1 = row)) as [[-> ->]|Hne].
      * fold n. rewrite decide_False by lia. rewrite decide_True by lia.
        rewrite Hline, Hc0.
        cbn [fmap option_fmap option_map]. unfold loaded_cell.
        rewrite guarded_pitch_ratio. reflexivity.
      * destruct (decide ((r1 < R)%nat /\ (c1 * R + r1 < n)%nat)) as [[H1 H2]|Hn1].
        -- rewrite decide_True by lia. reflexivity.
        -- rewrite decide_False; [reflexivity|].
           intros [H1 H2]. apply Hn1. split; [exact H1|].
           assert (c1 * R + r1 <> n)%nat; [| lia].
           intros E. apply Hne. unfold n in E.
           assert (c1 = ch) by nia. split; [assumption | nia].
  - specialize (Hfail Hn). subst failed.
    eexists. split; [reflexivity|].
    split; cbn [fst snd]; [lia | reflexivity].
Qed.

Lemma load_row_loop (ch : nat) (st : Song D * list CellLine * bool) :
  (forall row : nat, (row < R)%nat -> is_Some (cell_at song0 ch row)) ->
  loaded_upto (ch * R)%nat st ->
  exists st' : Song D * list CellLine * bool,
    for_loop (Z.of_nat R) (fun row st => load_cell note_duration ch row st) (Some st)
    = Some st' /\
    loaded_upto (S ch * R)%nat st'.
Proof.
  intros Hcells H.
  replace (S ch * R)%nat with (ch * R + R)%nat by lia.
  apply (for_loop_invariant
           (fun j ost => exists st' : Song D * list CellLine * bool,
              ost = Some st' /\ loaded_upto (ch * R + j)%nat st')).
  - exists st. split; [reflexivity|]. rewrite Nat.add_0_r. exact H.
  - intros j t Hj (st' & -> & Ht).
    replace (ch * R + S j)%nat with (S (ch * R + j)) by lia.
    apply load_cell_step; [exact Hj | apply Hcells; exact Hj | exact Ht].
Qed.

Lemma load_grid_loop (C : nat) (st : Song D * list CellLine * bool) :
  (forall ch row : nat, (ch < C)%nat -> (row < R)%nat -> is_Some (cell_at song0 ch row)) ->
  loaded_upto 0%nat st ->
  exists st' : Song D * list CellLine * bool,
    for_loop (Z.of_nat C) (fun ch st =>
      for_loop (Z.of_nat R) (fun row st => load_cell note_duration ch row st) st)
      (Some st)
    = Some st' /\
    loaded_upto (C * R)%nat st'.
Proof.
  intros Hcells H.
  apply (for_loop_invariant
           (fun i ost => exists st' : Song D * list CellLine * bool,
              ost = Some st' /\ loaded_upto (i * R)%nat st')).
  - exists st. split; [reflexivity | exact H].
  - intros i t Hi (st' & -> & Ht). apply load_row_loop; [| exact Ht].
    intros row Hrow. apply Hcells; assumption.
Qed.

End LoadSong.

Section LoadSongTheorem.
Context {D : Type} {DA : DoubleArith D} {L : Libm D}.

Lemma for_loop_to_nat {S : Type} (n : Z) (body : nat -> S -> S) (s : S) :
  for_loop n body s = for_loop (Z.of_nat (Z.to_nat n)) body s.
Proof. unfold for_loop. rewrite Nat2Z.id. reflexivity. Qed.

Lemma for_loop_ext {S : Type} (n : Z) (body body' : nat -> S -> S) (s : S) :
  (forall i t, body i t = body' i t) -> for_loop n body s = for_loop n body' s.
Proof.
  intros Hb. unfold for_loop. generalize (seq 0 (Z.to_nat n)). intros passes.
  revert s. induction passes as [|i passes IH]; intros s; cbn [fold_left]; [reflexivity|].
  rewrite Hb. apply IH.
Qed.

(** X20.  [load_song] on a file with a complete header whose
    num_channels x num_rows grid lies inside the arrays of the song
    returns, and it returns 1 exactly when the file holds a cell line
    for each cell of the grid.  It then has stored the header, and the
    cells are filled channel by channel: cell (ch, row) gets line
    number ch * num_rows + row of the cell lines, with the row duration
    of the new bpm and the pitch ratio of its two notes; the cells
    outside the grid of the header keep their contents. *)
Theorem load_song_reads_cells_in_order (f : SongFile) (song : Song D)
    (b r c en ls le : Z) :
  sf_bpm f = Some b -> sf_rows f = Some r -> sf_channels f = Some c ->
  sf_loop f = Some (en, ls, le) ->
  let R := Z.to_nat r in
  let C := Z.to_nat c in
  (forall ch row : nat, (ch < C)%nat -> (row < R)%nat -> is_Some (cell_at song ch row)) ->
  exists (song' : Song D) (ret : Z),
    load_song (Some f) song = Some (song', ret) /\
    (ret = 1 <-> (C * R <= length (sf_cells f))%nat) /\
    (ret = 1 ->
       bpm song' = b /\ num_rows song' = r /\ num_channels song' = c /\
       loop_enabled song' = en /\ loop_start song' = ls /\ loop_end song' = le /\
       (forall ch row : nat, (ch < C)%nat -> (row < R)%nat ->
          exists (line : CellLine) (c0 c' : Cell D),
            sf_cells f !! (ch * R + row)%nat = Some line /\
            cell_at song ch row = Some c0 /\
            cell_at song' ch row = Some c' /\
            note c' = cl_note line /\ original_note c' = cl_original_note line /\
            sample c' = cl_sample line /\
            duration_ms c' = get_note_duration_ms song' /\
            pitch_ratio c' = calculate_pitch_ratio (cl_original_note line) (cl_note line) /\
            playing c' = playing c0) /\
       (forall ch row : nat, (C <= ch)%nat \/ (R <= row)%nat ->
          cell_at song' ch row = cell_at song ch row)).
Proof.
  intros Hb Hr Hc Hl R C Hin.
  unfold load_song. rewrite Hb, Hr, Hc, Hl.
  set (song1 := set_loop_end le (set_loop_start ls (set_loop_enabled en
                 (set_num_channels c (set_num_rows r (set_bpm b song)))))).
  change (num_channels song1) with c. change (num_rows song1) with r.
  set (nd := get_note_duration_ms song1).
  rewrite (for_loop_to_nat c).
  assert (Hinner : forall (ch : nat) (st : option (Song D * list CellLine * bool)),
            for_loop r (fun row st => load_cell nd ch row st) st
            = for_loop (Z.of_nat R) (fun row st => load_cell nd ch row st) st).
  { intros ch st. apply for_loop_to_nat. }
  assert (Hloops :
    for_loop (Z.of_nat (Z.to_nat c)) (fun ch st =>
      for_loop r (fun row st => load_cell nd ch row st) st)
      (Some (song1, sf_cells f, false))
    = for_loop (Z.of_nat C) (fun ch st =>
        for_loop (Z.of_nat R) (fun row st => load_cell nd ch row st) st)
        (Some (song1, sf_cells f, false))).
  { apply for_loop_ext. intros ch st. apply Hinner. }
  rewrite Hloops. clear Hloops Hinner.
  destruct (load_grid_loop (sf_cells f) nd song1 R C (song1, sf_cells f, false))
    as (final & -> & Hgrid).
  { intros ch row Hch Hrow.
    change (cell_at song1 ch row) with (cell_at song ch row). apply Hin; assumption. }
  { split; cbn [fst snd]; [| lia]. intros _.
    split; [reflexivity|]. split; [reflexivity|]. split_ands; try reflexivity.
    intros ch row. rewrite decide_False by lia. reflexivity. }
  destruct final as [[song' rest] failed]. cbn [mbind option_bind].
  destruct Hgrid as [Hok Hfail]. cbn [fst snd] in Hok, Hfail.
  eexists. eexists. split; [reflexivity|].
  destruct (le_lt_dec (C * R) (length (sf_cells f))) as [Hn | Hn].
  - destruct (Hok Hn) as (-> & _ & Hch & Hrw & Hbpm & Hls & Hle & Hen & Hcells).
    split; [split; [intros _; exact Hn | reflexivity]|]. intros _.
    assert (Hnd : get_note_duration_ms song' = nd).
    { unfold nd, get_note_duration_ms. rewrite Hbpm. reflexivity. }
    rewrite Hnd. split_ands; try assumption.
    + intros ch row Hch' Hrow.
      assert (Hlt : (ch * R + row < C * R)%nat) by nia.
      assert (Hline : is_Some (sf_cells f !! (ch * R + row)%nat)).
      { apply lookup_lt_is_Some. lia. }
      destruct Hline as [line Hline].
      destruct (Hin ch row Hch' Hrow) as [c0 Hc0].
      exists line, c0. eexists. split; [exact Hline|]. split; [exact Hc0|].
      split.
      { rewrite Hcells, decide_True by lia. rewrite Hline.
        change (cell_at song1 ch row) with (cell_at song ch row). rewrite Hc0.
        reflexivity. }
      cbn [loaded_cell note original_note sample duration_ms pitch_ratio playing].
      split_ands; reflexivity.
    + intros ch row Hout. rewrite Hcells. rewrite decide_False; [reflexivity|].
      intros [H1 H2]. destruct Hout as [Hout | Hout]; [nia | lia].
  - rewrite (Hfail Hn). split; [split; [discriminate | lia] | discriminate].
Qed.

End LoadSongTheorem.

Lemma load_song_reads_cells_in_order_witness :
  exists song' : Song float,
    load_song (DA := binary64) (L := square_libm)
      (Some reversed_loop_file) initial_song = Some (song', 1) /\
    bpm song' = 120 /\
    exists c' : Cell float, cell_at song' 7 15 = Some c' /\ note c' = 0 /\
      sample c' = "-"%string.
Proof.
  destruct (load_song_reads_cells_in_order (DA := binary64) (L := square_libm)
              reversed_loop_file initial_song 120 16 8 1 5 2
              eq_refl eq_refl eq_refl eq_refl) as (song' & ret & Hload & Hret & Hfields).
  - intros ch row Hch Hrow. rewrite initial_song_grid; [eauto | |];
      [change (num_channels (initial_song (DA := binary64))) with 8
      | change (num_rows (initial_song (DA := binary64))) with 16];
      change (Z.to_nat 8) with 8%nat in Hch; change (Z.to_nat 16) with 16%nat in Hrow;
      lia.
  - assert (H1 : ret = 1) by (apply Hret; cbn; lia).
    subst ret. exists song'. split; [exact Hload|].
    destruct (Hfields eq_refl) as (Hbpm & _ & _ & _ & _ & _ & Hcells & _).
    split; [exact Hbpm|].
    destruct (Hcells 7%nat 15%nat) as (line & c0 & c' & Hline & _ & Hc' & Hn & _ & Hs & _).
    + change (Z.to_nat 8) with 8%nat. lia.
    + change (Z.to_nat 16) with 16%nat. lia.
    + exists c'. split; [exact Hc'|].
      assert (line = mkCellLine 0 60 "---" "-") as ->
        by (vm_compute in Hline; congruence).
      split; [exact Hn | exact Hs].
Defined.

(** ** The text of a song file *)

Section TextStreams.

Lemma append_assoc (a b c : string) : ((a ++ b) ++ c = a ++ (b ++ c))%string.
Proof. induction a as [|x a IH]; cbn; [reflexivity|]. rewrite IH. reflexivity. Qed.

Lemma append_nil_r (a : string) : (a ++ "" = a)%string.
Proof. induction a as [|x a IH]; cbn; [reflexivity|]. rewrite IH. reflexivity. Qed.

Lemma append_length (a b : string) :
  String.length (a ++ b) = (String.length a + String.length b)%nat.
Proof. induction a as [|x a IH]; cbn; [reflexivity|]. rewrite IH. reflexivity. Qed.

Lemma all_chars_app (p : ascii -> bool) (a b : string) :
  all_chars p (a ++ b) = all_chars p a && all_chars p b.
Proof.
  induction a as [|x a IH]; cbn; [reflexivity|]. rewrite IH, andb_assoc. reflexivity.
Qed.

Lemma all_chars_impl (p q : ascii -> bool) (s : string) :
  (forall c, p c = true -> q c = true) -> all_chars p s = true -> all_chars q s = true.
Proof.
  intros Hpq. induction s as [|x s IH]; cbn; [reflexivity|].
  intros [Hx Hs]%andb_prop. rewrite (Hpq _ Hx), IH by assumption. reflexivity.
Qed.

(** *** Runs of characters *)

Lemma span_run (p : ascii -> bool) (item rest : string) :
  all_chars p item = true -> starts_with (fun c => negb (p c)) rest = true ->
  span p None (item ++ rest) = (item, rest).
Proof.
  intros Hitem Hrest. induction item as [|x item IH]; cbn.
  - destruct rest as [|y rest]; [reflexivity|]. cbn in Hrest.
    cbn. destruct (p y); [discriminate|reflexivity].
  - cbn in Hitem. apply andb_prop in Hitem as [Hx Hitem].
    rewrite Hx. cbn. rewrite (IH Hitem). reflexivity.
Qed.

Lemma span_run_width (p : ascii -> bool) (w : nat) (item rest : string) :
  all_chars p item = true -> starts_with (fun c => negb (p c)) rest = true ->
  (String.length item <= w)%nat ->
  span p (Some w) (item ++ rest) = (item, rest).
Proof.
  intros Hitem Hrest. revert w. induction item as [|x item IH]; intros w Hw; cbn.
  - destruct rest as [|y rest]; [reflexivity|]. cbn in Hrest.
    destruct (p y) eqn:E; [discriminate|]. destruct w; cbn; rewrite ?E; reflexivity.
  - cbn in Hitem. apply andb_prop in Hitem as [Hx Hitem].
    cbn in Hw. destruct w as [|w]; [lia|].
    rewrite Hx. cbn. rewrite (IH Hitem w) by lia. reflexivity.
Qed.

Lemma skip_space_start (s : string) :
  starts_with (fun c => negb (isspace c)) s = true -> skip_space s = s.
Proof.
  destruct s as [|c s]; cbn; [reflexivity|]. destruct (isspace c); [discriminate|reflexivity].
Qed.

(** *** Decimal numbers *)

Lemma digits_of_uint (u : Decimal.uint) :
  all_chars isdigit (DecimalString.NilEmpty.string_of_uint u) = true.
Proof. induction u; cbn; try reflexivity; assumption. Qed.

Lemma decimal_acc (u : Decimal.uint) (acc : positive) :
  decimal (Zpos acc) (DecimalString.NilEmpty.string_of_uint u)
    = Zpos (Pos.of_uint_acc u acc).
Proof.
  revert acc. induction u; intros acc; cbn [DecimalString.NilEmpty.string_of_uint decimal Pos.of_uint_acc];
    try reflexivity;
    match goal with
    | |- decimal ?a _ = Zpos (Pos.of_uint_acc _ ?b) =>
        replace a with (Zpos b)
          by (match goal with
              | |- context [digit_value ?c] =>
                  let v := eval vm_compute in (digit_value c) in
                  change (digit_value c) with v
              end; lia)
    end; apply IHu.
Qed.

Lemma decimal_of_uint (u : Decimal.uint) :
  decimal 0 (DecimalString.NilEmpty.string_of_uint u) = Z.of_N (Pos.of_uint u).
Proof.
  induction u; cbn [DecimalString.NilEmpty.string_of_uint decimal Pos.of_uint];
    try reflexivity; try exact IHu;
    match goal with
    | |- decimal ?a _ = _ => change a with (Zpos (Z.to_pos a))
    end; rewrite decimal_acc; reflexivity.
Qed.

Lemma decimal_to_uint (p : positive) :
  decimal 0 (DecimalString.NilEmpty.string_of_uint (Pos.to_uint p)) = Zpos p.
Proof. rewrite decimal_of_uint, DecimalPos.Unsigned.of_to. reflexivity. Qed.

(** The digits of a positive number: not empty, no leading zero. *)
Lemma to_uint_head (p : positive) :
  exists c s, DecimalString.NilEmpty.string_of_uint (Pos.to_uint p) = String c s /\
              isdigit c = true /\ c <> "0"%char.
Proof.
  pose proof (DecimalPos.Unsigned.to_of (Pos.to_uint p)) as H.
  rewrite DecimalPos.Unsigned.of_to in H. cbn [N.to_uint] in H.
  pose proof (DecimalPos.Unsigned.to_uint_nonzero p) as Hnz.
  pose proof (DecimalPos.Unsigned.to_uint_nonnil p) as Hnn.
  destruct (Pos.to_uint p) as [|u|u|u|u|u|u|u|u|u|u] eqn:E;
    try (cbn; eexists _, _; split; [reflexivity|split; [reflexivity|discriminate]]).
  - contradiction.
  - exfalso. rewrite DecimalFacts.unorm_D0 in H.
    unfold Decimal.unorm in H.
    destruct (Decimal.nzhead u) eqn:Eu; try discriminate.
    + injection H as H. subst u. congruence.
    + exact (DecimalFacts.nzhead_nonzero _ _ Eu).
Qed.

(** [%d] prints a digit or a minus sign first. *)
Lemma print_int_head (z : Z) :
  exists c s, print_int z = String c s /\ number_char c = true.
Proof.
  unfold print_int. destruct z as [|p|p]; cbn.
  - eexists _, _. split; reflexivity.
  - destruct (to_uint_head p) as (c & s & E & Hc & _).
    destruct (Pos.to_uint p) eqn:Ep;
      try (cbn in E |- *; injection E as <- <-; eexists _, _; split; reflexivity).
    discriminate.
  - eexists _, _. split; reflexivity.
Qed.

Lemma print_int_chars (z : Z) : all_chars number_char (print_int z) = true.
Proof.
  assert (Hu : forall u, all_chars number_char (DecimalString.NilZero.string_of_uint u) = true).
  { intros u. unfold DecimalString.NilZero.string_of_uint.
    destruct u; try reflexivity;
      (eapply all_chars_impl; [|apply digits_of_uint]);
      intros c Hc; unfold number_char; rewrite Hc; reflexivity. }
  unfold print_int. destruct z as [|p|p]; cbn; try apply Hu; reflexivity.
Qed.

End TextStreams.
Section Scanning.

Lemma digit_char (c : ascii) :
  isdigit c = true ->
  isspace c = false /\ Ascii.eqb c "-" = false /\ Ascii.eqb c "+" = false /\
  0 <= digit_value c <= 9 /\ (c <> "0"%char -> 1 <= digit_value c).
Proof.
  destruct c as [[] [] [] [] [] [] [] []]; cbn; intros H; try discriminate;
    (split; [reflexivity|split; [reflexivity|split; [reflexivity|]]]);
    (split; [vm_compute; split; discriminate|]);
    intros Hc; try (vm_compute; discriminate); congruence.
Qed.

Lemma number_char_no_space (c : ascii) : number_char c = true -> isspace c = false.
Proof.
  unfold number_char. intros [H|H]%orb_prop.
  - apply (digit_char c H).
  - apply Ascii.eqb_eq in H. subst c. reflexivity.
Qed.

Lemma number_char_no_newline (c : ascii) :
  number_char c = true -> negb (in_set c nl) = true.
Proof.
  intros H. apply number_char_no_space in H.
  cbn. rewrite orb_false_r. destruct (Ascii.eqb_spec c "010") as [->|]; [discriminate|reflexivity].
Qed.

Lemma no_space_no_newline (c : ascii) :
  negb (isspace c) = true -> negb (in_set c nl) = true.
Proof.
  intros H. cbn. rewrite orb_false_r.
  destruct (Ascii.eqb_spec c "010") as [->|]; [discriminate|reflexivity].
Qed.

Lemma decimal_lower (s : string) (acc : Z) :
  all_chars isdigit s = true -> 0 <= acc ->
  acc * 10 ^ Z.of_nat (String.length s) <= decimal acc s.
Proof.
  revert acc. induction s as [|c s IH]; intros acc Hs Hacc; cbn [decimal String.length].
  - cbn. lia.
  - cbn in Hs. apply andb_prop in Hs as [Hc Hs].
    destruct (digit_char c Hc) as (_ & _ & _ & Hd & _).
    specialize (IH (10 * acc + digit_value c) Hs ltac:(lia)).
    rewrite Nat2Z.inj_succ, Z.pow_succ_r by lia.
    assert (0 < 10 ^ Z.of_nat (String.length s)) by (apply Z.pow_pos_nonneg; lia).
    nia.
Qed.

(** An [int] has at most ten digits. *)
Lemma print_int_length (z : Z) :
  is_int z -> (String.length (print_int z) <= 11)%nat.
Proof.
  intros Hz.
  assert (Hp : forall p, Zpos p <= 2 ^ 31 ->
    (String.length (DecimalString.NilZero.string_of_uint (Pos.to_uint p)) <= 10)%nat).
  { intros p Hp. destruct (to_uint_head p) as (c & s & E & Hc & Hc0).
    replace (DecimalString.NilZero.string_of_uint (Pos.to_uint p))
      with (DecimalString.NilEmpty.string_of_uint (Pos.to_uint p))
      by (destruct (Pos.to_uint p); try reflexivity; discriminate).
    pose proof (decimal_to_uint p) as Hv. pose proof (digits_of_uint (Pos.to_uint p)) as Hd.
    rewrite E in Hv, Hd |- *. cbn in Hd. apply andb_prop in Hd as [_ Hd].
    cbn [decimal] in Hv. destruct (digit_char c Hc) as (_ & _ & _ & Hr & Hone).
    specialize (Hone Hc0).
    pose proof (decimal_lower s (10 * 0 + digit_value c) Hd ltac:(lia)) as Hlow.
    rewrite Hv in Hlow. cbn [String.length].
    destruct (le_lt_dec (String.length s) 9) as [|Hlong]; [lia|exfalso].
    assert (10 ^ 10 <= 10 ^ Z.of_nat (String.length s)) by (apply Z.pow_le_mono_r; lia).
    assert (0 < 10 ^ Z.of_nat (String.length s)) by (apply Z.pow_pos_nonneg; lia).
    change (10 ^ 10) with 10000000000 in *. change (2 ^ 31) with 2147483648 in *. nia. }
  unfold is_int, INT_MIN, INT_MAX in Hz. unfold print_int.
  destruct z as [|p|p]; cbn [Z.to_int DecimalString.NilZero.string_of_int].
  - cbn. lia.
  - specialize (Hp p ltac:(lia)). lia.
  - specialize (Hp p ltac:(lia)). cbn [String.length]. lia.
Qed.

Lemma is_intb_true (z : Z) : is_int z -> is_intb z = true.
Proof. unfold is_int, is_intb. lia. Qed.

(** *** The directives of [fscanf], one at a time *)

Lemma scan_int_step (ds : list directive) (z : Z) (rest : string) (stored : list scanned) :
  is_int z -> starts_with (fun c => negb (isdigit c)) rest = true ->
  scan_directives (DInt :: ds) (print_int z ++ rest) stored
    = scan_directives ds rest (stored ++ [ScannedInt z]).
Proof.
  intros Hz Hrest.
  assert (Hdigits : forall p (negative : bool),
    is_int (if negative then Zneg p else Zpos p) ->
    (let '(digits, unread) :=
       span isdigit None (DecimalString.NilEmpty.string_of_uint (Pos.to_uint p) ++ rest) in
     match digits with
     | EmptyString => Some (scan_end false stored unread)
     | _ =>
         let v := if negative then - decimal 0 digits else decimal 0 digits in
         if is_intb v then scan_directives ds unread (stored ++ [ScannedInt v]) else None
     end) =
    scan_directives ds rest (stored ++ [ScannedInt (if negative then Zneg p else Zpos p)])).
  { intros p negative Hint. rewrite span_run by (auto using digits_of_uint).
    destruct (to_uint_head p) as (c & s & E & _).
    pose proof (decimal_to_uint p) as Hv. rewrite E in Hv |- *. rewrite Hv.
    destruct negative; cbv zeta; change (- Z.pos p) with (Z.neg p);
      rewrite (is_intb_true _ Hint); reflexivity. }
  unfold print_int. destruct z as [|p|p]; cbn [Z.to_int DecimalString.NilZero.string_of_int].
  - cbn [DecimalString.NilZero.string_of_uint DecimalString.NilEmpty.string_of_uint].
    change (scan_directives (DInt :: ds) ("0" ++ rest) stored)
      with (let '(digits, unread) := span isdigit None ("0" ++ rest) in
            match digits with
            | EmptyString => Some (scan_end false stored unread)
            | _ => let v := decimal 0 digits in
                   if is_intb v then scan_directives ds unread (stored ++ [ScannedInt v])
                   else None
            end).
    rewrite (span_run isdigit "0" rest) by auto. reflexivity.
  - replace (DecimalString.NilZero.string_of_uint (Pos.to_uint p))
      with (DecimalString.NilEmpty.string_of_uint (Pos.to_uint p))
      by (pose proof (DecimalPos.Unsigned.to_uint_nonnil p);
          destruct (Pos.to_uint p); try reflexivity; contradiction).
    rewrite <- (Hdigits p false Hz). clear Hdigits.
    destruct (to_uint_head p) as (c & s & E & Hc & _). rewrite E.
    destruct (digit_char c Hc) as (Hsp & Hminus & Hplus & _).
    cbn [scan_directives String.append skip_space]. rewrite Hsp, Hminus, Hplus.
    reflexivity.
  - replace (DecimalString.NilZero.string_of_uint (Pos.to_uint p))
      with (DecimalString.NilEmpty.string_of_uint (Pos.to_uint p))
      by (pose proof (DecimalPos.Unsigned.to_uint_nonnil p);
          destruct (Pos.to_uint p); try reflexivity; contradiction).
    rewrite <- (Hdigits p true Hz). clear Hdigits.
    reflexivity.
Qed.

Lemma scan_string_step (ds : list directive) (w : nat) (name : string)
    (sp : ascii) (rest : string) (stored : list scanned) :
  name <> EmptyString -> all_chars (fun c => negb (isspace c)) name = true ->
  (String.length name <= w)%nat -> isspace sp = true ->
  scan_directives (DString (Some w) :: ds) (name ++ String sp rest) stored
    = scan_directives ds (String sp rest) (stored ++ [ScannedString name]).
Proof.
  intros Hne Hname Hlen Hsp. destruct name as [|c s]; [contradiction|].
  pose proof Hname as Hc. cbn in Hc. apply andb_prop in Hc as [Hc _].
  apply negb_true_iff in Hc.
  cbn [scan_directives String.append skip_space]. rewrite Hc.
  change (String c (s ++ String sp rest)) with (String c s ++ String sp rest)%string.
  rewrite span_run_width; [reflexivity|assumption| |assumption].
  cbn. rewrite Hsp. reflexivity.
Qed.

Lemma scan_except_step (ds : list directive) (w : nat) (set item rest : string)
    (stored : list scanned) :
  item <> EmptyString -> all_chars (fun c => negb (in_set c set)) item = true ->
  (String.length item <= w)%nat ->
  starts_with (fun c => in_set c set) rest = true ->
  scan_directives (DExcept (Some w) set :: ds) (item ++ rest) stored
    = scan_directives ds rest (stored ++ [ScannedString item]).
Proof.
  intros Hne Hitem Hlen Hrest. destruct item as [|c s]; [contradiction|].
  cbn [scan_directives String.append].
  change (String c (s ++ rest)) with (String c s ++ rest)%string.
  rewrite span_run_width; [reflexivity|assumption| |assumption].
  destruct rest as [|y rest]; [reflexivity|]. cbn in Hrest |- *. rewrite Hrest. reflexivity.
Qed.

(** *** Note names *)

Lemma midi_to_note_name_plain (n : Z) : plain_name (midi_to_note_name n) = true.
Proof.
  unfold midi_to_note_name. destruct (_ || _); [reflexivity|].
  destruct (NOTE_NAMES !! Z.to_nat n) as [name|] eqn:E; [|reflexivity].
  cbn [default].
  assert (H : forallb plain_name NOTE_NAMES = true) by (vm_compute; reflexivity).
  rewrite forallb_forall in H. apply H. apply list_elem_of_In.
  exact (list_elem_of_lookup_2 _ _ _ E).
Qed.

End Scanning.
Section ScanningLines.

Lemma scan_nil (input : string) (stored : list scanned) :
  scan_directives [] input stored = Some (scan_end false stored input).
Proof. reflexivity. Qed.

Lemma scan_space_step (ds : list directive) (input : string) (stored : list scanned) :
  scan_directives (DSpace :: ds) input stored = scan_directives ds (skip_space input) stored.
Proof. reflexivity. Qed.

Lemma scan_char_step (ds : list directive) (c : ascii) (rest : string)
    (stored : list scanned) :
  scan_directives (DChar c :: ds) (String c rest) stored = scan_directives ds rest stored.
Proof. cbn [scan_directives]. rewrite Ascii.eqb_refl. reflexivity. Qed.

Lemma skip_space_cons (c : ascii) (rest : string) :
  isspace c = true -> skip_space (String c rest) = skip_space rest.
Proof. intros H. cbn [skip_space]. rewrite H. reflexivity. Qed.

Lemma nl_app (rest : string) : (nl ++ rest)%string = String "010" rest.
Proof. reflexivity. Qed.

Lemma starts_with_impl (p q : ascii -> bool) (s : string) :
  (forall c, p c = true -> q c = true) -> starts_with p s = true -> starts_with q s = true.
Proof. intros Hpq. destruct s as [|c s]; cbn; [reflexivity|]. apply Hpq. Qed.

Lemma starts_with_app (p : ascii -> bool) (a b : string) :
  a <> EmptyString -> all_chars p a = true -> starts_with p (a ++ b) = true.
Proof.
  destruct a as [|c a]; [contradiction|]. cbn. intros _ [H _]%andb_prop. exact H.
Qed.

Lemma starts_print_int (p : ascii -> bool) (z : Z) (rest : string) :
  (forall c, number_char c = true -> p c = true) ->
  starts_with p (print_int z ++ rest) = true.
Proof.
  intros Hp. destruct (print_int_head z) as (c & s & -> & Hc). cbn. apply Hp, Hc.
Qed.

Lemma number_no_space (s : string) :
  starts_with number_char s = true ->
  starts_with (fun c => negb (isspace c)) s = true.
Proof.
  apply starts_with_impl. intros c Hc. rewrite (number_char_no_space c Hc). reflexivity.
Qed.

Lemma skip_space_print_int (z : Z) (rest : string) :
  skip_space (print_int z ++ rest) = (print_int z ++ rest)%string.
Proof.
  apply skip_space_start, starts_print_int.
  intros c Hc. rewrite (number_char_no_space c Hc). reflexivity.
Qed.

Ltac scan_step :=
  first
    [ rewrite scan_char_step
    | rewrite scan_space_step
    | rewrite skip_space_cons by reflexivity
    | rewrite skip_space_print_int
    | rewrite scan_int_step by (first [assumption | reflexivity])
    | rewrite scan_nil ].

(** *** The header lines *)

Lemma fscanf_bpm (b : Z) (rest : string) :
  is_int b -> starts_with (fun c => negb (isspace c)) rest = true ->
  fscanf ("BPM: " ++ print_int b ++ nl ++ rest) ("BPM: %d" ++ nl)
    = Some (mkScan [ScannedInt b] 1 rest).
Proof.
  intros Hb Hrest. unfold fscanf.
  change (parse_format ("BPM: %d" ++ nl))
    with (Some [DChar "B"; DChar "P"; DChar "M"; DChar ":"; DSpace; DInt; DSpace]).
  cbn [mbind option_bind]. rewrite nl_app. cbn [String.append].
  repeat scan_step. rewrite (skip_space_start rest Hrest). reflexivity.
Qed.

Lemma fscanf_rows (r : Z) (rest : string) :
  is_int r -> starts_with (fun c => negb (isspace c)) rest = true ->
  fscanf ("Rows: " ++ print_int r ++ nl ++ rest) ("Rows: %d" ++ nl)
    = Some (mkScan [ScannedInt r] 1 rest).
Proof.
  intros Hr Hrest. unfold fscanf.
  change (parse_format ("Rows: %d" ++ nl))
    with (Some [DChar "R"; DChar "o"; DChar "w"; DChar "s"; DChar ":"; DSpace; DInt; DSpace]).
  cbn [mbind option_bind]. rewrite nl_app. cbn [String.append].
  repeat scan_step. rewrite (skip_space_start rest Hrest). reflexivity.
Qed.

Lemma fscanf_channels (n : Z) (rest : string) :
  is_int n -> starts_with (fun c => negb (isspace c)) rest = true ->
  fscanf ("Channels: " ++ print_int n ++ nl ++ rest) ("Channels: %d" ++ nl)
    = Some (mkScan [ScannedInt n] 1 rest).
Proof.
  intros Hn Hrest. unfold fscanf.
  change (parse_format ("Channels: %d" ++ nl))
    with (Some [DChar "C"; DChar "h"; DChar "a"; DChar "n"; DChar "n"; DChar "e";
                DChar "l"; DChar "s"; DChar ":"; DSpace; DInt; DSpace]).
  cbn [mbind option_bind]. rewrite nl_app. cbn [String.append].
  repeat scan_step. rewrite (skip_space_start rest Hrest). reflexivity.
Qed.

Lemma fscanf_loop (e s l : Z) (rest : string) :
  is_int e -> is_int s -> is_int l ->
  starts_with (fun c => negb (isspace c)) rest = true ->
  fscanf ("Loop: " ++ print_int e ++ " " ++ print_int s ++ " " ++ print_int l ++ nl ++ rest)
         ("Loop: %d %d %d" ++ nl)
    = Some (mkScan [ScannedInt e; ScannedInt s; ScannedInt l] 3 rest).
Proof.
  intros He Hs Hl Hrest. unfold fscanf.
  change (parse_format ("Loop: %d %d %d" ++ nl))
    with (Some [DChar "L"; DChar "o"; DChar "o"; DChar "p"; DChar ":"; DSpace; DInt;
                DSpace; DInt; DSpace; DInt; DSpace]).
  cbn [mbind option_bind]. rewrite nl_app. cbn [String.append].
  repeat scan_step. rewrite (skip_space_start rest Hrest). reflexivity.
Qed.

(** *** The cell lines *)

Lemma cell_format : parse_format ("%d %d %15s %63[^" ++ nl ++ "]" ++ nl) = Some cell_directives.
Proof. reflexivity. Qed.

Section CellLine.
Context {D : Type}.

(** Up to the sample name. *)
Lemma scan_cell_prefix (c : Cell D) (rest : string) :
  is_int (note c) -> is_int (original_note c) ->
  scan_directives cell_directives (cell_prefix c ++ rest) []
    = scan_directives [DExcept (Some 63%nat) nl; DSpace] (skip_space rest)
        [ScannedInt (note c); ScannedInt (original_note c);
         ScannedString (midi_to_note_name (note c))].
Proof.
  intros Hn Ho. unfold cell_directives, cell_prefix.
  rewrite !append_assoc. cbn [String.append].
  repeat scan_step.
  pose proof (midi_to_note_name_plain (note c)) as Hname. unfold plain_name in Hname.
  apply andb_prop in Hname as [[Hlen1 Hlen4]%andb_prop Hchars].
  apply Nat.leb_le in Hlen1, Hlen4.
  assert (Hne : midi_to_note_name (note c) <> EmptyString)
    by (destruct (midi_to_note_name (note c)); [cbn in Hlen1; lia|discriminate]).
  rewrite skip_space_start by (apply starts_with_app; assumption).
  rewrite scan_string_step; [|assumption|assumption|lia|reflexivity].
  repeat scan_step. reflexivity.
Qed.

Lemma cell_prefix_chars (c : Cell D) :
  all_chars (fun k => negb (in_set k nl)) (cell_prefix c) = true /\
  exists k s, cell_prefix c = String k s /\ number_char k = true.
Proof.
  unfold cell_prefix. split.
  - pose proof (midi_to_note_name_plain (note c)) as Hname. unfold plain_name in Hname.
    apply andb_prop in Hname as [_ Hchars].
    rewrite !all_chars_app.
    rewrite (all_chars_impl _ _ _ number_char_no_newline (print_int_chars (note c))).
    rewrite (all_chars_impl _ _ _ number_char_no_newline (print_int_chars (original_note c))).
    rewrite (all_chars_impl _ _ _ no_space_no_newline Hchars). reflexivity.
  - destruct (print_int_head (note c)) as (k & s & -> & Hk).
    eexists _, _. split; [reflexivity|exact Hk].
Qed.

Lemma cell_prefix_length (c : Cell D) :
  is_int (note c) -> is_int (original_note c) ->
  (String.length (cell_prefix c) <= 63)%nat.
Proof.
  intros Hn Ho. unfold cell_prefix. rewrite !append_length.
  pose proof (print_int_length _ Hn). pose proof (print_int_length _ Ho).
  pose proof (midi_to_note_name_plain (note c)) as Hname. unfold plain_name in Hname.
  apply andb_prop in Hname as [[_ Hlen4]%andb_prop _]. apply Nat.leb_le in Hlen4.
  cbn [String.length]. lia.
Qed.

Lemma cell_text_start (c : Cell D) (rest : string) :
  starts_with number_char (cell_text c ++ rest) = true.
Proof.
  unfold cell_text. destruct (cell_prefix_chars c) as (_ & k & s & -> & Hk). exact Hk.
Qed.

Lemma cells_text_start (cs : list (Cell D)) :
  starts_with number_char (cells_text cs) = true.
Proof. destruct cs as [|c cs]; [reflexivity|]. apply cell_text_start. Qed.

(** A line with a sample name is read back whole. *)
Lemma fscanf_cell (c : Cell D) (rest : string) :
  is_int (note c) -> is_int (original_note c) -> sample_name_loads (sample c) = true ->
  starts_with number_char rest = true ->
  fscanf (cell_text c ++ rest) ("%d %d %15s %63[^" ++ nl ++ "]" ++ nl)
    = Some (mkScan [ScannedInt (note c); ScannedInt (original_note c);
                    ScannedString (midi_to_note_name (note c));
                    ScannedString (sample c)] 4 rest).
Proof.
  intros Hn Ho Hs Hrest. unfold fscanf. rewrite cell_format. cbn [mbind option_bind].
  unfold cell_text. rewrite !append_assoc. rewrite scan_cell_prefix by assumption.
  unfold sample_name_loads in Hs. destruct (sample c) as [|k s] eqn:E; [discriminate|].
  apply andb_prop in Hs as [[Hk Hlen]%andb_prop Hchars].
  apply Nat.leb_le in Hlen. rewrite <- E in *.
  rewrite skip_space_start by (rewrite E; exact Hk).
  rewrite scan_except_step.
  - rewrite nl_app. repeat scan_step.
    rewrite (skip_space_start rest (number_no_space _ Hrest)). reflexivity.
  - rewrite E. discriminate.
  - eapply all_chars_impl; [|exact Hchars]. intros x Hx. cbn. rewrite orb_false_r.
    apply andb_prop in Hx as [Hx _]. exact Hx.
  - exact Hlen.
  - reflexivity.
Qed.

(** After a line without sample name the following line is taken for
    the sample name. *)
Lemma fscanf_cell_pair (c c' : Cell D) (rest : string) :
  is_int (note c) -> is_int (original_note c) -> sample c = EmptyString ->
  is_int (note c') -> is_int (original_note c') -> sample c' = EmptyString ->
  starts_with number_char rest = true ->
  fscanf (cell_text c ++ cell_text c' ++ rest) ("%d %d %15s %63[^" ++ nl ++ "]" ++ nl)
    = Some (mkScan [ScannedInt (note c); ScannedInt (original_note c);
                    ScannedString (midi_to_note_name (note c));
                    ScannedString (cell_prefix c')] 4 rest).
Proof.
  intros Hn Ho Hs Hn' Ho' Hs' Hrest. unfold fscanf. rewrite cell_format.
  cbn [mbind option_bind].
  unfold cell_text. rewrite Hs, Hs'. cbn [String.append].
  rewrite !append_assoc. rewrite scan_cell_prefix by assumption.
  rewrite nl_app, skip_space_cons by reflexivity.
  destruct (cell_prefix_chars c') as (Hchars & k & s & E & Hk).
  rewrite skip_space_start by (rewrite E; cbn; rewrite (number_char_no_space k Hk); reflexivity).
  rewrite scan_except_step.
  - rewrite nl_app. repeat scan_step.
    rewrite (skip_space_start rest (number_no_space _ Hrest)). reflexivity.
  - rewrite E. discriminate.
  - exact Hchars.
  - apply cell_prefix_length; assumption.
  - reflexivity.
Qed.

(** The last line, without sample name: three items. *)
Lemma fscanf_cell_last (c : Cell D) :
  is_int (note c) -> is_int (original_note c) -> sample c = EmptyString ->
  fscanf (cell_text c) ("%d %d %15s %63[^" ++ nl ++ "]" ++ nl)
    = Some (mkScan [ScannedInt (note c); ScannedInt (original_note c);
                    ScannedString (midi_to_note_name (note c))] 3 EmptyString).
Proof.
  intros Hn Ho Hs. unfold fscanf. rewrite cell_format. cbn [mbind option_bind].
  unfold cell_text. rewrite Hs. cbn [String.append].
  rewrite scan_cell_prefix by assumption. reflexivity.
Qed.

End CellLine.

Lemma fscanf_cell_eof :
  fscanf EmptyString ("%d %d %15s %63[^" ++ nl ++ "]" ++ nl) = Some (mkScan [] EOF EmptyString).
Proof. reflexivity. Qed.

End ScanningLines.
(** ** Saving and loading a song *)

Section SongFiles.
Context {D : Type} {DA : DoubleArith D} {P : Platform} {L : Libm D}.

(** The two loops visit the cells of the grid in order. *)
Lemma for_loop_grid {S : Type} (C R : Z) (f : nat -> nat -> S -> S) (s : S) :
  for_loop C (fun ch st => for_loop R (fun row st => f ch row st) st) s
    = fold_left (fun st p => f p.1 p.2 st) (grid C R) s.
Proof.
  unfold for_loop, grid. generalize (seq 0 (Z.to_nat C)). intros chs. revert s.
  induction chs as [|ch chs IH]; intros s; cbn [list_prod fold_left]; [reflexivity|].
  rewrite fold_left_app, IH. f_equal.
  generalize (seq 0 (Z.to_nat R)). intros rows. revert s.
  induction rows as [|row rows IHr]; intros s; cbn [map fold_left]; [reflexivity|].
  apply IHr.
Qed.

Lemma elem_of_grid (C R : Z) (ch row : nat) :
  (ch, row) ∈ grid C R <-> Z.of_nat ch < C /\ Z.of_nat row < R.
Proof.
  unfold grid. rewrite list_elem_of_In, in_prod_iff, !in_seq. lia.
Qed.

Lemma NoDup_list_prod {A B : Type} (l1 : list A) (l2 : list B) :
  List.NoDup l1 -> List.NoDup l2 -> List.NoDup (list_prod l1 l2).
Proof.
  intros H1 H2. induction H1 as [|a l1 Ha H1 IH]; cbn [list_prod]; [constructor|].
  apply List.NoDup_app.
  - apply NoDup_map_NoDup_ForallPairs; [|exact H2]. intros x y _ _ E. congruence.
  - exact IH.
  - intros [a' b] Hin1 Hin2. apply in_map_iff in Hin1 as (y & E & _).
    apply in_prod_iff in Hin2 as [Hin2 _]. congruence.
Qed.

Lemma NoDup_grid (C R : Z) : NoDup (grid C R).
Proof.
  unfold grid. apply NoDup_ListNoDup, NoDup_list_prod; apply seq_NoDup.
Qed.

Lemma length_grid (C R : Z) : length (grid C R) = (Z.to_nat C * Z.to_nat R)%nat.
Proof. unfold grid. rewrite length_prod, !length_seq. reflexivity. Qed.

(** The cells of a grid inside the arrays. *)
Lemma grid_cells (song : Song D) (g : list (nat * nat)) :
  (forall p, p ∈ g -> is_Some (cell_at song p.1 p.2)) ->
  exists cs, Forall2 (fun p c => cell_at song p.1 p.2 = Some c) g cs.
Proof.
  induction g as [|p g IH]; intros H.
  - exists []. constructor.
  - destruct (H p ltac:(left)) as [c Hc].
    destruct IH as [cs Hcs]; [intros q Hq; apply H; right; exact Hq|].
    exists (c :: cs). constructor; assumption.
Qed.

(** *** [save_song] *)

Lemma save_cell_text (song : Song D) (ch row : nat) (c : Cell D) (file : string) :
  cell_at song ch row = Some c ->
  save_cell song ch row (Some file) = Some (file ++ cell_text c)%string.
Proof.
  intros Hc. unfold save_cell. cbn [mbind option_bind]. rewrite Hc.
  cbn [mbind option_bind]. unfold fprintf. cbn -[print_int midi_to_note_name].
  unfold cell_text, cell_prefix. rewrite !append_assoc. reflexivity.
Qed.

Lemma save_cells_text (song : Song D) (g : list (nat * nat)) (cs : list (Cell D))
    (file : string) :
  Forall2 (fun p c => cell_at song p.1 p.2 = Some c) g cs ->
  fold_left (fun st p => save_cell song p.1 p.2 st) g (Some file)
    = Some (file ++ cells_text cs)%string.
Proof.
  intros H. revert file. induction H as [|p c g cs Hc _ IH]; intros file; cbn [fold_left cells_text].
  - rewrite append_nil_r. reflexivity.
  - rewrite (save_cell_text _ _ _ _ _ Hc), IH, append_assoc. reflexivity.
Qed.

Lemma save_song_text (song : Song D) (filename : string) (cs : list (Cell D)) :
  fopen_ok filename = true ->
  Forall2 (fun p c => cell_at song p.1 p.2 = Some c) (grid (num_channels song) (num_rows song)) cs ->
  save_song song filename = Some (Some (song_text song cs), 1).
Proof.
  intros Hopen Hcs. unfold save_song. rewrite Hopen. cbn [negb].
  unfold fprintf. cbn -[print_int for_loop].
  rewrite for_loop_grid, (save_cells_text _ _ _ _ Hcs). cbn [mbind option_bind].
  unfold song_text, nl. do 3 f_equal.
  repeat (first [rewrite append_assoc | progress cbn [String.append]]).
  reflexivity.
Qed.

End SongFiles.
Section LoadText.
Context {D : Type} {DA : DoubleArith D} {P : Platform} {L : Libm D}.

Lemma line_of_plain (s : string) :
  all_chars (fun c => negb (Ascii.eqb c "010") && negb (Ascii.eqb c "000")) s = true ->
  line_of s = s.
Proof.
  induction s as [|c s IH]; cbn; [reflexivity|].
  intros [[H1 H2]%andb_prop Hs]%andb_prop.
  apply negb_true_iff in H1, H2. rewrite H1, H2. cbn. rewrite (IH Hs). reflexivity.
Qed.

Lemma same_settings_alter_cell (f : Cell D -> Cell D) (ch row : nat) (song : Song D) :
  same_settings (alter_cell f ch row song) song.
Proof. repeat split. Qed.

Lemma same_settings_trans (a b c : Song D) :
  same_settings a b -> same_settings b c -> same_settings a c.
Proof. unfold same_settings. intuition congruence. Qed.

(** What the filling of lines 1004-1014 leaves in the cell. *)
Lemma filled_cell (nd : Z) (c c0 : Cell D) (smp : string) :
  (let c1 := set_duration_ms nd
               (set_sample smp (set_original_note (original_note c) (set_note (note c) c0))) in
   if (note c1 >? 0) && (original_note c1 >? 0)
   then set_pitch_ratio (calculate_pitch_ratio (original_note c1) (note c1)) c1
   else set_pitch_ratio (d_lit 1) c1)
  = mkCell (note c) (original_note c) nd smp (playing c0)
           (calculate_pitch_ratio (original_note c) (note c)).
Proof.
  cbv zeta. unfold set_pitch_ratio, set_duration_ms, set_sample, set_original_note, set_note.
  cbn [note original_note duration_ms sample playing pitch_ratio].
  unfold calculate_pitch_ratio.
  destruct (Z.gtb_spec (note c) 0), (Z.gtb_spec (original_note c) 0); cbn [andb];
    destruct (Z.leb_spec (original_note c) 0), (Z.leb_spec (note c) 0); cbn [orb];
    try reflexivity; lia.
Qed.

(** A line with a sample name fills its cell. *)
Lemma load_cell_back (nd : Z) (ch row : nat) (song1 : Song D) (c c0 : Cell D)
    (rest : string) :
  cell_at song1 ch row = Some c0 ->
  is_int (note c) -> is_int (original_note c) -> sample_name_loads (sample c) = true ->
  starts_with number_char rest = true ->
  exists song1',
    load_cell_text nd ch row (Some (song1, (cell_text c ++ rest)%string, false))
      = Some (song1', rest, false) /\
    same_settings song1' song1 /\
    forall ch' row',
      cell_at song1' ch' row' =
        if decide (ch' = ch /\ row' = row) then Some (reloaded_cell nd c c0)
        else cell_at song1 ch' row'.
Proof.
  intros Hc0 Hn Ho Hs Hrest. unfold load_cell_text. cbn [mbind option_bind].
  rewrite fscanf_cell by assumption.
  cbn [mbind option_bind scan_stored scan_result scan_unread store_in_cell].
  rewrite Hc0.
  cbn [mbind option_bind scan_stored scan_result scan_unread Z.eqb Pos.eqb negb].
  eexists. split; [reflexivity|]. split.
  - eapply same_settings_trans; apply same_settings_alter_cell.
  - intros ch' row'. rewrite !cell_at_alter_cell.
    destruct (decide (ch' = ch /\ row' = row)) as [[-> ->]|]; [|reflexivity].
    rewrite Hc0. cbn [fmap option_fmap option_map store_ints].
    f_equal. unfold reloaded_cell.
    rewrite <- (filled_cell nd c c0 (sample c)).
    unfold sample_name_loads in Hs. destruct (sample c) as [|k s] eqn:E; [discriminate|].
    apply andb_prop in Hs as [_ Hchars]. rewrite <- E in *.
    rewrite (line_of_plain _ Hchars). reflexivity.
Qed.

Lemma load_cells_back (nd : Z) (src : Song D) (g : list (nat * nat)) (cs : list (Cell D)) :
  NoDup g ->
  Forall2 (fun p c => cell_at src p.1 p.2 = Some c) g cs ->
  Forall (fun c => is_int (note c) /\ is_int (original_note c) /\
                   sample_name_loads (sample c) = true) cs ->
  forall song1,
    (forall p, p ∈ g -> is_Some (cell_at song1 p.1 p.2)) ->
    exists song2,
      fold_left (fun st p => load_cell_text nd p.1 p.2 st) g
                (Some (song1, cells_text cs, false))
        = Some (song2, EmptyString, false) /\
      same_settings song2 song1 /\
      forall ch row,
        cell_at song2 ch row =
          if decide ((ch, row) ∈ g)
          then c ← cell_at src ch row; reloaded_cell nd c <$> cell_at song1 ch row
          else cell_at song1 ch row.
Proof.
  intros Hnd Hcs. revert Hnd.
  induction Hcs as [|[ch row] c g cs Hc Hcs IH]; intros Hnd Hok song1 Hsong1.
  - exists song1. split; [reflexivity|]. split; [repeat split|].
    intros ch row. rewrite decide_False by (apply not_elem_of_nil). reflexivity.
  - apply NoDup_cons in Hnd as [Hnotin Hnd].
    apply Forall_cons in Hok as [(Hn & Ho & Hs) Hok].
    cbn [fst snd] in Hc.
    destruct (Hsong1 (ch, row) (list_elem_of_here _ _)) as [c0 Hc0]. cbn [fst snd] in Hc0.
    cbn [fold_left cells_text fst snd].
    destruct (load_cell_back nd ch row song1 c c0 (cells_text cs) Hc0 Hn Ho Hs
                (cells_text_start cs)) as (song1' & -> & Hset1 & Hcells1).
    destruct (IH Hnd Hok song1') as (song2 & -> & Hset2 & Hcells2).
    { intros [ch' row'] Hp. cbn [fst snd]. rewrite Hcells1.
      destruct (decide _); [eexists; reflexivity|].
      apply (Hsong1 (ch', row')). apply list_elem_of_further. exact Hp. }
    exists song2. split; [reflexivity|]. split; [eapply same_settings_trans; eassumption|].
    intros ch' row'. rewrite Hcells2, !Hcells1.
    destruct (decide ((ch', row') ∈ g)) as [Hin|Hnin].
    + rewrite (decide_True (P := (ch', row') ∈ (ch, row) :: g))
        by (apply list_elem_of_further; exact Hin).
      rewrite (decide_False (P := ch' = ch /\ row' = row)); [reflexivity|].
      intros [-> ->]. contradiction.
    + destruct (decide (ch' = ch /\ row' = row)) as [[-> ->]|Hne].
      * rewrite (decide_True (P := (ch, row) ∈ (ch, row) :: g)) by (apply list_elem_of_here).
        rewrite Hc, Hc0. reflexivity.
      * rewrite (decide_False (P := (ch', row') ∈ (ch, row) :: g)); [reflexivity|].
        intros [E|Hin]%elem_of_cons; [injection E as -> ->; tauto|contradiction].
Qed.

(** Once [load_song] has returned, the loops are over. *)
Lemma load_cells_returned (nd : Z) (g : list (nat * nat)) (song : Song D) (file : string) :
  fold_left (fun st p => load_cell_text nd p.1 p.2 st) g (Some (song, file, true))
    = Some (song, file, true).
Proof. induction g as [|p g IH]; cbn [fold_left]; [reflexivity|]. exact IH. Qed.

(** Lines without sample names are used up two at a time: the cells
    run out of lines. *)
Lemma load_cells_short (nd : Z) (g : list (nat * nat)) :
  forall (cs : list (Cell D)) (song1 : Song D),
    Forall (fun c => is_int (note c) /\ is_int (original_note c) /\
                     sample c = EmptyString) cs ->
    (forall p, p ∈ g -> is_Some (cell_at song1 p.1 p.2)) ->
    (length cs < 2 * length g)%nat ->
    exists song2 file,
      fold_left (fun st p => load_cell_text nd p.1 p.2 st) g
                (Some (song1, cells_text cs, false))
        = Some (song2, file, true) /\
      same_settings song2 song1.
Proof.
  induction g as [|[ch row] g IH]; intros cs song1 Hcs Hsong1 Hlen; [cbn in Hlen; lia|].
  destruct (Hsong1 (ch, row) (list_elem_of_here _ _)) as [c0 Hc0]. cbn [fst snd] in Hc0.
  cbn [fold_left fst snd].
  destruct cs as [|c [|c' cs]].
  - (* the end of the file *)
    unfold load_cell_text at 2. cbn [mbind option_bind cells_text].
    rewrite fscanf_cell_eof.
    cbn [mbind option_bind scan_stored scan_result scan_unread store_in_cell negb].
    change (EOF =? 4) with false. cbn [negb].
    rewrite load_cells_returned. eexists _, _. split; [reflexivity|].
    repeat split.
  - (* one line left *)
    apply Forall_cons in Hcs as [(Hn & Ho & Hs) _].
    unfold load_cell_text at 2. cbn [mbind option_bind cells_text].
    rewrite append_nil_r, fscanf_cell_last by assumption.
    cbn [mbind option_bind scan_stored scan_result scan_unread store_in_cell]. rewrite Hc0.
    cbn [mbind option_bind scan_stored scan_result scan_unread negb Z.eqb Pos.eqb].
    rewrite load_cells_returned. eexists _, _. split; [reflexivity|].
    apply same_settings_alter_cell.
  - (* two lines for one cell *)
    apply Forall_cons in Hcs as [(Hn & Ho & Hs) Hcs].
    apply Forall_cons in Hcs as [(Hn' & Ho' & Hs') Hcs].
    unfold load_cell_text at 2. cbn [mbind option_bind cells_text].
    rewrite fscanf_cell_pair by (auto using cells_text_start).
    cbn [mbind option_bind scan_stored scan_result scan_unread store_in_cell]. rewrite Hc0.
    cbn [mbind option_bind scan_stored scan_result scan_unread negb Z.eqb Pos.eqb].
    match goal with
    | |- context [fold_left _ g (Some (?s, _, false))] =>
        destruct (IH cs s Hcs) as (song2 & file & -> & Hset)
    end.
    + intros [ch' row'] Hp. cbn [fst snd]. rewrite !cell_at_alter_cell.
      destruct (Hsong1 (ch', row') (list_elem_of_further _ _ _ Hp)) as [x Hx]. cbn [fst snd] in Hx.
      rewrite Hx. destruct (decide _); eexists; reflexivity.
    + cbn [length] in Hlen. lia.
    + eexists _, _. split; [reflexivity|].
      eapply same_settings_trans; [exact Hset|].
      eapply same_settings_trans; apply same_settings_alter_cell.
Qed.

End LoadText.
Section SongFileTheorems.
Context {D : Type} {DA : DoubleArith D} {P : Platform} {L : Libm D}.

(** The header of a saved song is read back, and the cell loops start
    on the cell lines. *)
Lemma load_song_header (song song0 : Song D) (cs : list (Cell D)) :
  int_settings song ->
  exists song1,
    same_settings song1 song /\
    (forall ch row, cell_at song1 ch row = cell_at song0 ch row) /\
    load_song_text (Some (song_text song cs)) song0 =
      '(song2, _, returned) ←
         fold_left (fun st p => load_cell_text (get_note_duration_ms song) p.1 p.2 st)
           (grid (num_channels song) (num_rows song))
           (Some (song1, cells_text cs, false));
      Some (song2, if returned : bool then 0 else 1).
Proof.
  intros (Hb & Hr & Hc & He & Hs & Hl).
  exists (set_loop_end (loop_end song)
            (set_loop_start (loop_start song)
               (set_loop_enabled (loop_enabled song)
                  (set_num_channels (num_channels song)
                     (set_num_rows (num_rows song) (set_bpm (bpm song) song0)))))).
  split; [repeat split|]. split; [reflexivity|].
  unfold load_song_text, song_text.
  rewrite (fgets_line 64 "CTracker Song") by (cbn; first [reflexivity | lia]).
  rewrite fscanf_bpm by (first [assumption | reflexivity]).
  cbn [mbind option_bind scan_stored scan_result scan_unread store_ints negb Z.eqb Pos.eqb].
  rewrite fscanf_rows by (first [assumption | reflexivity]).
  cbn [mbind option_bind scan_stored scan_result scan_unread store_ints negb Z.eqb Pos.eqb].
  rewrite fscanf_channels by (first [assumption | reflexivity]).
  cbn [mbind option_bind scan_stored scan_result scan_unread store_ints negb Z.eqb Pos.eqb].
  rewrite fscanf_loop by (first [assumption | apply number_no_space, cells_text_start]).
  cbn [mbind option_bind scan_stored scan_result scan_unread store_ints negb Z.eqb Pos.eqb].
  rewrite for_loop_grid. reflexivity.
Qed.

Lemma grid_cells_of (song : Song D) (Q : Cell D -> Prop) :
  (forall ch row, in_grid song ch row -> exists c, cell_at song ch row = Some c /\ Q c) ->
  exists cs,
    Forall2 (fun p c => cell_at song p.1 p.2 = Some c)
            (grid (num_channels song) (num_rows song)) cs /\
    Forall Q cs.
Proof.
  intros H.
  assert (Hg : forall p, p ∈ grid (num_channels song) (num_rows song) ->
                         exists c, cell_at song p.1 p.2 = Some c /\ Q c).
  { intros [ch row] Hp. apply elem_of_grid in Hp. apply H. exact Hp. }
  clear H. induction (grid (num_channels song) (num_rows song)) as [|p g IH].
  - exists []. split; constructor.
  - destruct (Hg p (list_elem_of_here _ _)) as (c & Hc & Hq).
    destruct IH as (cs & Hcs & HQ); [intros q Hq'; apply Hg, list_elem_of_further, Hq'|].
    exists (c :: cs). split; constructor; assumption.
Qed.

(** X24.  A song whose cells all name a sample is read back from the
    file [save_song] writes: [load_song] returns 1 and has stored the
    settings of the saved song and, in each cell of its grid, the two
    notes and the sample name of the saved cell, with the row duration
    of the saved bpm and the pitch ratio of the two notes; the cells
    outside the grid are not touched. *)
Theorem saved_song_loads_back (song : Song D) (filename : string) :
  fopen_ok filename = true ->
  int_settings song ->
  (forall ch row, in_grid song ch row ->
     exists c, cell_at song ch row = Some c /\
               (is_int (note c) /\ is_int (original_note c) /\
                sample_name_loads (sample c) = true)) ->
  exists text,
    save_song song filename = Some (Some text, 1) /\
    forall song0 : Song D,
      (forall ch row, in_grid song ch row -> is_Some (cell_at song0 ch row)) ->
      exists song',
        load_song_text (Some text) song0 = Some (song', 1) /\
        same_settings song' song /\
        forall ch row,
          cell_at song' ch row =
            if decide (in_grid song ch row)
            then c ← cell_at song ch row;
                 reloaded_cell (get_note_duration_ms song) c <$> cell_at song0 ch row
            else cell_at song0 ch row.
Proof.
  intros Hopen Hints Hcells.
  destruct (grid_cells_of song _ Hcells) as (cs & Hcs & Hok).
  exists (song_text song cs). split; [apply save_song_text; assumption|].
  intros song0 Hsong0.
  destruct (load_song_header song song0 cs Hints) as (song1 & Hset1 & Hcells1 & ->).
  destruct (load_cells_back (get_note_duration_ms song) song _ cs
              (NoDup_grid _ _) Hcs Hok song1) as (song2 & -> & Hset2 & Hcells2).
  { intros [ch row] Hp. cbn [fst snd]. rewrite Hcells1. apply Hsong0.
    apply elem_of_grid in Hp. exact Hp. }
  cbn [mbind option_bind]. exists song2. split; [reflexivity|].
  split; [eapply same_settings_trans; eassumption|].
  intros ch row. rewrite Hcells2, !Hcells1.
  destruct (decide ((ch, row) ∈ grid (num_channels song) (num_rows song))) as [Hin|Hnin];
    [rewrite decide_True by (apply elem_of_grid; exact Hin)
    |rewrite decide_False by (intros Hg; apply Hnin, elem_of_grid; exact Hg)];
    reflexivity.
Qed.

(** X25.  A song that names no sample (it plays tones only), with at
    least one cell, is not read back from the file [save_song] writes.
    Each cell line ends after the note name, [fscanf] takes the next
    line for the sample name, and the lines run out: [load_song]
    returns 0, after it has replaced the settings of the song in
    memory with those of the file. *)
Theorem song_without_samples_does_not_load (song : Song D) (filename : string) :
  fopen_ok filename = true ->
  int_settings song ->
  0 < num_channels song -> 0 < num_rows song ->
  (forall ch row, in_grid song ch row ->
     exists c, cell_at song ch row = Some c /\
               (is_int (note c) /\ is_int (original_note c) /\
                sample c = EmptyString)) ->
  exists text,
    save_song song filename = Some (Some text, 1) /\
    forall song0 : Song D,
      (forall ch row, in_grid song ch row -> is_Some (cell_at song0 ch row)) ->
      exists song',
        load_song_text (Some text) song0 = Some (song', 0) /\
        same_settings song' song.
Proof.
  intros Hopen Hints Hch Hrow Hcells.
  destruct (grid_cells_of song _ Hcells) as (cs & Hcs & Hok).
  exists (song_text song cs). split; [apply save_song_text; assumption|].
  intros song0 Hsong0.
  destruct (load_song_header song song0 cs Hints) as (song1 & Hset1 & Hcells1 & ->).
  destruct (load_cells_short (get_note_duration_ms song)
              (grid (num_channels song) (num_rows song)) cs song1 Hok)
    as (song2 & file & -> & Hset2).
  - intros [ch row] Hp. cbn [fst snd]. rewrite Hcells1. apply Hsong0.
    apply elem_of_grid in Hp. exact Hp.
  - rewrite <- (Forall2_length _ _ _ Hcs), length_grid. nia.
  - cbn [mbind option_bind]. exists song2. split; [reflexivity|].
    eapply same_settings_trans; eassumption.
Qed.

End SongFileTheorems.
Lemma saved_song_loads_back_witness :
  exists text,
    save_song (P := studio) two_sample_song "song.ctrack" = Some (Some text, 1) /\
    forall song0 : Song float,
      (forall ch row, in_grid two_sample_song ch row -> is_Some (cell_at song0 ch row)) ->
      exists song',
        load_song_text (L := square_libm) (Some text) song0 = Some (song', 1) /\
        same_settings song' two_sample_song /\
        forall ch row,
          cell_at song' ch row =
            if decide (in_grid two_sample_song ch row)
            then c ← cell_at two_sample_song ch row;
                 reloaded_cell (L := square_libm)
                   (get_note_duration_ms two_sample_song) c <$> cell_at song0 ch row
            else cell_at song0 ch row.
Proof.
  apply (saved_song_loads_back (P := studio) (L := square_libm) two_sample_song "song.ctrack").
  - reflexivity.
  - repeat split; vm_compute; discriminate.
  - intros ch row [Hch Hrow].
    change (num_channels two_sample_song) with 1 in Hch.
    change (num_rows two_sample_song) with 2 in Hrow.
    destruct ch as [|ch]; [|lia]. destruct row as [|[|row]]; [| |lia].
    + eexists. split; [reflexivity|]. repeat split; vm_compute; discriminate.
    + eexists. split; [reflexivity|]. repeat split; vm_compute; discriminate.
Defined.

Lemma song_without_samples_does_not_load_witness :
  exists text,
    save_song (P := studio) (initial_song (DA := binary64)) "song.ctrack"
      = Some (Some text, 1) /\
    forall song0 : Song float,
      (forall ch row, in_grid (initial_song (DA := binary64)) ch row ->
                      is_Some (cell_at song0 ch row)) ->
      exists song',
        load_song_text (L := square_libm) (Some text) song0 = Some (song', 0) /\
        same_settings song' (initial_song (DA := binary64)).
Proof.
  apply (song_without_samples_does_not_load (P := studio) (L := square_libm)
           (initial_song (DA := binary64)) "song.ctrack").
  - reflexivity.
  - repeat split; vm_compute; discriminate.
  - reflexivity.
  - reflexivity.
  - intros ch row [Hch Hrow]. exists initial_cell.
    split; [apply initial_song_grid; assumption|].
    repeat split; vm_compute; discriminate.
Defined.
Section AnyFile.
Context {D : Type} {DA : DoubleArith D} {P : Platform} {L : Libm D}.

(** *** Field widths *)

Lemma span_length (p : ascii -> bool) (w : nat) (input : string) :
  (String.length (span p (Some w) input).1 <= w)%nat.
Proof.
  revert w. induction input as [|c rest IH]; intros w; cbn [span]; [cbn; lia|].
  destruct w as [|w]; [cbn; lia|]. destruct (p c); [|cbn; lia].
  cbn [fmap option_fmap option_map Nat.pred]. specialize (IH w).
  destruct (span p (Some w) rest) as [item unread]. cbn in IH |- *. lia.
Qed.

Lemma scan_end_stored (input_failure : bool) (stored : list scanned) (unread : string) :
  scan_stored (scan_end input_failure stored unread) = stored.
Proof. reflexivity. Qed.

Lemma Forall_snoc {A : Type} (Q : A -> Prop) (l : list A) (x : A) :
  Forall Q l -> Q x -> Forall Q (l ++ [x]).
Proof. intros Hl Hx. apply Forall_app_2; [exact Hl|]. constructor; [exact Hx|constructor]. Qed.

Lemma scan_fits (n : nat) (ds : list directive) :
  Forall (width_within n) ds ->
  forall (input : string) (stored : list scanned) (r : scan),
    Forall (fits n) stored ->
    scan_directives ds input stored = Some r ->
    Forall (fits n) (scan_stored r).
Proof.
  intros Hds. induction Hds as [|d ds Hd _ IH]; intros input stored r Hst Hr.
  - injection Hr as <-. exact Hst.
  - destruct d as [|c| |w|w set]; cbn [scan_directives] in Hr.
    + exact (IH _ _ _ Hst Hr).
    + destruct input as [|c' rest]; [injection Hr as <-; exact Hst|].
      destruct (Ascii.eqb c c'); [exact (IH _ _ _ Hst Hr)|injection Hr as <-; exact Hst].
    + destruct (skip_space input) as [|c rest]; [injection Hr as <-; exact Hst|].
      destruct (if Ascii.eqb c "-" then (true, rest)
                else if Ascii.eqb c "+" then (false, rest) else (false, String c rest))
        as [negative number].
      destruct (span isdigit None number) as [digits unread].
      destruct digits as [|k digits]; [injection Hr as <-; exact Hst|].
      destruct (is_intb _); [|discriminate].
      refine (IH _ _ _ (Forall_snoc _ _ _ Hst _) Hr). exact I.
    + destruct Hd as (k & -> & Hk).
      destruct (skip_space input) as [|c rest]; [injection Hr as <-; exact Hst|].
      pose proof (span_length (fun c => negb (isspace c)) k (String c rest)) as Hlen.
      destruct (span _ (Some k) (String c rest)) as [item unread]. cbn [fst] in Hlen.
      refine (IH _ _ _ (Forall_snoc _ _ _ Hst _) Hr).
      cbn. lia.
    + destruct Hd as (k & -> & Hk).
      destruct input as [|c rest]; [injection Hr as <-; exact Hst|].
      pose proof (span_length (fun c => negb (in_set c set)) k (String c rest)) as Hlen.
      destruct (span _ (Some k) (String c rest)) as [item unread]. cbn [fst] in Hlen.
      destruct item as [|x item]; [injection Hr as <-; exact Hst|].
      refine (IH _ _ _ (Forall_snoc _ _ _ Hst _) Hr).
      cbn in Hlen |- *. lia.
Qed.

Lemma fscanf_cell_fits (file : string) (r : scan) :
  fscanf file ("%d %d %15s %63[^" ++ nl ++ "]" ++ nl) = Some r ->
  Forall (fits 63) (scan_stored r).
Proof.
  unfold fscanf. rewrite cell_format. cbn [mbind option_bind]. intros Hr.
  refine (scan_fits 63 cell_directives _ file [] r (Forall_nil_2 _) Hr).
  unfold cell_directives. repeat constructor; cbn; eexists; split; try reflexivity; lia.
Qed.

Lemma line_of_length (s : string) : (String.length (line_of s) <= String.length s)%nat.
Proof.
  induction s as [|c s IH]; cbn; [lia|]. destruct (_ || _); cbn; lia.
Qed.

Lemma line_of_idem (s : string) : line_of (line_of s) = line_of s.
Proof.
  induction s as [|c s IH]; cbn; [reflexivity|].
  destruct (Ascii.eqb c "010" || Ascii.eqb c "000") eqn:E; cbn; [reflexivity|].
  rewrite E, IH. reflexivity.
Qed.

(** *** One pass of the cell loop *)

Lemma fill_consistent (nd : Z) (smp : string) (c1 : Cell D) :
  (String.length smp <= 63)%nat ->
  cell_consistent nd
    (let c := set_duration_ms nd (set_sample (line_of smp) c1) in
     if (note c >? 0) && (original_note c >? 0)
     then set_pitch_ratio (calculate_pitch_ratio (original_note c) (note c)) c
     else set_pitch_ratio (d_lit 1) c).
Proof.
  intros Hsmp. pose proof (line_of_length smp). destruct c1 as [n o d s p r].
  cbv zeta. unfold set_pitch_ratio, set_duration_ms, set_sample.
  cbn [note original_note duration_ms sample playing pitch_ratio].
  unfold cell_consistent, calculate_pitch_ratio.
  destruct (Z.gtb_spec n 0), (Z.gtb_spec o 0); cbn [andb];
    cbn [note original_note duration_ms sample playing pitch_ratio];
    destruct (Z.leb_spec o 0), (Z.leb_spec n 0); cbn [orb]; try lia;
    (split; [reflexivity|split; [reflexivity|split; [lia|apply line_of_idem]]]).
Qed.

Lemma load_cell_consistent (nd : Z) (ch row : nat) (song1 s : Song D) (file f : string) :
  load_cell_text nd ch row (Some (song1, file, false)) = Some (s, f, false) ->
  same_settings s song1 /\
  (exists c, cell_at s ch row = Some c /\ cell_consistent nd c) /\
  forall ch' row', ~ (ch' = ch /\ row' = row) -> cell_at s ch' row' = cell_at song1 ch' row'.
Proof.
  unfold load_cell_text. cbn [mbind option_bind].
  destruct (fscanf file _) as [r|] eqn:Er; [|discriminate]. cbn [mbind option_bind].
  pose proof (fscanf_cell_fits _ _ Er) as Hfits.
  destruct (scan_stored r) as [|x1 [|x2 [|[z3|note_str] [|[z4|smp] [|x5 more]]]]];
    cbn [store_in_cell mbind option_bind];
    try (destruct (cell_at song1 ch row); cbn [mbind option_bind];
         destruct (scan_result r =? 4); discriminate);
    try (destruct (scan_result r =? 4); discriminate).
  destruct (cell_at song1 ch row) as [c0|] eqn:Hc0; [|discriminate].
  cbn [mbind option_bind].
  destruct (scan_result r =? 4); cbn [negb]; [|discriminate].
  intros H. injection H as <- <-.
  split; [eapply same_settings_trans; apply same_settings_alter_cell|]. split.
  - rewrite !cell_at_alter_cell, !decide_True, Hc0 by tauto.
    cbn [fmap option_fmap option_map]. eexists. split; [reflexivity|].
    apply Forall_cons in Hfits as [_ Hfits]. apply Forall_cons in Hfits as [_ Hfits].
    apply Forall_cons in Hfits as [_ Hfits]. apply Forall_cons in Hfits as [Hsmp _].
    cbn in Hsmp. exact (fill_consistent nd smp _ Hsmp).
  - intros ch' row' Hne. rewrite !cell_at_alter_cell, !decide_False by exact Hne.
    reflexivity.
Qed.

Lemma load_cells_undefined (nd : Z) (g : list (nat * nat)) :
  fold_left (fun st p => load_cell_text nd p.1 p.2 st) g None = None.
Proof. induction g as [|p g IH]; cbn [fold_left]; [reflexivity|]. exact IH. Qed.

(** *** The cell loops on any text *)

Lemma load_cells_consistent (nd : Z) (g : list (nat * nat)) :
  NoDup g ->
  forall (song1 song2 : Song D) (file file2 : string),
    fold_left (fun st p => load_cell_text nd p.1 p.2 st) g (Some (song1, file, false))
      = Some (song2, file2, false) ->
    same_settings song2 song1 /\
    (forall ch row, (ch, row) ∈ g ->
       exists c, cell_at song2 ch row = Some c /\ cell_consistent nd c) /\
    forall ch row, (ch, row) ∉ g -> cell_at song2 ch row = cell_at song1 ch row.
Proof.
  intros Hnd. induction Hnd as [|[ch row] g Hnotin Hnd IH]; intros song1 song2 file file2 H.
  - cbn in H. injection H as <- <-. split; [repeat split|]. split; [|reflexivity].
    intros ch row Hin. apply not_elem_of_nil in Hin. contradiction.
  - cbn [fold_left fst snd] in H.
    destruct (load_cell_text nd ch row (Some (song1, file, false)))
      as [[[s f] [|]]|] eqn:Estep.
    + rewrite load_cells_returned in H. discriminate.
    + destruct (load_cell_consistent _ _ _ _ _ _ _ Estep) as (Hset1 & (c & Hc & Hcons) & Hother1).
      destruct (IH _ _ _ _ H) as (Hset2 & Hin2 & Hother2).
      split; [eapply same_settings_trans; eassumption|]. split.
      * intros ch' row' [E|Hin]%elem_of_cons.
        -- injection E as -> ->. exists c. rewrite (Hother2 _ _ Hnotin). split; assumption.
        -- apply Hin2, Hin.
      * intros ch' row' Hnin. apply not_elem_of_cons in Hnin as [Hne Hnin].
        rewrite (Hother2 _ _ Hnin). apply Hother1. intros [-> ->]. contradiction.
    + rewrite load_cells_undefined in H. discriminate.
Qed.

Lemma store_ints_cells (fields : list (Z -> Song D -> Song D)) (stored : list scanned)
    (song : Song D) :
  Forall (fun set => forall z s, channels (set z s) = channels s) fields ->
  channels (store_ints fields stored song) = channels song.
Proof.
  intros H. revert stored song. induction H as [|set fields Hset _ IH]; intros stored song.
  - reflexivity.
  - destruct stored as [|[z|x] stored]; cbn [store_ints]; try reflexivity.
    rewrite IH. apply Hset.
Qed.

Lemma cell_at_channels (a b : Song D) (ch row : nat) :
  channels a = channels b -> cell_at a ch row = cell_at b ch row.
Proof. unfold cell_at. intros ->. reflexivity. Qed.

(** X26.  Whatever the file holds, when [load_song] returns 1 every
    cell of the grid of the loaded song is consistent: it has the row
    duration of the loaded bpm, the pitch ratio of its two notes and a
    sample name of at most 63 characters in one line; the cells outside
    the grid are as they were. *)
Theorem loaded_song_is_consistent (text : string) (song0 song' : Song D) :
  load_song_text (Some text) song0 = Some (song', 1) ->
  (forall ch row, in_grid song' ch row ->
     exists c, cell_at song' ch row = Some c /\
               cell_consistent (get_note_duration_ms song') c) /\
  (forall ch row, ~ in_grid song' ch row -> cell_at song' ch row = cell_at song0 ch row).
Proof.
  unfold load_song_text.
  destruct (fgets 64 text) as [[header file]|]; [|set (file := text)].
  all: destruct (fscanf file _) as [r1|]; [|discriminate]; cbn [mbind option_bind];
    destruct (scan_result r1 =? 1); cbn [negb]; [|discriminate];
    destruct (fscanf (scan_unread r1) _) as [r2|]; [|discriminate]; cbn [mbind option_bind];
    destruct (scan_result r2 =? 1); cbn [negb]; [|discriminate];
    destruct (fscanf (scan_unread r2) _) as [r3|]; [|discriminate]; cbn [mbind option_bind];
    destruct (scan_result r3 =? 1); cbn [negb]; [|discriminate];
    destruct (fscanf (scan_unread r3) _) as [r4|]; [|discriminate]; cbn [mbind option_bind];
    destruct (scan_result r4 =? 3); cbn [negb]; [|discriminate];
    set (song1 := store_ints [set_loop_enabled; set_loop_start; set_loop_end] _ _);
    assert (Hch : channels song1 = channels song0)
      by (unfold song1; rewrite !store_ints_cells; [reflexivity|..];
          repeat constructor);
    rewrite for_loop_grid;
    destruct (fold_left _ _ _) as [[[song2 file2] returned]|] eqn:Efold;
      [|discriminate]; cbn [mbind option_bind];
    destruct returned; intros H; [discriminate|]; injection H as <-;
    destruct (load_cells_consistent _ _ (NoDup_grid _ _) _ _ _ _ Efold)
      as ((Hb & Hr & Hc & _) & Hin & Hout);
    (split;
     [intros ch row [Hx Hy];
      replace (get_note_duration_ms song2) with (get_note_duration_ms song1)
        by (unfold get_note_duration_ms; rewrite Hb; reflexivity);
      apply Hin, elem_of_grid; split; [rewrite <- Hc|rewrite <- Hr]; assumption
     |intros ch row Hnot; rewrite Hout;
      [apply cell_at_channels, Hch
      |intros Hg%elem_of_grid; apply Hnot; split; [rewrite Hc|rewrite Hr]; apply Hg]]).
Qed.

End AnyFile.

Lemma loaded_song_is_consistent_witness :
  (forall ch row, in_grid hand_written_song ch row ->
     exists c, cell_at hand_written_song ch row = Some c /\
               cell_consistent (L := square_libm)
                 (get_note_duration_ms hand_written_song) c) /\
  (forall ch row, ~ in_grid hand_written_song ch row ->
     cell_at hand_written_song ch row = cell_at (initial_song (DA := binary64)) ch row).
Proof.
  apply (loaded_song_is_consistent (L := square_libm) hand_written_file).
  vm_compute. reflexivity.
Defined.
Section UncheckedHeader.
Context {D : Type} {DA : DoubleArith D} {P : Platform} {L : Libm D}.

(** With a line for every cell, the loops reach every cell of the grid. *)
Lemma load_cells_outside (nd : Z) (g : list (nat * nat)) :
  forall (cs : list (Cell D)) (song1 : Song D),
    length cs = length g ->
    Forall (fun c => is_int (note c) /\ is_int (original_note c) /\
                     sample_name_loads (sample c) = true) cs ->
    (exists p, p ∈ g /\ cell_at song1 p.1 p.2 = None) ->
    fold_left (fun st p => load_cell_text nd p.1 p.2 st) g
              (Some (song1, cells_text cs, false)) = None.
Proof.
  induction g as [|[ch row] g IH]; intros cs song1 Hlen Hok (q & Hq & Hnone).
  - apply not_elem_of_nil in Hq. contradiction.
  - cbn [fold_left fst snd].
    destruct cs as [|c cs]; [discriminate|].
    apply Forall_cons in Hok as [(Hn & Ho & Hs) Hok]. cbn [cells_text].
    destruct (cell_at song1 ch row) as [c0|] eqn:Hc0.
    + destruct (load_cell_back nd ch row song1 c c0 (cells_text cs) Hc0 Hn Ho Hs
                  (cells_text_start cs)) as (song1' & -> & _ & Hcells1).
      apply IH; [cbn in Hlen; lia|exact Hok|].
      exists q. apply elem_of_cons in Hq as [->|Hq].
      * cbn [fst snd] in Hnone. congruence.
      * split; [exact Hq|]. rewrite Hcells1. destruct (decide _) as [[E1 E2]|]; [|exact Hnone].
        rewrite E1, E2 in Hnone. congruence.
    + unfold load_cell_text at 2. cbn [mbind option_bind].
      rewrite fscanf_cell by (auto using cells_text_start).
      cbn [mbind option_bind scan_stored store_in_cell]. rewrite Hc0.
      cbn [mbind option_bind]. apply load_cells_undefined.
Qed.

(** X27.  [load_song] takes the numbers of rows and channels from the
    header without checking them against the arrays.  When a file
    announces a grid with a cell outside the arrays of the song and
    holds a line for every cell, [load_song] stores through a pointer
    outside the arrays: the behaviour is undefined. *)
Theorem load_song_trusts_the_header (hdr song0 : Song D) (cs : list (Cell D))
    (ch row : nat) :
  int_settings hdr ->
  Z.of_nat (length cs) = num_channels hdr * num_rows hdr ->
  Forall (fun c => is_int (note c) /\ is_int (original_note c) /\
                   sample_name_loads (sample c) = true) cs ->
  in_grid hdr ch row -> cell_at song0 ch row = None ->
  load_song_text (Some (song_text hdr cs)) song0 = None.
Proof.
  intros Hints Hlen Hok [Hch Hrow] Hnone.
  destruct (load_song_header hdr song0 cs Hints) as (song1 & _ & Hcells1 & ->).
  rewrite load_cells_outside; [reflexivity| |exact Hok|].
  - rewrite length_grid. nia.
  - exists (ch, row). split; [apply elem_of_grid; split; assumption|].
    cbn [fst snd]. rewrite Hcells1. exact Hnone.
Qed.

End UncheckedHeader.

Lemma load_song_trusts_the_header_witness :
  load_song_text (L := square_libm)
    (Some (song_text seventeen_rows (replicate 17 kick_cell)))
    (initial_song (DA := binary64)) = None.
Proof.
  apply (load_song_trusts_the_header (L := square_libm) seventeen_rows
           (initial_song (DA := binary64)) (replicate 17 kick_cell) 0 16).
  - repeat split; vm_compute; discriminate.
  - reflexivity.
  - apply Forall_replicate. repeat split; vm_compute; discriminate.
  - split; reflexivity.
  - reflexivity.
Defined.
